(** * simpy4chips: event substrate, queued-request resources and crossbar
    arbitration, embedded from the Python sources.

  Source files embedded here:
  - [simpyExtensions/util.py]      : [NewEvent], the request events
  - [Components/BasicComponent.py] : [ComponentBase.Log]
  - [Components/Buffers.py]        : [Buffer], [CreditBuffer]
  - [Components/Pipelines.py]      : [Pipeline], [FlowControlledPipeline]
  - [Components/Arbiters.py]       : the three deterministic arbiters

  Python objects are mutable and shared, so every method is a state
  transformer over the record of the object it is called on; a raised
  exception keeps the state reached when it was raised. *)

From Stdlib Require Import ZArith String Ascii Lia.
From stdpp Require Import base list strings gmap.

Open Scope Z_scope.

(** ** Python values, exceptions and the outcome monad *)

Module Py.

Inductive exn :=
| RuntimeError (msg : string)
| KeyError (key : Z)
| IndexError
| ValueError
| TypeError
| AttributeError
| NameError (name : string)
| UnboundLocalError (name : string)
| ZeroDivisionError
| EmptySchedule.

(** [Timeout] is only produced by a loop of the model that exhausted its
    fuel; the lemmas named [*_total] show it never shows up. *)
Inductive outcome (S A : Type) :=
| Ret (a : A) (s : S)
| Raise (e : exn) (s : S)
| Timeout.
Arguments Ret {S A} a s.
Arguments Raise {S A} e s.
Arguments Timeout {S A}.

Definition M (S A : Type) : Type := S -> outcome S A.

Definition ret {S A} (a : A) : M S A := fun s => Ret a s.
Definition raise {S A} (e : exn) : M S A := fun s => Raise e s.
Definition bind {S A B} (m : M S A) (k : A -> M S B) : M S B :=
  fun s => match m s with
           | Ret a s' => k a s'
           | Raise e s' => Raise e s'
           | Timeout => Timeout
           end.
Definition gets {S A} (f : S -> A) : M S A := fun s => Ret (f s) s.
Definition modify {S} (f : S -> S) : M S unit := fun s => Ret tt (f s).

(** Running a computation of a sub-object [T] held in a field of [S]. *)
Definition zoom {S T A} (proj : S -> T) (upd : T -> S -> S) (m : M T A) : M S A :=
  fun s => match m (proj s) with
           | Ret a t => Ret a (upd t s)
           | Raise e t => Raise e (upd t s)
           | Timeout => Timeout
           end.

(** An object [T] living in an environment [E] that it shares with the other
    objects of the run: [self] reads the object, [update] assigns to its
    fields, [in_env] runs an operation of the environment. *)
Definition self {E T} : M (E * T) T := fun w => Ret (snd w) w.
Definition the_env {E T} : M (E * T) E := fun w => Ret (fst w) w.
Definition update {E T} (f : T -> T) : M (E * T) unit := fun w => Ret tt (fst w, f (snd w)).
Definition in_env {E T A} (m : M E A) : M (E * T) A :=
  zoom fst (fun e w => (e, snd w)) m.

(** [l[i]] with Python's negative indices. *)
Definition norm_index (n : nat) (i : Z) : option nat :=
  if 0 <=? i
  then (if i <? Z.of_nat n then Some (Z.to_nat i) else None)
  else (if 0 <=? Z.of_nat n + i then Some (Z.to_nat (Z.of_nat n + i)) else None).

Definition getitem {A} (l : list A) (i : Z) : option A :=
  match norm_index (length l) i with
  | Some k => l !! k
  | None => None
  end.

(** [l[i] = x]; [None] stands for the IndexError. *)
Definition setitem {A} (l : list A) (i : Z) (x : A) : option (list A) :=
  match norm_index (length l) i with
  | Some k => Some (<[k := x]> l)
  | None => None
  end.

(** [sub in s] on strings. *)
Fixpoint contains (sub s : string) : bool :=
  String.prefix sub s ||
  match s with
  | EmptyString => false
  | String _ s' => contains sub s'
  end.

(** [a % n] and [math.ceil(a / n)] for a non-zero [n]: Rocq's [Z.modulo] and
    [Z.div] floor like Python's [%] and [//]. *)
Definition ceil_div (a n : Z) : Z := - ((- a) / n).

End Py.

Import Py.

Declare Scope py_scope.
Delimit Scope py_scope with py.
Notation "'let*' x ':=' c 'in' k" := (bind c (fun x => k))
  (at level 10, x pattern, c at level 100, k at level 200) : py_scope.
Notation "c '>>' k" := (bind c (fun _ => k))
(at level 90, right associativity) : py_scope.
Open Scope py_scope.

(** ** The simulation substrate: packets, events and the environment *)

Module Sim.

(** [Packets.BasePacket]. *)
Record packet := Packet { uid : nat; _payloadBytes : Z; _headerBytes : Z }.

Definition getBytes (p : packet) : Z := _payloadBytes p + _headerBytes p.

(** [getTicks] returns [(math.ceil(getBytes()/bytesPerCycle), 0)]: the debt
    of a [BasePacket] is the integer 0. *)
Definition getTicks {S} (p : packet) (bytesPerCycle : Z) : M S (Z * Z) :=
  if bytesPerCycle =? 0 then raise ZeroDivisionError
  else ret (ceil_div (getBytes p) bytesPerCycle, 0).

Inductive pyval :=
| PyNone
| PyInt (z : Z)
| PyPkt (p : packet).

(** Bound methods that the sources append to [callbacks].  The [CB_credit_*]
    are the methods of the [CreditBuffer] of a pipeline; [CB_resume] is a
    process of the caller waiting on the event. *)
Inductive callback :=
| CB_insert_packet
| CB_trigger_put
| CB_trigger_get
| CB_trigger_peek
| CB_remove_packet
| CB_updateTotalWrBits
| CB_updateTotalRdBits
| CB_putReady
| CB_postPutMsg
| CB_updateTotalBitsSent
| CB_increment_credit
| CB_credit_trigger_put
| CB_credit_trigger_get
| CB_credit_trigger_peek
| CB_resume (proc : nat).

(** An event object. [ev_value = None] is simpy's [PENDING]; [ev_callbacks]
    becomes [None] once the environment has processed the event. *)
Record event := Event {
  ev_item : pyval;
  ev_caller : option string;
  ev_value : option pyval;
  ev_ok : bool;
  ev_callbacks : option (list callback)
}.

Inductive level := ERROR | WARNING | INFO | DEBUG.

Record log_entry := LogEntry {
  lg_level : level; lg_time : Z; lg_name : string; lg_msg : string
}.

Abbreviation evid := nat (only parsing).

(** The environment together with the heap of event objects. An event is
    referred to by its position in [events]; [sched] is simpy's queue of
    [(time, priority, eid, event)]. *)
Record sim := MkSim {
  now : Z;
  sched : list (Z * Z * nat * evid);
  eid : nat;
  events : list event;
  logs : list log_entry
}.

Definition empty_sim : sim := MkSim 0 [] 0%nat [] [].

Definition NORMAL : Z := 1.

Definition set_events (f : list event -> list event) (s : sim) : sim :=
  MkSim (now s) (sched s) (eid s) (f (events s)) (logs s).

Definition lookup_event (e : evid) : M sim event :=
  fun s => match events s !! e with
           | Some ev => Ret ev s
           | None => Raise (NameError "event") s
           end.

Definition store_event (e : evid) (ev : event) : M sim unit :=
  modify (set_events (fun evs => <[e := ev]> evs)).

(** [Event.triggered]: [self._value is not PENDING]. *)
Definition triggered (e : evid) (s : sim) : bool :=
  match events s !! e with
  | Some ev => match ev_value ev with Some _ => true | None => false end
  | None => false
  end.

Definition pending (e : evid) (s : sim) : Prop :=
  exists ev, events s !! e = Some ev /\ ev_value ev = None.

(** [NewEvent.__init__]: a fresh pending event with an empty callback list. *)
Definition NewEvent (item : pyval) (caller : option string) : M sim evid :=
  fun s => Ret (length (events s))
               (set_events (fun evs => evs ++ [Event item caller None false (Some [])]) s).

(** Modelled from the spec: [Environment.schedule] belongs to simpy, which is
    not under src/; section 3 has [succeed(value, delay)] schedule the
    transition at [now + delay].  The entry is queued with the next event
    counter, as simpy's heap of [(time, priority, eid, event)] does. *)
Definition schedule (e : evid) (delay : Z) : M sim unit :=
  modify (fun s => MkSim (now s) (sched s ++ [(now s + delay, NORMAL, eid s, e)])
                         (S (eid s)) (events s) (logs s)).

(** [NewEvent.succeed]. *)
Definition succeed (e : evid) (value : pyval) (delay : Z) : M sim unit :=
  let* ev := lookup_event e in
  match ev_value ev with
  | Some _ => raise (RuntimeError "has already been triggered")
  | None =>
      store_event e (Event (ev_item ev) (ev_caller ev) (Some value) true (ev_callbacks ev)) >>
      schedule e delay
  end.

(** [event.callbacks += cbs] (and [append]); a processed event has
    [callbacks = None]. *)
Definition add_callbacks (e : evid) (cbs : list callback) : M sim unit :=
  let* ev := lookup_event e in
  match ev_callbacks ev with
  | None => raise TypeError
  | Some old =>
      store_event e (Event (ev_item ev) (ev_caller ev) (ev_value ev) (ev_ok ev) (Some (old ++ cbs)))
  end.

(** [ComponentBase.Log]. The formatted [fullmsg] is kept as its three
    parts (time, full name, message). *)
Definition emit (l : level) (name msg : string) : M sim unit :=
  modify (fun s => MkSim (now s) (sched s) (eid s) (events s)
                         (logs s ++ [LogEntry l (now s) name msg])).

Definition Log (fullname msgtype msg : string) (infolist : list string) : M sim unit :=
  let displayinfo := true in
  (if String.eqb msgtype "FATAL_ERROR" then emit ERROR fullname msg
   else if String.eqb msgtype "WARNING" then emit WARNING fullname msg
   else if String.eqb msgtype "INFO" then
          (if displayinfo then emit INFO fullname msg else ret tt)
   else if String.eqb msgtype "DEBUG" then emit DEBUG fullname msg
   else raise (RuntimeError "ERROR: Unsupported message type")) >>
  (match infolist with
   | [] => ret tt
   | _ => if displayinfo
          then emit INFO fullname "\tInfodump follows:" >>
               foldr (fun it k => emit INFO fullname it >> k) (ret tt) infolist
          else ret tt
   end) >>
  (if contains "ERRROR" msgtype then raise (RuntimeError msg) else ret tt).

End Sim.

Import Sim.

(** ** The trigger routine shared by every request queue

    [Buffer._trigger_peek], [CreditBuffer._trigger_peek] and
    [Pipeline._trigger_put] are the same loop over a different queue and
    hook:
<<
    idx = 0
    while idx < len(queue):
        ev = queue[idx]
        proceed = hook(ev)
        if not ev.triggered: idx += 1
        elif queue.pop(idx) != ev: raise RuntimeError(violated)
        if not proceed: break
>>
    [hook] returns the truth value of what the Python hook returns ([None]
    is false).  Next to the outcome the loop reports which requests it
    handed to the hook and whether each was triggered when the hook came
    back; this scan is a ghost of the model and is read by no code. *)

Module Trigger.
Section Loop.
Context {St : Type}.
Variable queue : St -> list evid.
Variable set_queue : list evid -> St -> St.
Variable is_triggered : evid -> St -> bool.
Variable hook : evid -> M St bool.
Variable violated : string.

(** [if queue.pop(idx) != ev: raise RuntimeError(violated)] *)
Definition pop_check (idx : nat) (ev : evid) : M St unit :=
  fun st =>
    match queue st !! idx with
    | None => Raise IndexError st
    | Some ev' =>
        let st' := set_queue (delete idx (queue st)) st in
        if Nat.eqb ev' ev then Ret tt st' else Raise (RuntimeError violated) st'
    end.

(** The two branches on [ev.triggered]; the result is the next [idx]. *)
Definition advance (idx : nat) (ev : evid) : M St nat :=
  fun st =>
    if negb (is_triggered ev st) then Ret (S idx) st
    else (pop_check idx ev >> ret idx) st.

Fixpoint loop (fuel : nat) (idx : nat) (st : St) : list (evid * bool) * outcome St unit :=
  match queue st !! idx with
  | None => ([], Ret tt st)
  | Some ev =>
      match fuel with
      | O => ([], Timeout)
      | S fuel' =>
          match hook ev st with
          | Ret proceed st1 =>
              let seen := (ev, is_triggered ev st1) in
              match advance idx ev st1 with
              | Ret idx' st2 =>
                  if proceed
                  then let r := loop fuel' idx' st2 in (seen :: fst r, snd r)
                  else ([seen], Ret tt st2)
              | Raise e st2 => ([seen], Raise e st2)
              | Timeout => ([seen], Timeout)
              end
          | Raise e st1 => ([(ev, is_triggered ev st1)], Raise e st1)
          | Timeout => ([], Timeout)
          end
      end
  end.

(** One pass of the loop either moves [idx] on or shortens the queue, so the
    length of the queue is fuel enough. *)
Definition scan (st : St) : list (evid * bool) * outcome St unit :=
  loop (length (queue st)) 0 st.

End Loop.
End Trigger.

(** ** Buffers.py *)

Module Buffers.

Inductive kind := Plain | FlowControlled | StoreAndForward.

(** Constructor arguments; [simTicksPerCycle] comes from [SimSettings], which
    is not part of the sources, and is kept as a parameter. *)
Record config := Config {
  name : string;
  variant : kind;
  capacity : Z;
  putDelay : Z;
  getDelay : Z;
  putBytesPerCycle : Z;
  getBytesPerCycle : Z;
  simTicksPerCycle : Z
}.

Record stats := Stats {
  totalWrBits : Z;
  totalRdBits : Z;
  lastActivity : Z;
  firstActivity : option Z
}.

(** The fields of a [Buffer] object.  [creditsSent] counts the calls of
    [self.toUp.putCredit()] made by a [FlowControlledBuffer]. *)
Record buffer := Buffer {
  cfg : config;
  items : list pyval;
  put_queue : list evid;
  get_queue : list evid;
  peek_queue : list evid;
  putDebt : Z;
  getDebt : Z;
  stat : stats;
  creditsSent : nat
}.

(** A buffer together with the environment it runs in. *)
Definition world : Type := sim * buffer.

Definition set_items (l : list pyval) (b : buffer) : buffer :=
  Buffer (cfg b) l (put_queue b) (get_queue b) (peek_queue b)
         (putDebt b) (getDebt b) (stat b) (creditsSent b).
Definition set_put_queue (q : list evid) (b : buffer) : buffer :=
  Buffer (cfg b) (items b) q (get_queue b) (peek_queue b)
         (putDebt b) (getDebt b) (stat b) (creditsSent b).
Definition set_get_queue (q : list evid) (b : buffer) : buffer :=
  Buffer (cfg b) (items b) (put_queue b) q (peek_queue b)
         (putDebt b) (getDebt b) (stat b) (creditsSent b).
Definition set_peek_queue (q : list evid) (b : buffer) : buffer :=
  Buffer (cfg b) (items b) (put_queue b) (get_queue b) q
         (putDebt b) (getDebt b) (stat b) (creditsSent b).
Definition set_putDebt (d : Z) (b : buffer) : buffer :=
  Buffer (cfg b) (items b) (put_queue b) (get_queue b) (peek_queue b)
         d (getDebt b) (stat b) (creditsSent b).
Definition set_getDebt (d : Z) (b : buffer) : buffer :=
  Buffer (cfg b) (items b) (put_queue b) (get_queue b) (peek_queue b)
         (putDebt b) d (stat b) (creditsSent b).
Definition set_stat (f : stats -> stats) (b : buffer) : buffer :=
  Buffer (cfg b) (items b) (put_queue b) (get_queue b) (peek_queue b)
         (putDebt b) (getDebt b) (f (stat b)) (creditsSent b).
Definition count_credit (b : buffer) : buffer :=
  Buffer (cfg b) (items b) (put_queue b) (get_queue b) (peek_queue b)
         (putDebt b) (getDebt b) (stat b) (S (creditsSent b)).

(** [Buffer.__init__] *)
Definition init (c : config) : buffer :=
  Buffer c [] [] [] [] 0 0 (Stats 0 0 0 None) 0.

Definition Log (msgtype msg : string) : M world unit :=
  let* b := self in in_env (Sim.Log (name (cfg b)) msgtype msg []).

Definition as_packet (v : pyval) : M world packet :=
  match v with
  | PyPkt p => ret p
  | _ => raise AttributeError
  end.

Definition occupiedSlots (b : buffer) : Z := Z.of_nat (length (items b)).
Definition isFull (b : buffer) : bool := occupiedSlots b =? capacity (cfg b).
Definition isEmpty (b : buffer) : bool := occupiedSlots b =? 0.
Definition availableSlots (b : buffer) : Z := capacity (cfg b) - occupiedSlots b.

(** [addPrePutDelay], with the override of [StoreAndForwardBuffer]. *)
Definition addPrePutDelay (item : pyval) : M world Z :=
  let* b := self in
  match variant (cfg b) with
  | StoreAndForward =>
      let* p := as_packet item in
      let* (ticks, debt) := getTicks p (putBytesPerCycle (cfg b)) in
      let ticks := ticks + (putDebt b + debt) in
      ret ((ticks + putDelay (cfg b)) * simTicksPerCycle (cfg b))
  | _ => ret (putDelay (cfg b) * simTicksPerCycle (cfg b))
  end.

(** [addPostPutDelay], with the override of [StoreAndForwardBuffer]. *)
Definition addPostPutDelay (item : pyval) : M world Z :=
  let* b := self in
  let* p := as_packet item in
  let* (ticks, debt) := getTicks p (putBytesPerCycle (cfg b)) in
  match variant (cfg b) with
  | StoreAndForward => ret ((ticks + putDebt b) * simTicksPerCycle (cfg b))
  | _ => ret ((ticks + (putDebt b + debt)) * simTicksPerCycle (cfg b))
  end.

Definition addPreGetDelay (item : pyval) : M world Z :=
  let* b := self in ret (getDelay (cfg b) * simTicksPerCycle (cfg b)).

Definition addPostGetDelay (item : pyval) : M world Z :=
  let* b := self in
  let* p := as_packet item in
  let* (ticks, debt) := getTicks p (getBytesPerCycle (cfg b)) in
  ret (ticks * simTicksPerCycle (cfg b)).

Definition postPutMsg (item : pyval) : M world unit :=
  let* _ := as_packet item in
  let* _ := addPostPutDelay item in
  Log "INFO" "Started writing packet into the buffer".

Definition postGetMsg (item : pyval) : M world unit :=
  let* _ := as_packet item in
  let* _ := addPostGetDelay item in
  Log "INFO" "Started reading packet from the buffer".

(** The debt of the sources is [(d) - int(d)]; on the integer debts that
    [getTicks] hands out, [int] leaves [d] as it is. *)
Definition _updatePutDebt (item : pyval) : M world unit :=
  let* b := self in
  let* p := as_packet item in
  let* (ticks, debt) := getTicks p (putBytesPerCycle (cfg b)) in
  update (set_putDebt ((putDebt b + debt) - (putDebt b + debt))).

Definition _updateGetDebt (item : pyval) : M world unit :=
  let* b := self in
  let* p := as_packet item in
  let* (ticks, debt) := getTicks p (getBytesPerCycle (cfg b)) in
  update (set_getDebt ((getDebt b + debt) - (getDebt b + debt))).

Definition _updateTotalWrBits (e : evid) : M world unit :=
  let* ev := in_env (lookup_event e) in
  let* p := as_packet (ev_item ev) in
  update (set_stat (fun s => Stats (totalWrBits s + getBytes p * 8) (totalRdBits s)
                                   (lastActivity s) (firstActivity s))).

Definition _updateTotalRdBits (e : evid) : M world unit :=
  let* ev := in_env (lookup_event e) in
  match ev_value ev with
  | Some (PyPkt p) =>
      update (set_stat (fun s => Stats (totalWrBits s) (totalRdBits s + getBytes p * 8)
                                       (lastActivity s) (firstActivity s)))
  | _ => raise AttributeError
  end.

(** [_putBusy]: two fatal conditions, each reported through [Log]. *)
Definition _putBusy : M world unit :=
  let* b := self in
  (if isFull b then Log "FATAL_ERROR" "Trying to write into the buffer while full"
   else ret tt) >>
  let* b := self in
  let* s := the_env in
  (if now s <? lastActivity (stat b)
   then Log "FATAL_ERROR" "Trying to write into the buffer while another write is ongoing"
   else ret tt).

Definition is_triggered (e : evid) (w : world) : bool := triggered e (fst w).
Definition on_queue (set : list evid -> buffer -> buffer) (q : list evid) (w : world) : world :=
  (fst w, set q (snd w)).

(** *** peek *)

Definition _do_peek (e : evid) : M world bool :=
  let* b := self in
  match items b with
  | head :: _ => in_env (succeed e head 0)
  | [] => ret tt
  end >> ret false.

Definition _trigger_peek_scan (w : world) :=
  Trigger.scan (fun w => peek_queue (snd w)) (on_queue set_peek_queue) is_triggered
               _do_peek "Peek queue invariant violated" w.

Definition _trigger_peek : M world unit := fun w => snd (_trigger_peek_scan w).

(** *** get *)

(** [_remove_packet], with the override of [FlowControlledBuffer]. *)
Definition _remove_packet (e : evid) : M world unit :=
  let* b := self in
  match items b with
  | [] => raise IndexError
  | item :: rest =>
      update (set_items rest) >>
      postGetMsg item >>
      match variant (cfg b) with
      | FlowControlled => update count_credit
      | _ => ret tt
      end
  end.

Definition _do_get (e : evid) : M world bool :=
  let* b := self in
  match items b with
  | item :: _ =>
      let* pregetdelay := addPreGetDelay item in
      (if negb (pregetdelay =? 0)
       then in_env (add_callbacks e [CB_remove_packet; CB_trigger_put; CB_updateTotalRdBits]) >>
            in_env (succeed e item pregetdelay)
       else in_env (add_callbacks e [CB_trigger_put; CB_updateTotalRdBits]) >>
            _remove_packet e >>
            in_env (succeed e item pregetdelay)) >>
      _updateGetDebt item
  | [] => ret tt
  end >> ret false.

(** Modelled from the spec: [Buffer] inherits [_trigger_get] and
    [_trigger_put] from simpy's [Store], which is not under src/; section 4.2
    gives the three queues one trigger routine, so both are the loop of
    [_trigger_peek] over their own queue and hook. *)
Definition _trigger_get_scan (w : world) :=
  Trigger.scan (fun w => get_queue (snd w)) (on_queue set_get_queue) is_triggered
               _do_get "Get queue invariant violated" w.

Definition _trigger_get : M world unit := fun w => snd (_trigger_get_scan w).

(** *** put *)

Definition _insert_packet (e : evid) : M world unit :=
  let* ev := in_env (lookup_event e) in
  let* b := self in
  update (set_items (items b ++ [ev_item ev])) >>
  postPutMsg (ev_item ev).

Definition _do_put (e : evid) : M world bool :=
  let* b := self in
  (if Z.of_nat (length (items b)) <? capacity (cfg b) then
     let* ev := in_env (lookup_event e) in
     let* preputdelay := addPrePutDelay (ev_item ev) in
     let* postputdelay := addPostPutDelay (ev_item ev) in
     in_env (add_callbacks e [CB_updateTotalWrBits]) >>
     (if negb (preputdelay =? 0)
      then let* ev' := in_env (NewEvent (ev_item ev) None) in
           in_env (add_callbacks ev' [CB_insert_packet; CB_trigger_get; CB_trigger_peek]) >>
           in_env (succeed ev' PyNone preputdelay) >>
           in_env (succeed e PyNone postputdelay)
      else in_env (succeed e PyNone postputdelay) >>
           _insert_packet e >>
           _trigger_get >>
           _trigger_peek) >>
     let* s := the_env in
     update (set_stat (fun st => Stats (totalWrBits st) (totalRdBits st)
                                       (now s + postputdelay) (firstActivity st))) >>
     _updatePutDebt (ev_item ev) >>
     update (set_stat (fun st => Stats (totalWrBits st) (totalRdBits st) (lastActivity st)
                                       (match firstActivity st with
                                        | None => Some (now s)
                                        | Some t => Some t
                                        end)))
   else ret tt) >> ret false.

(** See the note at [_trigger_get_scan]. *)
Definition _trigger_put_scan (w : world) :=
  Trigger.scan (fun w => put_queue (snd w)) (on_queue set_put_queue) is_triggered
               _do_put "Put queue invariant violated" w.

Definition _trigger_put : M world unit := fun w => snd (_trigger_put_scan w).

(** *** The request events of util.py: [BufferPut], [BufferGet], [BufferPeek] *)

Definition put (item : pyval) (caller : option string) : M world evid :=
  let* e := in_env (NewEvent item caller) in
  update (fun b => set_put_queue (put_queue b ++ [e]) b) >>
  _trigger_put >>
  ret e.

Definition get (item : pyval) (caller : option string) : M world evid :=
  Log "DEBUG" "Read request initiated" >>
  let* e := in_env (NewEvent item caller) in
  update (fun b => set_get_queue (get_queue b ++ [e]) b) >>
  _trigger_get >>
  ret e.

Definition peek (item : pyval) (caller : option string) : M world evid :=
  Log "DEBUG" "Peek request initiated" >>
  let* e := in_env (NewEvent item caller) in
  update (fun b => set_peek_queue (peek_queue b ++ [e]) b) >>
  _trigger_peek >>
  ret e.

(** [list.remove(x)]: drops the first occurrence, ValueError if there is none. *)
Fixpoint list_remove (x : evid) (l : list evid) : option (list evid) :=
  match l with
  | [] => None
  | y :: l' => if Nat.eqb y x then Some l'
               else match list_remove x l' with
                    | Some r => Some (y :: r)
                    | None => None
                    end
  end.

(** [cancel] of a request event, on the queue the request sits in. *)
Definition cancel (queue : buffer -> list evid) (set_queue : list evid -> buffer -> buffer)
    (e : evid) : M world unit :=
  let* b := self in
  let* s := the_env in
  if negb (triggered e s) then
    match list_remove e (queue b) with
    | Some q => update (set_queue q)
    | None => raise ValueError
    end
  else ret tt.

(** *** Callbacks of a buffer's events *)

Definition run_callback (cb : callback) (e : evid) : M world unit :=
  match cb with
  | CB_insert_packet => _insert_packet e
  | CB_trigger_put => _trigger_put
  | CB_trigger_get => _trigger_get
  | CB_trigger_peek => _trigger_peek
  | CB_remove_packet => _remove_packet e
  | CB_updateTotalWrBits => _updateTotalWrBits e
  | CB_updateTotalRdBits => _updateTotalRdBits e
  | CB_resume _ => ret tt
  | _ => raise AttributeError
  end.

End Buffers.

(** ** The environment's step

    Modelled from the spec: [Environment.step] belongs to simpy, which is not
    under src/.  Section 3 has a scheduled event make its transition at
    [now + delay] at a later scheduler step, and section 4.1 has the
    registered callbacks invoked in order: a step takes the earliest entry
    of the queue (ties by priority, then by event counter), moves [now] to its
    time and calls the callbacks of its event one after the other. *)

Module Scheduler.

Definition entry : Type := Z * Z * nat * evid.

Definition entry_le (a b : entry) : bool :=
  match a, b with
  | (ta, pa, ea, _), (tb, pb, eb, _) =>
      if ta <? tb then true
      else if tb <? ta then false
      else if pa <? pb then true
      else if pb <? pa then false
      else (ea <=? eb)%nat
  end.

(** [heappop]: the least entry and the rest of the queue. *)
Fixpoint pop_min (l : list entry) : option (entry * list entry) :=
  match l with
  | [] => None
  | x :: l' =>
      match pop_min l' with
      | None => Some (x, [])
      | Some (m, rest) => if entry_le x m then Some (x, l') else Some (m, x :: rest)
      end
  end.

Section Step.
Context {T : Type}.
Variable run_callback : callback -> evid -> M (sim * T) unit.

Fixpoint run_callbacks (cbs : list callback) (e : evid) : M (sim * T) unit :=
  match cbs with
  | [] => ret tt
  | cb :: cbs' => run_callback cb e >> run_callbacks cbs' e
  end.

Definition step : M (sim * T) unit :=
  let* s := the_env in
  match pop_min (sched s) with
  | None => raise EmptySchedule
  | Some ((t, _, _, e), rest) =>
      let* ev := in_env (lookup_event e) in
      in_env (modify (fun s => MkSim t rest (eid s)
                         (<[e := Event (ev_item ev) (ev_caller ev) (ev_value ev) (ev_ok ev) None]>
                            (events s))
                         (logs s))) >>
      match ev_callbacks ev with
      | None => raise TypeError
      | Some cbs => run_callbacks cbs e
      end
  end.

End Step.
End Scheduler.

(** ** Buffers.py: [CreditBuffer] *)

Module CreditBuffer.

Record creditbuffer := CreditBuffer {
  name : string;
  capacity : Z;
  items : list pyval;
  put_queue : list evid;
  get_queue : list evid;
  peek_queue : list evid
}.

Definition world : Type := sim * creditbuffer.

Definition set_items (l : list pyval) (c : creditbuffer) : creditbuffer :=
  CreditBuffer (name c) (capacity c) l (put_queue c) (get_queue c) (peek_queue c).
Definition set_put_queue (q : list evid) (c : creditbuffer) : creditbuffer :=
  CreditBuffer (name c) (capacity c) (items c) q (get_queue c) (peek_queue c).
Definition set_get_queue (q : list evid) (c : creditbuffer) : creditbuffer :=
  CreditBuffer (name c) (capacity c) (items c) (put_queue c) q (peek_queue c).
Definition set_peek_queue (q : list evid) (c : creditbuffer) : creditbuffer :=
  CreditBuffer (name c) (capacity c) (items c) (put_queue c) (get_queue c) q.

(** [CreditBuffer.__init__]: [self.items = [1]*initCredits]. *)
Definition init (nm : string) (initCredits : Z) : creditbuffer :=
  CreditBuffer nm initCredits (replicate (Z.to_nat initCredits) (PyInt 1)) [] [] [].

Definition is_triggered (e : evid) (w : world) : bool := triggered e (fst w).
Definition on_queue (set : list evid -> creditbuffer -> creditbuffer)
    (q : list evid) (w : world) : world :=
  (fst w, set q (snd w)).

(** [_do_peek]: [len(self.items) > event.item]. *)
Definition _do_peek (e : evid) : M world bool :=
  let* c := self in
  let* ev := in_env (lookup_event e) in
  match ev_item ev with
  | PyInt thresh =>
      if thresh <? Z.of_nat (length (items c))
      then in_env (succeed e PyNone 0) >> ret true
      else ret false
  | _ => raise TypeError
  end.

Definition _trigger_peek_scan (w : world) :=
  Trigger.scan (fun w => peek_queue (snd w)) (on_queue set_peek_queue) is_triggered
               _do_peek "Peek queue invariant violated" w.

Definition _trigger_peek : M world unit := fun w => snd (_trigger_peek_scan w).

(** [peek(thresh=1)]: a [BufferPeek] whose item is the threshold. *)
Definition peek (thresh : Z) : M world evid :=
  let* e := in_env (NewEvent (PyInt thresh) None) in
  update (fun c => set_peek_queue (peek_queue c ++ [e]) c) >>
  _trigger_peek >>
  ret e.

(** Modelled from the spec: [StorePut], [StoreGet] and the hooks [_do_put] and
    [_do_get] of a [CreditBuffer] are simpy's [Store], which is not under
    src/.  Section 4.4 has [put] add a token and section 4.5 has a credit
    consumed by a get; the counter stays within [0, initCredits], so a put
    on a full counter and a get on an empty one stay queued.  The queues
    follow the trigger routine of section 4.2. *)
Definition _do_put (e : evid) : M world bool :=
  let* c := self in
  let* ev := in_env (lookup_event e) in
  (if Z.of_nat (length (items c)) <? capacity c
   then update (set_items (items c ++ [ev_item ev])) >> in_env (succeed e PyNone 0)
   else ret tt) >> ret false.

Definition _do_get (e : evid) : M world bool :=
  let* c := self in
  match items c with
  | tok :: rest => update (set_items rest) >> in_env (succeed e tok 0)
  | [] => ret tt
  end >> ret false.

Definition _trigger_put_scan (w : world) :=
  Trigger.scan (fun w => put_queue (snd w)) (on_queue set_put_queue) is_triggered
               _do_put "Put queue invariant violated" w.
Definition _trigger_put : M world unit := fun w => snd (_trigger_put_scan w).

Definition _trigger_get_scan (w : world) :=
  Trigger.scan (fun w => get_queue (snd w)) (on_queue set_get_queue) is_triggered
               _do_get "Get queue invariant violated" w.
Definition _trigger_get : M world unit := fun w => snd (_trigger_get_scan w).

(** [put(item)]: a [StorePut] with [_trigger_peek] added to its callbacks. *)
Definition put (item : pyval) : M world evid :=
  let* e := in_env (NewEvent item None) in
  update (fun c => set_put_queue (put_queue c ++ [e]) c) >>
  in_env (add_callbacks e [CB_credit_trigger_get]) >>
  _trigger_put >>
  in_env (add_callbacks e [CB_credit_trigger_peek]) >>
  ret e.

Definition get : M world evid :=
  let* e := in_env (NewEvent PyNone None) in
  update (fun c => set_get_queue (get_queue c ++ [e]) c) >>
  in_env (add_callbacks e [CB_credit_trigger_put]) >>
  _trigger_get >>
  ret e.

End CreditBuffer.

(** ** Pipelines.py *)

Module Pipelines.

Record config := Config {
  name : string;
  depth : Z;
  putBytesPerCycle : Z;
  simTicksPerCycle : Z;
  initCredits : option Z      (* [Some n] for a [FlowControlledPipeline] *)
}.

(** The fields of a pipeline.  [inflight] lists the [_putdelay] processes
    started with [env.process]: the item and the time at which it reaches
    [toDn].  [credits] is the [CreditBuffer] of a flow-controlled pipeline. *)
Record pipeline := Pipeline {
  cfg : config;
  putBusy : bool;
  put_queue : list evid;
  putDebt : Z;
  totalBitsSent : Z;
  lastActivity : option Z;
  firstActivity : option Z;
  inflight : list (Z * pyval);
  credits : CreditBuffer.creditbuffer
}.

Definition world : Type := sim * pipeline.

Definition set_putBusy (v : bool) (p : pipeline) : pipeline :=
  Pipeline (cfg p) v (put_queue p) (putDebt p) (totalBitsSent p) (lastActivity p)
           (firstActivity p) (inflight p) (credits p).
Definition set_put_queue (q : list evid) (p : pipeline) : pipeline :=
  Pipeline (cfg p) (putBusy p) q (putDebt p) (totalBitsSent p) (lastActivity p)
           (firstActivity p) (inflight p) (credits p).
Definition set_putDebt (d : Z) (p : pipeline) : pipeline :=
  Pipeline (cfg p) (putBusy p) (put_queue p) d (totalBitsSent p) (lastActivity p)
           (firstActivity p) (inflight p) (credits p).
Definition set_sent (bits : Z) (t : option Z) (p : pipeline) : pipeline :=
  Pipeline (cfg p) (putBusy p) (put_queue p) (putDebt p) bits t
           (firstActivity p) (inflight p) (credits p).
Definition set_firstActivity (t : option Z) (p : pipeline) : pipeline :=
  Pipeline (cfg p) (putBusy p) (put_queue p) (putDebt p) (totalBitsSent p) (lastActivity p)
           t (inflight p) (credits p).
Definition set_inflight (l : list (Z * pyval)) (p : pipeline) : pipeline :=
  Pipeline (cfg p) (putBusy p) (put_queue p) (putDebt p) (totalBitsSent p) (lastActivity p)
           (firstActivity p) l (credits p).
Definition set_credits (c : CreditBuffer.creditbuffer) (p : pipeline) : pipeline :=
  Pipeline (cfg p) (putBusy p) (put_queue p) (putDebt p) (totalBitsSent p) (lastActivity p)
           (firstActivity p) (inflight p) c.

(** [Pipeline.__init__] and [FlowControlledPipeline.__init__]. *)
Definition init (c : config) : pipeline :=
  Pipeline c false [] 0 0 None None []
           (CreditBuffer.init "creditbuffer"
              (match initCredits c with Some n => n | None => 0 end)).

(** An operation of [self.CreditBuffer], which shares the environment. *)
Definition in_credits {A} (m : M CreditBuffer.world A) : M world A :=
  zoom (fun w => (fst w, credits (snd w)))
       (fun cw w => (fst cw, set_credits (snd cw) (snd w))) m.

Definition Log (msgtype msg : string) : M world unit :=
  let* p := self in in_env (Sim.Log (name (cfg p)) msgtype msg []).

Definition as_packet (v : pyval) : M world packet :=
  match v with
  | PyPkt p => ret p
  | _ => raise AttributeError
  end.

Definition addPostPutDelay (item : pyval) : M world Z :=
  let* p := self in
  let* pkt := as_packet item in
  let* (ticks, debt) := getTicks pkt (putBytesPerCycle (cfg p)) in
  let extra := putDebt p + debt in
  ret ((ticks + extra) * simTicksPerCycle (cfg p)).

Definition prePutMsg (e : evid) : M world unit :=
  let* ev := in_env (lookup_event e) in
  let* _ := as_packet (ev_item ev) in
  let* _ := addPostPutDelay (ev_item ev) in
  Log "INFO" "Started sending packet down the pipeline".

Definition postPutMsg (e : evid) : M world unit :=
  let* ev := in_env (lookup_event e) in
  let* _ := as_packet (ev_item ev) in
  Log "INFO" "Finished sending Packet down the pipeline".

(** [_putBusy]: the fatal branch reports through [Log]. *)
Definition _putBusy : M world unit :=
  let* p := self in
  if putBusy p
  then Log "FATAL_ERROR" "Trying to put() through the pipeline while busy"
  else update (set_putBusy true).

Definition _putReady : M world unit := update (set_putBusy false).

Definition _updatePutDebt (item : pyval) : M world unit :=
  let* p := self in
  let* pkt := as_packet item in
  let* (ticks, debt) := getTicks pkt (putBytesPerCycle (cfg p)) in
  update (set_putDebt ((putDebt p + debt) - (putDebt p + debt))).

Definition _updateTotalBitsSent (e : evid) : M world unit :=
  let* ev := in_env (lookup_event e) in
  let* pkt := as_packet (ev_item ev) in
  let* s := the_env in
  update (fun p => set_sent (totalBitsSent p + getBytes pkt * 8) (Some (now s)) p).

(** [self.env.process(self._putdelay(item))]: the item reaches [toDn] after
    [depth] cycles. *)
Definition start_putdelay (item : pyval) : M world unit :=
  let* s := the_env in
  update (fun p => set_inflight
                     (inflight p ++ [(now s + depth (cfg p) * simTicksPerCycle (cfg p), item)]) p).

(** The body shared by [Pipeline._do_put] and, once a credit is taken, by
    [FlowControlledPipeline._do_put]. *)
Definition send (e : evid) : M world unit :=
  let* ev := in_env (lookup_event e) in
  let pkt := ev_item ev in
  let* ticks := addPostPutDelay pkt in
  in_env (add_callbacks e [CB_postPutMsg]) >>
  in_env (add_callbacks e [CB_updateTotalBitsSent]) >>
  prePutMsg e >>
  in_env (succeed e PyNone ticks) >>
  start_putdelay pkt.

(** [_do_put], with the override of [FlowControlledPipeline]; neither returns
    a value. *)
Definition _do_put (e : evid) : M world bool :=
  let* p := self in
  let* s := the_env in
  match initCredits (cfg p) with
  | None =>
      let* ev := in_env (lookup_event e) in
      send e >>
      (match firstActivity p with
       | None => update (set_firstActivity (Some (now s)))
       | Some _ => ret tt
       end) >>
      _updatePutDebt (ev_item ev)
  | Some _ =>
      match CreditBuffer.items (credits p) with
      | _ :: _ =>
          let* _ := in_credits CreditBuffer.get in
          Log "DEBUG" "credit consumed" >>
          let* ev := in_env (lookup_event e) in
          send e >>
          (match firstActivity p with
           | Some t => if t =? 0 then update (set_firstActivity (Some (now s))) else ret tt
           | None => update (set_firstActivity (Some (now s)))
           end) >>
          _updatePutDebt (ev_item ev)
      | [] => ret tt
      end
  end >> ret false.

Definition is_triggered (e : evid) (w : world) : bool := triggered e (fst w).

Definition _trigger_put_scan (w : world) :=
  Trigger.scan (fun w => put_queue (snd w)) (fun q w => (fst w, set_put_queue q (snd w)))
               is_triggered _do_put "Put queue invariant violated" w.

Definition _trigger_put : M world unit := fun w => snd (_trigger_put_scan w).

(** [put]: a [PipelinePut]. *)
Definition put (item : pyval) (caller : option string) : M world evid :=
  let* e := in_env (NewEvent item caller) in
  update (fun p => set_put_queue (put_queue p ++ [e]) p) >>
  in_env (add_callbacks e [CB_putReady]) >>
  _trigger_put >>
  ret e.

(** [FlowControlledPipeline._increment_credit] *)
Definition _increment_credit : M world unit :=
  let* p := self in
  (match initCredits (cfg p) with
   | Some n =>
       if Z.of_nat (length (CreditBuffer.items (credits p))) =? n
       then Log "FATAL_ERROR" "received credit while credit counter is saturated"
       else ret tt
   | None => raise AttributeError
   end) >>
  let* _ := in_credits (CreditBuffer.put (PyInt 1)) in
  Log "INFO" "credit received from downstream".

End Pipelines.

(** ** Each resource under the environment's step: callbacks and requests *)

Module BufferRun.
Import Buffers.

Definition step : M world unit := Scheduler.step run_callback.

(** What can happen to a buffer between two instants of a run. *)
Inductive action :=
| Put (item : pyval) (caller : option string)
| Get (item : pyval) (caller : option string)
| Peek (item : pyval) (caller : option string)
| CancelPut (e : evid)
| CancelGet (e : evid)
| CancelPeek (e : evid)
| Wait (e : evid) (proc : nat)     (* a process yields on the event *)
| Step.

Definition perform (a : action) : M world unit :=
  match a with
  | Put item caller => put item caller >> ret tt
  | Get item caller => get item caller >> ret tt
  | Peek item caller => peek item caller >> ret tt
  | CancelPut e => cancel put_queue set_put_queue e
  | CancelGet e => cancel get_queue set_get_queue e
  | CancelPeek e => cancel peek_queue set_peek_queue e
  | Wait e proc => in_env (add_callbacks e [CB_resume proc])
  | Step => step
  end.

(** The worlds a run can be in: a freshly built buffer in any environment,
    and whatever an action that returned leaves. *)
Inductive reachable : world -> Prop :=
| reach_init (s : sim) (c : config) : reachable (s, init c)
| reach_perform (a : action) (w w' : world) :
    reachable w -> perform a w = Ret tt w' -> reachable w'.

(** The actions of a list, one after the other. *)
Fixpoint run (l : list action) : M world unit :=
  match l with
  | [] => ret tt
  | a :: l' => perform a >> run l'
  end.

End BufferRun.

Module CreditRun.
Import CreditBuffer.

Definition run_callback (cb : callback) (e : evid) : M world unit :=
  match cb with
  | CB_credit_trigger_put => _trigger_put
  | CB_credit_trigger_get => _trigger_get
  | CB_credit_trigger_peek => _trigger_peek
  | CB_resume _ => ret tt
  | _ => raise AttributeError
  end.

Definition step : M world unit := Scheduler.step run_callback.

Inductive action :=
| Put (item : pyval)
| Get
| Peek (thresh : Z)
| Wait (e : evid) (proc : nat)
| Step.

Definition perform (a : action) : M world unit :=
  match a with
  | Put item => put item >> ret tt
  | Get => get >> ret tt
  | Peek thresh => peek thresh >> ret tt
  | Wait e proc => in_env (add_callbacks e [CB_resume proc])
  | Step => step
  end.

Inductive reachable : world -> Prop :=
| reach_init (s : sim) (nm : string) (initCredits : Z) : reachable (s, init nm initCredits)
| reach_perform (a : action) (w w' : world) :
    reachable w -> perform a w = Ret tt w' -> reachable w'.

End CreditRun.

Module PipelineRun.
Import Pipelines.

(** [FlowControlledPipeline.putCredit]; the log line is the one of [toDn]. *)
Definition putCredit : M world unit :=
  let* p := self in
  let* e := in_env (NewEvent PyNone None) in
  in_env (add_callbacks e [CB_increment_credit; CB_trigger_put]) >>
  in_env (Sim.Log "toDn" "INFO" "credit dispatched" []) >>
  in_env (succeed e PyNone (depth (cfg p) * simTicksPerCycle (cfg p))).

Definition run_callback (cb : callback) (e : evid) : M world unit :=
  match cb with
  | CB_putReady => _putReady
  | CB_postPutMsg => postPutMsg e
  | CB_updateTotalBitsSent => _updateTotalBitsSent e
  | CB_increment_credit => _increment_credit
  | CB_trigger_put => _trigger_put
  | CB_credit_trigger_put | CB_credit_trigger_get | CB_credit_trigger_peek =>
      in_credits (CreditRun.run_callback cb e)
  | CB_resume _ => ret tt
  | _ => raise AttributeError
  end.

Definition step : M world unit := Scheduler.step run_callback.

Inductive action :=
| Put (item : pyval) (caller : option string)
| PutCredit
| WaitForCredit
| Wait (e : evid) (proc : nat)
| Step.

Definition perform (a : action) : M world unit :=
  match a with
  | Put item caller => put item caller >> ret tt
  | PutCredit => putCredit
  | WaitForCredit => in_credits (CreditBuffer.peek 1) >> ret tt
  | Wait e proc => in_env (add_callbacks e [CB_resume proc])
  | Step => step
  end.

Inductive reachable : world -> Prop :=
| reach_init (s : sim) (c : config) : reachable (s, init c)
| reach_perform (a : action) (w w' : world) :
    reachable w -> perform a w = Ret tt w' -> reachable w'.

End PipelineRun.

(** ** Arbiters.py *)

Module Arbiters.

(** [toUp] and [toDn] of a component: [Component.__init__] makes them a dict
    that [Unit.connect] fills under the port keys of the connection, or
    replaces by the one neighbour when the connection names no port. *)
Inductive ports :=
| Single (neighbour : string)
| Indexed (neighbours : gmap Z string).

(** The fields of [Crossbar] that arbitration reads and writes. *)
Record crossbar := Crossbar {
  name : string;
  inPorts : Z;
  outPorts : Z;
  toUp : ports;
  toDn : ports;
  lastport : list Z
}.

Definition set_lastport (l : list Z) (x : crossbar) : crossbar :=
  Crossbar (name x) (inPorts x) (outPorts x) (toUp x) (toDn x) l.

(** [Crossbar.__init__], followed by the wiring of the ports. *)
Definition init (nm : string) (inPorts outPorts : Z) (up dn : ports) : crossbar :=
  Crossbar nm inPorts outPorts up dn (replicate (Z.to_nat outPorts) (-1)).

(** The wiring [Unit.connect] makes for [n] ports: a dict with the keys
    [0 .. n-1] and no other when [n > 1], the neighbour itself otherwise. *)
Definition wired (n : Z) (p : ports) : Prop :=
  match p with
  | Single _ => n <= 1
  | Indexed d => 1 < n /\ dom d = list_to_set (seqZ 0 n)
  end.

(** The dict [Unit.connect] leaves after the ports [0 .. n-1] were connected
    to the neighbours of these names. *)
Definition connect_all (neighbours : list string) : ports :=
  Indexed (list_to_map (zip (seqZ 0 (Z.of_nat (length neighbours))) neighbours)).

(** [pkt != None for pkt in pktList], by index. *)
Fixpoint enumerate_active (i : Z) (pktList : list (option packet)) : list Z :=
  match pktList with
  | [] => []
  | Some _ :: l => i :: enumerate_active (i + 1) l
  | None :: l => enumerate_active (i + 1) l
  end.

Definition activeports (pktList : list (option packet)) : list Z :=
  enumerate_active 0 pktList.

Section Common.
Context {T : Type}.
Variable base : T -> crossbar.

(** [ps[i].name] and [ps.name] *)
Definition indexed_name (ps : ports) (i : Z) : M (sim * T) string :=
  match ps with
  | Indexed d => match d !! i with
                 | Some nm => ret nm
                 | None => raise (KeyError i)
                 end
  | Single _ => raise TypeError
  end.

Definition single_name (ps : ports) : M (sim * T) string :=
  match ps with
  | Single nm => ret nm
  | Indexed _ => raise AttributeError
  end.

(** [ps[i].name if n > 1 else ps.name] *)
Definition port_name (n : Z) (ps : ports) (i : Z) : M (sim * T) string :=
  if 1 <? n then indexed_name ps i else single_name ps.

(** [[ps[port].name for port in l]] *)
Fixpoint port_names (ps : ports) (l : list Z) : M (sim * T) (list string) :=
  match l with
  | [] => ret []
  | i :: l' =>
      let* nm := indexed_name ps i in
      let* nms := port_names ps l' in
      ret (nm :: nms)
  end.

(** The names gathered for the log line of a decision, and the line:
    [inPortName], [outPortName], [unMaskedPorts] over the active ports, and
    [pktList[candidate].uid]. *)
Definition log_decision (msg : string) (active : list Z) (pktList : list (option packet))
    (candidate outPort : Z) : M (sim * T) unit :=
  let* x := gets (fun w => base (snd w)) in
  let* inPortName := port_name (inPorts x) (toUp x) candidate in
  let* outPortName := port_name (outPorts x) (toDn x) outPort in
  let* unMaskedPorts :=
    (if 1 <? inPorts x then port_names (toUp x) active
     else let* nm := single_name (toUp x) in ret [nm]) in
  match getitem pktList candidate with
  | Some (Some _) => in_env (Sim.Log (name x) "INFO" msg [])
  | Some None => raise AttributeError
  | None => raise IndexError
  end.

(** [pktList[candidate]] as a condition. *)
Definition offered (pktList : list (option packet)) (candidate : Z) : M (sim * T) bool :=
  match getitem pktList candidate with
  | Some (Some _) => ret true
  | Some None => ret false
  | None => raise IndexError
  end.

(** The loop of the round-robin and of the fixed-priority arbiter:
<<
    while count < self.inPorts:
        if pktList[candidate]: <hit candidate>; return candidate
        else: count += 1; candidate = (candidate+1) % self.inPorts
    return None
>>
    with [left] passes to go. *)
Fixpoint scan_from (hit : Z -> M (sim * T) unit) (left : nat)
    (pktList : list (option packet)) (candidate : Z) : M (sim * T) (option Z) :=
  match left with
  | O => ret None
  | S left' =>
      let* x := gets (fun w => base (snd w)) in
      let* found := offered pktList candidate in
      if found then hit candidate >> ret (Some candidate)
      else scan_from hit left' pktList ((candidate + 1) mod inPorts x)
  end.

Definition index {A} (l : list A) (i : Z) : M (sim * T) A :=
  match getitem l i with
  | Some a => ret a
  | None => raise IndexError
  end.

Definition assign {A} (l : list A) (i : Z) (a : A) : M (sim * T) (list A) :=
  match setitem l i a with
  | Some l' => ret l'
  | None => raise IndexError
  end.

End Common.

(** *** [RoundRobinCrossbar] *)

Module RoundRobinCrossbar.

Definition world : Type := sim * crossbar.

(** What the loop does on a hit. *)
Definition hit (pktList : list (option packet)) (outPort candidate : Z) : M world unit :=
  let* x := self in
  let* l := assign (lastport x) outPort candidate in
  update (set_lastport l) >>
  log_decision id "RoundRobin arbitration elected packet"
               (activeports pktList) pktList candidate outPort.

Definition arbitratePkts (pktList : list (option packet)) (outPort : Z) : M world (option Z) :=
  let* x := self in
  let* last := index (lastport x) outPort in
  if inPorts x =? 0 then raise ZeroDivisionError
  else scan_from id (hit pktList outPort) (Z.to_nat (inPorts x)) pktList
                 ((last + 1) mod inPorts x).

End RoundRobinCrossbar.

(** *** [WeightedRoundRobinCrossbar] *)

Module WeightedRoundRobinCrossbar.

(** [weights] stays unset when the constructor did not accept the list. *)
Record wrr := WRR {
  xbar : crossbar;
  weights : option (list Z);
  grants : list Z
}.

Definition world : Type := sim * wrr.

Definition set_xbar (x : crossbar) (w : wrr) : wrr := WRR x (weights w) (grants w).
Definition set_weights (l : list Z) (w : wrr) : wrr := WRR (xbar w) (Some l) (grants w).
Definition set_grants (g : list Z) (w : wrr) : wrr := WRR (xbar w) (weights w) g.

(** [__init__], on the object as [Crossbar.__init__] and the wiring of the
    ports leave it. *)
Definition __init__ (nm : string) (inPorts outPorts : Z) (up dn : ports) (ws : list Z)
    : M world unit :=
  update (fun _ => WRR (init nm inPorts outPorts up dn) None []) >>
  (if Z.of_nat (length ws) =? inPorts
   then update (set_weights ws)
   else in_env (Sim.Log nm "FATAL_ERROR" "provide a list of integer weights" [])) >>
  update (set_grants (replicate (Z.to_nat inPorts) 0)).

(** An object before its constructor ran, and the constructor call. *)
Definition blank : wrr := WRR (Crossbar "" 0 0 (Indexed ∅) (Indexed ∅) []) None [].

Definition new (nm : string) (inPorts outPorts : Z) (up dn : ports) (ws : list Z) (s : sim)
    : outcome world unit :=
  __init__ nm inPorts outPorts up dn ws (s, blank).

Definition the_weights : M world (list Z) :=
  let* w := self in
  match weights w with
  | Some l => ret l
  | None => raise AttributeError
  end.

(** The [while count < self.inPorts and not decisionMade] loop; the result is
    [selectedCandidate]. *)
Fixpoint scan (left : nat) (pktList : list (option packet)) (candidate : Z)
    (selectedCandidate : option Z) : M world (option Z) :=
  match left with
  | O => ret selectedCandidate
  | S left' =>
      let* hit := offered pktList candidate in
      let* w := self in
      let n := inPorts (xbar w) in
      if hit then
        let* ws := the_weights in
        let* wt := index ws candidate in
        let* gr := index (grants w) candidate in
        let decided := gr <? wt in
        let selected :=
          if decided then Some candidate
          else match selectedCandidate with
               | None => Some candidate
               | Some c => Some c
               end in
        (if gr =? wt
         then let* g := assign (grants w) candidate 0 in update (set_grants g)
         else ret tt) >>
        if decided then ret selected
        else scan left' pktList ((candidate + 1) mod n) selected
      else
        scan left' pktList ((candidate + 1) mod n) selectedCandidate
  end.

Definition arbitratePkts (pktList : list (option packet)) (outPort : Z) : M world (option Z) :=
  let* w := self in
  let* candidate := index (lastport (xbar w)) outPort in
  let* selectedCandidate := scan (Z.to_nat (inPorts (xbar w))) pktList candidate None in
  match selectedCandidate with
  | Some c =>
      let* w := self in
      let* l := assign (lastport (xbar w)) outPort c in
      update (set_xbar (set_lastport l (xbar w))) >>
      let* w := self in
      let* gr := index (grants w) c in
      let* g := assign (grants w) c (gr + 1) in
      update (set_grants g) >>
      log_decision xbar "Weighted RoundRobin arbitration elected packet"
                   (activeports pktList) pktList c outPort >>
      ret (Some c)
  | None => ret None
  end.

End WeightedRoundRobinCrossbar.

(** *** [FixedPriorityCrossbar] *)

Module FixedPriorityCrossbar.

(** [priorities] and [priorityClasses] stay unset when the constructor did
    not accept the list. *)
Record fp := FP {
  xbar : crossbar;
  priorities : option (list Z);
  priorityClasses : option Z;
  lastportPerClass : list (list Z)
}.

Definition world : Type := sim * fp.

Definition set_xbar (x : crossbar) (f : fp) : fp :=
  FP x (priorities f) (priorityClasses f) (lastportPerClass f).
Definition set_priorities (l : list Z) (c : Z) (f : fp) : fp :=
  FP (xbar f) (Some l) (Some c) (lastportPerClass f).
Definition set_lastportPerClass (l : list (list Z)) (f : fp) : fp :=
  FP (xbar f) (priorities f) (priorityClasses f) l.

(** [max] of a list; [None] stands for the ValueError on the empty list. *)
Definition list_max (l : list Z) : option Z :=
  match l with
  | [] => None
  | a :: l' => Some (foldl Z.max a l')
  end.

(** [__init__]; [prios = None] is the default argument.  Every element of a
    [list Z] is an [int], so the [isinstance] test holds. *)
Definition __init__ (nm : string) (inPorts outPorts : Z) (up dn : ports)
    (prios : option (list Z)) : M world unit :=
  update (fun _ => FP (init nm inPorts outPorts up dn) None None []) >>
  (match prios with
   | None | Some [] =>
       update (set_priorities (replicate (Z.to_nat inPorts) 0) 1)
   | Some (p :: ps) =>
       if Z.of_nat (length (p :: ps)) =? inPorts
       then update (set_priorities (p :: ps) (foldl Z.max p ps + 1))
       else in_env (Sim.Log nm "FATAL_ERROR"
                      "the number of priorities provided must be equal to the number of inPorts" [])
   end) >>
  let* f := self in
  match priorityClasses f with
  | None => raise AttributeError
  | Some c =>
      update (set_lastportPerClass (replicate (Z.to_nat c) (replicate (Z.to_nat outPorts) (-1))))
  end.

(** An object before its constructor ran, and the constructor call. *)
Definition blank : fp := FP (Crossbar "" 0 0 (Indexed ∅) (Indexed ∅) []) None None [].

Definition new (nm : string) (inPorts outPorts : Z) (up dn : ports)
    (prios : option (list Z)) (s : sim) : outcome world unit :=
  __init__ nm inPorts outPorts up dn prios (s, blank).

Definition the_priorities : M world (list Z) :=
  let* f := self in
  match priorities f with
  | Some l => ret l
  | None => raise AttributeError
  end.

(** [[self.priorities[port] for port in activeports]] *)
Fixpoint priorities_of (prios : list Z) (l : list Z) : M world (list Z) :=
  match l with
  | [] => ret []
  | port :: l' =>
      let* p := index prios port in
      let* ps := priorities_of prios l' in
      ret (p :: ps)
  end.

(** The [for port in activeports] loop that sets the candidates below
    [maxpriority] to [None]. *)
Fixpoint mask (prios : list Z) (maxpriority : Z) (l : list Z)
    (pktList : list (option packet)) : M world (list (option packet)) :=
  match l with
  | [] => ret pktList
  | port :: l' =>
      let* p := index prios port in
      let* pktList' := (if p <? maxpriority then assign pktList port None else ret pktList) in
      mask prios maxpriority l' pktList'
  end.

(** What the loop does on a hit; [pktList] is the list as it was passed in,
    [masked] the list after the loop above. *)
Definition hit (pktList masked : list (option packet)) (maxpriority outPort candidate : Z)
    : M world unit :=
  let* f := self in
  let* row := index (lastportPerClass f) maxpriority in
  let* row' := assign row outPort candidate in
  let* tbl := assign (lastportPerClass f) maxpriority row' in
  update (set_lastportPerClass tbl) >>
  let* l := assign (lastport (xbar f)) outPort candidate in
  update (set_xbar (set_lastport l (xbar f))) >>
  log_decision xbar "Fixed Priority arbitration elected packet"
               (activeports pktList) masked candidate outPort.

Definition arbitratePkts (pktList : list (option packet)) (outPort : Z) : M world (option Z) :=
  let active := activeports pktList in
  let* f := self in
  in_env (Sim.Log (name (xbar f)) "DEBUG" "Ports are unmasked for outPort" []) >>
  let* prios := the_priorities in
  let* ps := priorities_of prios active in
  match list_max ps with
  | None => raise ValueError
  | Some maxpriority =>
      let* masked := mask prios maxpriority active pktList in
      let* row := index (lastportPerClass f) maxpriority in
      let* last := index row outPort in
      if inPorts (xbar f) =? 0 then raise ZeroDivisionError
      else scan_from xbar (hit pktList masked maxpriority outPort)
                     (Z.to_nat (inPorts (xbar f))) masked ((last + 1) mod inPorts (xbar f))
  end.

End FixedPriorityCrossbar.

End Arbiters.

(** ** Runs used by the statements below *)

Module Runs.

(** [n] consecutive calls of an arbitration routine on the same candidates;
    the grants are listed in the order they were made. *)
Fixpoint rounds {St} (arbitrate : M St (option Z)) (n : nat) : M St (list (option Z)) :=
  match n with
  | O => ret []
  | S n' =>
      let* g := arbitrate in
      let* gs := rounds arbitrate n' in
      ret (g :: gs)
  end.

(** The result of an outcome that returned. *)
Definition returned {St A} (o : outcome St A) : option A :=
  match o with
  | Ret a _ => Some a
  | _ => None
  end.

(** The exception of an outcome that raised. *)
Definition raised {St A} (o : outcome St A) : option exn :=
  match o with
  | Raise e _ => Some e
  | _ => None
  end.

(** The state an outcome ends in. *)
Definition final {St A} (o : outcome St A) : option St :=
  match o with
  | Ret _ s => Some s
  | Raise _ s => Some s
  | Timeout => None
  end.

End Runs.

Import Runs.


(** ** Vocabulary of the arbitration statements *)

Module Contention.

(** Input [i] offers a candidate / offers none. *)
Definition present (pktList : list (option packet)) (i : Z) : Prop :=
  exists p, getitem pktList i = Some (Some p).

Definition absent (pktList : list (option packet)) (i : Z) : Prop :=
  getitem pktList i = Some None.

(** [c] is the first input with a candidate when the [n] inputs are scanned
    forward from [start], wrapping. *)
Definition first_from (pktList : list (option packet)) (n start c : Z) : Prop :=
  exists k, 0 <= k < n /\ c = (start + k) mod n /\ present pktList c /\
            forall j, 0 <= j < k -> absent pktList ((start + j) mod n).

(** Every input offers a candidate. *)
Definition full (pktList : list (option packet)) : Prop :=
  Forall (fun o => is_Some o) pktList.

(** A crossbar with [inPorts >= 1], its ports connected, and [outPort] one of
    its outputs. *)
Definition connected (x : Arbiters.crossbar) (outPort : Z) : Prop :=
  1 <= Arbiters.inPorts x /\
  Arbiters.wired (Arbiters.inPorts x) (Arbiters.toUp x) /\
  Arbiters.wired (Arbiters.outPorts x) (Arbiters.toDn x) /\
  0 <= outPort < Arbiters.outPorts x /\
  Z.of_nat (length (Arbiters.lastport x)) = Arbiters.outPorts x.

(** Input [i] offers a candidate and has priority class [p]. *)
Definition in_class (prios : list Z) (pktList : list (option packet)) (p i : Z) : Prop :=
  present pktList i /\ getitem prios i = Some p.

(** [p] is the numerically highest priority class among the inputs that
    offer a candidate. *)
Definition top_class (prios : list Z) (pktList : list (option packet)) (p : Z) : Prop :=
  (exists i, 0 <= i /\ in_class prios pktList p i) /\
  forall i q, 0 <= i -> in_class prios pktList q i -> q <= p.

(** [c] is the first input of class [p] with a candidate when the [n] inputs
    are scanned forward from [start], wrapping. *)
Definition first_in_class (prios : list Z) (pktList : list (option packet))
    (p n start c : Z) : Prop :=
  exists k, 0 <= k < n /\ c = (start + k) mod n /\ in_class prios pktList p c /\
            forall j, 0 <= j < k -> ~ in_class prios pktList p ((start + j) mod n).

(** A fixed-priority crossbar as [__init__] builds it from priority classes
    [0 .. max]: connected, one priority per input, and in
    [lastportPerClass] a row per class with an entry per output. *)
Definition classes_allocated (f : Arbiters.FixedPriorityCrossbar.fp) (outPort : Z) : Prop :=
  connected (Arbiters.FixedPriorityCrossbar.xbar f) outPort /\
  exists prios,
    Arbiters.FixedPriorityCrossbar.priorities f = Some prios /\
    Z.of_nat (length prios) = Arbiters.inPorts (Arbiters.FixedPriorityCrossbar.xbar f) /\
    Forall (fun p => 0 <= p < Z.of_nat (length (Arbiters.FixedPriorityCrossbar.lastportPerClass f)))
           prios /\
    Forall (fun row => Z.of_nat (length row)
                       = Arbiters.outPorts (Arbiters.FixedPriorityCrossbar.xbar f))
           (Arbiters.FixedPriorityCrossbar.lastportPerClass f).

(** The crossbar of scenario C: two inputs, both offering a packet at every
    call. *)
Definition scenario_C_packets : list (option packet) :=
  [Some (Packet 0 1 1); Some (Packet 1 1 1)].

End Contention.

(** ** Vocabulary of the queue statements *)

Module Queues.

(** Head-of-line discipline of one call of a trigger routine: the requests it
    handed to the hook are the first ones of the queue, in order, and a
    request that the hook left pending is the last one it looked at. *)
Definition head_of_line (queue : list evid) (scanned : list (evid * bool)) : Prop :=
  (fst <$> scanned) `prefix_of` queue /\
  forall i e, scanned !! i = Some (e, false) -> S i = length scanned.

(** [m] never runs out of fuel. *)
Definition comes_back {St A} (m : M St A) : Prop := forall s, m s <> Timeout.

(** Partial correctness of a computation that returns. *)
Definition hoare {St A} (P : St -> Prop) (m : M St A) (Q : A -> St -> Prop) : Prop :=
  forall s a s', P s -> m s = Ret a s' -> Q a s'.

(** The requests of [Q] are all different, all exist, and all are pending
    except perhaps those of [X]. *)
Definition queued_pending_but (X : list evid) (s : sim) (Q : list evid) : Prop :=
  NoDup Q /\
  forall e, e ∈ Q -> (e < length (events s))%nat /\ (e ∉ X -> triggered e s = false).

(** Every request of [Q] is a still-pending request. *)
Definition queued_pending (s : sim) (Q : list evid) : Prop :=
  NoDup Q /\ forall e, e ∈ Q -> pending e s.

(** From [s] to [s'] no event disappeared, and only events of [R] may have
    been triggered. *)
Definition advances (R : evid -> Prop) (s s' : sim) : Prop :=
  (length (events s) <= length (events s'))%nat /\
  forall e, (e < length (events s))%nat -> ~ R e -> triggered e s' = triggered e s.

Definition nobody : evid -> Prop := fun _ => False.

(** An operation of the environment that triggers no event. *)
Definition quiet {A} (m : M sim A) : Prop :=
  forall s a s', m s = Ret a s' -> advances nobody s s'.

(** The queues of an object, seen through [view], are as [v] says and their
    requests are pending, but perhaps for those of [X]. *)
Definition kept {T V} (view : T -> V) (requests : V -> list evid)
    (X : list evid) (v : V) (w : sim * T) : Prop :=
  view (snd w) = v /\ queued_pending_but X (fst w) (requests v).

(** Between two operations no request is excused. *)
Definition settled {T V} (view : T -> V) (requests : V -> list evid) (w : sim * T) : Prop :=
  exists v, kept view requests [] v w.

(** A computation that leaves the queues alone and triggers nothing. *)
Definition benign {T V A} (view : T -> V) (requests : V -> list evid)
    (m : M (sim * T) A) : Prop :=
  forall X v, hoare (kept view requests X v) m (fun _ => kept view requests X v).

(** The three queues of a resource, and the requests in them. *)
Definition three : Type := list evid * list evid * list evid.

Definition requests3 (v : three) : list evid := v.1.1 ++ v.1.2 ++ v.2.

(** The requests of a resource next to those, [G], of the object it is part of. *)
Definition beside (G : list evid) (v : three) : list evid := G ++ requests3 v.

Definition buffer_view (b : Buffers.buffer) : three :=
  (Buffers.put_queue b, Buffers.get_queue b, Buffers.peek_queue b).

Definition credit_view (c : CreditBuffer.creditbuffer) : three :=
  (CreditBuffer.put_queue c, CreditBuffer.get_queue c, CreditBuffer.peek_queue c).

(** A pipeline has its own put queue and the queues of its credit buffer. *)
Definition pipeline_view (p : Pipelines.pipeline) : list evid * three :=
  (Pipelines.put_queue p, credit_view (Pipelines.credits p)).

Definition requests4 (v : list evid * three) : list evid := v.1 ++ requests3 v.2.

Definition buffer_queues (b : Buffers.buffer) : list evid := requests3 (buffer_view b).

Definition credit_queues (c : CreditBuffer.creditbuffer) : list evid :=
  requests3 (credit_view c).

Definition pipeline_queues (p : Pipelines.pipeline) : list evid :=
  requests4 (pipeline_view p).

End Queues.

(** ** A buffer with a put delay and one producer *)

Module Overfill.

(** A plain buffer of capacity 1 that takes 2 cycles before an item is
    inserted and writes 16 bytes per cycle, one tick per cycle. *)
Definition config : Buffers.config :=
  Buffers.Config "buf" Buffers.Plain 1 2 0 16 16 1.

Definition pkt (n : nat) : pyval := PyPkt (Packet n 1 1).

(** The producer puts a packet, waits for the put event (one tick), puts the
    next packet and waits again; the environment then processes the two
    insertions that were scheduled. *)
Definition producer : list BufferRun.action :=
  [BufferRun.Put (pkt 0) None; BufferRun.Step;
   BufferRun.Put (pkt 1) None; BufferRun.Step;
   BufferRun.Step; BufferRun.Step].

End Overfill.

Module Resolved.
Import Buffers.

Definition config : Buffers.config :=
  Buffers.Config "buf" Buffers.Plain 4 0 0 16 16 1.

Definition pkt : pyval := PyPkt (Packet 0 1 1).

(** [BufferPeek.__init__] up to its call of [_trigger_peek]: the new request
    is at the back of [peek_queue]. *)
Definition ask : M world evid :=
  let* e := in_env (NewEvent PyNone None) in
  update (fun b => set_peek_queue (peek_queue b ++ [e]) b) >>
  ret e.

(** A buffer that was given a packet, and a peek request that the trigger
    routine is about to look at. *)
Definition asked : outcome world evid :=
  (put pkt None >> ask) (empty_sim, init config).

(** A consumer that asks an empty buffer for a packet. *)
Definition consumer : list BufferRun.action := [BufferRun.Get PyNone None].

End Resolved.

(** ** What the operations of the environment leave behind *)

Module Effects.

(** A line appended to the log: [self.logger.<level>(fullmsg)]. *)
Definition logged (l : level) (nm msg : string) (s : sim) : sim :=
  MkSim (now s) (sched s) (eid s) (events s) (logs s ++ [LogEntry l (now s) nm msg]).

(** A new pending event at the next free place. *)
Definition created (item : pyval) (caller : option string) (s : sim) : sim :=
  set_events (fun evs => evs ++ [Event item caller None false (Some [])]) s.

(** [e.callbacks += cbs] on an event that was not processed yet. *)
Definition subscribed (e : evid) (cbs : list callback) (s : sim) : sim :=
  set_events
    (alter (fun ev => Event (ev_item ev) (ev_caller ev) (ev_value ev) (ev_ok ev)
                            (match ev_callbacks ev with
                             | Some old => Some (old ++ cbs)
                             | None => None
                             end)) e) s.

(** [e.succeed(value, delay)] on a pending event: the value is set and the
    event is scheduled at [now + delay]. *)
Definition resolved (e : evid) (value : pyval) (delay : Z) (s : sim) : sim :=
  MkSim (now s) (sched s ++ [(now s + delay, NORMAL, eid s, e)]) (S (eid s))
        (alter (fun ev => Event (ev_item ev) (ev_caller ev) (Some value) true (ev_callbacks ev))
               e (events s))
        (logs s).

(** [e.value], [e.item] and [e.callbacks] as the heap has them. *)
Definition value_of (e : evid) (s : sim) : option pyval :=
  match events s !! e with
  | Some ev => ev_value ev
  | None => None
  end.

Definition item_of (e : evid) (s : sim) : option pyval :=
  match events s !! e with
  | Some ev => Some (ev_item ev)
  | None => None
  end.

(** The event is there and was not processed yet. *)
Definition open (e : evid) (s : sim) : Prop :=
  exists ev cbs, events s !! e = Some ev /\ ev_callbacks ev = Some cbs.

(** The times at which [e] is scheduled. *)
Definition scheduled_at (e : evid) (s : sim) : list Z :=
  (fun x => x.1.1.1) <$> filter (fun x => x.2 = e) (sched s).

End Effects.

(** ** Using a buffer *)

Module Use.
Import Buffers.

(** From [b] to [b'] the configuration and the three queues are the same. *)
Definition steady (b b' : buffer) : Prop :=
  cfg b' = cfg b /\ put_queue b' = put_queue b /\
  get_queue b' = get_queue b /\ peek_queue b' = peek_queue b.

(** Nobody waits at the buffer. *)
Definition idle (b : buffer) : Prop :=
  put_queue b = [] /\ get_queue b = [] /\ peek_queue b = [].

(** Items go in at once: no put delay, and not a store-and-forward buffer,
    whose pre-put delay counts the cycles of the packet. *)
Definition puts_at_once (c : config) : Prop :=
  putDelay c * simTicksPerCycle c = 0 /\ variant c <> StoreAndForward.

(** No event of the heap has the late insertion of a packet, which
    [_do_put] registers when there is a pre-put delay, among its callbacks. *)
Definition no_late_insert (s : sim) : Prop :=
  forall e ev cbs, events s !! e = Some ev -> ev_callbacks ev = Some cbs ->
                   CB_insert_packet ∉ cbs.

(** The items fit the capacity of a buffer that takes items at once. *)
Definition within (b : buffer) : Prop :=
  occupiedSlots b <= capacity (cfg b) /\ puts_at_once (cfg b).

(** [yield buf.put(p)] for each packet of a list, and [n] times
    [yield buf.get()], without waiting for the events: the requests made. *)
Fixpoint puts (ps : list packet) : M world (list evid) :=
  match ps with
  | [] => ret []
  | p :: ps' =>
      let* e := put (PyPkt p) None in
      let* es := puts ps' in
      ret (e :: es)
  end.

Fixpoint gets (n : nat) : M world (list evid) :=
  match n with
  | O => ret []
  | S n' =>
      let* e := get PyNone None in
      let* es := gets n' in
      ret (e :: es)
  end.

(** A producer puts two packets, the second while the buffer is full; a
    consumer takes one once the first put was processed, which lets the
    second packet in. *)
Definition traffic : list BufferRun.action :=
  [BufferRun.Put (PyPkt (Packet 0 1 1)) None; BufferRun.Put (PyPkt (Packet 1 1 1)) None;
   BufferRun.Step; BufferRun.Get PyNone None; BufferRun.Step].

End Use.

(** ** Vocabulary of the statements about grants *)

Module Grants.
Import Arbiters Contention.

(** A fixed-priority crossbar as [__init__] leaves it when no priorities are
    given: every input of class 0, and the pointers of that one class equal
    to [lastport]. *)
Definition unprioritised (f : FixedPriorityCrossbar.fp) : Prop :=
  FixedPriorityCrossbar.priorities f
    = Some (replicate (Z.to_nat (inPorts (FixedPriorityCrossbar.xbar f))) 0) /\
  FixedPriorityCrossbar.lastportPerClass f = [lastport (FixedPriorityCrossbar.xbar f)].

(** Input [i] offers a candidate and has been granted fewer times than its
    weight. *)
Definition below (pktList : list (option packet)) (ws grants : list Z) (i : Z) : Prop :=
  present pktList i /\
  exists g wt, getitem grants i = Some g /\ getitem ws i = Some wt /\ g < wt.

(** [c] is the first input below its weight when the [n] inputs are scanned
    forward from [start], wrapping. *)
Definition first_below (pktList : list (option packet)) (ws grants : list Z)
    (n start c : Z) : Prop :=
  exists k, 0 <= k < n /\ c = (start + k) mod n /\ below pktList ws grants c /\
            forall j, 0 <= j < k -> ~ below pktList ws grants ((start + j) mod n).

(** A weighted crossbar in service: connected, the last served input of
    [outPort] one of its inputs, a weight of at least 1 per input and every
    grant count between 0 and the weight. *)
Definition within_weights (w : WeightedRoundRobinCrossbar.wrr) (outPort : Z) : Prop :=
  let x := WeightedRoundRobinCrossbar.xbar w in
  connected x outPort /\
  (exists L, getitem (lastport x) outPort = Some L /\ 0 <= L < inPorts x) /\
  exists ws,
    WeightedRoundRobinCrossbar.weights w = Some ws /\
    Z.of_nat (length ws) = inPorts x /\
    Forall (fun wt => 1 <= wt) ws /\
    Forall2 (fun g wt => 0 <= g <= wt) (WeightedRoundRobinCrossbar.grants w) ws.

End Grants.
(** * Properties *)

(** ** Logging and fatal conditions *)

Lemma emit_returns l nm msg s :
  emit l nm msg s = Ret tt (MkSim (now s) (sched s) (eid s) (events s)
                                  (logs s ++ [LogEntry l (now s) nm msg])).
Proof. reflexivity. Qed.

Lemma infodump_returns nm (infolist : list string) s :
  exists s', foldr (fun it k => emit INFO nm it >> k) (ret tt) infolist s = Ret tt s'.
Proof.
  revert s. induction infolist as [|it l IH]; intros s; simpl.
  - eexists. reflexivity.
  - unfold bind at 1. rewrite emit_returns. apply IH.
Qed.

(** C1: a fatal condition reported through [Log] with message type
    'FATAL_ERROR' is expected to stop the run with an exception.  The test
    that guards the [raise] looks for 'ERRROR' in the message type, which
    'FATAL_ERROR' does not contain: the call logs the line and returns. *)
Theorem Log_FATAL_ERROR_returns fullname msg infolist s :
  exists s', Sim.Log fullname "FATAL_ERROR" msg infolist s = Ret tt s'.
Proof.
  unfold Sim.Log. cbn [String.eqb Ascii.eqb Bool.eqb].
  unfold bind at 1. rewrite emit_returns.
  unfold bind at 1.
  destruct infolist as [|it l].
  - eexists. reflexivity.
  - unfold bind at 1. rewrite emit_returns.
    destruct (infodump_returns fullname (it :: l)
                (MkSim (now s) (sched s) (eid s) (events s)
                   ((logs s ++ [LogEntry ERROR (now s) fullname msg]) ++
                    [LogEntry INFO (now s) fullname "\tInfodump follows:"]))) as [s' Hs'].
    cbn [now sched eid events logs] in *. rewrite Hs'. eexists. reflexivity.
Qed.

Lemma Log_FATAL_ERROR_plain fullname msg s :
  Sim.Log fullname "FATAL_ERROR" msg [] s =
  Ret tt (MkSim (now s) (sched s) (eid s) (events s)
                (logs s ++ [LogEntry ERROR (now s) fullname msg])).
Proof. reflexivity. Qed.

(** A busy pipeline that is asked to put again reports the fatal condition
    and carries on, still busy. *)
Lemma Pipeline_putBusy_carries_on s p :
  Pipelines.putBusy p = true ->
  exists s', Pipelines._putBusy (s, p) = Ret tt (s', p).
Proof.
  intros Hb. unfold Pipelines._putBusy, bind, self. cbn. rewrite Hb.
  unfold Pipelines.Log, bind, self, in_env, zoom. cbn.
  eexists. reflexivity.
Qed.

(** A weighted crossbar built with a weight list of the wrong length is
    handed out all the same, without its [weights]. *)
Lemma WRR_init_wrong_length_carries_on :
  exists s',
    Arbiters.WeightedRoundRobinCrossbar.new "xbar" 2 1
      (Arbiters.Indexed ∅) (Arbiters.Single "dn") [1; 2; 3] empty_sim
    = Ret tt (s', Arbiters.WeightedRoundRobinCrossbar.WRR
                    (Arbiters.init "xbar" 2 1 (Arbiters.Indexed ∅) (Arbiters.Single "dn"))
                    None [0; 0]).
Proof. eexists. vm_compute. reflexivity. Qed.

(** ** Events *)

Lemma succeed_pending e ev value delay s :
  events s !! e = Some ev -> ev_value ev = None ->
  succeed e value delay s =
  Ret tt (MkSim (now s) (sched s ++ [(now s + delay, NORMAL, eid s, e)]) (S (eid s))
                (<[e := Event (ev_item ev) (ev_caller ev) (Some value) true (ev_callbacks ev)]>
                   (events s))
                (logs s)).
Proof.
  intros He Hv. unfold succeed, bind, lookup_event. rewrite He, Hv. reflexivity.
Qed.

Lemma succeed_triggered e ev value delay s :
  events s !! e = Some ev -> ev_value ev <> None ->
  succeed e value delay s = Raise (RuntimeError "has already been triggered") s.
Proof.
  intros He Hv. unfold succeed, bind, lookup_event. rewrite He.
  destruct (ev_value ev); [reflexivity | congruence].
Qed.

Lemma triggered_spec e s :
  triggered e s = true <-> exists ev v, events s !! e = Some ev /\ ev_value ev = Some v.
Proof.
  unfold triggered. split.
  - destruct (events s !! e) as [ev|]; [|discriminate].
    destruct (ev_value ev) eqn:Hv; [|discriminate]. eauto.
  - intros (ev & v & -> & ->). reflexivity.
Qed.

Lemma pending_not_triggered e s : pending e s -> triggered e s = false.
Proof. intros (ev & He & Hv). unfold triggered. rewrite He, Hv. reflexivity. Qed.

(** C8: [succeed] on an event that has already been triggered raises a
    RuntimeError and leaves the whole state, so the event's value, success
    flag and callbacks, as it was; on a pending event it records the value,
    marks the event successful and queues it at [now + delay], after which
    the event is triggered and a further [succeed] raises.  When that queue
    entry is the next one, the step of the environment moves [now] to
    [now + delay] and calls the callbacks of the event in order. *)
Theorem succeed_exactly_once e ev value delay s :
  events s !! e = Some ev ->
  match ev_value ev with
  | Some _ =>
      succeed e value delay s = Raise (RuntimeError "has already been triggered") s
  | None =>
      let s' := MkSim (now s) (sched s ++ [(now s + delay, NORMAL, eid s, e)]) (S (eid s))
                      (<[e := Event (ev_item ev) (ev_caller ev) (Some value) true
                                    (ev_callbacks ev)]> (events s))
                      (logs s) in
      succeed e value delay s = Ret tt s' /\
      triggered e s' = true /\
      (forall value' delay',
          succeed e value' delay' s' = Raise (RuntimeError "has already been triggered") s') /\
      (forall (T : Type) (rc : callback -> evid -> M (sim * T) unit) (obj : T) cbs,
          sched s = [] -> ev_callbacks ev = Some cbs ->
          Scheduler.step rc (s', obj) =
          Scheduler.run_callbacks rc cbs e
            (MkSim (now s + delay) [] (S (eid s))
                   (<[e := Event (ev_item ev) (ev_caller ev) (Some value) true None]> (events s))
                   (logs s), obj))
  end.
Proof.
  intros He. destruct (ev_value ev) eqn:Hv.
  - apply (succeed_triggered e ev); [assumption | congruence].
  - assert (Hlt : (e < length (events s))%nat) by (eapply lookup_lt_Some; eassumption).
    cbv zeta. split; [apply (succeed_pending e ev); assumption|].
    split; [|split].
    + unfold triggered. cbn [events]. rewrite list_lookup_insert_eq by assumption. reflexivity.
    + intros value' delay'. eapply succeed_triggered.
      * cbn [events]. rewrite list_lookup_insert_eq by assumption. reflexivity.
      * cbn. congruence.
    + intros T rc obj cbs Hs Hc.
      unfold Scheduler.step, bind, the_env. cbn [fst snd sched]. rewrite Hs. cbn.
      unfold in_env, zoom, lookup_event. cbn [fst snd events].
      rewrite list_lookup_insert_eq by assumption. cbn.
      rewrite list_insert_insert_eq. rewrite Hc. reflexivity.
Qed.

Lemma succeed_exactly_once_witness :
  let s := MkSim 7 [] 0%nat [Event PyNone None None false (Some [CB_resume 0])] [] in
  succeed 0%nat (PyInt 5) 3 s =
  Ret tt (MkSim 7 [(10, NORMAL, 0%nat, 0%nat)] 1%nat
                [Event PyNone None (Some (PyInt 5)) true (Some [CB_resume 0])] []).
Proof.
  intros s.
  exact (proj1 (succeed_exactly_once 0%nat (Event PyNone None None false (Some [CB_resume 0]))
                  (PyInt 5) 3 s eq_refl)).
Defined.

(** ** The outcome monad *)

Lemma bind_Ret {S A B} (m : M S A) (k : A -> M S B) s a s' :
  m s = Ret a s' -> bind m k s = k a s'.
Proof. intros H. unfold bind. rewrite H. reflexivity. Qed.

Lemma bind_Raise {S A B} (m : M S A) (k : A -> M S B) s e s' :
  m s = Raise e s' -> bind m k s = Raise e s'.
Proof. intros H. unfold bind. rewrite H. reflexivity. Qed.

Lemma bind_inv_Ret {S A B} (m : M S A) (k : A -> M S B) s b s' :
  bind m k s = Ret b s' -> exists a s1, m s = Ret a s1 /\ k a s1 = Ret b s'.
Proof.
  unfold bind. destruct (m s) as [a s1|e s1|]; intros H; try discriminate. eauto.
Qed.

Lemma in_env_Ret {E T A} (m : M E A) (w : E * T) a e' :
  m (fst w) = Ret a e' -> in_env m w = Ret a (e', snd w).
Proof. intros H. unfold in_env, zoom. rewrite H. reflexivity. Qed.

(** ** Python indexing *)

Lemma getitem_nonneg {A} (l : list A) (i : Z) :
  0 <= i -> getitem l i = l !! Z.to_nat i.
Proof.
  intros Hi. unfold getitem, norm_index.
  destruct (Z.leb_spec 0 i); [|lia].
  destruct (Z.ltb_spec i (Z.of_nat (length l))); [reflexivity|].
  symmetry. apply lookup_ge_None. lia.
Qed.

Lemma getitem_Some_range {A} (l : list A) (i : Z) a :
  0 <= i -> getitem l i = Some a -> i < Z.of_nat (length l).
Proof.
  intros Hi. rewrite getitem_nonneg by assumption. intros H.
  apply lookup_lt_Some in H. lia.
Qed.

Lemma getitem_minus_one {A} (l : list A) a :
  getitem (l ++ [a]) (-1) = Some a.
Proof.
  unfold getitem, norm_index. rewrite length_app. cbn [length].
  destruct (Z.leb_spec 0 (-1)); [lia|].
  destruct (Z.leb_spec 0 (Z.of_nat (length l + 1) + -1)); [|lia].
  replace (Z.to_nat (Z.of_nat (length l + 1) + -1)) with (length l) by lia.
  rewrite lookup_app_r by lia. rewrite Nat.sub_diag. reflexivity.
Qed.

Lemma setitem_nonneg {A} (l : list A) (i : Z) a :
  0 <= i < Z.of_nat (length l) -> setitem l i a = Some (<[Z.to_nat i := a]> l).
Proof.
  intros Hi. unfold setitem, norm_index.
  destruct (Z.leb_spec 0 i); [|lia].
  destruct (Z.ltb_spec i (Z.of_nat (length l))); [reflexivity|lia].
Qed.

Lemma setitem_minus_one {A} (l : list A) a b :
  setitem (l ++ [a]) (-1) b = Some (l ++ [b]).
Proof.
  unfold setitem, norm_index. rewrite length_app. cbn [length].
  destruct (Z.leb_spec 0 (-1)); [lia|].
  destruct (Z.leb_spec 0 (Z.of_nat (length l + 1) + -1)); [|lia].
  replace (Z.to_nat (Z.of_nat (length l + 1) + -1)) with (length l + 0)%nat by lia.
  rewrite insert_app_r. reflexivity.
Qed.

(** ** Arbitration: the parts common to the three arbiters *)

Import Arbiters Contention.

Lemma enumerate_active_range k (l : list (option packet)) :
  Forall (fun i => k <= i < k + Z.of_nat (length l)) (enumerate_active k l).
Proof.
  revert k. induction l as [|[p|] l IH]; intros k; cbn [enumerate_active length].
  - constructor.
  - constructor; [lia|]. eapply Forall_impl; [apply IH|]. cbn. intros; lia.
  - eapply Forall_impl; [apply IH|]. cbn. intros; lia.
Qed.

Lemma activeports_range (l : list (option packet)) :
  Forall (fun i => 0 <= i < Z.of_nat (length l)) (activeports l).
Proof. apply (enumerate_active_range 0 l). Qed.

Lemma wired_keys n (d : gmap Z string) i :
  wired n (Indexed d) -> is_Some (d !! i) <-> 0 <= i < n.
Proof.
  intros [_ Hd]. rewrite <- elem_of_dom, Hd, elem_of_list_to_set, elem_of_seqZ. lia.
Qed.

Section CommonFacts.
Context {T : Type}.
Variable base : T -> crossbar.

Lemma port_names_wired n (ps : ports) (l : list Z) (w : sim * T) :
  1 < n -> wired n ps -> Forall (fun i => 0 <= i < n) l ->
  exists nms, port_names ps l w = Ret nms w.
Proof.
  intros Hn Hw Hl. induction Hl as [|i l Hi _ IH].
  - eexists. reflexivity.
  - destruct IH as [nms IH]. destruct ps as [nm|d]; cbn in Hw; [lia|].
    destruct (proj2 (wired_keys n d i Hw) Hi) as [nm Hnm].
    cbn [port_names]. unfold bind at 1. unfold indexed_name. rewrite Hnm. cbn.
    unfold bind. rewrite IH. eexists. reflexivity.
Qed.

Lemma port_name_wired n (ps : ports) (i : Z) (w : sim * T) :
  wired n ps -> 0 <= i < n ->
  exists nm, port_name n ps i w = Ret nm w.
Proof.
  intros Hw Hi. unfold port_name. destruct ps as [nm|d]; cbn in Hw.
  - destruct (Z.ltb_spec 1 n); [lia|]. eexists. reflexivity.
  - destruct (proj2 (wired_keys n d i Hw) Hi) as [nm Hnm].
    destruct Hw as [Hn Hd]. destruct (Z.ltb_spec 1 n); [|lia].
    unfold indexed_name. rewrite Hnm.
    eexists. reflexivity.
Qed.

(** On a connected crossbar the log line of a decision for an input in range
    is written and nothing else happens. *)
Lemma log_decision_connected msg active pktList c outPort p (s : sim) (t : T) :
  connected (base t) outPort ->
  0 <= c < inPorts (base t) ->
  Forall (fun i => 0 <= i < inPorts (base t)) active ->
  getitem pktList c = Some (Some p) ->
  log_decision base msg active pktList c outPort (s, t) =
  Ret tt (MkSim (now s) (sched s) (eid s) (events s)
                (logs s ++ [LogEntry INFO (now s) (name (base t)) msg]), t).
Proof.
  intros (Hn & Hup & Hdn & Ho & _) Hc Hact Hp.
  unfold log_decision. unfold bind at 1. unfold gets. cbn [snd].
  destruct (port_name_wired _ _ c (s, t) Hup Hc) as [n1 H1].
  rewrite (bind_Ret _ _ _ _ _ H1).
  destruct (port_name_wired _ _ outPort (s, t) Hdn Ho) as [n2 H2].
  rewrite (bind_Ret _ _ _ _ _ H2).
  assert (Hnames : exists nms,
    (if 1 <? inPorts (base t) then port_names (toUp (base t)) active
     else let* nm := single_name (toUp (base t)) in ret [nm]) (s, t) = Ret nms (s, t)).
  { destruct (Z.ltb_spec 1 (inPorts (base t))) as [Hlt|Hge].
    - eapply port_names_wired; eassumption.
    - destruct (toUp (base t)) as [nm|d]; cbn in Hup; [|lia].
      eexists. reflexivity. }
  destruct Hnames as [nms H3]. rewrite (bind_Ret _ _ _ _ _ H3).
  rewrite Hp. reflexivity.
Qed.

(** The cyclic scan, when the first candidate is [k] inputs ahead. *)
Lemma scan_from_first hit pktList (k : nat) : forall (left : nat) c0 (w : sim * T) p,
  let n := inPorts (base (snd w)) in
  0 <= c0 < n -> (k < left)%nat ->
  (forall j : nat, (j < k)%nat -> getitem pktList ((c0 + Z.of_nat j) mod n) = Some None) ->
  getitem pktList ((c0 + Z.of_nat k) mod n) = Some (Some p) ->
  scan_from base hit left pktList c0 w =
  (hit ((c0 + Z.of_nat k) mod n) >> ret (Some ((c0 + Z.of_nat k) mod n))) w.
Proof.
  induction k as [|k IH]; intros left c0 w p n Hc Hk Hnone Hsome.
  - destruct left as [|left]; [lia|].
    replace ((c0 + Z.of_nat 0) mod n) with c0 in * by (rewrite Z.add_0_r, Z.mod_small; lia).
    cbn [scan_from]. unfold bind at 1. unfold gets.
    unfold bind at 1. unfold offered. rewrite Hsome. reflexivity.
  - destruct left as [|left]; [lia|].
    cbn [scan_from]. unfold bind at 1. unfold gets.
    unfold bind at 1. unfold offered.
    pose proof (Hnone 0%nat ltac:(lia)) as H0.
    replace ((c0 + Z.of_nat 0) mod n) with c0 in H0 by (rewrite Z.add_0_r, Z.mod_small; lia).
    rewrite H0. cbn [ret].
    fold n.
    assert (Hshift : forall j : nat,
      (((c0 + 1) mod n) + Z.of_nat j) mod n = (c0 + Z.of_nat (S j)) mod n).
    { intros j. rewrite Zplus_mod_idemp_l. f_equal. lia. }
    rewrite (IH left ((c0 + 1) mod n) w p).
    + fold n. rewrite Hshift. reflexivity.
    + apply Z.mod_pos_bound. lia.
    + lia.
    + intros j Hj. fold n. rewrite Hshift. apply Hnone. lia.
    + fold n. rewrite Hshift. exact Hsome.
Qed.

(** The cyclic scan, when no input of the round has a candidate. *)
Lemma scan_from_nothing hit pktList : forall (left : nat) c0 (w : sim * T),
  let n := inPorts (base (snd w)) in
  0 <= c0 < n ->
  (forall j : nat, (j < left)%nat -> getitem pktList ((c0 + Z.of_nat j) mod n) = Some None) ->
  scan_from base hit left pktList c0 w = Ret None w.
Proof.
  induction left as [|left IH]; intros c0 w n Hc Hnone; [reflexivity|].
  cbn [scan_from]. unfold bind at 1. unfold gets.
  unfold bind at 1. unfold offered.
  pose proof (Hnone 0%nat ltac:(lia)) as H0.
  replace ((c0 + Z.of_nat 0) mod n) with c0 in H0 by (rewrite Z.add_0_r, Z.mod_small; lia).
  rewrite H0. cbn [ret]. fold n.
  apply IH.
  - apply Z.mod_pos_bound. lia.
  - intros j Hj. fold n. rewrite Zplus_mod_idemp_l.
    replace (c0 + 1 + Z.of_nat j) with (c0 + Z.of_nat (S j)) by lia. apply Hnone. lia.
Qed.

(** Whatever the scan returns is the first candidate ahead, and the state it
    ends in is the one its hit action made. *)
Lemma scan_from_returns hit pktList : forall (left : nat) c0 (w w' : sim * T) c,
  let n := inPorts (base (snd w)) in
  0 <= c0 < n ->
  scan_from base hit left pktList c0 w = Ret (Some c) w' ->
  exists k : nat, (k < left)%nat /\ c = (c0 + Z.of_nat k) mod n /\
    present pktList c /\
    (forall j : nat, (j < k)%nat -> absent pktList ((c0 + Z.of_nat j) mod n)) /\
    hit c w = Ret tt w'.
Proof.
  induction left as [|left IH]; intros c0 w w' c n Hc Hrun; [discriminate|].
  cbn [scan_from] in Hrun. unfold bind at 1 in Hrun. unfold gets in Hrun.
  unfold bind at 1 in Hrun. unfold offered in Hrun.
  destruct (getitem pktList c0) as [[p|]|] eqn:Hg; cbn in Hrun; try discriminate.
  - exists 0%nat. unfold bind in Hrun.
    destruct (hit c0 w) as [[] w1|e w1|] eqn:Hh; try discriminate.
    injection Hrun as <- <-.
    replace ((c0 + Z.of_nat 0) mod n) with c0 by (rewrite Z.add_0_r, Z.mod_small; lia).
    split; [lia|]. split; [reflexivity|]. split; [exists p; exact Hg|].
    split; [intros j Hj; lia | exact Hh].
  - fold n in Hrun.
    destruct (IH ((c0 + 1) mod n) w w' c) as (k & Hk & Hck & Hp & Hbefore & Hh).
    + apply Z.mod_pos_bound. lia.
    + exact Hrun.
    + fold n in Hck, Hbefore.
      exists (S k). split; [lia|].
      split; [rewrite Hck, Zplus_mod_idemp_l; f_equal; lia|].
      split; [exact Hp|]. split; [|exact Hh].
      intros [|j] Hj.
      * replace ((c0 + Z.of_nat 0) mod n) with c0 by (rewrite Z.add_0_r, Z.mod_small; lia).
        exact Hg.
      * specialize (Hbefore j ltac:(lia)). rewrite Zplus_mod_idemp_l in Hbefore.
        replace (c0 + Z.of_nat (S j)) with (c0 + 1 + Z.of_nat j) by lia. exact Hbefore.
Qed.

End CommonFacts.

(** ** Round-robin arbitration *)

Lemma cyclic_injective a n k k' :
  0 <= k < n -> 0 <= k' < n -> (a + k) mod n = (a + k') mod n -> k = k'.
Proof.
  intros Hk Hk' H.
  pose proof (Z.div_mod (a + k) n ltac:(lia)) as E1.
  pose proof (Z.div_mod (a + k') n ltac:(lia)) as E2.
  rewrite H in E1.
  assert (Hd : k - k' = n * ((a + k) / n - (a + k') / n)) by lia.
  assert (H0 : (a + k) / n - (a + k') / n = 0) by nia.
  lia.
Qed.

Lemma cyclic_surjective a n i :
  0 <= i < n -> exists k, 0 <= k < n /\ (a + k) mod n = i.
Proof.
  intros Hi. exists ((i - a) mod n). split.
  - apply Z.mod_pos_bound. lia.
  - rewrite Zplus_mod_idemp_r. replace (a + (i - a)) with i by lia.
    apply Z.mod_small. lia.
Qed.

(** One turn around the inputs starting anywhere visits every input once. *)
Lemma cyclic_order_permutation a (n : nat) :
  (fun k : nat => (a + Z.of_nat k) mod Z.of_nat n) <$> seq 0 n ≡ₚ seqZ 0 (Z.of_nat n).
Proof.
  apply NoDup_Permutation.
  - apply NoDup_fmap_2_strong; [|apply NoDup_seq].
    intros k k' Hk Hk' H. apply elem_of_seq in Hk, Hk'.
    apply (cyclic_injective a (Z.of_nat n)) in H; lia.
  - apply NoDup_seqZ.
  - intros i. rewrite list_elem_of_fmap, elem_of_seqZ. split.
    + intros (k & -> & Hk). apply elem_of_seq in Hk.
      pose proof (Z.mod_pos_bound (a + Z.of_nat k) (Z.of_nat n) ltac:(lia)). lia.
    + intros Hi. destruct (cyclic_surjective a (Z.of_nat n) i ltac:(lia)) as (k & Hk & E).
      exists (Z.to_nat k). split.
      * rewrite Z2Nat.id by lia. symmetry. exact E.
      * apply elem_of_seq. lia.
Qed.

Section RoundRobinFacts.
Import RoundRobinCrossbar.

Lemma connected_set_lastport x outPort o c :
  connected x outPort -> connected (set_lastport (<[o := c]> (lastport x)) x) outPort.
Proof.
  intros (H1 & H2 & H3 & H4 & H5). unfold connected. cbn.
  rewrite length_insert. auto.
Qed.

Lemma RR_hit_connected pktList outPort c p s x :
  connected x outPort ->
  Z.of_nat (length pktList) = inPorts x ->
  0 <= c < inPorts x ->
  getitem pktList c = Some (Some p) ->
  hit pktList outPort c (s, x) =
  Ret tt (MkSim (now s) (sched s) (eid s) (events s)
                (logs s ++ [LogEntry INFO (now s) (name x)
                                     "RoundRobin arbitration elected packet"]),
          set_lastport (<[Z.to_nat outPort := c]> (lastport x)) x).
Proof.
  intros Hconn Hlen Hc Hp. pose proof Hconn as (_ & _ & _ & Ho & Hl).
  unfold hit. unfold bind at 1. unfold self. cbn [snd].
  unfold bind at 1. unfold assign. rewrite setitem_nonneg by lia. cbn [ret].
  unfold bind at 1. unfold update. cbn [fst snd].
  rewrite (log_decision_connected id _ _ _ c outPort p).
  - reflexivity.
  - apply connected_set_lastport. exact Hconn.
  - exact Hc.
  - cbn. rewrite <- Hlen. apply activeports_range.
  - exact Hp.
Qed.

(** A single arbitration call. *)
Lemma RR_arbitrate_first pktList outPort L c s x :
  connected x outPort ->
  Z.of_nat (length pktList) = inPorts x ->
  getitem (lastport x) outPort = Some L ->
  first_from pktList (inPorts x) ((L + 1) mod inPorts x) c ->
  arbitratePkts pktList outPort (s, x) =
  Ret (Some c)
      (MkSim (now s) (sched s) (eid s) (events s)
             (logs s ++ [LogEntry INFO (now s) (name x)
                                  "RoundRobin arbitration elected packet"]),
       set_lastport (<[Z.to_nat outPort := c]> (lastport x)) x).
Proof.
  intros Hconn Hlen HL (k & Hk & -> & [p Hp] & Hbefore).
  pose proof Hconn as (Hn & _).
  unfold arbitratePkts. unfold bind at 1. unfold self. cbn [snd].
  unfold bind at 1. unfold index. rewrite HL. cbn [ret].
  destruct (Z.eqb_spec (inPorts x) 0); [lia|].
  pose proof (Z.mod_pos_bound (L + 1) (inPorts x) ltac:(lia)) as Hs.
  rewrite (scan_from_first id _ pktList (Z.to_nat k) _ _ (s, x) p); cbn [snd id];
    rewrite ?Z2Nat.id by lia; try assumption; try lia.
  - remember ((((L + 1) mod inPorts x) + k) mod inPorts x) as c eqn:Ec.
    assert (Hc : 0 <= c < inPorts x) by (subst c; apply Z.mod_pos_bound; lia).
    unfold bind. rewrite (RR_hit_connected pktList outPort c p); auto.
  - intros j Hj. apply Hbefore. lia.
Qed.

Lemma RR_arbitrate_nothing pktList outPort L s x :
  connected x outPort ->
  getitem (lastport x) outPort = Some L ->
  (forall i, 0 <= i < inPorts x -> absent pktList i) ->
  arbitratePkts pktList outPort (s, x) = Ret None (s, x).
Proof.
  intros Hconn HL Hnone. pose proof Hconn as (Hn & _).
  unfold arbitratePkts. unfold bind at 1. unfold self. cbn [snd].
  unfold bind at 1. unfold index. rewrite HL. cbn [ret].
  destruct (Z.eqb_spec (inPorts x) 0); [lia|].
  apply (scan_from_nothing id); cbn [snd id].
  - apply Z.mod_pos_bound. lia.
  - intros j Hj. apply Hnone. apply Z.mod_pos_bound. lia.
Qed.

Lemma full_present pktList i :
  full pktList -> 0 <= i < Z.of_nat (length pktList) -> present pktList i.
Proof.
  intros Hf Hi. unfold present. rewrite getitem_nonneg by lia.
  destruct (lookup_lt_is_Some_2 pktList (Z.to_nat i) ltac:(lia)) as [o Ho].
  rewrite Ho. unfold full in Hf. rewrite Forall_lookup in Hf.
  destruct (Hf _ _ Ho) as [p ->]. eauto.
Qed.

(** Under full contention, [m] consecutive calls serve the inputs in cyclic
    order from the one after the last served. *)
Lemma RR_rounds_full pktList outPort (m : nat) : forall L s x,
  connected x outPort ->
  Z.of_nat (length pktList) = inPorts x ->
  getitem (lastport x) outPort = Some L ->
  full pktList ->
  exists w',
    rounds (arbitratePkts pktList outPort) m (s, x) =
    Ret ((fun k : nat => Some ((L + 1 + Z.of_nat k) mod inPorts x)) <$> seq 0 m) w'.
Proof.
  induction m as [|m IH]; intros L s x Hconn Hlen HL Hfull.
  - eexists. reflexivity.
  - pose proof Hconn as (Hn & _ & _ & Ho & Hlp).
    set (n := inPorts x) in *.
    assert (Hc : 0 <= (L + 1) mod n < n) by (apply Z.mod_pos_bound; lia).
    assert (Hfirst : first_from pktList n ((L + 1) mod n) ((L + 1) mod n)).
    { exists 0. split; [lia|]. split; [|split].
      - rewrite Z.add_0_r, Z.mod_mod by lia. reflexivity.
      - apply full_present; [exact Hfull | lia].
      - intros j Hj. lia. }
    cbn [rounds].
    rewrite (bind_Ret _ _ _ _ _ (RR_arbitrate_first _ _ _ _ s x Hconn Hlen HL Hfirst)).
    edestruct (IH ((L + 1) mod n)) as [w' Hw'].
    + apply connected_set_lastport. exact Hconn.
    + exact Hlen.
    + cbn [lastport set_lastport]. rewrite getitem_nonneg by lia.
      apply list_lookup_insert_eq. lia.
    + exact Hfull.
    + rewrite (bind_Ret _ _ _ _ _ Hw'). cbn [ret inPorts set_lastport]. fold n.
      eexists. f_equal. cbn [seq fmap list_fmap]. f_equal.
      * rewrite Z.add_0_r. reflexivity.
      * rewrite <- fmap_S_seq, <- list_fmap_compose.
        apply list_fmap_ext. intros i k Hk. cbn. f_equal.
        replace ((L + 1) mod n + 1 + Z.of_nat k) with ((L + 1) mod n + (1 + Z.of_nat k)) by lia.
        rewrite Zplus_mod_idemp_l. f_equal. lia.
Qed.

End RoundRobinFacts.

(** C5: on a connected round-robin crossbar with [N] inputs, for any output
    and any value [L] of [lastport[outPort]], one arbitration call returns
    the first input with a candidate when the inputs are scanned forward
    from [(L+1) mod N], wrapping, and records it as last served (it returns
    [None] when no input has a candidate); when every input keeps offering a
    candidate, [N] consecutive calls serve [(L+1) mod N], [(L+2) mod N], ...
    in this order, which is every input exactly once. *)
Theorem round_robin_serves_in_cyclic_order pktList outPort L s x :
  connected x outPort ->
  Z.of_nat (length pktList) = inPorts x ->
  getitem (lastport x) outPort = Some L ->
  let n := inPorts x in
  (forall c, first_from pktList n ((L + 1) mod n) c ->
     exists s', RoundRobinCrossbar.arbitratePkts pktList outPort (s, x) =
                Ret (Some c) (s', set_lastport (<[Z.to_nat outPort := c]> (lastport x)) x)) /\
  ((forall i, 0 <= i < n -> absent pktList i) ->
     RoundRobinCrossbar.arbitratePkts pktList outPort (s, x) = Ret None (s, x)) /\
  (full pktList ->
     let order := (fun k : nat => (L + 1 + Z.of_nat k) mod n) <$> seq 0 (Z.to_nat n) in
     (exists w', rounds (RoundRobinCrossbar.arbitratePkts pktList outPort) (Z.to_nat n) (s, x) =
                 Ret (Some <$> order) w') /\
     order ≡ₚ seqZ 0 n).
Proof.
  intros Hconn Hlen HL n. split; [|split].
  - intros c Hc. eexists. apply (RR_arbitrate_first pktList outPort L); assumption.
  - intros Hnone. apply (RR_arbitrate_nothing pktList outPort L); assumption.
  - intros Hfull order. split.
    + destruct (RR_rounds_full pktList outPort (Z.to_nat n) L s x Hconn Hlen HL Hfull)
        as [w' Hw'].
      exists w'. rewrite Hw'. f_equal. unfold order. rewrite <- list_fmap_compose.
      reflexivity.
    + unfold order. destruct Hconn as (Hn & _). fold n in Hn.
      pose proof (cyclic_order_permutation (L + 1) (Z.to_nat n)) as HP.
      rewrite Z2Nat.id in HP by lia. exact HP.
Qed.

Lemma round_robin_serves_in_cyclic_order_witness :
  exists w',
    rounds (RoundRobinCrossbar.arbitratePkts
              [Some (Packet 0 1 1); Some (Packet 1 1 1); Some (Packet 2 1 1); Some (Packet 3 1 1)] 0)
           4 (empty_sim, init "xbar" 4 1 (connect_all ["a"; "b"; "c"; "d"]) (Single "dn"))
    = Ret [Some 0; Some 1; Some 2; Some 3] w'.
Proof.
  refine (proj1 (proj2 (proj2
    (round_robin_serves_in_cyclic_order
       [Some (Packet 0 1 1); Some (Packet 1 1 1); Some (Packet 2 1 1); Some (Packet 3 1 1)]
       0 (-1) empty_sim (init "xbar" 4 1 (connect_all ["a"; "b"; "c"; "d"]) (Single "dn"))
       _ eq_refl eq_refl)) _)).
  - unfold connected, wired; cbn. repeat split; try lia; vm_compute; reflexivity.
  - unfold full. repeat constructor; eexists; reflexivity.
Defined.

(** ** The credit buffer's peek *)

Lemma lookup_fresh_event (evs : list event) ev :
  (evs ++ [ev]) !! length evs = Some ev.
Proof. rewrite lookup_app_r by lia. rewrite Nat.sub_diag. reflexivity. Qed.

(** What [_do_peek] does on a pending request with threshold [t]: it succeeds
    the request when the counter is above [t], and leaves it alone otherwise. *)
Lemma CreditBuffer_do_peek e ev t s c :
  events s !! e = Some ev -> ev_item ev = PyInt t -> ev_value ev = None ->
  CreditBuffer._do_peek e (s, c) =
  if t <? Z.of_nat (length (CreditBuffer.items c))
  then Ret true
         (MkSim (now s) (sched s ++ [(now s + 0, NORMAL, eid s, e)]) (S (eid s))
                (<[e := Event (ev_item ev) (ev_caller ev) (Some PyNone) true (ev_callbacks ev)]>
                   (events s))
                (logs s), c)
  else Ret false (s, c).
Proof.
  intros He Hi Hv. unfold CreditBuffer._do_peek.
  unfold bind at 1. unfold self. cbn [snd].
  unfold bind at 1. unfold in_env, zoom, lookup_event. cbn [fst snd]. rewrite He, Hi.
  destruct (t <? Z.of_nat (length (CreditBuffer.items c))); [|reflexivity].
  unfold bind. rewrite (succeed_pending e ev) by assumption. cbn. rewrite Hi. reflexivity.
Qed.

(** C4: a peek with threshold [t] is expected to succeed as soon as the
    counter is at least [t].  [_do_peek] compares with [>], so a peek whose
    threshold equals the counter is left pending in the queue. *)
Theorem credit_peek_at_threshold_stays_pending s c t :
  Z.of_nat (length (CreditBuffer.items c)) = t ->
  CreditBuffer.peek_queue c = [] ->
  let e := length (events s) in
  let s' := set_events (fun evs => evs ++ [Event (PyInt t) None None false (Some [])]) s in
  CreditBuffer.peek t (s, c) = Ret e (s', CreditBuffer.set_peek_queue [e] c) /\
  pending e s' /\ triggered e s' = false.
Proof.
  intros Ht Hq e s'.
  assert (He : events s' !! e = Some (Event (PyInt t) None None false (Some []))).
  { unfold s', e. cbn. apply lookup_fresh_event. }
  split; [|split].
  - unfold CreditBuffer.peek.
    unfold bind at 1. unfold in_env, zoom, NewEvent. cbn [fst snd]. fold e s'.
    unfold bind at 1. unfold update. cbn [fst snd]. rewrite Hq. cbn [app].
    unfold bind at 1. unfold CreditBuffer._trigger_peek, CreditBuffer._trigger_peek_scan.
    unfold Trigger.scan. cbn [snd CreditBuffer.peek_queue CreditBuffer.set_peek_queue length].
    cbn [Trigger.loop snd CreditBuffer.peek_queue CreditBuffer.set_peek_queue lookup list_lookup].
    rewrite (CreditBuffer_do_peek e _ t _ _ He eq_refl eq_refl).
    cbn [CreditBuffer.items CreditBuffer.set_peek_queue]. rewrite Ht, Z.ltb_irrefl.
    unfold Trigger.advance, CreditBuffer.is_triggered, triggered. cbn [fst]. rewrite He.
    cbn. reflexivity.
  - exists (Event (PyInt t) None None false (Some [])). split; [exact He | reflexivity].
  - unfold triggered. rewrite He. reflexivity.
Qed.

Lemma credit_peek_at_threshold_stays_pending_witness :
  CreditBuffer.peek 1 (empty_sim, CreditBuffer.init "creditbuffer" 1) =
  Ret 0%nat (MkSim 0 [] 0%nat [Event (PyInt 1) None None false (Some [])] [],
             CreditBuffer.CreditBuffer "creditbuffer" 1 [PyInt 1] [] [] [0%nat]).
Proof.
  exact (proj1 (credit_peek_at_threshold_stays_pending
                  empty_sim (CreditBuffer.init "creditbuffer" 1) 1 eq_refl eq_refl)).
Defined.

(** With one more token than the threshold the same peek succeeds at once. *)
Lemma credit_peek_below_counter :
  CreditBuffer.peek 1 (empty_sim, CreditBuffer.init "creditbuffer" 2) =
  Ret 0%nat (MkSim 0 [(0, NORMAL, 0%nat, 0%nat)] 1%nat
                   [Event (PyInt 1) None (Some PyNone) true (Some [])] [],
             CreditBuffer.CreditBuffer "creditbuffer" 2 [PyInt 1; PyInt 1] [] [] []).
Proof. vm_compute. reflexivity. Qed.

(** ** Weighted round-robin arbitration *)

Lemma getitem_last {A} (l : list A) : getitem l (-1) = last l.
Proof.
  destruct l as [|a l] using rev_ind; [reflexivity|].
  rewrite getitem_minus_one, last_snoc. reflexivity.
Qed.

Lemma replicate_snoc {A} (n : nat) (a : A) : replicate (S n) a = replicate n a ++ [a].
Proof. induction n as [|n IH]; [reflexivity|]. cbn in *. rewrite <- IH. reflexivity. Qed.

Section WeightedFacts.
Import WeightedRoundRobinCrossbar.

Lemma WRR_new nm n outPorts up dn ws s :
  Z.of_nat (length ws) = n ->
  new nm n outPorts up dn ws s =
  Ret tt (s, WRR (init nm n outPorts up dn) (Some ws) (replicate (Z.to_nat n) 0)).
Proof.
  intros Hn. unfold new, __init__, bind, update. cbn.
  rewrite (proj2 (Z.eqb_eq _ _) Hn). reflexivity.
Qed.

End WeightedFacts.

Ltac wrr_run :=
  repeat progress
    (unfold bind, self, index, assign, offered, WeightedRoundRobinCrossbar.the_weights,
       update, gets, ret, raise;
     cbn [snd fst WeightedRoundRobinCrossbar.xbar lastport inPorts toUp
          WeightedRoundRobinCrossbar.grants WeightedRoundRobinCrossbar.weights
          WeightedRoundRobinCrossbar.set_xbar WeightedRoundRobinCrossbar.set_grants
          set_lastport]).

(** C10: on a freshly built weighted crossbar ([lastport] all -1, no grant
    yet) whose last input has weight at least 1, with every input offering a
    candidate, the first arbitration call starts its scan at index -1, the
    last served value itself, and selects it: it records -1 as last served
    and counts the grant for the last input.  With two or more inputs,
    connected under the keys [0 .. N-1], the call then looks up [toUp[-1]]
    for its log line and raises KeyError instead of returning -1. *)
Theorem weighted_first_call_selects_minus_one nm n outPorts up dn ws wl pktList outPort s :
  2 <= n ->
  wired n up ->
  0 <= outPort < outPorts ->
  Z.of_nat (length ws) = n ->
  last ws = Some wl -> 1 <= wl ->
  Z.of_nat (length pktList) = n ->
  full pktList ->
  exists w0 w',
    WeightedRoundRobinCrossbar.new nm n outPorts up dn ws s = Ret tt w0 /\
    WeightedRoundRobinCrossbar.arbitratePkts pktList outPort w0 = Raise (KeyError (-1)) w' /\
    getitem (lastport (WeightedRoundRobinCrossbar.xbar (snd w'))) outPort = Some (-1) /\
    getitem (WeightedRoundRobinCrossbar.grants (snd w')) (-1) = Some 1.
Proof.
  intros Hn Hup Ho Hws Hwl Hge Hlen Hfull.
  assert (Hm : exists m, Z.to_nat n = S m) by (exists (Z.to_nat (n - 1)); lia).
  destruct Hm as [m Hm].
  destruct up as [nm'|d]; [cbn in Hup; lia|].
  assert (Hd : d !! (-1) = None).
  { destruct (d !! (-1)) as [x|] eqn:Hd; [|reflexivity].
    assert (is_Some (d !! (-1))) as Hs by eauto.
    apply (wired_keys n d (-1) Hup) in Hs. lia. }
  assert (Hlast : exists p, getitem pktList (-1) = Some (Some p)).
  { rewrite getitem_last. destruct pktList as [|o l] using rev_ind; [cbn in Hlen; lia|].
    rewrite last_snoc. unfold full in Hfull. apply Forall_app in Hfull as [_ Hf].
    apply Forall_singleton in Hf as [p ->]. eauto. }
  destruct Hlast as [p Hp].
  assert (Hlp : getitem (replicate (Z.to_nat outPorts) (-1)) outPort = Some (-1)).
  { rewrite getitem_nonneg by lia. apply lookup_replicate_2. lia. }
  eexists. eexists. split; [apply WRR_new; exact Hws|].
  unfold WeightedRoundRobinCrossbar.arbitratePkts, init.
  wrr_run. rewrite Hlp, Hm. cbn [WeightedRoundRobinCrossbar.scan].
  wrr_run. rewrite Hp. wrr_run.
  rewrite getitem_last, Hwl. rewrite replicate_snoc, getitem_minus_one.
  destruct (Z.ltb_spec 0 wl) as [_|]; [|lia].
  destruct (Z.eqb_spec 0 wl) as [|_]; [lia|].
  wrr_run. rewrite setitem_nonneg by (rewrite length_replicate; lia).
  wrr_run. rewrite getitem_minus_one, setitem_minus_one. wrr_run.
  unfold log_decision, port_name, indexed_name. wrr_run.
  destruct (Z.ltb_spec 1 n) as [_|]; [|lia].
  rewrite Hd.
  split; [reflexivity|].
  cbn [snd WeightedRoundRobinCrossbar.xbar WeightedRoundRobinCrossbar.grants lastport].
  split.
  - rewrite getitem_nonneg by lia. apply list_lookup_insert_eq.
    rewrite length_replicate. lia.
  - apply getitem_minus_one.
Qed.

Lemma weighted_first_call_selects_minus_one_witness :
  exists w0 w',
    WeightedRoundRobinCrossbar.new "xbar" 2 1 (connect_all ["up0"; "up1"]) (Single "dn") [3; 1]
      empty_sim = Ret tt w0 /\
    WeightedRoundRobinCrossbar.arbitratePkts [Some (Packet 0 1 1); Some (Packet 1 1 1)] 0 w0
      = Raise (KeyError (-1)) w' /\
    getitem (lastport (WeightedRoundRobinCrossbar.xbar (snd w'))) 0 = Some (-1) /\
    getitem (WeightedRoundRobinCrossbar.grants (snd w')) (-1) = Some 1.
Proof.
  apply (weighted_first_call_selects_minus_one "xbar" 2 1 (connect_all ["up0"; "up1"])
           (Single "dn") [3; 1] 1 [Some (Packet 0 1 1); Some (Packet 1 1 1)] 0 empty_sim).
  - lia.
  - split; [lia | vm_compute; reflexivity].
  - lia.
  - reflexivity.
  - reflexivity.
  - lia.
  - reflexivity.
  - repeat constructor; eexists; reflexivity.
Defined.

(** With a single input the lookup is [self.toUp.name], and the first call
    returns -1. *)
Lemma weighted_single_input_returns_minus_one :
  exists w0 w',
    WeightedRoundRobinCrossbar.new "xbar" 1 1 (Single "up") (Single "dn") [3] empty_sim
      = Ret tt w0 /\
    WeightedRoundRobinCrossbar.arbitratePkts [Some (Packet 0 1 1)] 0 w0 = Ret (Some (-1)) w'.
Proof. eexists. eexists. split; vm_compute; reflexivity. Qed.

(** C6: on a crossbar with weights [[3; 1]], connected under the keys 0 and
    1, with both inputs offering a candidate at every call, 4 consecutive grants are expected to serve input 0 three times and
    input 1 once.  On the freshly built crossbar the first arbitration call
    raises KeyError, after it recorded a grant for input 1 under index -1:
    no grant is ever returned, so neither are 4 of them. *)
Theorem weighted_3_1_first_grant_raises :
  exists w0 w',
    WeightedRoundRobinCrossbar.new "xbar" 2 1 (connect_all ["up0"; "up1"]) (Single "dn") [3; 1]
      empty_sim = Ret tt w0 /\
    WeightedRoundRobinCrossbar.arbitratePkts scenario_C_packets 0 w0 = Raise (KeyError (-1)) w' /\
    rounds (WeightedRoundRobinCrossbar.arbitratePkts scenario_C_packets 0) 4 w0
      = Raise (KeyError (-1)) w' /\
    WeightedRoundRobinCrossbar.grants (snd w') = [0; 1].
Proof. eexists. eexists. repeat split; vm_compute; reflexivity. Qed.

(** The counting itself follows the weights: were [toUp] to answer the key
    -1 as well, the same crossbar would serve input 1 (as -1), then input 0
    three times, input 1, input 0 three times, and so on. *)
Lemma weighted_3_1_counting :
  exists w0,
    WeightedRoundRobinCrossbar.new "xbar" 2 1
      (Indexed (<[-1 := "up1"]> (<[0 := "up0"]> (<[1 := "up1"]> ∅))))
      (Single "dn") [3; 1] empty_sim = Ret tt w0 /\
    returned (rounds (WeightedRoundRobinCrossbar.arbitratePkts scenario_C_packets 0) 9 w0)
      = Some [Some (-1); Some 0; Some 0; Some 0; Some 1; Some 0; Some 0; Some 0; Some 1].
Proof. eexists. split; vm_compute; reflexivity. Qed.

(** ** Fixed-priority arbitration *)

Lemma norm_index_lt n i k : norm_index n i = Some k -> (k < n)%nat.
Proof.
  unfold norm_index.
  destruct (Z.leb_spec 0 i).
  - destruct (Z.ltb_spec i (Z.of_nat n)); intros [= <-]; lia.
  - destruct (Z.leb_spec 0 (Z.of_nat n + i)); intros [= <-]; lia.
Qed.

Lemma getitem_setitem_same {A} (l l' : list A) i a :
  setitem l i a = Some l' -> getitem l' i = Some a.
Proof.
  unfold setitem, getitem.
  destruct (norm_index (length l) i) as [k|] eqn:Hk; [|discriminate].
  intros [= <-]. rewrite length_insert, Hk.
  apply list_lookup_insert_eq. eapply norm_index_lt. exact Hk.
Qed.

Lemma getitem_insert_nonneg {A} (l : list A) (k : nat) a i :
  0 <= i -> (k < length l)%nat ->
  getitem (<[k := a]> l) i = if decide (i = Z.of_nat k) then Some a else getitem l i.
Proof.
  intros Hi Hk. rewrite !getitem_nonneg by assumption.
  destruct (decide (i = Z.of_nat k)) as [->|Hne].
  - rewrite Nat2Z.id. apply list_lookup_insert_eq. exact Hk.
  - apply list_lookup_insert_ne. lia.
Qed.

Lemma foldl_max_spec (l : list Z) : forall a,
  foldl Z.max a l ∈ a :: l /\ Forall (fun x => x <= foldl Z.max a l) (a :: l).
Proof.
  induction l as [|b l IH]; intros a; cbn [foldl].
  - split; [left | repeat constructor; lia].
  - destruct (IH (Z.max a b)) as [Hin Hall]. split.
    + apply elem_of_cons in Hin as [Hin|Hin].
      * rewrite Hin. destruct (Z.max_spec a b) as [[_ ->]|[_ ->]]; [right; left | left].
      * right. right. exact Hin.
    + apply Forall_cons in Hall as [Hm Hall].
      constructor; [lia|]. constructor; [lia|]. exact Hall.
Qed.

Lemma list_max_spec (l : list Z) m :
  FixedPriorityCrossbar.list_max l = Some m -> m ∈ l /\ Forall (fun x => x <= m) l.
Proof.
  destruct l as [|a l]; [discriminate|]. intros [= <-]. apply foldl_max_spec.
Qed.

Lemma enumerate_active_elem (l : list (option packet)) : forall k i,
  i ∈ enumerate_active k l <->
  k <= i /\ exists p, l !! Z.to_nat (i - k) = Some (Some p).
Proof.
  induction l as [|o l IH]; intros k i.
  - cbn. split; [intros H; inversion H | intros [_ [p Hp]]; discriminate].
  - assert (Hshift : forall p, k + 1 <= i ->
              (l !! Z.to_nat (i - (k + 1)) = Some (Some p) <->
               (o :: l) !! Z.to_nat (i - k) = Some (Some p))).
    { intros p Hle. replace (Z.to_nat (i - k)) with (S (Z.to_nat (i - (k + 1)))) by lia.
      reflexivity. }
    destruct o as [p0|]; cbn [enumerate_active].
    + rewrite elem_of_cons, IH. split.
      * intros [->|[Hle [p Hp]]].
        -- split; [lia|]. exists p0. rewrite Z.sub_diag. reflexivity.
        -- split; [lia|]. exists p. apply Hshift; assumption.
      * intros [Hle [p Hp]]. destruct (decide (i = k)) as [->|Hne]; [left; reflexivity|].
        right. split; [lia|]. exists p. apply Hshift; [lia | exact Hp].
    + rewrite IH. split.
      * intros [Hle [p Hp]]. split; [lia|]. exists p. apply Hshift; assumption.
      * intros [Hle [p Hp]]. destruct (decide (i = k)) as [->|Hne].
        -- rewrite Z.sub_diag in Hp. discriminate.
        -- split; [lia|]. exists p. apply Hshift; [lia | exact Hp].
Qed.

Lemma activeports_elem (l : list (option packet)) i :
  i ∈ activeports l <-> 0 <= i /\ present l i.
Proof.
  unfold activeports. rewrite enumerate_active_elem. unfold present. split.
  - intros [Hi [p Hp]]. split; [exact Hi|]. exists p.
    rewrite getitem_nonneg by lia. rewrite Z.sub_0_r in Hp. exact Hp.
  - intros [Hi [p Hp]]. split; [exact Hi|]. exists p.
    rewrite getitem_nonneg in Hp by lia. rewrite Z.sub_0_r. exact Hp.
Qed.

Section FixedPriorityFacts.
Import FixedPriorityCrossbar.

Lemma priorities_of_returns prios : forall (l ps : list Z) (w w' : world),
  priorities_of prios l w = Ret ps w' ->
  w' = w /\ Forall2 (fun i q => getitem prios i = Some q) l ps.
Proof.
  induction l as [|i l IH]; intros ps w w' H.
  - injection H as <- <-. split; [reflexivity | constructor].
  - cbn [priorities_of] in H. apply bind_inv_Ret in H as (q & w1 & Hq & H).
    unfold index in Hq. destruct (getitem prios i) as [q'|] eqn:Hg; [|discriminate].
    injection Hq as <- <-.
    apply bind_inv_Ret in H as (qs & w2 & Hqs & H). injection H as <- <-.
    apply IH in Hqs as [-> Hall]. split; [reflexivity|]. constructor; assumption.
Qed.

Lemma priorities_of_total prios : forall (l : list Z) (w : world),
  Forall (fun i => 0 <= i < Z.of_nat (length prios)) l ->
  exists ps, priorities_of prios l w = Ret ps w.
Proof.
  induction l as [|i l IH]; intros w Hl.
  - eexists. reflexivity.
  - apply Forall_cons in Hl as [Hi Hl]. destruct (IH w Hl) as [ps Hps].
    destruct (lookup_lt_is_Some_2 prios (Z.to_nat i) ltac:(lia)) as [q Hq].
    cbn [priorities_of]. unfold bind at 1. unfold index.
    rewrite getitem_nonneg, Hq by lia. cbn [ret].
    unfold bind. rewrite Hps. eexists. reflexivity.
Qed.

(** What the masking loop leaves: an entry is cleared exactly when it is one
    of the listed ports and its priority is below [maxpriority]. *)
Lemma mask_returns prios maxp : forall (l : list Z) acc masked (w w' : world),
  Forall (fun i => 0 <= i) l ->
  mask prios maxp l acc w = Ret masked w' ->
  w' = w /\ length masked = length acc /\
  forall i, 0 <= i ->
    (getitem masked i = getitem acc i /\
     forall q, i ∈ l -> getitem prios i = Some q -> maxp <= q) \/
    (getitem masked i = Some None /\ i ∈ l /\
     exists q, getitem prios i = Some q /\ q < maxp).
Proof.
  induction l as [|port l IH]; intros acc masked w w' Hl H.
  - injection H as <- <-. split; [reflexivity|]. split; [reflexivity|].
    intros i Hi. left. split; [reflexivity|]. intros q Hin. inversion Hin.
  - apply Forall_cons in Hl as [Hport Hl].
    cbn [mask] in H. apply bind_inv_Ret in H as (p & w1 & Hp & H).
    unfold index in Hp. destruct (getitem prios port) as [p'|] eqn:Hg; [|discriminate].
    injection Hp as <- <-.
    apply bind_inv_Ret in H as (acc' & w2 & Hacc & H).
    destruct (Z.ltb_spec p' maxp) as [Hlt|Hge].
    + unfold assign in Hacc.
      destruct (setitem acc port None) as [acc''|] eqn:Hset; [|discriminate].
      injection Hacc as <- <-.
      assert (Hrange : port < Z.of_nat (length acc)).
      { unfold setitem, norm_index in Hset.
        destruct (Z.leb_spec 0 port); [|lia].
        destruct (Z.ltb_spec port (Z.of_nat (length acc))); [lia | discriminate]. }
      rewrite setitem_nonneg in Hset by lia. injection Hset as <-.
      apply IH in H as (-> & Hlen & Hspec); [|exact Hl].
      split; [reflexivity|]. split; [rewrite Hlen; apply length_insert|].
      intros i Hi. destruct (Hspec i Hi) as [[Hsame Hq]|(Hnone & Hin & q & Hq & Hlt')].
      * rewrite getitem_insert_nonneg in Hsame by lia.
        destruct (decide (i = Z.of_nat (Z.to_nat port))) as [Heq|Hne].
        -- right. assert (i = port) as -> by lia.
           split; [exact Hsame|]. split; [left|]. exists p'. split; assumption.
        -- left. split; [exact Hsame|]. intros q Hin Hgq.
           apply elem_of_cons in Hin as [->|Hin]; [lia|]. apply Hq; assumption.
      * right. split; [exact Hnone|]. split; [right; exact Hin|]. eauto.
    + injection Hacc as <- <-.
      apply IH in H as (-> & Hlen & Hspec); [|exact Hl].
      split; [reflexivity|]. split; [exact Hlen|].
      intros i Hi. destruct (Hspec i Hi) as [[Hsame Hq]|(Hnone & Hin & q & Hq & Hlt')].
      * left. split; [exact Hsame|]. intros q Hin Hgq.
        apply elem_of_cons in Hin as [->|Hin].
        -- rewrite Hg in Hgq. injection Hgq as <-. exact Hge.
        -- apply Hq; assumption.
      * right. split; [exact Hnone|]. split; [right; exact Hin|]. eauto.
Qed.

Lemma mask_total prios maxp : forall (l : list Z) acc (w : world),
  Forall (fun i => 0 <= i < Z.of_nat (length prios) /\ i < Z.of_nat (length acc)) l ->
  exists masked, mask prios maxp l acc w = Ret masked w.
Proof.
  induction l as [|port l IH]; intros acc w Hl.
  - eexists. reflexivity.
  - apply Forall_cons in Hl as [[Hp Ha] Hl].
    destruct (lookup_lt_is_Some_2 prios (Z.to_nat port) ltac:(lia)) as [q Hq].
    cbn [mask]. unfold bind at 1. unfold index.
    rewrite getitem_nonneg, Hq by lia. cbn [ret].
    destruct (q <? maxp).
    + unfold bind at 1. unfold assign. rewrite setitem_nonneg by lia. cbn [ret].
      apply IH. eapply Forall_impl; [exact Hl|]. cbn. intros i [H1 H2].
      rewrite length_insert. split; assumption.
    + unfold bind at 1. cbn [ret]. apply IH. exact Hl.
Qed.

End FixedPriorityFacts.

Section Frames.
Context {T : Type}.
Variable base : T -> crossbar.

Lemma port_name_returns n ps i (w w' : sim * T) nm :
  port_name n ps i w = Ret nm w' -> w' = w.
Proof.
  unfold port_name, indexed_name, single_name.
  destruct (1 <? n), ps as [x|d]; try discriminate.
  - destruct (d !! i); [|discriminate]. intros [= _ <-]. reflexivity.
  - intros [= _ <-]. reflexivity.
Qed.

Lemma port_names_returns ps : forall l (w w' : sim * T) nms,
  port_names ps l w = Ret nms w' -> w' = w.
Proof.
  induction l as [|i l IH]; intros w w' nms H.
  - injection H as _ <-. reflexivity.
  - cbn [port_names] in H. apply bind_inv_Ret in H as (nm & w1 & H1 & H).
    apply bind_inv_Ret in H as (nms' & w2 & H2 & H). injection H as _ <-.
    apply IH in H2 as ->.
    unfold indexed_name in H1. destruct ps as [x|d]; [discriminate|].
    destruct (d !! i); [|discriminate]. injection H1 as _ <-. reflexivity.
Qed.

(** The log line of a decision leaves the crossbar as it is. *)
Lemma log_decision_returns msg active pktList c outPort (w w' : sim * T) :
  log_decision base msg active pktList c outPort w = Ret tt w' -> snd w' = snd w.
Proof.
  unfold log_decision. intros H.
  apply bind_inv_Ret in H as (x & w1 & H1 & H). injection H1 as <- <-.
  apply bind_inv_Ret in H as (n1 & w1 & H1 & H). apply port_name_returns in H1 as ->.
  apply bind_inv_Ret in H as (n2 & w2 & H2 & H). apply port_name_returns in H2 as ->.
  apply bind_inv_Ret in H as (nms & w3 & H3 & H).
  assert (w3 = w) as ->.
  { destruct (1 <? inPorts (base (snd w))).
    - eapply port_names_returns. exact H3.
    - apply bind_inv_Ret in H3 as (nm & w4 & H4 & H3). injection H3 as _ <-.
      unfold single_name in H4. destruct (toUp (base (snd w))); [|discriminate].
      injection H4 as _ <-. reflexivity. }
  destruct (getitem pktList c) as [[p|]|]; try discriminate.
  unfold in_env, zoom in H. cbn in H. injection H as <-. reflexivity.
Qed.

(** The scan always comes back when every input of the round can be read
    and the hit action comes back on a candidate; it comes back empty-handed
    only if no input of the round has a candidate. *)
Lemma scan_from_total hit pktList : forall (left : nat) c0 (w : sim * T),
  let n := inPorts (base (snd w)) in
  0 <= c0 < n ->
  (forall i, 0 <= i < n -> exists o, getitem pktList i = Some o) ->
  (forall c, 0 <= c < n -> present pktList c -> exists w', hit c w = Ret tt w') ->
  exists r w', scan_from base hit left pktList c0 w = Ret r w' /\
    (r = None ->
     forall j : nat, (j < left)%nat -> absent pktList ((c0 + Z.of_nat j) mod n)).
Proof.
  induction left as [|left IH]; intros c0 w n Hc Hread Hhit.
  - exists None, w. split; [reflexivity|]. intros _ j Hj. lia.
  - cbn [scan_from]. unfold bind at 1. unfold gets.
    unfold bind at 1. unfold offered.
    destruct (Hread c0 Hc) as [[p|] Ho]; rewrite Ho; cbn [ret].
    + destruct (Hhit c0 Hc) as [w' Hw']; [exists p; exact Ho|].
      exists (Some c0), w'. unfold bind. rewrite Hw'. split; [reflexivity | discriminate].
    + fold n.
      destruct (IH ((c0 + 1) mod n) w) as (r & w' & Hrun & Hnone); try assumption.
      { apply Z.mod_pos_bound. lia. }
      exists r, w'. split; [exact Hrun|]. intros Hr [|j] Hj.
      * replace ((c0 + Z.of_nat 0) mod n) with c0 by (rewrite Z.add_0_r, Z.mod_small; lia).
        exact Ho.
      * specialize (Hnone Hr j ltac:(lia)). fold n in Hnone.
        rewrite Zplus_mod_idemp_l in Hnone.
        replace (c0 + Z.of_nat (S j)) with (c0 + 1 + Z.of_nat j) by lia. exact Hnone.
Qed.

End Frames.

Section FixedPriorityArbitration.
Import FixedPriorityCrossbar.

Lemma FP_hit_returns pktList masked maxp outPort c (w w' : world) :
  hit pktList masked maxp outPort c w = Ret tt w' ->
  exists row row' tbl' l',
    getitem (lastportPerClass (snd w)) maxp = Some row /\
    setitem row outPort c = Some row' /\
    setitem (lastportPerClass (snd w)) maxp row' = Some tbl' /\
    setitem (lastport (xbar (snd w))) outPort c = Some l' /\
    snd w' = FP (set_lastport l' (xbar (snd w))) (priorities (snd w))
                (priorityClasses (snd w)) tbl'.
Proof.
  unfold hit. intros H.
  apply bind_inv_Ret in H as (f & w1 & H1 & H). injection H1 as <- <-.
  apply bind_inv_Ret in H as (row & w1 & H1 & H). unfold index in H1.
  destruct (getitem (lastportPerClass (snd w)) maxp) as [row0|] eqn:Hrow; [|discriminate].
  injection H1 as <- <-.
  apply bind_inv_Ret in H as (row' & w1 & H1 & H). unfold assign in H1.
  destruct (setitem row0 outPort c) as [r|] eqn:Hrow'; [|discriminate].
  injection H1 as <- <-.
  apply bind_inv_Ret in H as (tbl' & w1 & H1 & H). unfold assign in H1.
  destruct (setitem (lastportPerClass (snd w)) maxp r) as [t|] eqn:Htbl; [|discriminate].
  injection H1 as <- <-.
  apply bind_inv_Ret in H as ([] & w1 & H1 & H). injection H1 as <-.
  apply bind_inv_Ret in H as (l' & w1 & H1 & H). unfold assign in H1. cbn in H1.
  destruct (setitem (lastport (xbar (snd w))) outPort c) as [l0|] eqn:Hl; [|discriminate].
  injection H1 as <- <-.
  apply bind_inv_Ret in H as ([] & w1 & H1 & H). injection H1 as <-.
  apply log_decision_returns in H. cbn in H.
  exists row0, r, t, l0. repeat split; try assumption.
Qed.

Lemma FP_hit_total pktList masked maxp outPort c p s f :
  classes_allocated f outPort ->
  Z.of_nat (length pktList) = inPorts (xbar f) ->
  0 <= maxp < Z.of_nat (length (lastportPerClass f)) ->
  0 <= c < inPorts (xbar f) ->
  getitem masked c = Some (Some p) ->
  exists w', hit pktList masked maxp outPort c (s, f) = Ret tt w'.
Proof.
  intros (Hconn & prios & Hprios & Hlen & Hcls & Hrows) Hpl Hmax Hc Hp.
  pose proof Hconn as (Hn & Hup & Hdn & Ho & Hlp).
  destruct (lookup_lt_is_Some_2 (lastportPerClass f) (Z.to_nat maxp) ltac:(lia)) as [row Hrow].
  assert (Hrowlen : Z.of_nat (length row) = outPorts (xbar f)).
  { rewrite Forall_lookup in Hrows. eapply Hrows. exact Hrow. }
  unfold hit. unfold bind at 1. unfold self. cbn [snd].
  unfold bind at 1. unfold index. rewrite getitem_nonneg, Hrow by lia. cbn [ret].
  unfold bind at 1. unfold assign. rewrite setitem_nonneg by lia. cbn [ret].
  unfold bind at 1. rewrite setitem_nonneg by lia. cbn [ret].
  unfold bind at 1. unfold update. cbn [fst snd].
  unfold bind at 1. cbn [set_lastportPerClass xbar]. rewrite setitem_nonneg by lia. cbn [ret].
  unfold bind at 1. cbn [fst snd].
  erewrite (log_decision_connected xbar _ _ masked c outPort p).
  - eexists. reflexivity.
  - cbn. unfold connected. cbn. rewrite length_insert. auto.
  - exact Hc.
  - cbn. rewrite <- Hpl. apply activeports_range.
  - exact Hp.
Qed.

End FixedPriorityArbitration.

Section FixedPriorityTheorem.
Import FixedPriorityCrossbar.

Lemma FP_log_debug s f :
  in_env (Sim.Log (name (xbar f)) "DEBUG" "Ports are unmasked for outPort" []) (s, f) =
  Ret tt (MkSim (now s) (sched s) (eid s) (events s)
                (logs s ++ [LogEntry DEBUG (now s) (name (xbar f))
                                     "Ports are unmasked for outPort"]), f).
Proof. reflexivity. Qed.

(** Whatever input the arbiter returns is of the top class among the
    candidates and is the first of that class after the pointer of the
    class. *)
Lemma FP_arbitrate_returns pktList outPort c s f w' :
  arbitratePkts pktList outPort (s, f) = Ret (Some c) w' ->
  exists prios p row last,
    priorities f = Some prios /\
    top_class prios pktList p /\
    in_class prios pktList p c /\
    getitem (lastportPerClass f) p = Some row /\
    getitem row outPort = Some last /\
    first_in_class prios pktList p (inPorts (xbar f)) ((last + 1) mod inPorts (xbar f)) c /\
    (exists row', getitem (lastportPerClass (snd w')) p = Some row' /\
                  getitem row' outPort = Some c) /\
    getitem (lastport (xbar (snd w'))) outPort = Some c.
Proof.
  unfold arbitratePkts. intros H.
  apply bind_inv_Ret in H as (f0 & w0 & H0 & H). injection H0 as <- <-. cbn [snd] in H.
  rewrite (bind_Ret _ _ _ _ _ (FP_log_debug s f)) in H.
  set (s1 := MkSim _ _ _ _ _) in H.
  apply bind_inv_Ret in H as (prios' & w1 & H1 & H).
  unfold the_priorities, bind, self in H1. cbn [snd] in H1.
  destruct (priorities f) as [prios|] eqn:Hprios; [|discriminate].
  injection H1 as <- <-.
  apply bind_inv_Ret in H as (ps & w1 & H1 & H).
  apply priorities_of_returns in H1 as [-> Hps].
  destruct (list_max ps) as [maxp|] eqn:Hmax; [|discriminate].
  apply list_max_spec in Hmax as [Hmaxin Hmaxle].
  apply bind_inv_Ret in H as (masked & w1 & H1 & H).
  apply mask_returns in H1 as (-> & Hmlen & Hmask);
    [|eapply Forall_impl; [apply activeports_range|]; cbn; intros; lia].
  apply bind_inv_Ret in H as (row & w1 & H1 & H). unfold index in H1.
  destruct (getitem (lastportPerClass f) maxp) as [row0|] eqn:Hrow; [|discriminate].
  injection H1 as <- <-.
  apply bind_inv_Ret in H as (last & w1 & H1 & H). unfold index in H1.
  destruct (getitem row0 outPort) as [last0|] eqn:Hlast; [|discriminate].
  injection H1 as <- <-.
  destruct (Z.eqb_spec (inPorts (xbar f)) 0) as [|Hn0]; [discriminate|].
  set (n := inPorts (xbar f)) in *.
  assert (Hn : 0 < n).
  { destruct (Z.to_nat n) eqn:E; [discriminate H | lia]. }
  apply (scan_from_returns xbar) in H; cbn [snd]; fold n;
    [|apply Z.mod_pos_bound; exact Hn].
  cbn [snd] in H. fold n in H.
  destruct H as (k & Hk & Hck & [pc Hpc] & Hbefore & Hhit).
  assert (Hc : 0 <= c < n) by (rewrite Hck; apply Z.mod_pos_bound; exact Hn).
  (* the priorities of the active inputs are the elements of [ps] *)
  assert (Hactive : forall i, 0 <= i -> present pktList i ->
            exists q, getitem prios i = Some q /\ q <= maxp).
  { intros i Hi Hpres.
    assert (Hin : i ∈ activeports pktList) by (apply activeports_elem; auto).
    apply list_elem_of_lookup in Hin as [j Hj].
    destruct (Forall2_lookup_l _ _ _ _ _ Hps Hj) as (q & Hq & Hgq).
    exists q. split; [exact Hgq|]. rewrite Forall_lookup in Hmaxle. eapply Hmaxle. exact Hq. }
  (* a candidate that survived the masking is of class [maxp] *)
  assert (Hsurvive : forall i p, 0 <= i -> getitem masked i = Some (Some p) ->
            in_class prios pktList maxp i).
  { intros i p Hi Hp. destruct (Hmask i Hi) as [[Hsame Hq]|[Hnone _]];
      [|rewrite Hp in Hnone; discriminate].
    assert (Hpres : present pktList i) by (exists p; rewrite <- Hsame; exact Hp).
    destruct (Hactive i Hi Hpres) as (q & Hgq & Hle).
    split; [exact Hpres|]. rewrite Hgq. f_equal.
    specialize (Hq q ltac:(apply activeports_elem; auto) Hgq). lia. }
  exists prios, maxp, row0, last0.
  split; [reflexivity|]. split; [|split; [|split; [|split; [|split; [|split]]]]].
  - split.
    + exists c. split; [lia|]. eapply Hsurvive; [lia | exact Hpc].
    + intros i q Hi [Hpres Hgq]. destruct (Hactive i Hi Hpres) as (q' & Hgq' & Hle).
      rewrite Hgq in Hgq'. injection Hgq' as <-. exact Hle.
  - eapply Hsurvive; [lia | exact Hpc].
  - exact Hrow.
  - exact Hlast.
  - exists (Z.of_nat k). split; [lia|]. split; [exact Hck|].
    split; [eapply Hsurvive; [lia | exact Hpc]|].
    intros j Hj [Hpres Hgq].
    specialize (Hbefore (Z.to_nat j) ltac:(lia)). rewrite Z2Nat.id in Hbefore by lia.
    unfold absent in Hbefore.
    assert (Hcj : 0 <= ((last0 + 1) mod n + j) mod n) by (apply Z.mod_pos_bound; exact Hn).
    destruct (Hmask _ Hcj) as [[Hsame _]|(_ & _ & q & Hq & Hlt)].
    + destruct Hpres as [p Hp]. rewrite Hbefore, Hp in Hsame. discriminate.
    + rewrite Hgq in Hq. injection Hq as <-. lia.
  - apply FP_hit_returns in Hhit as (r & r' & tbl' & l' & Hr & Hr' & Htbl & Hl & Hw').
    cbn [snd] in *. rewrite Hw'. cbn [lastportPerClass].
    exists r'. split; eapply getitem_setitem_same; eassumption.
  - apply FP_hit_returns in Hhit as (r & r' & tbl' & l' & Hr & Hr' & Htbl & Hl & Hw').
    cbn [snd] in *. rewrite Hw'. cbn [xbar lastport set_lastport].
    eapply getitem_setitem_same; eassumption.
Qed.

(** On a crossbar built for classes [0 .. max], a call with a candidate
    returns an input. *)
Lemma FP_arbitrate_total pktList outPort s f i :
  classes_allocated f outPort ->
  Z.of_nat (length pktList) = inPorts (xbar f) ->
  0 <= i -> present pktList i ->
  exists c w', arbitratePkts pktList outPort (s, f) = Ret (Some c) w'.
Proof.
  intros Hwf Hpl Hi Hpres.
  pose proof Hwf as (Hconn & prios & Hprios & Hlen & Hcls & Hrows).
  pose proof Hconn as (Hn & Hup & Hdn & Ho & Hlp).
  set (n := inPorts (xbar f)) in *.
  unfold arbitratePkts. unfold bind at 1. unfold self. cbn [snd].
  rewrite (bind_Ret _ _ _ _ _ (FP_log_debug s f)).
  set (s1 := MkSim _ _ _ _ _).
  assert (Hthe : the_priorities (s1, f) = Ret prios (s1, f)).
  { unfold the_priorities, bind, self. cbn [snd]. rewrite Hprios. reflexivity. }
  rewrite (bind_Ret _ _ _ _ _ Hthe).
  assert (Hrange : Forall (fun i => 0 <= i < Z.of_nat (length prios)) (activeports pktList)).
  { rewrite Hlen, <- Hpl. apply activeports_range. }
  destruct (priorities_of_total prios (activeports pktList) (s1, f) Hrange) as [ps Hps].
  rewrite (bind_Ret _ _ _ _ _ Hps).
  pose proof Hps as Hps'. apply priorities_of_returns in Hps' as [_ Hall].
  assert (Hin : i ∈ activeports pktList) by (apply activeports_elem; auto).
  destruct ps as [|q0 ps'].
  { apply Forall2_nil_inv_r in Hall. rewrite Hall in Hin. inversion Hin. }
  set (ps := q0 :: ps') in *.
  destruct (list_max ps) as [maxp|] eqn:Hmax; [|discriminate].
  apply list_max_spec in Hmax as [Hmaxin Hmaxle].
  (* the top class belongs to an active input *)
  apply list_elem_of_lookup in Hmaxin as [jm Hjm].
  destruct (Forall2_lookup_r _ _ _ _ _ Hall Hjm) as (im & Him & Hgm).
  assert (Him' : im ∈ activeports pktList) by (eapply list_elem_of_lookup_2; exact Him).
  apply activeports_elem in Him' as [Him0 [pm Hpm]].
  assert (Himn : im < n).
  { rewrite <- Hpl. eapply getitem_Some_range; eassumption. }
  assert (Hmaxrange : 0 <= maxp < Z.of_nat (length (lastportPerClass f))).
  { rewrite Forall_lookup in Hcls. rewrite getitem_nonneg in Hgm by lia.
    eapply Hcls. exact Hgm. }
  destruct (mask_total prios maxp (activeports pktList) pktList (s1, f)) as [masked Hmasked].
  { eapply Forall_impl; [apply activeports_range|]. cbn. intros j Hj. lia. }
  rewrite (bind_Ret _ _ _ _ _ Hmasked).
  apply mask_returns in Hmasked as (_ & Hmlen & Hmask);
    [|eapply Forall_impl; [apply activeports_range|]; cbn; intros; lia].
  destruct (lookup_lt_is_Some_2 (lastportPerClass f) (Z.to_nat maxp) ltac:(lia)) as [row Hrow].
  assert (Hrowlen : Z.of_nat (length row) = outPorts (xbar f)).
  { rewrite Forall_lookup in Hrows. eapply Hrows. exact Hrow. }
  destruct (lookup_lt_is_Some_2 row (Z.to_nat outPort) ltac:(lia)) as [last Hlast].
  unfold bind at 1. unfold index. rewrite getitem_nonneg, Hrow by lia. cbn [ret].
  unfold bind at 1. rewrite getitem_nonneg, Hlast by lia. cbn [ret].
  fold n. destruct (Z.eqb_spec n 0); [lia|].
  destruct (scan_from_total xbar (hit pktList masked maxp outPort) masked (Z.to_nat n)
              ((last + 1) mod n) (s1, f)) as (r & w' & Hrun & Hnone).
  - cbn [snd]. apply Z.mod_pos_bound. lia.
  - cbn [snd]. fold n. intros j Hj.
    rewrite getitem_nonneg by lia.
    apply (lookup_lt_is_Some_2 masked (Z.to_nat j)). lia.
  - cbn [snd]. fold n. intros c Hc [p Hp].
    eapply FP_hit_total; eassumption.
  - rewrite Hrun. destruct r as [c|]; [eauto|].
    exfalso. specialize (Hnone eq_refl). cbn [snd] in Hnone. fold n in Hnone.
    destruct (cyclic_surjective ((last + 1) mod n) n im ltac:(lia)) as (k & Hk & Ek).
    specialize (Hnone (Z.to_nat k) ltac:(lia)). rewrite Z2Nat.id, Ek in Hnone by lia.
    unfold absent in Hnone.
    destruct (Hmask im Him0) as [[Hsame _]|(_ & _ & q & Hq & Hlt)].
    + rewrite Hnone, Hpm in Hsame. discriminate.
    + rewrite Hgm in Hq. injection Hq as <-. lia.
Qed.

End FixedPriorityTheorem.



(** The object [__init__] builds from priorities [0 .. max]. *)
Lemma FP_new_classes_allocated nm n nout up dn p ps outPort s :
  1 <= n -> wired n up -> wired nout dn -> 0 <= outPort < nout ->
  Z.of_nat (length (p :: ps)) = n ->
  Forall (fun q => 0 <= q) (p :: ps) ->
  exists f,
    FixedPriorityCrossbar.new nm n nout up dn (Some (p :: ps)) s = Ret tt (s, f) /\
    classes_allocated f outPort /\
    FixedPriorityCrossbar.priorities f = Some (p :: ps) /\
    lastport (FixedPriorityCrossbar.xbar f) = replicate (Z.to_nat nout) (-1) /\
    FixedPriorityCrossbar.lastportPerClass f =
      replicate (Z.to_nat (foldl Z.max p ps + 1)) (replicate (Z.to_nat nout) (-1)).
Proof.
  intros Hn Hup Hdn Ho Hlen Hpos.
  destruct (foldl_max_spec ps p) as [Hin Hmax].
  assert (H0 : 0 <= foldl Z.max p ps).
  { rewrite Forall_forall in Hpos. apply Hpos. exact Hin. }
  eexists. split; [|split; [|split; [|split]]].
  - unfold FixedPriorityCrossbar.new, FixedPriorityCrossbar.__init__.
    unfold bind at 1. unfold update at 1. cbn [fst snd].
    unfold bind at 1. rewrite (proj2 (Z.eqb_eq _ _) Hlen).
    unfold update at 1. cbn [fst snd FixedPriorityCrossbar.set_priorities].
    unfold bind at 1. unfold self. cbn [snd FixedPriorityCrossbar.priorityClasses].
    unfold update. cbn [fst snd]. reflexivity.
  - split.
    + unfold connected, init. cbn. rewrite length_replicate.
      repeat split; try assumption; try lia.
    + exists (p :: ps). cbn [FixedPriorityCrossbar.priorities FixedPriorityCrossbar.set_lastportPerClass
                           FixedPriorityCrossbar.lastportPerClass FixedPriorityCrossbar.xbar
                           init inPorts outPorts].
      split; [reflexivity|]. split; [exact Hlen|]. split.
      * rewrite length_replicate. rewrite Forall_forall in Hpos, Hmax.
        apply Forall_forall. intros q Hq. specialize (Hpos q Hq). specialize (Hmax q Hq).
        rewrite Z2Nat.id by lia. lia.
      * apply Forall_replicate. rewrite length_replicate. unfold init. cbn. lia.
  - reflexivity.
  - reflexivity.
  - reflexivity.
Qed.

(** Priorities below 0 are not covered by the table of [__init__]: with
    [[-1; -1]] it has no row, and the arbitration call raises IndexError. *)
Lemma fixed_priority_negative_classes :
  exists w0,
    FixedPriorityCrossbar.new "xbar" 2 1 (connect_all ["a"; "b"]) (Single "dn")
      (Some [-1; -1]) empty_sim = Ret tt w0 /\
    FixedPriorityCrossbar.lastportPerClass (snd w0) = [] /\
    raised (FixedPriorityCrossbar.arbitratePkts scenario_C_packets 0 w0) = Some IndexError.
Proof. eexists. repeat split; vm_compute; reflexivity. Qed.

(** ** Occupancy of a buffer *)

Import Queues.

Lemma Buffer_do_put_full e s b :
  Buffers.occupiedSlots b = Buffers.capacity (Buffers.cfg b) ->
  Buffers._do_put e (s, b) = Ret false (s, b).
Proof.
  intros Hfull. unfold Buffers._do_put, bind, self. cbn [snd].
  unfold Buffers.occupiedSlots in Hfull. rewrite Hfull, Z.ltb_irrefl. reflexivity.
Qed.

Lemma Buffer_do_get_empty e s b :
  Buffers.items b = [] -> Buffers._do_get e (s, b) = Ret false (s, b).
Proof.
  intros Hempty. unfold Buffers._do_get, bind, self. cbn [snd]. rewrite Hempty. reflexivity.
Qed.

Lemma Buffer_occupied_nonneg b : 0 <= Buffers.occupiedSlots b.
Proof. unfold Buffers.occupiedSlots. lia. Qed.

(** C9: the occupancy of a buffer is expected to stay within its capacity.
    [_do_put] tests [len(items) < capacity] when it accepts a request, but
    with a put delay the item is appended later by [_insert_packet], which
    tests nothing: a producer that puts a packet, waits for its put event
    and puts the next one has both accepted before the first is inserted,
    and the buffer of capacity 1 ends up holding 2 items. *)
Theorem buffer_overfills_with_put_delay :
  exists w,
    final (BufferRun.run Overfill.producer (empty_sim, Buffers.init Overfill.config)) = Some w /\
    returned (BufferRun.run Overfill.producer (empty_sim, Buffers.init Overfill.config))
      = Some tt /\
    Buffers.items (snd w) = [Overfill.pkt 0; Overfill.pkt 1] /\
    Buffers.occupiedSlots (snd w) = 2 /\
    Buffers.capacity (Buffers.cfg (snd w)) = 1.
Proof.
  eexists. split; [vm_compute; reflexivity|].
  split; [vm_compute; reflexivity|].
  split; [vm_compute; reflexivity|].
  split; vm_compute; reflexivity.
Qed.


(** ** Computations that come back *)

Lemma comes_back_ret {St A} (a : A) : comes_back (ret a : M St A).
Proof. intros s. discriminate. Qed.

Lemma comes_back_raise {St A} e : comes_back (raise e : M St A).
Proof. intros s. discriminate. Qed.

Lemma comes_back_bind {St A B} (m : M St A) (k : A -> M St B) :
  comes_back m -> (forall a, comes_back (k a)) -> comes_back (bind m k).
Proof.
  intros Hm Hk s. unfold bind. specialize (Hm s).
  destruct (m s) as [a s'|e s'|]; [apply Hk | discriminate | congruence].
Qed.

Lemma comes_back_zoom {S T A} (proj : S -> T) (upd : T -> S -> S) (m : M T A) :
  comes_back m -> comes_back (zoom proj upd m).
Proof.
  intros Hm s. unfold zoom. specialize (Hm (proj s)).
  destruct (m (proj s)); [discriminate | discriminate | congruence].
Qed.

Lemma comes_back_in_env {E T A} (m : M E A) :
  comes_back m -> comes_back (in_env m : M (E * T) A).
Proof. apply comes_back_zoom. Qed.

Lemma comes_back_fun {St A} (f : St -> outcome St A) :
  (forall s, f s <> Timeout) -> comes_back f.
Proof. intros H. exact H. Qed.

Ltac comes_back_step :=
  match goal with
  | |- comes_back (bind _ _) => apply comes_back_bind; [|intros ?]
  | |- comes_back (ret _) => apply comes_back_ret
  | |- comes_back (raise _) => apply comes_back_raise
  | |- comes_back (in_env _) => apply comes_back_in_env
  | |- comes_back (zoom _ _ _) => apply comes_back_zoom
  | |- comes_back self => intros ?; discriminate
  | |- comes_back the_env => intros ?; discriminate
  | |- comes_back (update _) => intros ?; discriminate
  | |- comes_back (modify _) => intros ?; discriminate
  | |- comes_back (gets _) => intros ?; discriminate
  | |- comes_back (match ?x with _ => _ end) => destruct x
  | |- comes_back (if ?x then _ else _) => destruct x
  | |- comes_back (let (_, _) := ?x in _) => destruct x
  end.

Ltac comes_back_tac := repeat comes_back_step; try assumption.

Lemma comes_back_lookup_event e : comes_back (lookup_event e).
Proof. intros s. unfold lookup_event. destruct (events s !! e); discriminate. Qed.

Lemma comes_back_succeed e v d : comes_back (succeed e v d).
Proof.
  unfold succeed. apply comes_back_bind; [apply comes_back_lookup_event|]. intros ev.
  destruct (ev_value ev); [apply comes_back_raise|].
  unfold store_event, schedule. comes_back_tac.
Qed.

Lemma comes_back_add_callbacks e cbs : comes_back (add_callbacks e cbs).
Proof.
  unfold add_callbacks. apply comes_back_bind; [apply comes_back_lookup_event|]. intros ev.
  destruct (ev_callbacks ev); [|apply comes_back_raise].
  unfold store_event. comes_back_tac.
Qed.

Lemma comes_back_NewEvent item caller : comes_back (NewEvent item caller).
Proof. intros s. discriminate. Qed.

Lemma comes_back_emit l nm msg : comes_back (emit l nm msg).
Proof. intros s. discriminate. Qed.

Lemma comes_back_Log nm msgtype msg infolist : comes_back (Sim.Log nm msgtype msg infolist).
Proof.
  unfold Sim.Log. apply comes_back_bind; [|intros _; apply comes_back_bind; [|intros _]].
  - repeat (match goal with |- comes_back (if ?x then _ else _) => destruct x end);
      try apply comes_back_emit; try apply comes_back_raise; apply comes_back_ret.
  - destruct infolist as [|it l]; [apply comes_back_ret|].
    apply comes_back_bind; [apply comes_back_emit|]. intros _.
    generalize (it :: l). intros l'. induction l' as [|a l' IH]; cbn [foldr].
    + apply comes_back_ret.
    + apply comes_back_bind; [apply comes_back_emit | intros _; exact IH].
  - destruct (contains _ _); [apply comes_back_raise | apply comes_back_ret].
Qed.

Lemma comes_back_getTicks {St} p bpc : comes_back (getTicks p bpc : M St (Z * Z)).
Proof. unfold getTicks. destruct (bpc =? 0); [apply comes_back_raise | apply comes_back_ret]. Qed.

(** ** The trigger loop: head-of-line discipline *)

Section TriggerFacts.
Context {St : Type}.
Variable queue : St -> list evid.
Variable set_queue : list evid -> St -> St.
Variable is_triggered : evid -> St -> bool.
Variable hook : evid -> M St bool.
Variable violated : string.

Hypothesis queue_set_queue : forall q st, queue (set_queue q st) = q.

(** The hook comes back, goes on to the next request only after it resolved
    the one at hand, and then has not touched the queue it is called for. *)
Hypothesis hook_comes_back : forall e, comes_back (hook e).
Hypothesis hook_proceeds : forall e st st',
  hook e st = Ret true st' -> queue st' = queue st /\ is_triggered e st' = true.

Local Abbreviation loop := (Trigger.loop queue set_queue is_triggered hook violated).

Lemma loop_head_of_line : forall (fuel idx : nat) st,
  (length (queue st) - idx <= fuel)%nat ->
  snd (loop fuel idx st) <> Timeout /\
  (fst <$> fst (loop fuel idx st)) `prefix_of` drop idx (queue st) /\
  forall i e, fst (loop fuel idx st) !! i = Some (e, false) ->
              S i = length (fst (loop fuel idx st)).
Proof.
  induction fuel as [|fuel IH]; intros idx st Hfuel.
  - cbn [Trigger.loop].
    destruct (queue st !! idx) as [ev|] eqn:Hq.
    + apply lookup_lt_Some in Hq. lia.
    + cbn. split; [discriminate|]. split; [apply prefix_nil|]. intros i e H. discriminate.
  - cbn [Trigger.loop].
    destruct (queue st !! idx) as [ev|] eqn:Hq.
    2:{ cbn. split; [discriminate|]. split; [apply prefix_nil|]. intros i e H. discriminate. }
    assert (Hdrop : drop idx (queue st) = ev :: drop (S idx) (queue st)).
    { apply drop_S. exact Hq. }
    assert (Hone : forall b : bool, (fst <$> [(ev, b)]) `prefix_of` drop idx (queue st)).
    { intros b. exists (drop (S idx) (queue st)). rewrite Hdrop. reflexivity. }
    assert (Hlast : forall (b : bool) i e,
              [(ev, b)] !! i = Some (e, false) -> S i = length [(ev, b)]).
    { intros b [|i] e H; [reflexivity | discriminate]. }
    pose proof (hook_comes_back ev st) as Hcb.
    destruct (hook ev st) as [proceed st1|err st1|] eqn:Hhook; [| |congruence].
    2:{ cbn. split; [discriminate|]. split; [exact (Hone true) | intros i e H; exact (Hlast _ i e H)]. }
    unfold Trigger.advance.
    destruct proceed.
    + (* the hook resolved the request: it is popped, and the scan goes on *)
      destruct (hook_proceeds ev st st1 Hhook) as [Hqueue Htrig].
      rewrite Htrig. cbn [negb]. unfold bind, Trigger.pop_check.
      rewrite Hqueue, Hq, Nat.eqb_refl. cbn [ret].
      set (st2 := set_queue (delete idx (queue st)) st1).
      assert (Hq2 : queue st2 = delete idx (queue st)) by apply queue_set_queue.
      destruct (IH idx st2) as (Hno & Hpre & Hpend).
      { rewrite Hq2, length_delete by eauto. apply lookup_lt_Some in Hq. lia. }
      cbn [fst snd]. split; [exact Hno|]. split.
      * rewrite Hdrop. rewrite fmap_cons. cbn [fst]. apply prefix_cons.
        rewrite Hq2 in Hpre.
        replace (drop idx (delete idx (queue st))) with (drop (S idx) (queue st)) in Hpre.
        { exact Hpre. }
        clear. generalize (queue st). induction idx as [|idx IHi]; intros [|x l]; cbn;
          try reflexivity. apply IHi.
      * intros [|i] e H.
        -- cbn in H. discriminate.
        -- cbn in H. cbn [length]. f_equal. apply (Hpend i e H).
    + (* the hook stops the scan *)
      destruct (is_triggered ev st1) eqn:Htrig; cbn [negb].
      * unfold bind, Trigger.pop_check.
        destruct (queue st1 !! idx) as [ev'|]; cbn.
        -- destruct (Nat.eqb ev' ev); cbn;
             (split; [discriminate|]; split; [exact (Hone true) | intros i e H; exact (Hlast _ i e H)]).
        -- split; [discriminate|]. split; [exact (Hone true) | intros i e H; exact (Hlast _ i e H)].
      * cbn. split; [discriminate|]. split; [exact (Hone true) | intros i e H; exact (Hlast _ i e H)].
Qed.

(** One call of the trigger routine keeps the head-of-line discipline and
    comes back. *)
Lemma scan_head_of_line st :
  head_of_line (queue st) (fst (Trigger.scan queue set_queue is_triggered hook violated st)) /\
  snd (Trigger.scan queue set_queue is_triggered hook violated st) <> Timeout.
Proof.
  unfold Trigger.scan.
  destruct (loop_head_of_line (length (queue st)) 0 st ltac:(lia)) as (Hno & Hpre & Hpend).
  split; [|exact Hno]. split; [exact Hpre | exact Hpend].
Qed.

End TriggerFacts.

(** ** Head-of-line discipline of each queue *)

Lemma never_true {St A} (m : M St A) s s' :
  (m >> ret false) s = Ret true s' -> False.
Proof.
  unfold bind. destruct (m s) as [a s1|e s1|]; cbn; intros H; discriminate.
Qed.

Ltac returns_false H :=
  exfalso; repeat (apply bind_inv_Ret in H as (? & ? & _ & H)); discriminate H.

Ltac comes_back_more :=
  repeat first
    [ comes_back_step
    | apply comes_back_lookup_event
    | apply comes_back_succeed
    | apply comes_back_add_callbacks
    | apply comes_back_NewEvent
    | apply comes_back_emit
    | apply comes_back_Log
    | apply comes_back_getTicks
    | assumption ].

Section BufferHooks.
Import Buffers.

Lemma comes_back_as_packet v : comes_back (as_packet v).
Proof. unfold as_packet. destruct v; comes_back_more. Qed.

Lemma comes_back_Buffer_Log msgtype msg : comes_back (Buffers.Log msgtype msg).
Proof. unfold Buffers.Log. comes_back_more. Qed.

Lemma comes_back_addPostPutDelay v : comes_back (addPostPutDelay v).
Proof. unfold addPostPutDelay. comes_back_more; apply comes_back_as_packet. Qed.

Lemma comes_back_addPrePutDelay v : comes_back (addPrePutDelay v).
Proof. unfold addPrePutDelay. comes_back_more; apply comes_back_as_packet. Qed.

Lemma comes_back_addPostGetDelay v : comes_back (addPostGetDelay v).
Proof. unfold addPostGetDelay. comes_back_more; apply comes_back_as_packet. Qed.

Lemma comes_back_postPutMsg v : comes_back (postPutMsg v).
Proof.
  unfold postPutMsg. comes_back_more;
    first [apply comes_back_as_packet | apply comes_back_addPostPutDelay
          | apply comes_back_Buffer_Log].
Qed.

Lemma comes_back_postGetMsg v : comes_back (postGetMsg v).
Proof.
  unfold postGetMsg. comes_back_more;
    first [apply comes_back_as_packet | apply comes_back_addPostGetDelay
          | apply comes_back_Buffer_Log].
Qed.

Lemma comes_back_updatePutDebt v : comes_back (_updatePutDebt v).
Proof. unfold _updatePutDebt. comes_back_more; apply comes_back_as_packet. Qed.

Lemma comes_back_updateGetDebt v : comes_back (_updateGetDebt v).
Proof. unfold _updateGetDebt. comes_back_more; apply comes_back_as_packet. Qed.

Lemma comes_back_insert_packet e : comes_back (_insert_packet e).
Proof. unfold _insert_packet. comes_back_more; apply comes_back_postPutMsg. Qed.

Lemma comes_back_remove_packet e : comes_back (_remove_packet e).
Proof. unfold _remove_packet. comes_back_more; apply comes_back_postGetMsg. Qed.

Lemma comes_back_Buffer_do_peek e : comes_back (_do_peek e).
Proof. unfold _do_peek. comes_back_more. Qed.

Lemma comes_back_Buffer_do_get e : comes_back (_do_get e).
Proof.
  unfold _do_get, addPreGetDelay. comes_back_more;
    first [apply comes_back_remove_packet | apply comes_back_updateGetDebt].
Qed.

Lemma Buffer_queue_lens (set : list evid -> buffer -> buffer) (get : buffer -> list evid) :
  (forall q b, get (set q b) = q) ->
  forall q (w : world), get (snd (on_queue set q w)) = q.
Proof. intros H q w. apply H. Qed.

Lemma Buffer_peek_head_of_line w :
  head_of_line (peek_queue (snd w)) (fst (_trigger_peek_scan w)) /\
  snd (_trigger_peek_scan w) <> Timeout.
Proof.
  apply (scan_head_of_line (fun w : world => peek_queue (snd w))).
  - reflexivity.
  - apply comes_back_Buffer_do_peek.
  - intros e st st' H. unfold _do_put, _do_get, _do_peek in H. returns_false H.
Qed.

Lemma comes_back_Buffer_trigger_peek : comes_back _trigger_peek.
Proof. intros w. apply Buffer_peek_head_of_line. Qed.

Lemma Buffer_get_head_of_line w :
  head_of_line (get_queue (snd w)) (fst (_trigger_get_scan w)) /\
  snd (_trigger_get_scan w) <> Timeout.
Proof.
  apply (scan_head_of_line (fun w : world => get_queue (snd w))).
  - reflexivity.
  - apply comes_back_Buffer_do_get.
  - intros e st st' H. unfold _do_put, _do_get, _do_peek in H. returns_false H.
Qed.

Lemma comes_back_Buffer_trigger_get : comes_back _trigger_get.
Proof. intros w. apply Buffer_get_head_of_line. Qed.

Lemma comes_back_Buffer_do_put e : comes_back (_do_put e).
Proof.
  unfold _do_put. comes_back_more;
    first [ apply comes_back_addPrePutDelay | apply comes_back_addPostPutDelay
          | apply comes_back_insert_packet | apply comes_back_Buffer_trigger_get
          | apply comes_back_Buffer_trigger_peek | apply comes_back_updatePutDebt ].
Qed.

Lemma Buffer_put_head_of_line w :
  head_of_line (put_queue (snd w)) (fst (_trigger_put_scan w)) /\
  snd (_trigger_put_scan w) <> Timeout.
Proof.
  apply (scan_head_of_line (fun w : world => put_queue (snd w))).
  - reflexivity.
  - apply comes_back_Buffer_do_put.
  - intros e st st' H. unfold _do_put, _do_get, _do_peek in H. returns_false H.
Qed.

Lemma comes_back_Buffer_trigger_put : comes_back _trigger_put.
Proof. intros w. apply Buffer_put_head_of_line. Qed.

End BufferHooks.

Section CreditHooks.
Import CreditBuffer.

Lemma Credit_do_peek_proceeds e (w w' : world) :
  _do_peek e w = Ret true w' -> snd w' = snd w /\ is_triggered e w' = true.
Proof.
  unfold _do_peek. intros H.
  apply bind_inv_Ret in H as (c & w1 & H1 & H). injection H1 as <- <-.
  apply bind_inv_Ret in H as (ev & w1 & H1 & H).
  unfold in_env, zoom, lookup_event in H1.
  destruct (events (fst w) !! e) as [ev'|] eqn:He; [|discriminate].
  injection H1 as <- <-. cbn [fst snd] in H.
  destruct (ev_item ev') as [|thresh|]; try discriminate.
  destruct (thresh <? Z.of_nat (length (items (snd w)))); [|discriminate].
  apply bind_inv_Ret in H as ([] & w1 & H1 & H). injection H as <-.
  unfold in_env, zoom in H1. cbn [fst snd] in H1.
  destruct (ev_value ev') eqn:Hv.
  { rewrite (succeed_triggered e ev') in H1 by (try assumption; congruence). discriminate. }
  rewrite (succeed_pending e ev') in H1 by assumption.
  injection H1 as <-. split; [reflexivity|].
  unfold is_triggered, triggered. cbn [fst events].
  rewrite list_lookup_insert_eq by (eapply lookup_lt_Some; exact He). reflexivity.
Qed.

Lemma comes_back_Credit_do_peek e : comes_back (_do_peek e).
Proof. unfold _do_peek. comes_back_more. Qed.

Lemma Credit_peek_head_of_line w :
  head_of_line (peek_queue (snd w)) (fst (_trigger_peek_scan w)) /\
  snd (_trigger_peek_scan w) <> Timeout.
Proof.
  apply (scan_head_of_line (fun w : world => peek_queue (snd w))).
  - reflexivity.
  - apply comes_back_Credit_do_peek.
  - intros e st st' H. apply Credit_do_peek_proceeds in H as [Hs Ht].
    split; [rewrite Hs; reflexivity | exact Ht].
Qed.

Lemma comes_back_Credit_trigger_peek : comes_back _trigger_peek.
Proof. intros w. apply Credit_peek_head_of_line. Qed.

Lemma comes_back_Credit_do_put e : comes_back (_do_put e).
Proof. unfold _do_put. comes_back_more. Qed.

Lemma comes_back_Credit_do_get e : comes_back (_do_get e).
Proof. unfold _do_get. comes_back_more. Qed.

Lemma Credit_put_head_of_line w :
  head_of_line (put_queue (snd w)) (fst (_trigger_put_scan w)) /\
  snd (_trigger_put_scan w) <> Timeout.
Proof.
  apply (scan_head_of_line (fun w : world => put_queue (snd w))).
  - reflexivity.
  - apply comes_back_Credit_do_put.
  - intros e st st' H. unfold _do_put, _do_get, _do_peek in H. returns_false H.
Qed.

Lemma Credit_get_head_of_line w :
  head_of_line (get_queue (snd w)) (fst (_trigger_get_scan w)) /\
  snd (_trigger_get_scan w) <> Timeout.
Proof.
  apply (scan_head_of_line (fun w : world => get_queue (snd w))).
  - reflexivity.
  - apply comes_back_Credit_do_get.
  - intros e st st' H. unfold _do_put, _do_get, _do_peek in H. returns_false H.
Qed.

Lemma comes_back_Credit_trigger_put : comes_back _trigger_put.
Proof. intros w. apply Credit_put_head_of_line. Qed.

Lemma comes_back_Credit_trigger_get : comes_back _trigger_get.
Proof. intros w. apply Credit_get_head_of_line. Qed.

Lemma comes_back_Credit_get : comes_back get.
Proof. unfold get. comes_back_more. apply comes_back_Credit_trigger_get. Qed.

Lemma comes_back_Credit_put item : comes_back (put item).
Proof. unfold put. comes_back_more. apply comes_back_Credit_trigger_put. Qed.

End CreditHooks.

Section PipelineHooks.
Import Pipelines.

Lemma comes_back_Pipeline_as_packet v : comes_back (as_packet v).
Proof. unfold as_packet. destruct v; comes_back_more. Qed.

Lemma comes_back_Pipeline_Log msgtype msg : comes_back (Pipelines.Log msgtype msg).
Proof. unfold Pipelines.Log. comes_back_more. Qed.

Lemma comes_back_Pipeline_addPostPutDelay v : comes_back (addPostPutDelay v).
Proof. unfold addPostPutDelay. comes_back_more; apply comes_back_Pipeline_as_packet. Qed.

Lemma comes_back_send e : comes_back (send e).
Proof.
  unfold send, prePutMsg, start_putdelay. comes_back_more;
    first [ apply comes_back_Pipeline_addPostPutDelay | apply comes_back_Pipeline_as_packet
          | apply comes_back_Pipeline_Log ].
Qed.

Lemma comes_back_Pipeline_updatePutDebt v : comes_back (_updatePutDebt v).
Proof. unfold _updatePutDebt. comes_back_more; apply comes_back_Pipeline_as_packet. Qed.

Lemma comes_back_Pipeline_do_put e : comes_back (_do_put e).
Proof.
  unfold _do_put, in_credits. comes_back_more;
    first [ apply comes_back_send | apply comes_back_Pipeline_updatePutDebt
          | apply comes_back_Credit_get | apply comes_back_Pipeline_Log ].
Qed.

Lemma Pipeline_put_head_of_line w :
  head_of_line (put_queue (snd w)) (fst (_trigger_put_scan w)) /\
  snd (_trigger_put_scan w) <> Timeout.
Proof.
  apply (scan_head_of_line (fun w : world => put_queue (snd w))).
  - reflexivity.
  - apply comes_back_Pipeline_do_put.
  - intros e st st' H. unfold _do_put in H. returns_false H.
Qed.

Lemma comes_back_Pipeline_trigger_put : comes_back _trigger_put.
Proof. intros w. apply Pipeline_put_head_of_line. Qed.

End PipelineHooks.


(** Three peeks wait on a credit buffer that just got its third token: the
    first (threshold 1) is resolved, the second (threshold 5) is left
    pending, and the third (threshold 1) is not looked at. *)
Lemma credit_peek_head_of_line_example :
  let s := MkSim 0 [] 0%nat
             [Event (PyInt 1) None None false (Some []);
              Event (PyInt 5) None None false (Some []);
              Event (PyInt 1) None None false (Some [])] [] in
  let c := CreditBuffer.CreditBuffer "creditbuffer" 4 [PyInt 1; PyInt 1; PyInt 1]
             [] [] [0; 1; 2]%nat in
  fst (CreditBuffer._trigger_peek_scan (s, c)) = [(0%nat, true); (1%nat, false)] /\
  (CreditBuffer.peek_queue <$> (snd <$> final (CreditBuffer._trigger_peek (s, c))))
    = Some [1; 2]%nat.
Proof. split; vm_compute; reflexivity. Qed.

(** ** Rules for computations that return *)

Lemma hoare_bind {St A B} (P : St -> Prop) (R : A -> St -> Prop) (Q : B -> St -> Prop)
    (m : M St A) (k : A -> M St B) :
  hoare P m R -> (forall a, hoare (R a) (k a) Q) -> hoare P (bind m k) Q.
Proof.
  intros Hm Hk s b s' HP H. apply bind_inv_Ret in H as (a & s1 & H1 & H2).
  eapply Hk; [|exact H2]. eapply Hm; [exact HP | exact H1].
Qed.

Lemma hoare_ret {St A} (P : St -> Prop) (Q : A -> St -> Prop) (a : A) :
  (forall s, P s -> Q a s) -> hoare P (ret a) Q.
Proof. intros H s a' s' HP E. injection E as <- <-. auto. Qed.

Lemma hoare_raise {St A} (P : St -> Prop) (Q : A -> St -> Prop) e :
  hoare P (raise e) Q.
Proof. intros s a s' _ E. discriminate. Qed.

Lemma hoare_conseq {St A} (P P' : St -> Prop) (Q Q' : A -> St -> Prop) (m : M St A) :
  hoare P' m Q' -> (forall s, P s -> P' s) -> (forall a s, Q' a s -> Q a s) -> hoare P m Q.
Proof. intros Hm HP HQ s a s' Hs E. apply HQ. eapply Hm; [apply HP; exact Hs | exact E]. Qed.

Lemma hoare_exists {St A X} (P : X -> St -> Prop) (Q : A -> St -> Prop) (m : M St A) :
  (forall x, hoare (P x) m Q) -> hoare (fun s => exists x, P x s) m Q.
Proof. intros H s a s' [x Hx] E. eapply H; eassumption. Qed.


(** ** Queued requests stay pending: the environment's part *)

Lemma pending_iff e s :
  pending e s <-> (e < length (events s))%nat /\ triggered e s = false.
Proof.
  unfold pending, triggered. split.
  - intros (ev & He & Hv). split; [eapply lookup_lt_Some; exact He|]. rewrite He, Hv. reflexivity.
  - intros [Hlt Ht]. destruct (lookup_lt_is_Some_2 (events s) e Hlt) as [ev He].
    exists ev. split; [exact He|]. rewrite He in Ht. destruct (ev_value ev); [discriminate|reflexivity].
Qed.

Lemma queued_pending_but_nil s Q : queued_pending_but [] s Q <-> queued_pending s Q.
Proof.
  unfold queued_pending_but, queued_pending. split; intros [Hnd H]; (split; [exact Hnd|]).
  - intros e He. apply pending_iff. destruct (H e He) as [Hlt Ht]. split; [exact Hlt|].
    apply Ht. intros Hin. inversion Hin.
  - intros e He. specialize (H e He). apply pending_iff in H as [Hlt Ht]. auto.
Qed.

Lemma advances_refl R s : advances R s s.
Proof. split; [lia | reflexivity]. Qed.

Lemma advances_trans R s1 s2 s3 : advances R s1 s2 -> advances R s2 s3 -> advances R s1 s3.
Proof.
  intros [L1 H1] [L2 H2]. split; [lia|]. intros e He Hr.
  rewrite H2 by (lia || assumption). apply H1; assumption.
Qed.

Lemma advances_weaken (R R' : evid -> Prop) s s' :
  (forall e, R e -> R' e) -> advances R s s' -> advances R' s s'.
Proof. intros HR [L H]. split; [exact L|]. intros e He Hn. apply H; auto. Qed.

Lemma quiet_lookup_event e : quiet (lookup_event e).
Proof.
  intros s a s' H. unfold lookup_event in H. destruct (events s !! e); [|discriminate].
  injection H as _ <-. apply advances_refl.
Qed.

Lemma triggered_insert_same_value e ev ev' s evs' :
  events s !! e = Some ev -> ev_value ev' = ev_value ev ->
  evs' = <[e := ev']> (events s) ->
  forall e' s', events s' = evs' -> triggered e' s' = triggered e' s.
Proof.
  intros He Hv -> e' s' Hs'. unfold triggered. rewrite Hs'.
  destruct (decide (e' = e)) as [->|Hne].
  - rewrite list_lookup_insert_eq by (eapply lookup_lt_Some; exact He). rewrite He, Hv. reflexivity.
  - rewrite list_lookup_insert_ne by congruence. reflexivity.
Qed.

Lemma quiet_add_callbacks e cbs : quiet (add_callbacks e cbs).
Proof.
  intros s a s' H. unfold add_callbacks in H.
  apply bind_inv_Ret in H as (ev & s1 & H1 & H).
  unfold lookup_event in H1. destruct (events s !! e) as [ev'|] eqn:He; [|discriminate].
  injection H1 as <- <-. destruct (ev_callbacks ev') as [old|]; [|discriminate].
  unfold store_event, modify, set_events in H. injection H as _ <-. split.
  - cbn. rewrite length_insert. lia.
  - intros e' _ _. eapply (triggered_insert_same_value e ev'); [exact He| |reflexivity|reflexivity].
    reflexivity.
Qed.

Lemma quiet_emit l nm msg : quiet (emit l nm msg).
Proof. intros s a s' H. injection H as _ <-. split; [cbn; lia | reflexivity]. Qed.

Lemma quiet_ret {A} (a : A) : quiet (ret a).
Proof. intros s a' s' H. injection H as _ <-. apply advances_refl. Qed.

Lemma quiet_raise {A} e : quiet (raise e : M sim A).
Proof. intros s a' s' H. discriminate. Qed.

Lemma quiet_bind {A B} (m : M sim A) (k : A -> M sim B) :
  quiet m -> (forall a, quiet (k a)) -> quiet (bind m k).
Proof.
  intros Hm Hk s b s' H. apply bind_inv_Ret in H as (a & s1 & H1 & H2).
  eapply advances_trans; [eapply Hm; exact H1 | eapply Hk; exact H2].
Qed.

Lemma quiet_Log nm msgtype msg infolist : quiet (Sim.Log nm msgtype msg infolist).
Proof.
  unfold Sim.Log. apply quiet_bind; [|intros _; apply quiet_bind; [|intros _]].
  - repeat (match goal with |- quiet (if ?x then _ else _) => destruct x end);
      try apply quiet_emit; try apply quiet_raise; apply quiet_ret.
  - destruct infolist as [|it l]; [apply quiet_ret|].
    apply quiet_bind; [apply quiet_emit|]. intros _.
    generalize (it :: l). intros l'. induction l' as [|a l' IH]; cbn [foldr].
    + apply quiet_ret.
    + apply quiet_bind; [apply quiet_emit | intros _; exact IH].
  - destruct (contains _ _); [apply quiet_raise | apply quiet_ret].
Qed.

(** A new event is pending and takes the next free place. *)
Lemma NewEvent_fresh item caller s e s' :
  NewEvent item caller s = Ret e s' ->
  e = length (events s) /\ advances nobody s s' /\
  (e < length (events s'))%nat /\ triggered e s' = false.
Proof.
  unfold NewEvent. intros [= <- <-]. unfold set_events. split; [reflexivity|]. split; [|split].
  - split; [cbn; rewrite length_app; lia|]. intros e He _.
    unfold triggered. cbn. rewrite lookup_app_l by exact He. reflexivity.
  - cbn. rewrite length_app. cbn. lia.
  - unfold triggered. cbn. rewrite lookup_fresh_event. reflexivity.
Qed.

(** [succeed] triggers its event and no other. *)
Lemma succeed_advances e v d s s' :
  succeed e v d s = Ret tt s' ->
  advances (fun e' => e' = e) s s' /\ triggered e s' = true.
Proof.
  unfold succeed. intros H. apply bind_inv_Ret in H as (ev & s1 & H1 & H).
  unfold lookup_event in H1. destruct (events s !! e) as [ev'|] eqn:He; [|discriminate].
  injection H1 as <- <-. destruct (ev_value ev') eqn:Hv; [discriminate|].
  unfold bind, store_event, schedule, modify, set_events in H. cbn in H. injection H as <-.
  assert (Hlt : (e < length (events s))%nat) by (eapply lookup_lt_Some; exact He).
  split; [split|].
  - cbn. rewrite length_insert. lia.
  - intros e' _ Hne. unfold triggered. cbn. rewrite list_lookup_insert_ne by congruence.
    reflexivity.
  - unfold triggered. cbn. rewrite list_lookup_insert_eq by exact Hlt. reflexivity.
Qed.

(** ** Queued requests stay pending: the frame of an object *)

Section Frame.
Context {T V : Type}.
Variable view : T -> V.
Variable requests : V -> list evid.

Local Abbreviation kept := (Queues.kept view requests).
Local Abbreviation benign := (Queues.benign view requests).

Lemma kept_advances (R : evid -> Prop) X X' v s t s' t' :
  kept X v (s, t) -> advances R s s' -> view t' = view t ->
  (forall e, e ∈ requests v -> R e -> e ∈ X') ->
  (forall e, e ∈ X -> e ∈ X') ->
  kept X' v (s', t').
Proof.
  intros [Hv [Hnd Hq]] [Hlen Hadv] Hview HR HX. split; [cbn in *; congruence|].
  split; [exact Hnd|]. intros e He. destruct (Hq e He) as [Hlt Hun]. cbn [fst] in *.
  split; [lia|]. intros Hn. rewrite Hadv; [apply Hun|exact Hlt|]; intros Hx; apply Hn; auto.
Qed.

Lemma benign_ret {A} (a : A) : benign (ret a).
Proof. intros X v w a' w' HK H. injection H as _ <-. exact HK. Qed.

Lemma benign_raise {A} e : benign (raise e : M (sim * T) A).
Proof. intros X v w a' w' HK H. discriminate. Qed.

Lemma benign_bind {A B} (m : M (sim * T) A) (k : A -> M (sim * T) B) :
  benign m -> (forall a, benign (k a)) -> benign (bind m k).
Proof.
  intros Hm Hk X v w b w' HK H. apply bind_inv_Ret in H as (a & w1 & H1 & H2).
  eapply Hk; [|exact H2]. eapply Hm; [exact HK | exact H1].
Qed.

Lemma benign_self : benign self.
Proof. intros X v w a w' HK H. injection H as _ <-. exact HK. Qed.

Lemma benign_the_env : benign the_env.
Proof. intros X v w a w' HK H. injection H as _ <-. exact HK. Qed.

Lemma benign_gets {A} (f : sim * T -> A) : benign (gets f).
Proof. intros X v w a w' HK H. injection H as _ <-. exact HK. Qed.

Lemma benign_in_env {A} (m : M sim A) : quiet m -> benign (in_env m).
Proof.
  intros Hq X v [s t] a w' HK H. unfold in_env, zoom in H. cbn [fst snd] in H.
  destruct (m s) as [a' s'|e s'|] eqn:Hm; try discriminate. injection H as _ <-.
  eapply (kept_advances nobody); [exact HK | eapply Hq; exact Hm | reflexivity | |auto].
  intros e _ [].
Qed.

Lemma benign_update (f : T -> T) : (forall t, view (f t) = view t) -> benign (update f).
Proof.
  intros Hf X v [s t] [] w' HK H. injection H as <-.
  eapply (kept_advances nobody); [exact HK | apply advances_refl | apply Hf | |auto].
  intros e _ [].
Qed.

Lemma benign_getTicks p bpc : benign (getTicks p bpc).
Proof. unfold getTicks. destruct (bpc =? 0); [apply benign_raise | apply benign_ret]. Qed.

(** [succeed] on a request makes it one of the exceptions. *)
Lemma kept_succeed e val d X v :
  hoare (kept X v) (in_env (succeed e val d)) (fun _ => kept (e :: X) v).
Proof.
  intros [s t] [] w' HK H. unfold in_env, zoom in H. cbn [fst snd] in H.
  destruct (succeed e val d s) as [[] s'|err s'|] eqn:Hm; try discriminate. injection H as <-.
  apply succeed_advances in Hm as [Hadv _].
  eapply kept_advances; [exact HK | exact Hadv | reflexivity | |].
  - intros e' _ ->. left.
  - intros e' He'. right. exact He'.
Qed.

(** [succeed] on an event that is in no queue changes nothing for the queues. *)
Lemma kept_succeed_elsewhere e val d X v :
  e ∉ requests v ->
  hoare (kept X v) (in_env (succeed e val d)) (fun _ => kept X v).
Proof.
  intros Hout [s t] [] w' HK H. unfold in_env, zoom in H. cbn [fst snd] in H.
  destruct (succeed e val d s) as [[] s'|err s'|] eqn:Hm; try discriminate. injection H as <-.
  apply succeed_advances in Hm as [Hadv _].
  eapply kept_advances; [exact HK | exact Hadv | reflexivity | |auto].
  intros e' He' ->. contradiction.
Qed.

(** A new event is in no queue. *)
Lemma kept_NewEvent item caller X v :
  hoare (kept X v) (in_env (NewEvent item caller))
        (fun e w => kept X v w /\ (e ∉ requests v) /\
                    (e < length (events (fst w)))%nat /\ triggered e (fst w) = false).
Proof.
  intros [s t] e w' HK H. unfold in_env, zoom in H. cbn [fst snd] in H.
  destruct (NewEvent item caller s) as [e' s'|err s'|] eqn:Hm; try discriminate.
  injection H as <- <-. apply NewEvent_fresh in Hm as (-> & Hadv & Hlt & Hun).
  split; [|split; [|split; assumption]].
  - eapply (kept_advances nobody); [exact HK | exact Hadv | reflexivity | |auto].
    intros e _ [].
  - intros Hin. destruct HK as [_ [_ Hq]]. destruct (Hq _ Hin) as [Hlt' _]. cbn in Hlt'. lia.
Qed.

Lemma kept_drop_exception e X v w :
  kept (e :: X) v w -> (e ∈ requests v -> triggered e (fst w) = false) -> kept X v w.
Proof.
  intros [Hv [Hnd Hq]] He. split; [exact Hv|]. split; [exact Hnd|].
  intros e' He'. destruct (Hq e' He') as [Hlt Hun]. split; [exact Hlt|].
  intros Hn. destruct (decide (e' = e)) as [->|Hne]; [apply He; exact He'|].
  apply Hun. intros Hin. apply elem_of_cons in Hin as [?|?]; [congruence|contradiction].
Qed.

Lemma kept_more_exceptions e X v w : kept X v w -> kept (e :: X) v w.
Proof.
  intros [Hv [Hnd Hq]]. split; [exact Hv|]. split; [exact Hnd|].
  intros e' He'. destruct (Hq e' He') as [Hlt Hun]. split; [exact Hlt|].
  intros Hn. apply Hun. intros Hin. apply Hn. right. exact Hin.
Qed.

Lemma hoare_benign {A} (m : M (sim * T) A) X v :
  benign m -> hoare (kept X v) m (fun _ => kept X v).
Proof. intros H. apply H. Qed.

Lemma hoare_bind_benign {A B} (m : M (sim * T) A) (k : A -> M (sim * T) B) X v Q :
  benign m -> (forall a, hoare (kept X v) (k a) Q) -> hoare (kept X v) (bind m k) Q.
Proof. intros Hm Hk. eapply hoare_bind; [apply Hm | exact Hk]. Qed.

Lemma hoare_bind_succeed {B} e val d (k : unit -> M (sim * T) B) X v Q :
  hoare (kept (e :: X) v) (k tt) Q ->
  hoare (kept X v) (bind (in_env (succeed e val d)) k) Q.
Proof. intros Hk. eapply hoare_bind; [apply kept_succeed | intros []; exact Hk]. Qed.

Lemma hoare_bind_succeed_elsewhere {B} e val d (k : unit -> M (sim * T) B) X v Q :
  e ∉ requests v -> hoare (kept X v) (k tt) Q ->
  hoare (kept X v) (bind (in_env (succeed e val d)) k) Q.
Proof.
  intros He Hk. eapply hoare_bind; [apply kept_succeed_elsewhere; exact He | intros []; exact Hk].
Qed.

Lemma hoare_bind_NewEvent {B} item caller (k : evid -> M (sim * T) B) X v Q :
  (forall e, e ∉ requests v ->
     hoare (fun w => kept X v w /\ (e < length (events (fst w)))%nat /\
                     triggered e (fst w) = false) (k e) Q) ->
  hoare (kept X v) (bind (in_env (NewEvent item caller)) k) Q.
Proof.
  intros Hk. eapply hoare_bind; [apply kept_NewEvent|]. intros e w a w' (HK & Hout & Hlt & Hun).
  apply (Hk e Hout). auto.
Qed.

(** The same, when what comes next does not care that the event is new. *)
Lemma hoare_bind_NewEvent_kept {B} item caller (k : evid -> M (sim * T) B) X v Q :
  (forall e, e ∉ requests v -> hoare (kept X v) (k e) Q) ->
  hoare (kept X v) (bind (in_env (NewEvent item caller)) k) Q.
Proof.
  intros Hk. apply hoare_bind_NewEvent. intros e He.
  eapply hoare_conseq; [apply (Hk e He) | intros w [HK _]; exact HK | auto].
Qed.

Lemma hoare_more_exceptions {A} (m : M (sim * T) A) e X v :
  benign m -> hoare (kept X v) m (fun _ => kept (e :: X) v).
Proof.
  intros Hm. eapply hoare_conseq; [apply (Hm X v) | auto |].
  intros a w. apply kept_more_exceptions.
Qed.

End Frame.

(** ** Queued requests stay pending: the trigger loop *)

Section TriggerInvariant.
Context {St : Type}.
Variable queue : St -> list evid.
Variable set_queue : list evid -> St -> St.
Variable is_triggered : evid -> St -> bool.
Variable hook : evid -> M St bool.
Variable violated : string.

(** [I X st]: the invariant, with the requests of [X] excused. *)
Variable I : list evid -> St -> Prop.

Hypothesis hook_keeps : forall X e q,
  hoare (fun st => I X st /\ queue st = q) (hook e)
        (fun _ st => I (e :: X) st /\ queue st = q).
Hypothesis pop_restores : forall X e idx st,
  I (e :: X) st -> queue st !! idx = Some e ->
  I X (set_queue (delete idx (queue st)) st).
Hypothesis pending_restores : forall X e st,
  I (e :: X) st -> is_triggered e st = false -> I X st.

Lemma loop_keeps : forall (fuel idx : nat) X,
  hoare (I X) (fun st => snd (Trigger.loop queue set_queue is_triggered hook violated
                                           fuel idx st))
        (fun _ => I X).
Proof.
  induction fuel as [|fuel IH]; intros idx X st [] st' HI H; cbn [Trigger.loop] in H.
  - destruct (queue st !! idx); [discriminate|]. injection H as <-. exact HI.
  - destruct (queue st !! idx) as [ev|] eqn:Hq; [|injection H as <-; exact HI].
    destruct (hook ev st) as [proceed st1|err st1|] eqn:Hhook; try discriminate.
    destruct (hook_keeps X ev (queue st) st proceed st1 (conj HI eq_refl) Hhook) as [HI1 Hq1].
    unfold Trigger.advance in H.
    assert (Hnext : forall idx' st2,
              (if negb (is_triggered ev st1) then Ret (S idx) st1
               else (Trigger.pop_check queue set_queue violated idx ev >> ret idx) st1)
              = Ret idx' st2 -> I X st2).
    { intros idx' st2 E. destruct (is_triggered ev st1) eqn:Ht; cbn [negb] in E.
      - unfold bind, Trigger.pop_check in E. rewrite Hq1, Hq, Nat.eqb_refl in E.
        injection E as _ <-. rewrite <- Hq1. apply (pop_restores X ev); [exact HI1|].
        rewrite Hq1. exact Hq.
      - injection E as _ <-. apply (pending_restores X ev); assumption. }
    destruct (if negb (is_triggered ev st1) then _ else _) as [idx' st2|err st2|] eqn:Hadv;
      try discriminate.
    specialize (Hnext idx' st2 eq_refl).
    destruct proceed.
    + cbn [snd] in H. eapply IH; [exact Hnext | exact H].
    + injection H as <-. exact Hnext.
Qed.

Lemma scan_keeps X :
  hoare (I X) (fun st => snd (Trigger.scan queue set_queue is_triggered hook violated st))
        (fun _ => I X).
Proof. intros st a st' HI H. eapply loop_keeps; [exact HI | exact H]. Qed.

End TriggerInvariant.

(** The consistency check of the loop: the request at the scanned position
    is popped; the check raises when another event came out. *)
Lemma pop_check_spec {St} (queue : St -> list evid) (set_queue : list evid -> St -> St)
    (violated : string) (idx : nat) (ev ev' : evid) (st : St) :
  queue st !! idx = Some ev' ->
  Trigger.pop_check queue set_queue violated idx ev st =
  if decide (ev' = ev)
  then Ret tt (set_queue (delete idx (queue st)) st)
  else Raise (RuntimeError violated) (set_queue (delete idx (queue st)) st).
Proof.
  intros Hq. unfold Trigger.pop_check. rewrite Hq.
  destruct (decide (ev' = ev)) as [->|Hne].
  - rewrite Nat.eqb_refl. reflexivity.
  - destruct (Nat.eqb_spec ev' ev); [contradiction | reflexivity].
Qed.

(** Taking a request out of its queue. *)
Lemma queued_pending_but_remove e X s (l1 l2 : list evid) :
  queued_pending_but (e :: X) s (l1 ++ e :: l2) -> queued_pending_but X s (l1 ++ l2).
Proof.
  intros [Hnd Hq]. apply NoDup_app in Hnd as (Hnd1 & Hdisj & Hnd2).
  apply NoDup_cons in Hnd2 as [Hnotin Hnd2].
  split.
  - apply NoDup_app. split; [exact Hnd1|]. split; [|exact Hnd2].
    intros x Hx Hx2. apply (Hdisj x Hx). right. exact Hx2.
  - intros e' He'.
    assert (Hin : e' ∈ l1 ++ e :: l2).
    { apply elem_of_app in He' as [?|?]; apply elem_of_app; [left|right; right]; assumption. }
    assert (Hne : e' <> e).
    { intros ->. apply elem_of_app in He' as [H1|H2]; [|contradiction].
      apply (Hdisj e H1). left. }
    destruct (Hq e' Hin) as [Hlt Hun]. split; [exact Hlt|].
    intros Hn. apply Hun. intros Hx. apply elem_of_cons in Hx as [?|?]; contradiction.
Qed.

Lemma delete_middle {A} (l : list A) idx e :
  l !! idx = Some e ->
  l = take idx l ++ e :: drop (S idx) l /\ delete idx l = take idx l ++ drop (S idx) l.
Proof.
  intros H. split.
  - symmetry. apply take_drop_middle. exact H.
  - apply delete_take_drop.
Qed.

(** Adding a fresh pending request at the back of a queue. *)
Lemma queued_pending_but_add e X s (l1 l2 : list evid) :
  queued_pending_but X s (l1 ++ l2) -> e ∉ l1 ++ l2 ->
  (e < length (events s))%nat -> triggered e s = false ->
  queued_pending_but X s (l1 ++ e :: l2).
Proof.
  intros [Hnd Hq] Hout Hlt Hun. apply NoDup_app in Hnd as (Hnd1 & Hdisj & Hnd2). split.
  - apply NoDup_app. split; [exact Hnd1|]. split.
    + intros x Hx Hx2. apply elem_of_cons in Hx2 as [->|Hx2].
      * apply Hout. apply elem_of_app. left. exact Hx.
      * apply (Hdisj x Hx Hx2).
    + apply NoDup_cons. split; [|exact Hnd2].
      intros Hin. apply Hout. apply elem_of_app. right. exact Hin.
  - intros e' He'. apply elem_of_app in He' as [H1|H2].
    + apply Hq. apply elem_of_app. left. exact H1.
    + apply elem_of_cons in H2 as [->|H2]; [auto|].
      apply Hq. apply elem_of_app. right. exact H2.
Qed.

(** ** Queued requests stay pending: queues of a view *)

Lemma queued_pending_but_more e X s Q :
  queued_pending_but X s Q -> queued_pending_but (e :: X) s Q.
Proof.
  intros [Hnd Hq]. split; [exact Hnd|]. intros e' He'. destruct (Hq e' He') as [Hlt Hun].
  split; [exact Hlt|]. intros Hn. apply Hun. intros Hin. apply Hn. right. exact Hin.
Qed.

Lemma queued_pending_but_delete X s (A B q : list evid) idx e :
  q !! idx = Some e ->
  queued_pending_but (e :: X) s (A ++ q ++ B) ->
  queued_pending_but X s (A ++ delete idx q ++ B).
Proof.
  intros Hq H. destruct (delete_middle q idx e Hq) as [E1 E2]. rewrite E2. rewrite E1 in H.
  replace (A ++ (take idx q ++ drop (S idx) q) ++ B)
    with ((A ++ take idx q) ++ (drop (S idx) q ++ B))
    by (rewrite <- !app_assoc; reflexivity).
  apply (queued_pending_but_remove e).
  replace ((A ++ take idx q) ++ e :: drop (S idx) q ++ B)
    with (A ++ (take idx q ++ e :: drop (S idx) q) ++ B)
    by (rewrite <- !app_assoc; reflexivity).
  exact H.
Qed.

Lemma queued_pending_but_snoc X s (A B q : list evid) e :
  queued_pending_but X s (A ++ q ++ B) -> e ∉ A ++ q ++ B ->
  (e < length (events s))%nat -> triggered e s = false ->
  queued_pending_but X s (A ++ (q ++ [e]) ++ B).
Proof.
  intros H Hout Hlt Hun.
  replace (A ++ (q ++ [e]) ++ B) with ((A ++ q) ++ e :: B)
    by (rewrite <- !app_assoc; reflexivity).
  apply queued_pending_but_add; rewrite <- ?app_assoc; assumption.
Qed.

Lemma list_remove_middle x l l' :
  Buffers.list_remove x l = Some l' ->
  exists idx, l !! idx = Some x /\ l' = delete idx l.
Proof.
  revert l'. induction l as [|y l IH]; intros l' H; cbn in H; [discriminate|].
  destruct (Nat.eqb_spec y x) as [->|Hne].
  - injection H as <-. exists 0%nat. split; reflexivity.
  - destruct (Buffers.list_remove x l) as [r|]; [|discriminate]. injection H as <-.
    destruct (IH r eq_refl) as (idx & Hl & ->). exists (S idx). split; [exact Hl | reflexivity].
Qed.

(** ** Queued requests stay pending: [Buffer] *)

Ltac quiet_tac :=
  repeat first
    [ apply quiet_ret | apply quiet_raise | apply quiet_lookup_event
    | apply quiet_add_callbacks | apply quiet_emit | apply quiet_Log
    | apply quiet_bind; [|intros ?] ].

Create HintDb benign.

Ltac benign_step :=
  first
    [ solve [auto 1 with benign nocore]
    | apply benign_ret | apply benign_raise | apply benign_self | apply benign_the_env
    | apply benign_getTicks
    | apply benign_in_env; quiet_tac
    | apply benign_update; intros ?; reflexivity
    | apply benign_bind; [|intros ?]
    | match goal with
      | |- Queues.benign _ _ (match ?x with _ => _ end) => destruct x
      | |- Queues.benign _ _ (let (_, _) := ?x in _) => destruct x
      end ].

Ltac benign_tac := repeat benign_step.

Module BufferQueues.
Import Buffers.

Abbreviation keptB := (kept buffer_view requests3).
Abbreviation benignB := (benign buffer_view requests3).

Lemma Buffer_benign_Log msgtype msg : benignB (Log msgtype msg).
Proof. unfold Log. benign_tac. Qed.
#[export] Hint Resolve Buffer_benign_Log : benign.

Lemma Buffer_benign_as_packet v : benignB (as_packet v).
Proof. unfold as_packet. benign_tac. Qed.
#[export] Hint Resolve Buffer_benign_as_packet : benign.

Lemma Buffer_benign_addPrePutDelay item : benignB (addPrePutDelay item).
Proof. unfold addPrePutDelay. benign_tac. Qed.

Lemma Buffer_benign_addPostPutDelay item : benignB (addPostPutDelay item).
Proof. unfold addPostPutDelay. benign_tac. Qed.

Lemma Buffer_benign_addPreGetDelay item : benignB (addPreGetDelay item).
Proof. unfold addPreGetDelay. benign_tac. Qed.

Lemma Buffer_benign_addPostGetDelay item : benignB (addPostGetDelay item).
Proof. unfold addPostGetDelay. benign_tac. Qed.
#[export] Hint Resolve Buffer_benign_addPrePutDelay Buffer_benign_addPostPutDelay Buffer_benign_addPreGetDelay
  Buffer_benign_addPostGetDelay : benign.

Lemma Buffer_benign_postPutMsg item : benignB (postPutMsg item).
Proof. unfold postPutMsg. benign_tac. Qed.

Lemma Buffer_benign_postGetMsg item : benignB (postGetMsg item).
Proof. unfold postGetMsg. benign_tac. Qed.

Lemma Buffer_benign_updatePutDebt item : benignB (_updatePutDebt item).
Proof. unfold _updatePutDebt. benign_tac. Qed.

Lemma Buffer_benign_updateGetDebt item : benignB (_updateGetDebt item).
Proof. unfold _updateGetDebt. benign_tac. Qed.

Lemma Buffer_benign_updateTotalWrBits e : benignB (_updateTotalWrBits e).
Proof. unfold _updateTotalWrBits. benign_tac. Qed.

Lemma Buffer_benign_updateTotalRdBits e : benignB (_updateTotalRdBits e).
Proof. unfold _updateTotalRdBits. benign_tac. Qed.
#[export] Hint Resolve Buffer_benign_postPutMsg Buffer_benign_postGetMsg Buffer_benign_updatePutDebt
  Buffer_benign_updateGetDebt Buffer_benign_updateTotalWrBits Buffer_benign_updateTotalRdBits : benign.

Lemma Buffer_benign_insert_packet e : benignB (_insert_packet e).
Proof. unfold _insert_packet. benign_tac. Qed.

Lemma Buffer_benign_remove_packet e : benignB (_remove_packet e).
Proof. unfold _remove_packet. benign_tac. Qed.
#[export] Hint Resolve Buffer_benign_insert_packet Buffer_benign_remove_packet : benign.

End BufferQueues.

Module BufferHooks.
Import Buffers BufferQueues.

Lemma Buffer_do_peek_keeps e X v : hoare (keptB X v) (_do_peek e) (fun _ => keptB (e :: X) v).
Proof.
  unfold _do_peek. apply hoare_bind_benign; [apply benign_self|]. intros b.
  eapply hoare_bind with (R := fun _ => keptB (e :: X) v).
  - destruct (items b) as [|head rest].
    + apply hoare_more_exceptions. apply benign_ret.
    + apply kept_succeed.
  - intros _. apply hoare_benign. apply benign_ret.
Qed.

Lemma Buffer_do_get_keeps e X v : hoare (keptB X v) (_do_get e) (fun _ => keptB (e :: X) v).
Proof.
  unfold _do_get. apply hoare_bind_benign; [apply benign_self|]. intros b.
  eapply hoare_bind with (R := fun _ => keptB (e :: X) v);
    [|intros _; apply hoare_benign; apply benign_ret].
  destruct (items b) as [|item rest]; [apply hoare_more_exceptions; apply benign_ret|].
  apply hoare_bind_benign; [benign_tac|]. intros pregetdelay.
  eapply hoare_bind with (R := fun _ => keptB (e :: X) v);
    [|intros _; apply hoare_benign; benign_tac].
  destruct (negb (pregetdelay =? 0)).
  - apply hoare_bind_benign; [benign_tac|]. intros _. apply kept_succeed.
  - apply hoare_bind_benign; [benign_tac|]. intros _.
    apply hoare_bind_benign; [benign_tac|]. intros _. apply kept_succeed.
Qed.

Lemma Buffer_trigger_peek_keeps X q1 q2 q3 :
  hoare (keptB X (q1, q2, q3)) _trigger_peek (fun _ w => exists q3', keptB X (q1, q2, q3') w).
Proof.
  eapply hoare_conseq.
  - apply (scan_keeps (fun w => peek_queue (snd w)) (on_queue set_peek_queue) is_triggered
             _do_peek "Peek queue invariant violated"
             (fun X w => exists q3', keptB X (q1, q2, q3') w)).
    + intros X' e q w p w' [[q3' HK] Hq] H.
      pose proof (Buffer_do_peek_keeps e X' _ w p w' HK H) as HK'. split; [exists q3'; exact HK'|].
      destruct HK as [Hv _], HK' as [Hv' _]. unfold buffer_view in Hv, Hv'. congruence.
    + intros X' e idx [s b] [q3' [Hv Hq]] Hidx. cbn [snd fst] in *.
      exists (delete idx q3'). unfold buffer_view in Hv. injection Hv as <- <- <-.
      split; [reflexivity|]. cbn [fst on_queue]. unfold requests3 in *. cbn [fst snd] in *.
      rewrite app_assoc. rewrite <- (app_nil_r (delete idx _)).
      apply (queued_pending_but_delete _ _ _ _ _ _ e); [exact Hidx|].
      rewrite app_nil_r, <- app_assoc. exact Hq.
    + intros X' e w [q3' HK] Hun. exists q3'. apply (kept_drop_exception _ _ e); [exact HK|].
      intros _. exact Hun.
  - intros w HK. exists q3. exact HK.
  - intros a w H. exact H.
Qed.

Lemma Buffer_trigger_get_keeps X q1 q2 q3 :
  hoare (keptB X (q1, q2, q3)) _trigger_get (fun _ w => exists q2', keptB X (q1, q2', q3) w).
Proof.
  eapply hoare_conseq.
  - apply (scan_keeps (fun w => get_queue (snd w)) (on_queue set_get_queue) is_triggered
             _do_get "Get queue invariant violated"
             (fun X w => exists q2', keptB X (q1, q2', q3) w)).
    + intros X' e q w p w' [[q2' HK] Hq] H.
      pose proof (Buffer_do_get_keeps e X' _ w p w' HK H) as HK'. split; [exists q2'; exact HK'|].
      destruct HK as [Hv _], HK' as [Hv' _]. unfold buffer_view in Hv, Hv'. congruence.
    + intros X' e idx [s b] [q2' [Hv Hq]] Hidx. cbn [snd fst] in *.
      exists (delete idx q2'). unfold buffer_view in Hv. injection Hv as <- <- <-.
      split; [reflexivity|]. cbn [fst on_queue]. unfold requests3 in *. cbn [fst snd] in *.
      apply (queued_pending_but_delete _ _ _ _ _ _ e); [exact Hidx | exact Hq].
    + intros X' e w [q2' HK] Hun. exists q2'. apply (kept_drop_exception _ _ e); [exact HK|].
      intros _. exact Hun.
  - intros w HK. exists q2. exact HK.
  - intros a w H. exact H.
Qed.

(** The hook of [put] calls the two other trigger routines; it leaves the
    put queue alone. *)
Lemma Buffer_do_put_keeps e X q1 q2 q3 :
  hoare (keptB X (q1, q2, q3)) (_do_put e)
        (fun _ w => exists q2' q3', keptB (e :: X) (q1, q2', q3') w).
Proof.
  pose (K := fun w : world => exists q2' q3', keptB (e :: X) (q1, q2', q3') w).
  assert (HK : forall A (m : M world A), benignB m -> hoare K m (fun _ => K)).
  { intros A m Hm w a w' (q2' & q3' & H) E. exists q2', q3'. eapply Hm; eassumption. }
  unfold _do_put. apply hoare_bind_benign; [apply benign_self|]. intros b.
  eapply hoare_bind with (R := fun _ => K); [|intros _; apply HK; apply benign_ret].
  destruct (Z.of_nat (length (items b)) <? capacity (cfg b)).
  2:{ eapply hoare_conseq;
        [apply (hoare_more_exceptions buffer_view requests3 (ret tt) e X (q1, q2, q3));
         apply benign_ret|auto|].
      intros a w H. exists q2, q3. exact H. }
  apply hoare_bind_benign; [benign_tac|]. intros ev.
  apply hoare_bind_benign; [benign_tac|]. intros preputdelay.
  apply hoare_bind_benign; [benign_tac|]. intros postputdelay.
  apply hoare_bind_benign; [benign_tac|]. intros _.
  eapply hoare_bind with (R := fun _ => K); [|intros _; apply HK; benign_tac].
  destruct (negb (preputdelay =? 0)).
  - apply hoare_bind_NewEvent_kept. intros ev' Hnew.
    apply hoare_bind_benign; [benign_tac|]. intros _.
    apply hoare_bind_succeed_elsewhere; [exact Hnew|].
    eapply hoare_conseq;
      [apply (kept_succeed buffer_view requests3 e PyNone postputdelay X (q1, q2, q3)) | auto |].
    intros a w H. exists q2, q3. exact H.
  - apply hoare_bind_succeed.
    apply hoare_bind_benign; [benign_tac|]. intros _.
    eapply hoare_bind; [apply Buffer_trigger_get_keeps|]. intros a. cbv beta.
    apply hoare_exists. intros q2'.
    eapply hoare_conseq; [apply (Buffer_trigger_peek_keeps (e :: X) q1 q2' q3) | auto |].
    intros a' w [q3' H]. exists q2', q3'. exact H.
Qed.

Lemma Buffer_trigger_put_keeps X q1 q2 q3 :
  hoare (keptB X (q1, q2, q3)) _trigger_put (fun _ w => exists v, keptB X v w).
Proof.
  eapply hoare_conseq.
  - apply (scan_keeps (fun w => put_queue (snd w)) (on_queue set_put_queue) is_triggered
             _do_put "Put queue invariant violated"
             (fun X w => exists v, keptB X v w)).
    + intros X' e q w p w' [[[[q1' q2'] q3'] HK] Hq] H.
      destruct (Buffer_do_put_keeps e X' _ _ _ w p w' HK H) as (q2'' & q3'' & HK').
      split; [eexists; exact HK'|].
      destruct HK as [Hv _], HK' as [Hv' _]. unfold buffer_view in Hv, Hv'. congruence.
    + intros X' e idx [s b] [[[q1' q2'] q3'] [Hv Hq]] Hidx. cbn [snd fst] in *.
      exists (delete idx q1', q2', q3'). unfold buffer_view in Hv. injection Hv as <- <- <-.
      split; [reflexivity|]. cbn [fst on_queue]. unfold requests3 in *. cbn [fst snd] in *.
      apply (queued_pending_but_delete _ _ [] _ _ _ e); [exact Hidx | exact Hq].
    + intros X' e w [v HK] Hun. exists v. apply (kept_drop_exception _ _ e); [exact HK|].
      intros _. exact Hun.
  - intros w HK. eexists. exact HK.
  - intros a w H. exact H.
Qed.

End BufferHooks.

(** ** Queued requests stay pending: the environment's step *)

Section StepInvariant.
Context {T V : Type}.
Variable view : T -> V.
Variable requests : V -> list evid.
Variable run_callback : callback -> evid -> M (sim * T) unit.

Local Abbreviation settled := (Queues.settled view requests).

Lemma settled_iff w : settled w <-> queued_pending (fst w) (requests (view (snd w))).
Proof.
  unfold Queues.settled, kept. split.
  - intros [v [<- H]]. apply queued_pending_but_nil. exact H.
  - intros H. exists (view (snd w)). split; [reflexivity|]. apply queued_pending_but_nil. exact H.
Qed.

Lemma settled_benign {A} (m : M (sim * T) A) :
  benign view requests m -> hoare settled m (fun _ => settled).
Proof. intros Hm w a w' [v H] E. exists v. eapply Hm; eassumption. Qed.

Hypothesis run_callback_keeps :
  forall cb e, hoare settled (run_callback cb e) (fun _ => settled).

Lemma run_callbacks_keeps cbs e :
  hoare settled (Scheduler.run_callbacks run_callback cbs e) (fun _ => settled).
Proof.
  induction cbs as [|cb cbs IH]; cbn [Scheduler.run_callbacks].
  - apply hoare_ret. auto.
  - eapply hoare_bind; [apply run_callback_keeps | intros ?; exact IH].
Qed.

(** Processing an event takes its callbacks away and leaves its value. *)
Lemma step_keeps : hoare settled (Scheduler.step run_callback) (fun _ => settled).
Proof.
  intros [s t] [] w' [v HK] H. unfold Scheduler.step in H.
  apply bind_inv_Ret in H as (s0 & w0 & H0 & H). injection H0 as <- <-.
  cbn [fst] in H. destruct (Scheduler.pop_min (sched s)) as [[[[[tm pr] c] e] rest]|];
    [|discriminate].
  apply bind_inv_Ret in H as (ev & w1 & H1 & H).
  unfold in_env, zoom, lookup_event in H1. cbn [fst snd] in H1.
  destruct (events s !! e) as [ev'|] eqn:He; [|discriminate]. injection H1 as <- <-.
  apply bind_inv_Ret in H as ([] & w2 & H2 & H).
  unfold in_env, zoom, modify in H2. cbn [fst snd] in H2. injection H2 as <-.
  destruct (ev_callbacks ev') as [cbs|]; [|discriminate].
  eapply run_callbacks_keeps; [|exact H]. exists v.
  eapply (kept_advances view requests nobody); [exact HK | | reflexivity | | auto].
  - split; [cbn; rewrite length_insert; lia|]. intros e' _ _.
    eapply (triggered_insert_same_value e ev'); [exact He | | reflexivity | reflexivity].
    reflexivity.
  - intros e' _ [].
Qed.

End StepInvariant.

(** ** Queued requests stay pending: the requests on a [Buffer] *)

Module BufferActions.
Import Buffers BufferQueues BufferHooks.

Abbreviation settledB := (settled buffer_view requests3).

Lemma Buffer_trigger_put_settled : hoare settledB _trigger_put (fun _ => settledB).
Proof. intros w a w' [[[q1 q2] q3] H] E. eapply Buffer_trigger_put_keeps; eassumption. Qed.

Lemma Buffer_trigger_get_settled : hoare settledB _trigger_get (fun _ => settledB).
Proof.
  intros w a w' [[[q1 q2] q3] H] E.
  destruct (Buffer_trigger_get_keeps _ _ _ _ w a w' H E) as [q2' H']. eexists. exact H'.
Qed.

Lemma Buffer_trigger_peek_settled : hoare settledB _trigger_peek (fun _ => settledB).
Proof.
  intros w a w' [[[q1 q2] q3] H] E.
  destruct (Buffer_trigger_peek_keeps _ _ _ _ w a w' H E) as [q3' H']. eexists. exact H'.
Qed.

Lemma Buffer_run_callback_settled cb e : hoare settledB (run_callback cb e) (fun _ => settledB).
Proof.
  destruct cb; cbn [run_callback];
    first [ apply Buffer_trigger_put_settled | apply Buffer_trigger_get_settled | apply Buffer_trigger_peek_settled
          | apply settled_benign; benign_tac ].
Qed.

(** A new request joins the back of its queue. *)
Lemma Buffer_enqueue_keeps (A B q : list evid) (set : buffer -> buffer) v v' e :
  requests3 v = A ++ q ++ B -> requests3 v' = A ++ (q ++ [e]) ++ B ->
  (forall b, buffer_view b = v -> buffer_view (set b) = v') ->
  e ∉ requests3 v ->
  hoare (fun w => keptB [] v w /\ (e < length (events (fst w)))%nat /\
                  triggered e (fst w) = false)
        (update set) (fun _ => keptB [] v').
Proof.
  intros Hv Hv' Hset Hout [s b] [] w' ([Hview Hq] & Hlt & Hun) E. injection E as <-.
  cbn [fst snd] in *. split; [cbn [snd]; apply Hset; exact Hview|]. cbn [fst].
  rewrite Hv'. apply queued_pending_but_snoc; rewrite <- ?Hv; assumption.
Qed.

Lemma Buffer_put_settled item caller : hoare settledB (put item caller) (fun _ => settledB).
Proof.
  apply hoare_exists. intros [[q1 q2] q3]. unfold put.
  apply hoare_bind_NewEvent. intros e Hnew.
  eapply hoare_bind;
    [apply (Buffer_enqueue_keeps [] (q2 ++ q3) q1 _ (q1, q2, q3) (q1 ++ [e], q2, q3) e);
     [reflexivity | reflexivity | | exact Hnew]|].
  { intros b Hb. unfold buffer_view in *. injection Hb as <- <- <-. reflexivity. }
  intros ?. eapply hoare_bind; [apply Buffer_trigger_put_keeps|]. intros ?.
  apply hoare_ret. auto.
Qed.

Lemma Buffer_get_settled item caller : hoare settledB (get item caller) (fun _ => settledB).
Proof.
  apply hoare_exists. intros [[q1 q2] q3]. unfold get.
  apply hoare_bind_benign; [benign_tac|]. intros _.
  apply hoare_bind_NewEvent. intros e Hnew.
  eapply hoare_bind;
    [apply (Buffer_enqueue_keeps q1 q3 q2 _ (q1, q2, q3) (q1, q2 ++ [e], q3) e);
     [reflexivity | reflexivity | | exact Hnew]|].
  { intros b Hb. unfold buffer_view in *. injection Hb as <- <- <-. reflexivity. }
  intros ?. eapply hoare_bind; [apply Buffer_trigger_get_keeps|]. intros ?.
  apply hoare_ret. intros w [q2' H]. eexists. exact H.
Qed.

Lemma Buffer_peek_settled item caller : hoare settledB (peek item caller) (fun _ => settledB).
Proof.
  apply hoare_exists. intros [[q1 q2] q3]. unfold peek.
  apply hoare_bind_benign; [benign_tac|]. intros _.
  apply hoare_bind_NewEvent. intros e Hnew.
  eapply hoare_bind;
    [apply (Buffer_enqueue_keeps (q1 ++ q2) [] q3 _ (q1, q2, q3) (q1, q2, q3 ++ [e]) e);
     [ | | | exact Hnew]|].
  { unfold requests3. cbn [fst snd]. rewrite app_nil_r, app_assoc. reflexivity. }
  { unfold requests3. cbn [fst snd]. rewrite app_nil_r, app_assoc. reflexivity. }
  { intros b Hb. unfold buffer_view in *. injection Hb as <- <- <-. reflexivity. }
  intros ?. eapply hoare_bind; [apply Buffer_trigger_peek_keeps|]. intros ?.
  apply hoare_ret. intros w [q3' H]. eexists. exact H.
Qed.


(** [cancel] takes a pending request out of its queue. *)
Lemma Buffer_cancel_keeps (A B : buffer -> list evid) (queue : buffer -> list evid)
    (set_queue : list evid -> buffer -> buffer) e :
  (forall b, requests3 (buffer_view b) = A b ++ queue b ++ B b) ->
  (forall q b, requests3 (buffer_view (set_queue q b)) = A b ++ q ++ B b) ->
  hoare settledB (cancel queue set_queue e) (fun _ => settledB).
Proof.
  intros Hq Hset [s b] [] w' Hs E. apply settled_iff in Hs. apply settled_iff.
  apply queued_pending_but_nil in Hs. apply queued_pending_but_nil. cbn [fst snd] in *.
  unfold cancel, bind, self, the_env in E. cbn [fst snd] in E.
  destruct (triggered e s); cbn [negb] in E; [injection E as <-; exact Hs|].
  destruct (list_remove e (queue b)) as [q|] eqn:Hrm; [|discriminate].
  injection E as <-. cbn [fst snd]. rewrite Hset.
  apply list_remove_middle in Hrm as (idx & Hidx & ->).
  apply (queued_pending_but_delete _ _ _ _ _ _ e); [exact Hidx|].
  apply queued_pending_but_more. rewrite <- Hq. exact Hs.
Qed.

Lemma Buffer_perform_settled a : hoare settledB (BufferRun.perform a) (fun _ => settledB).
Proof.
  destruct a; cbn [BufferRun.perform].
  - eapply hoare_bind; [apply Buffer_put_settled | intros ?; apply hoare_ret; auto].
  - eapply hoare_bind; [apply Buffer_get_settled | intros ?; apply hoare_ret; auto].
  - eapply hoare_bind; [apply Buffer_peek_settled | intros ?; apply hoare_ret; auto].
  - apply (Buffer_cancel_keeps (fun _ => []) (fun b => get_queue b ++ peek_queue b));
      intros; reflexivity.
  - apply (Buffer_cancel_keeps (fun b => put_queue b) (fun b => peek_queue b));
      intros; reflexivity.
  - apply (Buffer_cancel_keeps (fun b => put_queue b ++ get_queue b) (fun _ => []));
      intros; unfold requests3, buffer_view; cbn; rewrite app_nil_r, app_assoc; reflexivity.
  - apply settled_benign. benign_tac.
  - apply step_keeps. apply Buffer_run_callback_settled.
Qed.

Lemma Buffer_reachable_settled w : BufferRun.reachable w -> settledB w.
Proof.
  induction 1 as [s c|a w w' _ IH E].
  - apply settled_iff. cbn. split; [apply NoDup_nil_2|]. intros e He. inversion He.
  - eapply Buffer_perform_settled; eassumption.
Qed.

End BufferActions.

(** ** Queued requests stay pending: [CreditBuffer]

    The credit buffer of a pipeline shares the environment with the put
    queue of the pipeline; [G] stands for the requests of that queue. *)

Module CreditQueues.
Import CreditBuffer.

Section Beside.
Variable G : list evid.

Local Abbreviation keptC := (kept credit_view (beside G)).
Local Abbreviation benignC := (benign credit_view (beside G)).
Local Abbreviation settledC := (settled credit_view (beside G)).

Lemma Credit_do_peek_keeps e X v : hoare (keptC X v) (_do_peek e) (fun _ => keptC (e :: X) v).
Proof.
  unfold _do_peek. apply hoare_bind_benign; [apply benign_self|]. intros c.
  apply hoare_bind_benign; [benign_tac|]. intros ev.
  destruct (ev_item ev) as [|thresh|p]; try apply hoare_raise.
  destruct (thresh <? Z.of_nat (length (items c))).
  - apply hoare_bind_succeed. apply hoare_benign. apply benign_ret.
  - apply hoare_more_exceptions. apply benign_ret.
Qed.

Lemma Credit_do_put_keeps e X v : hoare (keptC X v) (_do_put e) (fun _ => keptC (e :: X) v).
Proof.
  unfold _do_put. apply hoare_bind_benign; [apply benign_self|]. intros c.
  apply hoare_bind_benign; [benign_tac|]. intros ev.
  eapply hoare_bind with (R := fun _ => keptC (e :: X) v);
    [|intros _; apply hoare_benign; apply benign_ret].
  destruct (Z.of_nat (length (items c)) <? capacity c).
  - apply hoare_bind_benign; [benign_tac|]. intros _. apply kept_succeed.
  - apply hoare_more_exceptions. apply benign_ret.
Qed.

Lemma Credit_do_get_keeps e X v : hoare (keptC X v) (_do_get e) (fun _ => keptC (e :: X) v).
Proof.
  unfold _do_get. apply hoare_bind_benign; [apply benign_self|]. intros c.
  eapply hoare_bind with (R := fun _ => keptC (e :: X) v);
    [|intros _; apply hoare_benign; apply benign_ret].
  destruct (items c) as [|tok rest].
  - apply hoare_more_exceptions. apply benign_ret.
  - apply hoare_bind_benign; [benign_tac|]. intros _. apply kept_succeed.
Qed.

Lemma Credit_trigger_peek_keeps X q1 q2 q3 :
  hoare (keptC X (q1, q2, q3)) _trigger_peek (fun _ w => exists q3', keptC X (q1, q2, q3') w).
Proof.
  eapply hoare_conseq.
  - apply (scan_keeps (fun w => peek_queue (snd w)) (on_queue set_peek_queue) is_triggered
             _do_peek "Peek queue invariant violated"
             (fun X w => exists q3', keptC X (q1, q2, q3') w)).
    + intros X' e q w p w' [[q3' HK] Hq] H.
      pose proof (Credit_do_peek_keeps e X' _ w p w' HK H) as HK'. split; [exists q3'; exact HK'|].
      destruct HK as [Hv _], HK' as [Hv' _]. unfold credit_view in Hv, Hv'. congruence.
    + intros X' e idx [s b] [q3' [Hv Hq]] Hidx. cbn [snd fst] in *.
      exists (delete idx q3'). unfold credit_view in Hv. injection Hv as <- <- <-.
      split; [reflexivity|]. cbn [fst on_queue]. unfold beside, requests3 in *.
      cbn [fst snd] in *.
      rewrite !app_assoc. rewrite <- (app_nil_r (delete idx _)).
      apply (queued_pending_but_delete _ _ _ _ _ _ e); [exact Hidx|].
      rewrite app_nil_r, <- !app_assoc. exact Hq.
    + intros X' e w [q3' HK] Hun. exists q3'. apply (kept_drop_exception _ _ e); [exact HK|].
      intros _. exact Hun.
  - intros w HK. exists q3. exact HK.
  - intros a w H. exact H.
Qed.

Lemma Credit_trigger_get_keeps X q1 q2 q3 :
  hoare (keptC X (q1, q2, q3)) _trigger_get (fun _ w => exists q2', keptC X (q1, q2', q3) w).
Proof.
  eapply hoare_conseq.
  - apply (scan_keeps (fun w => get_queue (snd w)) (on_queue set_get_queue) is_triggered
             _do_get "Get queue invariant violated"
             (fun X w => exists q2', keptC X (q1, q2', q3) w)).
    + intros X' e q w p w' [[q2' HK] Hq] H.
      pose proof (Credit_do_get_keeps e X' _ w p w' HK H) as HK'. split; [exists q2'; exact HK'|].
      destruct HK as [Hv _], HK' as [Hv' _]. unfold credit_view in Hv, Hv'. congruence.
    + intros X' e idx [s b] [q2' [Hv Hq]] Hidx. cbn [snd fst] in *.
      exists (delete idx q2'). unfold credit_view in Hv. injection Hv as <- <- <-.
      split; [reflexivity|]. cbn [fst on_queue]. unfold beside, requests3 in *.
      cbn [fst snd] in *. rewrite app_assoc.
      apply (queued_pending_but_delete _ _ _ _ _ _ e); [exact Hidx|].
      rewrite <- app_assoc. exact Hq.
    + intros X' e w [q2' HK] Hun. exists q2'. apply (kept_drop_exception _ _ e); [exact HK|].
      intros _. exact Hun.
  - intros w HK. exists q2. exact HK.
  - intros a w H. exact H.
Qed.

Lemma Credit_trigger_put_keeps X q1 q2 q3 :
  hoare (keptC X (q1, q2, q3)) _trigger_put (fun _ w => exists q1', keptC X (q1', q2, q3) w).
Proof.
  eapply hoare_conseq.
  - apply (scan_keeps (fun w => put_queue (snd w)) (on_queue set_put_queue) is_triggered
             _do_put "Put queue invariant violated"
             (fun X w => exists q1', keptC X (q1', q2, q3) w)).
    + intros X' e q w p w' [[q1' HK] Hq] H.
      pose proof (Credit_do_put_keeps e X' _ w p w' HK H) as HK'. split; [exists q1'; exact HK'|].
      destruct HK as [Hv _], HK' as [Hv' _]. unfold credit_view in Hv, Hv'. congruence.
    + intros X' e idx [s b] [q1' [Hv Hq]] Hidx. cbn [snd fst] in *.
      exists (delete idx q1'). unfold credit_view in Hv. injection Hv as <- <- <-.
      split; [reflexivity|]. cbn [fst on_queue]. unfold beside, requests3 in *.
      cbn [fst snd] in *.
      apply (queued_pending_but_delete _ _ _ _ _ _ e); [exact Hidx | exact Hq].
    + intros X' e w [q1' HK] Hun. exists q1'. apply (kept_drop_exception _ _ e); [exact HK|].
      intros _. exact Hun.
  - intros w HK. exists q1. exact HK.
  - intros a w H. exact H.
Qed.

Lemma Credit_enqueue_keeps X (A B q : list evid) (set : creditbuffer -> creditbuffer) v v' e :
  beside G v = A ++ q ++ B -> beside G v' = A ++ (q ++ [e]) ++ B ->
  (forall c, credit_view c = v -> credit_view (set c) = v') ->
  e ∉ beside G v ->
  hoare (fun w => keptC X v w /\ (e < length (events (fst w)))%nat /\
                  triggered e (fst w) = false)
        (update set) (fun _ => keptC X v').
Proof.
  intros Hv Hv' Hset Hout [s b] [] w' ([Hview Hq] & Hlt & Hun) E. injection E as <-.
  cbn [fst snd] in *. split; [cbn [snd]; apply Hset; exact Hview|]. cbn [fst].
  rewrite Hv'. apply queued_pending_but_snoc; rewrite <- ?Hv; assumption.
Qed.

Local Abbreviation keeps m :=
  (forall X v, hoare (keptC X v) m (fun _ w => exists v', keptC X v' w)).

Lemma Credit_keeps_settled {A} (m : M world A) : keeps m -> hoare settledC m (fun _ => settledC).
Proof. intros Hm. apply hoare_exists. intros v. apply Hm. Qed.

Lemma Credit_put_keeps item : keeps (put item).
Proof.
  intros X [[q1 q2] q3]. unfold put.
  apply hoare_bind_NewEvent. intros e Hnew.
  eapply hoare_bind;
    [apply (Credit_enqueue_keeps X G (q2 ++ q3) q1 _ (q1, q2, q3) (q1 ++ [e], q2, q3) e);
     [reflexivity | reflexivity | | exact Hnew]|].
  { intros b Hb. unfold credit_view in *. injection Hb as <- <- <-. reflexivity. }
  intros ?. apply hoare_bind_benign; [benign_tac|]. intros _.
  eapply hoare_bind; [apply Credit_trigger_put_keeps|]. intros ?.
  apply hoare_exists. intros q1'.
  apply hoare_bind_benign; [benign_tac|]. intros _.
  apply hoare_ret. intros w H. eexists. exact H.
Qed.

Lemma Credit_get_keeps : keeps get.
Proof.
  intros X [[q1 q2] q3]. unfold get.
  apply hoare_bind_NewEvent. intros e Hnew.
  eapply hoare_bind;
    [apply (Credit_enqueue_keeps X (G ++ q1) q3 q2 _ (q1, q2, q3) (q1, q2 ++ [e], q3) e);
     [ | | | exact Hnew]|].
  { unfold beside, requests3. cbn [fst snd]. rewrite app_assoc. reflexivity. }
  { unfold beside, requests3. cbn [fst snd]. rewrite app_assoc. reflexivity. }
  { intros b Hb. unfold credit_view in *. injection Hb as <- <- <-. reflexivity. }
  intros ?. apply hoare_bind_benign; [benign_tac|]. intros _.
  eapply hoare_bind; [apply Credit_trigger_get_keeps|]. intros ?.
  apply hoare_ret. intros w [q2' H]. eexists. exact H.
Qed.

Lemma Credit_peek_keeps thresh : keeps (peek thresh).
Proof.
  intros X [[q1 q2] q3]. unfold peek.
  apply hoare_bind_NewEvent. intros e Hnew.
  eapply hoare_bind;
    [apply (Credit_enqueue_keeps X (G ++ q1 ++ q2) [] q3 _ (q1, q2, q3) (q1, q2, q3 ++ [e]) e);
     [ | | | exact Hnew]|].
  { unfold beside, requests3. cbn [fst snd]. rewrite app_nil_r, <- !app_assoc. reflexivity. }
  { unfold beside, requests3. cbn [fst snd]. rewrite app_nil_r, <- !app_assoc. reflexivity. }
  { intros b Hb. unfold credit_view in *. injection Hb as <- <- <-. reflexivity. }
  intros ?. eapply hoare_bind; [apply Credit_trigger_peek_keeps|]. intros ?.
  apply hoare_ret. intros w [q3' H]. eexists. exact H.
Qed.

Lemma Credit_keeps_trigger_put : keeps _trigger_put.
Proof.
  intros X [[q1 q2] q3] w a w' H E.
  destruct (Credit_trigger_put_keeps _ _ _ _ w a w' H E) as [q' H']. eexists. exact H'.
Qed.

Lemma Credit_keeps_trigger_get : keeps _trigger_get.
Proof.
  intros X [[q1 q2] q3] w a w' H E.
  destruct (Credit_trigger_get_keeps _ _ _ _ w a w' H E) as [q' H']. eexists. exact H'.
Qed.

Lemma Credit_keeps_trigger_peek : keeps _trigger_peek.
Proof.
  intros X [[q1 q2] q3] w a w' H E.
  destruct (Credit_trigger_peek_keeps _ _ _ _ w a w' H E) as [q' H']. eexists. exact H'.
Qed.

Lemma Credit_keeps_benign {A} (m : M world A) : benignC m -> keeps m.
Proof. intros Hm X v w a w' H E. exists v. eapply Hm; eassumption. Qed.

Lemma Credit_run_callback_keeps cb e : keeps (CreditRun.run_callback cb e).
Proof.
  destruct cb; cbn [CreditRun.run_callback];
    first [ apply Credit_keeps_trigger_put | apply Credit_keeps_trigger_get | apply Credit_keeps_trigger_peek
          | apply Credit_keeps_benign; benign_tac ].
Qed.

End Beside.

Lemma Credit_perform_settled a :
  hoare (settled credit_view (beside [])) (CreditRun.perform a)
        (fun _ => settled credit_view (beside [])).
Proof.
  destruct a; cbn [CreditRun.perform].
  - eapply hoare_bind;
      [apply Credit_keeps_settled, Credit_put_keeps | intros ?; apply hoare_ret; auto].
  - eapply hoare_bind;
      [apply Credit_keeps_settled, Credit_get_keeps | intros ?; apply hoare_ret; auto].
  - eapply hoare_bind;
      [apply Credit_keeps_settled, Credit_peek_keeps | intros ?; apply hoare_ret; auto].
  - apply settled_benign. benign_tac.
  - apply step_keeps. intros cb e. apply Credit_keeps_settled, Credit_run_callback_keeps.
Qed.

Lemma Credit_reachable_settled w : CreditRun.reachable w -> settled credit_view (beside []) w.
Proof.
  induction 1 as [s nm n|a w w' _ IH E].
  - apply settled_iff. cbn. split; [apply NoDup_nil_2|]. intros e He. inversion He.
  - eapply Credit_perform_settled; eassumption.
Qed.

End CreditQueues.

(** ** Queued requests stay pending: [Pipeline] and [FlowControlledPipeline] *)

Module PipelineQueues.
Import Pipelines.

Abbreviation keptP := (kept pipeline_view requests4).
Abbreviation benignP := (benign pipeline_view requests4).
Abbreviation settledP := (settled pipeline_view requests4).

(** An operation of the credit buffer, seen from the pipeline. *)
Lemma Pipeline_in_credits_keeps {A} (m : M CreditBuffer.world A) X X' q v3 :
  hoare (kept credit_view (beside q) X v3) m
        (fun _ cw => exists v3', kept credit_view (beside q) X' v3' cw) ->
  hoare (keptP X (q, v3)) (in_credits m) (fun _ w => exists v3', keptP X' (q, v3') w).
Proof.
  intros Hm [s p] a w' [Hv Hq] E. unfold in_credits, zoom in E. cbn [fst snd] in *.
  destruct (m (s, credits p)) as [a' [s' c']|err cw|] eqn:Hrun; try discriminate.
  injection E as <- <-. unfold pipeline_view in Hv. injection Hv as <- <-.
  destruct (Hm (s, credits p) a' (s', c')) as [v3' [Hv' Hq']]; [split; [reflexivity|exact Hq] | exact Hrun|].
  exists v3'. cbn [fst snd] in *. split; [|exact Hq'].
  unfold pipeline_view. cbn. rewrite Hv'. reflexivity.
Qed.

Lemma Pipeline_in_credits_any {A} (m : M CreditBuffer.world A) X q v3 :
  (forall G X v, hoare (kept credit_view (beside G) X v) m
                       (fun _ cw => exists v', kept credit_view (beside G) X v' cw)) ->
  hoare (keptP X (q, v3)) (in_credits m) (fun _ w => exists v3', keptP X (q, v3') w).
Proof. intros Hm. apply Pipeline_in_credits_keeps. apply Hm. Qed.

Lemma Pipeline_benign_Log msgtype msg : benignP (Log msgtype msg).
Proof. unfold Log. benign_tac. Qed.

Lemma Pipeline_benign_as_packet v : benignP (as_packet v).
Proof. unfold as_packet. benign_tac. Qed.
#[export] Hint Resolve Pipeline_benign_Log Pipeline_benign_as_packet : benign.

Lemma Pipeline_benign_addPostPutDelay item : benignP (addPostPutDelay item).
Proof. unfold addPostPutDelay. benign_tac. Qed.
#[export] Hint Resolve Pipeline_benign_addPostPutDelay : benign.

Lemma Pipeline_benign_prePutMsg e : benignP (prePutMsg e).
Proof. unfold prePutMsg. benign_tac. Qed.

Lemma Pipeline_benign_postPutMsg e : benignP (postPutMsg e).
Proof. unfold postPutMsg. benign_tac. Qed.

Lemma Pipeline_benign_putReady : benignP _putReady.
Proof. unfold _putReady. benign_tac. Qed.

Lemma Pipeline_benign_updatePutDebt item : benignP (_updatePutDebt item).
Proof. unfold _updatePutDebt. benign_tac. Qed.

Lemma Pipeline_benign_updateTotalBitsSent e : benignP (_updateTotalBitsSent e).
Proof. unfold _updateTotalBitsSent. benign_tac. Qed.

Lemma Pipeline_benign_start_putdelay item : benignP (start_putdelay item).
Proof. unfold start_putdelay. benign_tac. Qed.
#[export] Hint Resolve Pipeline_benign_prePutMsg Pipeline_benign_postPutMsg Pipeline_benign_putReady Pipeline_benign_updatePutDebt
  Pipeline_benign_updateTotalBitsSent Pipeline_benign_start_putdelay : benign.

Lemma Pipeline_send_keeps e X v : hoare (keptP X v) (send e) (fun _ => keptP (e :: X) v).
Proof.
  unfold send. apply hoare_bind_benign; [benign_tac|]. intros ev.
  apply hoare_bind_benign; [benign_tac|]. intros ticks.
  apply hoare_bind_benign; [benign_tac|]. intros _.
  apply hoare_bind_benign; [benign_tac|]. intros _.
  apply hoare_bind_benign; [benign_tac|]. intros _.
  apply hoare_bind_succeed. apply hoare_benign. benign_tac.
Qed.

Lemma Pipeline_do_put_keeps e X q v3 :
  hoare (keptP X (q, v3)) (_do_put e) (fun _ w => exists v3', keptP (e :: X) (q, v3') w).
Proof.
  pose (K := fun w : world => exists v3', keptP (e :: X) (q, v3') w).
  assert (HK : forall A (m : M world A), benignP m -> hoare K m (fun _ => K)).
  { intros A m Hm w a w' (v3' & H) E. exists v3'. eapply Hm; eassumption. }
  assert (Hsend : forall v3' (rest : M world unit), benignP rest ->
            hoare (keptP X (q, v3')) (send e >> rest) (fun _ => K)).
  { intros v3' rest Hrest. eapply hoare_bind; [apply Pipeline_send_keeps|]. intros ?.
    eapply hoare_conseq; [apply (HK _ rest Hrest) | | auto].
    intros w H. exists v3'. exact H. }
  unfold _do_put. apply hoare_bind_benign; [apply benign_self|]. intros p.
  apply hoare_bind_benign; [apply benign_the_env|]. intros s.
  eapply hoare_bind with (R := fun _ => K); [|intros _; apply HK; apply benign_ret].
  destruct (initCredits (cfg p)) as [n|].
  - destruct (CreditBuffer.items (credits p)) as [|tok rest].
    + eapply hoare_conseq;
        [apply (hoare_more_exceptions pipeline_view requests4 (ret tt) e X (q, v3));
         apply benign_ret | auto |].
      intros a w H. exists v3. exact H.
    + eapply hoare_bind; [apply Pipeline_in_credits_any; apply CreditQueues.Credit_get_keeps|].
      intros ?. apply hoare_exists. intros v3'.
      apply hoare_bind_benign; [benign_tac|]. intros _.
      apply hoare_bind_benign; [benign_tac|]. intros ev.
      apply Hsend. benign_tac.
  - apply hoare_bind_benign; [benign_tac|]. intros ev.
    apply Hsend. benign_tac.
Qed.

Lemma Pipeline_trigger_put_keeps X q v3 :
  hoare (keptP X (q, v3)) _trigger_put (fun _ w => exists v, keptP X v w).
Proof.
  eapply hoare_conseq.
  - apply (scan_keeps (fun w => put_queue (snd w)) (fun q w => (fst w, set_put_queue q (snd w)))
             is_triggered _do_put "Put queue invariant violated"
             (fun X w => exists v, keptP X v w)).
    + intros X' e q' w p w' [[[q0 v0] HK] Hq] H.
      destruct (Pipeline_do_put_keeps e X' _ _ w p w' HK H) as (v0' & HK').
      split; [eexists; exact HK'|].
      destruct HK as [Hv _], HK' as [Hv' _]. unfold pipeline_view in Hv, Hv'. congruence.
    + intros X' e idx [s b] [[q0 v0] [Hv Hq]] Hidx. cbn [snd fst] in *.
      exists (delete idx q0, v0). unfold pipeline_view in Hv. injection Hv as <- <-.
      split; [reflexivity|]. cbn [fst]. unfold requests4 in *. cbn [fst snd] in *.
      apply (queued_pending_but_delete _ _ [] _ _ _ e); [exact Hidx | exact Hq].
    + intros X' e w [v HK] Hun. exists v. apply (kept_drop_exception _ _ e); [exact HK|].
      intros _. exact Hun.
  - intros w HK. eexists. exact HK.
  - intros a w H. exact H.
Qed.

Lemma Pipeline_trigger_put_settled : hoare settledP _trigger_put (fun _ => settledP).
Proof. apply hoare_exists. intros [q v3]. apply Pipeline_trigger_put_keeps. Qed.

Lemma Pipeline_in_credits_settled {A} (m : M CreditBuffer.world A) :
  (forall G X v, hoare (kept credit_view (beside G) X v) m
                       (fun _ cw => exists v', kept credit_view (beside G) X v' cw)) ->
  hoare settledP (in_credits m) (fun _ => settledP).
Proof.
  intros Hm. apply hoare_exists. intros [q v3].
  eapply hoare_conseq; [apply (Pipeline_in_credits_any m [] q v3); exact Hm | auto |].
  intros a w [v3' H]. eexists. exact H.
Qed.

Lemma Pipeline_put_settled item caller : hoare settledP (put item caller) (fun _ => settledP).
Proof.
  apply hoare_exists. intros [q v3]. unfold put.
  apply hoare_bind_NewEvent. intros e Hnew.
  eapply hoare_bind with (R := fun _ => keptP [] (q ++ [e], v3)).
  { intros [s p] [] w' ([Hview Hq] & Hlt & Hun) E. injection E as <-.
    cbn [fst snd] in *. unfold pipeline_view in Hview. injection Hview as <- <-.
    split; [reflexivity|]. cbn [fst]. unfold requests4 in *. cbn [fst snd] in *.
    apply (queued_pending_but_snoc _ _ []); assumption. }
  intros ?. apply hoare_bind_benign; [benign_tac|]. intros _.
  eapply hoare_bind; [apply Pipeline_trigger_put_keeps|]. intros ?.
  apply hoare_ret. auto.
Qed.

Lemma Pipeline_increment_credit_settled : hoare settledP _increment_credit (fun _ => settledP).
Proof.
  unfold _increment_credit.
  eapply hoare_bind; [apply settled_benign, benign_self|]. intros p.
  eapply hoare_bind; [apply settled_benign; benign_tac|]. intros ?.
  eapply hoare_bind; [apply Pipeline_in_credits_settled; intros G; apply CreditQueues.Credit_put_keeps|].
  intros ?. apply settled_benign. benign_tac.
Qed.

Lemma Pipeline_putCredit_settled : hoare settledP PipelineRun.putCredit (fun _ => settledP).
Proof.
  apply hoare_exists. intros v. unfold PipelineRun.putCredit.
  apply hoare_bind_benign; [apply benign_self|]. intros p.
  apply hoare_bind_NewEvent_kept. intros e Hnew.
  apply hoare_bind_benign; [benign_tac|]. intros _.
  apply hoare_bind_benign; [benign_tac|]. intros _.
  eapply hoare_conseq;
    [apply (kept_succeed_elsewhere pipeline_view requests4 e _ _ [] v); exact Hnew | auto |].
  intros a w H. exists v. exact H.
Qed.

Lemma Pipeline_run_callback_settled cb e :
  hoare settledP (PipelineRun.run_callback cb e) (fun _ => settledP).
Proof.
  destruct cb; cbn [PipelineRun.run_callback];
    first [ apply Pipeline_trigger_put_settled | apply Pipeline_increment_credit_settled
          | apply Pipeline_in_credits_settled; intros G; apply CreditQueues.Credit_run_callback_keeps
          | apply settled_benign; benign_tac ].
Qed.

Lemma Pipeline_perform_settled a : hoare settledP (PipelineRun.perform a) (fun _ => settledP).
Proof.
  destruct a; cbn [PipelineRun.perform].
  - eapply hoare_bind; [apply Pipeline_put_settled | intros ?; apply hoare_ret; auto].
  - apply Pipeline_putCredit_settled.
  - eapply hoare_bind;
      [apply Pipeline_in_credits_settled; intros G; apply CreditQueues.Credit_peek_keeps
      | intros ?; apply hoare_ret; auto].
  - apply settled_benign. benign_tac.
  - apply step_keeps. apply Pipeline_run_callback_settled.
Qed.

Lemma Pipeline_reachable_settled w : PipelineRun.reachable w -> settledP w.
Proof.
  induction 1 as [s c|a w w' _ IH E].
  - apply settled_iff. cbn. split; [apply NoDup_nil_2|]. intros e He. inversion He.
  - eapply Pipeline_perform_settled; eassumption.
Qed.

End PipelineQueues.

(** ** C3: queued requests are pending *)




(** * Further properties of the embedded code *)

(** ** [ComponentBase.Log] *)

(** The lines of an info dump. *)
Lemma infodump_logs nm (infolist : list string) s :
  foldr (fun it k => emit INFO nm it >> k) (ret tt) infolist s =
  Ret tt (MkSim (now s) (sched s) (eid s) (events s)
                (logs s ++ (LogEntry INFO (now s) nm <$> infolist))).
Proof.
  revert s. induction infolist as [|it l IH]; intros s; cbn [foldr fmap list_fmap].
  - unfold ret. rewrite app_nil_r. destruct s; reflexivity.
  - unfold bind at 1. rewrite emit_returns. rewrite IH. cbn [now sched eid events logs].
    rewrite <- app_assoc. reflexivity.
Qed.

Lemma Log_known_type fullname msgtype lvl msg infolist s :
  (msgtype, lvl) ∈ [("FATAL_ERROR"%string, ERROR); ("WARNING"%string, WARNING);
                    ("INFO"%string, INFO); ("DEBUG"%string, DEBUG)] ->
  Sim.Log fullname msgtype msg infolist s =
  Ret tt (MkSim (now s) (sched s) (eid s) (events s)
            (logs s ++ LogEntry lvl (now s) fullname msg ::
               match infolist with
               | [] => []
               | _ => LogEntry INFO (now s) fullname "\tInfodump follows:"
                        :: (LogEntry INFO (now s) fullname <$> infolist)
               end)).
Proof.
  intros Hin. 
  assert (Hcases : (msgtype = "FATAL_ERROR"%string /\ lvl = ERROR) \/
                   (msgtype = "WARNING"%string /\ lvl = WARNING) \/
                   (msgtype = "INFO"%string /\ lvl = INFO) \/
                   (msgtype = "DEBUG"%string /\ lvl = DEBUG)).
  { repeat (apply elem_of_cons in Hin as [Hin|Hin]; [injection Hin as -> ->; tauto|]).
    inversion Hin. }
  destruct Hcases as [[-> ->]|[[-> ->]|[[-> ->]|[-> ->]]]];
    unfold Sim.Log; cbn -[emit foldr];
    (erewrite bind_Ret by apply emit_returns;
     destruct infolist as [|it l];
     [ reflexivity
     | erewrite bind_Ret;
       [|erewrite bind_Ret by apply emit_returns; apply infodump_logs];
       unfold ret; cbn [now sched eid events logs];
       rewrite <- !app_assoc; reflexivity ]).
Qed.

(** A message of a type outside the four is refused before anything is
    logged. *)
Lemma Log_unknown_type fullname msgtype msg infolist s :
  msgtype ∉ ["FATAL_ERROR"%string; "WARNING"%string; "INFO"%string; "DEBUG"%string] ->
  Sim.Log fullname msgtype msg infolist s =
  Raise (RuntimeError "ERROR: Unsupported message type") s.
Proof.
  intros Hout. unfold Sim.Log.
  assert (Hne : forall t, t ∈ ["FATAL_ERROR"%string; "WARNING"%string; "INFO"%string;
                               "DEBUG"%string] -> String.eqb msgtype t = false).
  { intros t Ht. apply String.eqb_neq. intros ->. contradiction. }
  rewrite !Hne by (apply list_elem_of_In; cbn; tauto).
  reflexivity.
Qed.



(** ** [BasePacket.getTicks] *)

Lemma ceil_div_least a n :
  0 < n -> (ceil_div a n - 1) * n < a <= ceil_div a n * n.
Proof.
  intros Hn. unfold ceil_div.
  pose proof (Z.div_mod (- a) n ltac:(lia)) as Hdm.
  pose proof (Z.mod_pos_bound (- a) n Hn) as Hb. nia.
Qed.



(** ** [cancel] of a request *)

Lemma list_remove_first x l l' :
  Buffers.list_remove x l = Some l' ->
  exists l1 l2, l = l1 ++ x :: l2 /\ (x ∉ l1) /\ l' = l1 ++ l2.
Proof.
  revert l'. induction l as [|y l IH]; intros l' H; cbn in H; [discriminate|].
  destruct (Nat.eqb_spec y x) as [->|Hne].
  - injection H as <-. exists [], l. split; [reflexivity|]. split; [|reflexivity].
    intros Hin. inversion Hin.
  - destruct (Buffers.list_remove x l) as [r|]; [|discriminate]. injection H as <-.
    destruct (IH r eq_refl) as (l1 & l2 & -> & Hout & ->).
    exists (y :: l1), l2. split; [reflexivity|]. split; [|reflexivity].
    intros Hin. apply elem_of_cons in Hin as [?|?]; [congruence | contradiction].
Qed.

Lemma list_remove_None x l : Buffers.list_remove x l = None <-> x ∉ l.
Proof.
  induction l as [|y l IH]; cbn.
  - split; [intros _ Hin; inversion Hin | reflexivity].
  - destruct (Nat.eqb_spec y x) as [->|Hne].
    + split; [discriminate | intros H; exfalso; apply H; left].
    + destruct (Buffers.list_remove x l) as [r|].
      * split; [discriminate|]. intros H. exfalso.
        assert (Hr : x ∉ l) by (intros Hin; apply H; right; exact Hin).
        apply IH in Hr. discriminate.
      * split; [|reflexivity]. intros _ Hin. apply elem_of_cons in Hin as [?|Hin]; [congruence|].
        revert Hin. apply IH. reflexivity.
Qed.

(** [cancel] on a request event: a request that was already resolved is
    left alone; a pending one is taken out of the queue, at its first
    occurrence, the others keeping their order; a pending request that is not
    in the queue any more (cancelled before) raises ValueError. *)
Theorem cancel_takes_the_pending_request_out
    (queue : Buffers.buffer -> list evid)
    (set_queue : list evid -> Buffers.buffer -> Buffers.buffer) (e : evid) s b :
  (triggered e s = true ->
   Buffers.cancel queue set_queue e (s, b) = Ret tt (s, b)) /\
  (triggered e s = false -> e ∈ queue b ->
   exists l1 l2, queue b = l1 ++ e :: l2 /\ (e ∉ l1) /\
     Buffers.cancel queue set_queue e (s, b) = Ret tt (s, set_queue (l1 ++ l2) b)) /\
  (triggered e s = false -> e ∉ queue b ->
   Buffers.cancel queue set_queue e (s, b) = Raise ValueError (s, b)).
Proof.
  unfold Buffers.cancel, bind, self, the_env. cbn [fst snd].
  split; [|split].
  - intros ->. reflexivity.
  - intros -> Hin. cbn [negb].
    destruct (Buffers.list_remove e (queue b)) as [q|] eqn:Hrm.
    + apply list_remove_first in Hrm as (l1 & l2 & Hq & Hout & ->).
      exists l1, l2. split; [exact Hq|]. split; [exact Hout | reflexivity].
    + apply list_remove_None in Hrm. contradiction.
  - intros -> Hout. cbn [negb]. apply list_remove_None in Hout. rewrite Hout. reflexivity.
Qed.

(** A consumer asks an empty buffer twice and cancels the first request
    twice: the first cancel leaves the second request alone in [get_queue],
    the second cancel raises. *)
Lemma cancel_takes_the_pending_request_out_witness :
  let s := MkSim 0 [] 0%nat [Event PyNone None None false (Some []);
                             Event PyNone None None false (Some [])] [] in
  let b := Buffers.set_get_queue [0%nat; 1%nat] (Buffers.init Resolved.config) in
  exists l1 l2, Buffers.get_queue b = l1 ++ 0%nat :: l2 /\ (0%nat ∉ l1) /\
    Buffers.cancel Buffers.get_queue Buffers.set_get_queue 0%nat (s, b) =
    Ret tt (s, Buffers.set_get_queue (l1 ++ l2) b).
Proof.
  intros s b.
  apply (proj1 (proj2 (cancel_takes_the_pending_request_out
                         Buffers.get_queue Buffers.set_get_queue 0%nat s b))).
  - reflexivity.
  - apply list_elem_of_In. cbn. tauto.
Defined.

(** ** One request per call of a trigger routine *)

Section OneRequest.
Context {St : Type}.
Variable queue : St -> list evid.
Variable set_queue : list evid -> St -> St.
Variable is_triggered : evid -> St -> bool.
Variable hook : evid -> M St bool.
Variable violated : string.

(** The hook never answers with a true value. *)
Hypothesis hook_stops : forall e st st', hook e st <> Ret true st'.

Lemma loop_one_request (fuel idx : nat) st :
  (length (fst (Trigger.loop queue set_queue is_triggered hook violated fuel idx st)) <= 1)%nat.
Proof.
  destruct fuel as [|fuel]; cbn [Trigger.loop].
  - destruct (queue st !! idx); cbn; lia.
  - destruct (queue st !! idx) as [ev|]; [|cbn; lia].
    destruct (hook ev st) as [proceed st1|err st1|] eqn:Hhook; [|cbn; lia|cbn; lia].
    destruct proceed; [exfalso; exact (hook_stops _ _ _ Hhook)|].
    destruct (Trigger.advance queue set_queue is_triggered violated idx ev st1); cbn; lia.
Qed.

End OneRequest.

(** The hooks of [Buffer] and of the pipelines return None, which stops the
    loop of the trigger routine: one call hands at most one request, the
    first of the queue, to its hook, however many requests could be
    served. *)
Theorem trigger_looks_at_one_request :
  (forall w : Buffers.world,
     (length (fst (Buffers._trigger_put_scan w)) <= 1)%nat /\
     (length (fst (Buffers._trigger_get_scan w)) <= 1)%nat /\
     (length (fst (Buffers._trigger_peek_scan w)) <= 1)%nat) /\
  (forall w : Pipelines.world,
     (length (fst (Pipelines._trigger_put_scan w)) <= 1)%nat).
Proof.
  split; [intros w; split; [|split]|intros w].
  - apply loop_one_request. intros e st st' H. unfold Buffers._do_put in H. returns_false H.
  - apply loop_one_request. intros e st st' H. unfold Buffers._do_get in H. returns_false H.
  - apply loop_one_request. intros e st st' H. unfold Buffers._do_peek in H. returns_false H.
  - apply loop_one_request. intros e st st' H. unfold Pipelines._do_put in H. returns_false H.
Qed.

(** ** The environment, operation by operation *)

Section EffectFacts.
Import Effects.

Lemma insert_as_alter {A} (f : A -> A) (l : list A) (i : nat) (a : A) :
  l !! i = Some a -> <[i := f a]> l = alter f i l.
Proof.
  intros H. apply list_eq. intros j. destruct (decide (j = i)) as [->|Hne].
  - rewrite list_lookup_insert_eq by (eapply lookup_lt_Some; exact H).
    rewrite list_lookup_alter_eq, H. reflexivity.
  - rewrite list_lookup_insert_ne by congruence.
    rewrite list_lookup_alter_ne by congruence. reflexivity.
Qed.

Lemma Log_logged nm msgtype lvl msg s :
  (msgtype, lvl) ∈ [("FATAL_ERROR"%string, ERROR); ("WARNING"%string, WARNING);
                    ("INFO"%string, INFO); ("DEBUG"%string, DEBUG)] ->
  Sim.Log nm msgtype msg [] s = Ret tt (logged lvl nm msg s).
Proof. intros H. rewrite (Log_known_type nm msgtype lvl msg [] s H). reflexivity. Qed.

Lemma NewEvent_created item caller s :
  NewEvent item caller s = Ret (length (events s)) (created item caller s).
Proof. reflexivity. Qed.

Lemma lookup_event_Ret e ev s : events s !! e = Some ev -> lookup_event e s = Ret ev s.
Proof. intros H. unfold lookup_event. rewrite H. reflexivity. Qed.

Lemma add_callbacks_subscribed e cbs s :
  open e s -> add_callbacks e cbs s = Ret tt (subscribed e cbs s).
Proof.
  intros (ev & old & He & Hcb). unfold add_callbacks.
  rewrite (bind_Ret _ _ _ _ _ (lookup_event_Ret e ev s He)). rewrite Hcb.
  unfold store_event, modify, subscribed, set_events. do 2 f_equal.
  rewrite <- (insert_as_alter _ _ _ _ He). rewrite Hcb. reflexivity.
Qed.

Lemma succeed_resolved e value delay s :
  pending e s -> succeed e value delay s = Ret tt (resolved e value delay s).
Proof.
  intros (ev & He & Hv). rewrite (succeed_pending e ev value delay s He Hv).
  unfold resolved. rewrite <- (insert_as_alter _ _ _ _ He). reflexivity.
Qed.

(** *** What is pending, and what is open *)

Lemma pending_logged e l nm msg s : pending e (logged l nm msg s) <-> pending e s.
Proof. reflexivity. Qed.

Lemma open_logged e l nm msg s : open e (logged l nm msg s) <-> open e s.
Proof. reflexivity. Qed.

Lemma pending_created_old e item caller s : pending e s -> pending e (created item caller s).
Proof.
  intros (ev & He & Hv). exists ev. split; [|exact Hv]. cbn.
  rewrite lookup_app_l by (eapply lookup_lt_Some; exact He). exact He.
Qed.

Lemma pending_created_new item caller s : pending (length (events s)) (created item caller s).
Proof. eexists. split; [cbn; apply lookup_fresh_event | reflexivity]. Qed.

Lemma open_created_old e item caller s : open e s -> open e (created item caller s).
Proof.
  intros (ev & cbs & He & Hcb). exists ev, cbs. split; [|exact Hcb]. cbn.
  rewrite lookup_app_l by (eapply lookup_lt_Some; exact He). exact He.
Qed.

Lemma open_created_new item caller s : open (length (events s)) (created item caller s).
Proof. eexists _, _. split; [cbn; apply lookup_fresh_event | reflexivity]. Qed.

Lemma item_of_created_new item caller s :
  item_of (length (events s)) (created item caller s) = Some item.
Proof. unfold item_of. cbn. rewrite lookup_fresh_event. reflexivity. Qed.

Lemma pending_subscribed e e' cbs s : pending e (subscribed e' cbs s) <-> pending e s.
Proof.
  unfold pending, subscribed. cbn. destruct (decide (e = e')) as [->|Hne].
  - rewrite list_lookup_alter_eq. destruct (events s !! e') as [ev|]; cbn.
    + split; intros (ev' & [= <-] & Hv); eexists; (split; [reflexivity | exact Hv]).
    + split; intros (ev' & [=] & _).
  - rewrite list_lookup_alter_ne by congruence. reflexivity.
Qed.

Lemma open_subscribed e e' cbs s : open e s -> open e (subscribed e' cbs s).
Proof.
  intros (ev & old & He & Hcb). unfold open, subscribed. cbn.
  destruct (decide (e = e')) as [->|Hne].
  - rewrite list_lookup_alter_eq, He. cbn. eexists _, _. split; [reflexivity|]. cbn.
    rewrite Hcb. reflexivity.
  - rewrite list_lookup_alter_ne by congruence. eauto.
Qed.

Lemma item_of_subscribed e e' cbs s : item_of e (subscribed e' cbs s) = item_of e s.
Proof.
  unfold item_of, subscribed. cbn. destruct (decide (e = e')) as [->|Hne].
  - rewrite list_lookup_alter_eq. destruct (events s !! e'); reflexivity.
  - rewrite list_lookup_alter_ne by congruence. reflexivity.
Qed.

Lemma pending_resolved_other e e' v d s :
  e <> e' -> (pending e (resolved e' v d s) <-> pending e s).
Proof.
  intros Hne. unfold pending, resolved. cbn.
  rewrite list_lookup_alter_ne by congruence. reflexivity.
Qed.

Lemma open_resolved e e' v d s : open e s -> open e (resolved e' v d s).
Proof.
  intros (ev & old & He & Hcb). unfold open, resolved. cbn.
  destruct (decide (e = e')) as [->|Hne].
  - rewrite list_lookup_alter_eq, He. cbn. eexists _, _. split; [reflexivity|]. exact Hcb.
  - rewrite list_lookup_alter_ne by congruence. eauto.
Qed.

Lemma triggered_resolved e v d s :
  (e < length (events s))%nat -> triggered e (resolved e v d s) = true.
Proof.
  intros Hlt. unfold triggered, resolved. cbn. rewrite list_lookup_alter_eq.
  destruct (lookup_lt_is_Some_2 _ _ Hlt) as [ev ->]. reflexivity.
Qed.

Lemma triggered_resolved_other e e' v d s :
  e <> e' -> triggered e (resolved e' v d s) = triggered e s.
Proof.
  intros Hne. unfold triggered, resolved. cbn.
  rewrite list_lookup_alter_ne by congruence. reflexivity.
Qed.

Lemma value_of_resolved e v d s :
  (e < length (events s))%nat -> value_of e (resolved e v d s) = Some v.
Proof.
  intros Hlt. unfold value_of, resolved. cbn. rewrite list_lookup_alter_eq.
  destruct (lookup_lt_is_Some_2 _ _ Hlt) as [ev ->]. reflexivity.
Qed.

Lemma value_of_resolved_other e e' v d s :
  e <> e' -> value_of e (resolved e' v d s) = value_of e s.
Proof.
  intros Hne. unfold value_of, resolved. cbn.
  rewrite list_lookup_alter_ne by congruence. reflexivity.
Qed.

Lemma value_of_logged e l nm msg s : value_of e (logged l nm msg s) = value_of e s.
Proof. reflexivity. Qed.

Lemma value_of_subscribed e e' cbs s : value_of e (subscribed e' cbs s) = value_of e s.
Proof.
  unfold value_of, subscribed. cbn. destruct (decide (e = e')) as [->|Hne].
  - rewrite list_lookup_alter_eq. destruct (events s !! e'); reflexivity.
  - rewrite list_lookup_alter_ne by congruence. reflexivity.
Qed.

Lemma value_of_created_old e item caller s :
  (e < length (events s))%nat -> value_of e (created item caller s) = value_of e s.
Proof. intros Hlt. unfold value_of. cbn. rewrite lookup_app_l by exact Hlt. reflexivity. Qed.

Lemma item_of_resolved e e' v d s : item_of e (resolved e' v d s) = item_of e s.
Proof.
  unfold item_of, resolved. cbn. destruct (decide (e = e')) as [->|Hne].
  - rewrite list_lookup_alter_eq. destruct (events s !! e'); reflexivity.
  - rewrite list_lookup_alter_ne by congruence. reflexivity.
Qed.

Lemma pending_lt e s : pending e s -> (e < length (events s))%nat.
Proof. intros (ev & He & _). eapply lookup_lt_Some. exact He. Qed.

Lemma pending_value_of e s : pending e s -> value_of e s = None.
Proof. intros (ev & He & Hv). unfold value_of. rewrite He. exact Hv. Qed.

Lemma length_events_logged l nm msg s : length (events (logged l nm msg s)) = length (events s).
Proof. reflexivity. Qed.

Lemma length_events_created item caller s :
  length (events (created item caller s)) = S (length (events s)).
Proof. cbn. rewrite length_app. cbn. lia. Qed.

Lemma length_events_subscribed e cbs s :
  length (events (subscribed e cbs s)) = length (events s).
Proof. cbn. apply length_alter. Qed.

Lemma length_events_resolved e v d s :
  length (events (resolved e v d s)) = length (events s).
Proof. cbn. apply length_alter. Qed.

End EffectFacts.

(** ** One call of a trigger routine, case by case *)

Section ScanCases.
Context {St : Type}.
Variable queue : St -> list evid.
Variable set_queue : list evid -> St -> St.
Variable is_triggered : evid -> St -> bool.
Variable hook : evid -> M St bool.
Variable violated : string.

Local Abbreviation scan := (Trigger.scan queue set_queue is_triggered hook violated).

Lemma scan_nobody st : queue st = [] -> scan st = ([], Ret tt st).
Proof. intros Hq. unfold Trigger.scan. rewrite Hq. cbn. rewrite Hq. reflexivity. Qed.

(** The first request is resolved by the hook, which asks to stop. *)
Lemma scan_first_resolved st e q st1 :
  queue st = e :: q -> hook e st = Ret false st1 ->
  queue st1 = e :: q -> is_triggered e st1 = true ->
  scan st = ([(e, true)], Ret tt (set_queue q st1)).
Proof.
  intros Hq Hhook Hq1 Ht. unfold Trigger.scan. rewrite Hq. cbn [length Trigger.loop].
  rewrite Hq. cbn [lookup list_lookup]. rewrite Hhook. unfold Trigger.advance.
  rewrite Ht. cbn [negb]. unfold bind, Trigger.pop_check. rewrite Hq1.
  cbn [lookup list_lookup]. rewrite Nat.eqb_refl. reflexivity.
Qed.

(** The first request is left pending. *)
Lemma scan_first_pending st e q st1 :
  queue st = e :: q -> hook e st = Ret false st1 -> is_triggered e st1 = false ->
  scan st = ([(e, false)], Ret tt st1).
Proof.
  intros Hq Hhook Ht. unfold Trigger.scan. rewrite Hq. cbn [length Trigger.loop].
  rewrite Hq. cbn [lookup list_lookup]. rewrite Hhook. unfold Trigger.advance.
  rewrite Ht. reflexivity.
Qed.

End ScanCases.

(** ** The hooks of a [Buffer], case by case *)

Module BufferCases.
Import Buffers Effects Use.

Lemma Log_DEBUG msg s b : Buffers.Log "DEBUG" msg (s, b) = Ret tt (logged DEBUG (name (cfg b)) msg s, b).
Proof.
  unfold Buffers.Log, bind, self, in_env, zoom. cbn [fst snd].
  rewrite (Log_logged _ "DEBUG" DEBUG) by (apply list_elem_of_In; cbn; tauto). reflexivity.
Qed.

Lemma Log_INFO msg s b : Buffers.Log "INFO" msg (s, b) = Ret tt (logged INFO (name (cfg b)) msg s, b).
Proof.
  unfold Buffers.Log, bind, self, in_env, zoom. cbn [fst snd].
  rewrite (Log_logged _ "INFO" INFO) by (apply list_elem_of_In; cbn; tauto). reflexivity.
Qed.

Lemma getTicks_Ret {St} p bpc (st : St) :
  bpc <> 0 -> getTicks p bpc st = Ret (ceil_div (getBytes p) bpc, 0) st.
Proof. intros H. unfold getTicks. destruct (Z.eqb_spec bpc 0); [contradiction | reflexivity]. Qed.

Lemma do_peek_now e x rest s b :
  items b = x :: rest -> pending e s ->
  _do_peek e (s, b) = Ret false (resolved e x 0 s, b).
Proof.
  intros Hitems Hp. unfold _do_peek, bind, self, in_env, zoom. cbn [fst snd].
  rewrite Hitems. rewrite (succeed_resolved _ _ _ _ Hp). reflexivity.
Qed.

Lemma do_peek_empty e s b : items b = [] -> _do_peek e (s, b) = Ret false (s, b).
Proof. intros Hitems. unfold _do_peek, bind, self. cbn [fst snd]. rewrite Hitems. reflexivity. Qed.

Lemma postGetMsg_logged p s b :
  getBytesPerCycle (cfg b) <> 0 ->
  postGetMsg (PyPkt p) (s, b) =
  Ret tt (logged INFO (name (cfg b)) "Started reading packet from the buffer" s, b).
Proof.
  intros Hbpc. unfold postGetMsg, addPostGetDelay, as_packet, bind, self, ret. cbn [fst snd].
  rewrite (getTicks_Ret _ _ _ Hbpc). apply Log_INFO.
Qed.

Lemma postPutMsg_logged p s b :
  putBytesPerCycle (cfg b) <> 0 ->
  postPutMsg (PyPkt p) (s, b) =
  Ret tt (logged INFO (name (cfg b)) "Started writing packet into the buffer" s, b).
Proof.
  intros Hbpc. unfold postPutMsg, addPostPutDelay, as_packet, bind, self, ret. cbn [fst snd].
  rewrite (getTicks_Ret _ _ _ Hbpc). destruct (variant (cfg b)); apply Log_INFO.
Qed.


(** What [_remove_packet] leaves of the buffer: the head is gone, and a
    flow-controlled buffer has sent a credit. *)
Lemma remove_packet_now e p rest s b :
  items b = PyPkt p :: rest -> getBytesPerCycle (cfg b) <> 0 ->
  exists b',
    _remove_packet e (s, b) =
    Ret tt (logged INFO (name (cfg b)) "Started reading packet from the buffer" s, b') /\
    steady b b' /\ items b' = rest.
Proof.
  intros Hitems Hbpc. unfold _remove_packet. unfold bind at 1, self. cbn [fst snd].
  rewrite Hitems. unfold bind at 1, bind at 1, update. cbn [fst snd].
  rewrite postGetMsg_logged by exact Hbpc.
  destruct (variant (cfg b)); eexists; (split; [reflexivity|]); repeat split.
Qed.

Lemma remove_packet_empty e s b :
  items b = [] -> _remove_packet e (s, b) = Raise IndexError (s, b).
Proof. intros H. unfold _remove_packet, bind, self. cbn [fst snd]. rewrite H. reflexivity. Qed.

Lemma updateGetDebt_steady p s b :
  getBytesPerCycle (cfg b) <> 0 ->
  exists b', _updateGetDebt (PyPkt p) (s, b) = Ret tt (s, b') /\
             steady b b' /\ items b' = items b.
Proof.
  intros Hbpc. unfold _updateGetDebt, as_packet, bind, self, ret, update. cbn [fst snd].
  rewrite (getTicks_Ret _ _ _ Hbpc). eexists. split; [reflexivity|]. repeat split.
Qed.

Lemma updatePutDebt_steady p s b :
  putBytesPerCycle (cfg b) <> 0 ->
  exists b', _updatePutDebt (PyPkt p) (s, b) = Ret tt (s, b') /\
             steady b b' /\ items b' = items b.
Proof.
  intros Hbpc. unfold _updatePutDebt, as_packet, bind, self, ret, update. cbn [fst snd].
  rewrite (getTicks_Ret _ _ _ Hbpc). eexists. split; [reflexivity|]. repeat split.
Qed.

Lemma steady_refl b : steady b b.
Proof. repeat split. Qed.

Lemma steady_trans b1 b2 b3 : steady b1 b2 -> steady b2 b3 -> steady b1 b3.
Proof.
  intros (H1 & H2 & H3 & H4) (H1' & H2' & H3' & H4'). repeat split; congruence.
Qed.

(** [_do_get] with no get delay: the head leaves the buffer and the request
    is resolved with it, for now. *)
Lemma do_get_now e p rest s b :
  items b = PyPkt p :: rest ->
  getDelay (cfg b) * simTicksPerCycle (cfg b) = 0 ->
  getBytesPerCycle (cfg b) <> 0 ->
  pending e s -> open e s ->
  exists b',
    _do_get e (s, b) =
    Ret false
      (resolved e (PyPkt p) 0
         (logged INFO (name (cfg b)) "Started reading packet from the buffer"
            (subscribed e [CB_trigger_put; CB_updateTotalRdBits] s)), b') /\
    steady b b' /\ items b' = rest.
Proof.
  intros Hitems Hdelay Hbpc Hp Ho.
  destruct (remove_packet_now e p rest (subscribed e [CB_trigger_put; CB_updateTotalRdBits] s) b
              Hitems Hbpc) as (b1 & Hrm & Hst1 & Hit1).
  assert (Hbpc1 : getBytesPerCycle (cfg b1) <> 0) by (destruct Hst1 as [-> _]; exact Hbpc).
  set (s2 := logged INFO (name (cfg b)) "Started reading packet from the buffer"
               (subscribed e [CB_trigger_put; CB_updateTotalRdBits] s)) in *.
  destruct (updateGetDebt_steady p (resolved e (PyPkt p) 0 s2) b1 Hbpc1)
    as (b2 & Hdebt & Hst2 & Hit2).
  exists b2. split; [|split; [eapply steady_trans; eassumption | congruence]].
  unfold _do_get. unfold bind at 1, self. cbn [fst snd]. rewrite Hitems.
  unfold bind at 1. unfold bind at 1.
  unfold addPreGetDelay at 1, bind at 1, self, ret. cbn [fst snd]. rewrite Hdelay.
  cbn [Z.eqb negb]. unfold bind at 1. unfold bind at 1. unfold bind at 1.
  unfold in_env at 1, zoom. cbn [fst snd].
  rewrite (add_callbacks_subscribed _ _ _ Ho). rewrite Hrm.
  unfold in_env, zoom. cbn [fst snd].
  rewrite succeed_resolved.
  2:{ apply pending_logged, pending_subscribed. exact Hp. }
  rewrite Hdebt. reflexivity.
Qed.

(** [_do_get] with a get delay: the request is resolved with the head, which
    stays in the buffer until the event is processed. *)
Lemma do_get_later e p rest s b :
  items b = PyPkt p :: rest ->
  getDelay (cfg b) * simTicksPerCycle (cfg b) <> 0 ->
  getBytesPerCycle (cfg b) <> 0 ->
  pending e s -> open e s ->
  exists b',
    _do_get e (s, b) =
    Ret false
      (resolved e (PyPkt p) (getDelay (cfg b) * simTicksPerCycle (cfg b))
         (subscribed e [CB_remove_packet; CB_trigger_put; CB_updateTotalRdBits] s), b') /\
    steady b b' /\ items b' = PyPkt p :: rest.
Proof.
  intros Hitems Hdelay Hbpc Hp Ho.
  set (s1 := subscribed e [CB_remove_packet; CB_trigger_put; CB_updateTotalRdBits] s).
  destruct (updateGetDebt_steady p
              (resolved e (PyPkt p) (getDelay (cfg b) * simTicksPerCycle (cfg b)) s1) b Hbpc)
    as (b2 & Hdebt & Hst2 & Hit2).
  exists b2. split; [|split; [exact Hst2 | congruence]].
  unfold _do_get. unfold bind at 1, self. cbn [fst snd]. rewrite Hitems.
  unfold bind at 1. unfold bind at 1.
  unfold addPreGetDelay at 1, bind at 1, self, ret. cbn [fst snd].
  destruct (Z.eqb_spec (getDelay (cfg b) * simTicksPerCycle (cfg b)) 0) as [|_]; [contradiction|].
  cbn [negb]. unfold bind at 1. unfold bind at 1.
  unfold in_env, zoom. cbn [fst snd].
  rewrite (add_callbacks_subscribed _ _ _ Ho).
  rewrite succeed_resolved by (apply pending_subscribed; exact Hp).
  cbn [fst snd]. fold s1. rewrite Hdebt. reflexivity.
Qed.


Lemma do_put_no_room e s b :
  capacity (cfg b) <= Z.of_nat (length (items b)) -> _do_put e (s, b) = Ret false (s, b).
Proof.
  intros Hfull. unfold _do_put, bind, self. cbn [fst snd].
  destruct (Z.ltb_spec (Z.of_nat (length (items b))) (capacity (cfg b))); [lia | reflexivity].
Qed.

Lemma insert_packet_now e p s b :
  item_of e s = Some (PyPkt p) -> putBytesPerCycle (cfg b) <> 0 ->
  _insert_packet e (s, b) =
  Ret tt (logged INFO (name (cfg b)) "Started writing packet into the buffer" s,
          set_items (items b ++ [PyPkt p]) b).
Proof.
  intros Hitem Hbpc. unfold item_of in Hitem.
  destruct (events s !! e) as [ev|] eqn:He; [|discriminate]. injection Hitem as Hitem.
  unfold _insert_packet. unfold bind at 1, in_env, zoom. cbn [fst snd].
  rewrite (lookup_event_Ret _ _ _ He). unfold bind at 1, self. cbn [fst snd].
  unfold bind at 1, update. cbn [fst snd]. rewrite Hitem.
  rewrite postPutMsg_logged by exact Hbpc. reflexivity.
Qed.

Lemma trigger_get_nobody s b : get_queue b = [] -> _trigger_get (s, b) = Ret tt (s, b).
Proof.
  intros Hq. change (_trigger_get (s, b)) with (snd (_trigger_get_scan (s, b))).
  unfold _trigger_get_scan. rewrite scan_nobody by exact Hq. reflexivity.
Qed.

Lemma trigger_peek_nobody s b : peek_queue b = [] -> _trigger_peek (s, b) = Ret tt (s, b).
Proof.
  intros Hq. change (_trigger_peek (s, b)) with (snd (_trigger_peek_scan (s, b))).
  unfold _trigger_peek_scan. rewrite scan_nobody by exact Hq. reflexivity.
Qed.

Lemma trigger_put_nobody s b : put_queue b = [] -> _trigger_put (s, b) = Ret tt (s, b).
Proof.
  intros Hq. change (_trigger_put (s, b)) with (snd (_trigger_put_scan (s, b))).
  unfold _trigger_put_scan. rewrite scan_nobody by exact Hq. reflexivity.
Qed.

Lemma addPrePutDelay_at_once item s b :
  puts_at_once (cfg b) -> addPrePutDelay item (s, b) = Ret 0 (s, b).
Proof.
  intros [Hdelay Hvar]. unfold addPrePutDelay, bind, self, ret. cbn [fst snd].
  destruct (variant (cfg b)); try contradiction; rewrite Hdelay; reflexivity.
Qed.

Lemma addPostPutDelay_at_once p s b :
  puts_at_once (cfg b) -> putBytesPerCycle (cfg b) <> 0 ->
  addPostPutDelay (PyPkt p) (s, b) =
  Ret ((ceil_div (getBytes p) (putBytesPerCycle (cfg b)) + (putDebt b + 0))
       * simTicksPerCycle (cfg b)) (s, b).
Proof.
  intros [Hdelay Hvar] Hbpc. unfold addPostPutDelay, as_packet, bind, self, ret. cbn [fst snd].
  rewrite (getTicks_Ret _ _ _ Hbpc). destruct (variant (cfg b)); try contradiction; reflexivity.
Qed.

(** [_do_put] on a buffer with a free slot that takes items at once, with
    nobody waiting to get or to peek: the packet goes to the back of [items]
    and the request is resolved, to be processed once the packet is written. *)
Lemma do_put_now e p s b :
  Z.of_nat (length (items b)) < capacity (cfg b) ->
  puts_at_once (cfg b) -> putBytesPerCycle (cfg b) <> 0 ->
  get_queue b = [] -> peek_queue b = [] ->
  item_of e s = Some (PyPkt p) -> pending e s -> open e s ->
  let d := (ceil_div (getBytes p) (putBytesPerCycle (cfg b)) + (putDebt b + 0))
           * simTicksPerCycle (cfg b) in
  exists b',
    _do_put e (s, b) =
    Ret false
      (logged INFO (name (cfg b)) "Started writing packet into the buffer"
         (resolved e PyNone d (subscribed e [CB_updateTotalWrBits] s)), b') /\
    steady b b' /\ items b' = items b ++ [PyPkt p].
Proof.
  intros Hroom Hnow Hbpc Hgq Hpq Hitem Hp Ho d.
  set (s1 := subscribed e [CB_updateTotalWrBits] s).
  set (s2 := resolved e PyNone d s1).
  set (s3 := logged INFO (name (cfg b)) "Started writing packet into the buffer" s2).
  set (b1 := set_items (items b ++ [PyPkt p]) b).
  set (b2 := set_stat (fun st => Stats (totalWrBits st) (totalRdBits st) (now s3 + d)
                                       (firstActivity st)) b1).
  destruct (updatePutDebt_steady p s3 b2 Hbpc) as (b3 & Hdebt & Hst3 & Hit3).
  eexists. split; [|split].
  - unfold _do_put. unfold bind at 1, self. cbn [fst snd].
    destruct (Z.ltb_spec (Z.of_nat (length (items b))) (capacity (cfg b))) as [_|?]; [|lia].
    unfold bind at 1. unfold bind at 1.
    assert (He : exists ev, events s !! e = Some ev /\ ev_item ev = PyPkt p).
    { unfold item_of in Hitem. destruct (events s !! e) as [ev|]; [|discriminate].
      injection Hitem as Hitem. eauto. }
    destruct He as (ev & He & Hev).
    unfold in_env at 1, zoom. cbn [fst snd]. rewrite (lookup_event_Ret _ _ _ He). rewrite Hev.
    unfold bind at 1. rewrite (addPrePutDelay_at_once _ _ _ Hnow).
    unfold bind at 1. rewrite (addPostPutDelay_at_once _ _ _ Hnow Hbpc). fold d.
    unfold bind at 1. unfold in_env at 1, zoom. cbn [fst snd].
    rewrite (add_callbacks_subscribed _ _ _ Ho). fold s1.
    cbn [Z.eqb negb]. unfold bind at 1. unfold bind at 1. unfold bind at 1. unfold bind at 1.
    unfold in_env at 1, zoom. cbn [fst snd].
    rewrite succeed_resolved by (apply pending_subscribed; exact Hp). fold s2.
    rewrite (insert_packet_now e p);
      [|unfold s2, s1; rewrite item_of_resolved, item_of_subscribed; exact Hitem | exact Hbpc].
    fold s3 b1.
    rewrite trigger_get_nobody by exact Hgq.
    rewrite trigger_peek_nobody by exact Hpq.
    unfold bind at 1, the_env. cbn [fst snd].
    unfold bind at 1, update. cbn [fst snd]. fold b2.
    unfold bind at 1. rewrite Hdebt. reflexivity.
  - destruct Hst3 as (H1 & H2 & H3 & H4). repeat split; cbn; assumption.
  - cbn. rewrite Hit3. reflexivity.
Qed.

End BufferCases.

(** ** Requests on a [Buffer], case by case *)

Module BufferRequests.
Import Buffers Effects Use BufferCases.

Lemma trigger_get_as_scan w : _trigger_get w = snd (_trigger_get_scan w).
Proof. reflexivity. Qed.

(** [get] on a buffer that holds a packet, with nobody waiting in
    [get_queue] and no get delay. *)
Lemma get_now item caller p rest s b :
  items b = PyPkt p :: rest -> get_queue b = [] ->
  getDelay (cfg b) * simTicksPerCycle (cfg b) = 0 ->
  getBytesPerCycle (cfg b) <> 0 ->
  let e := length (events s) in
  exists b',
    get item caller (s, b) =
    Ret e (resolved e (PyPkt p) 0
             (logged INFO (name (cfg b)) "Started reading packet from the buffer"
                (subscribed e [CB_trigger_put; CB_updateTotalRdBits]
                   (created item caller
                      (logged DEBUG (name (cfg b)) "Read request initiated" s)))), b') /\
    steady b b' /\ items b' = rest.
Proof.
  intros Hitems Hq Hdelay Hbpc e.
  set (s1 := logged DEBUG (name (cfg b)) "Read request initiated" s).
  set (s2 := created item caller s1).
  set (b2 := set_get_queue (get_queue b ++ [e]) b).
  assert (Hp : pending e s2) by exact (pending_created_new item caller s1).
  assert (Ho : open e s2) by exact (open_created_new item caller s1).
  destruct (do_get_now e p rest s2 b2 Hitems Hdelay Hbpc Hp Ho) as (b3 & Hhook & Hst & Hit).
  cbn [cfg b2 set_get_queue] in Hhook.
  exists (set_get_queue [] b3). split; [|split].
  - unfold get. rewrite (bind_Ret _ _ _ _ _ (Log_DEBUG _ s b)).
    unfold bind at 1, in_env, zoom. cbn [fst snd]. rewrite NewEvent_created.
    unfold bind at 1, update. cbn [fst snd]. fold s1 s2 e b2.
    unfold bind at 1. rewrite trigger_get_as_scan. unfold _trigger_get_scan.
    assert (Hq2 : get_queue (snd (s2, b2)) = [e]) by (cbn; rewrite Hq; reflexivity).
    rewrite (scan_first_resolved (fun w => get_queue (snd w)) _ _ _ _ _ e [] _ Hq2 Hhook).
    + reflexivity.
    + cbn [snd]. destruct Hst as (_ & _ & -> & _). cbn. rewrite Hq. reflexivity.
    + unfold is_triggered. cbn [fst]. apply triggered_resolved.
      rewrite length_events_logged, length_events_subscribed. apply pending_lt. exact Hp.
  - destruct Hst as (H1 & H2 & H3 & H4). repeat split; cbn; try assumption.
    cbn in H3. rewrite Hq. reflexivity.
  - cbn. exact Hit.
Qed.


(** [get] on an empty buffer: the request joins [get_queue] and waits. *)
Lemma get_wait item caller s b :
  items b = [] ->
  (forall h, head (get_queue b) = Some h -> triggered h s = false) ->
  let e := length (events s) in
  get item caller (s, b) =
  Ret e (created item caller (logged DEBUG (name (cfg b)) "Read request initiated" s),
         set_get_queue (get_queue b ++ [e]) b).
Proof.
  intros Hitems Hhead e.
  set (s1 := logged DEBUG (name (cfg b)) "Read request initiated" s).
  set (s2 := created item caller s1).
  set (b2 := set_get_queue (get_queue b ++ [e]) b).
  unfold get. rewrite (bind_Ret _ _ _ _ _ (Log_DEBUG _ s b)).
  unfold bind at 1, in_env, zoom. cbn [fst snd]. rewrite NewEvent_created.
  unfold bind at 1, update. cbn [fst snd]. fold s1 s2 e b2.
  unfold bind at 1. rewrite trigger_get_as_scan. unfold _trigger_get_scan.
  assert (Hq2 : exists h q, get_queue (snd (s2, b2)) = h :: q /\ triggered h s2 = false).
  { cbn. destruct (get_queue b) as [|h q] eqn:Hq.
    - exists e, []. split; [reflexivity|]. apply pending_not_triggered.
      exact (pending_created_new item caller s1).
    - exists h, (q ++ [e]). split; [reflexivity|].
      specialize (Hhead h eq_refl). unfold triggered in *. cbn.
      destruct (events s !! h) as [ev|] eqn:Hh.
      + rewrite lookup_app_l by (eapply lookup_lt_Some; exact Hh). rewrite Hh. exact Hhead.
      + apply lookup_ge_None in Hh. destruct (decide (h = length (events s))) as [->|Hne].
        * rewrite lookup_fresh_event. reflexivity.
        * rewrite lookup_ge_None_2; [reflexivity|]. rewrite length_app. cbn. lia. }
  destruct Hq2 as (h & q & Hq2 & Hun).
  rewrite (scan_first_pending (fun w => get_queue (snd w)) _ _ _ _ _ h q (s2, b2) Hq2).
  - reflexivity.
  - apply Buffer_do_get_empty. exact Hitems.
  - exact Hun.
Qed.

Lemma trigger_put_as_scan w : _trigger_put w = snd (_trigger_put_scan w).
Proof. reflexivity. Qed.

Lemma trigger_peek_as_scan w : _trigger_peek w = snd (_trigger_peek_scan w).
Proof. reflexivity. Qed.

Lemma triggered_created h item caller s :
  triggered h s = false -> triggered h (created item caller s) = false.
Proof.
  intros Hh. unfold triggered in *. cbn.
  destruct (events s !! h) as [ev|] eqn:He.
  - rewrite lookup_app_l by (eapply lookup_lt_Some; exact He). rewrite He. exact Hh.
  - apply lookup_ge_None in He. destruct (decide (h = length (events s))) as [->|Hne].
    + rewrite lookup_fresh_event. reflexivity.
    + rewrite lookup_ge_None_2; [reflexivity|]. rewrite length_app. cbn. lia.
Qed.

(** [put] on a buffer without a free slot: the request joins [put_queue] and
    waits. *)
Lemma put_wait item caller s b :
  capacity (cfg b) <= Z.of_nat (length (items b)) ->
  (forall h, head (put_queue b) = Some h -> triggered h s = false) ->
  let e := length (events s) in
  put item caller (s, b) =
  Ret e (created item caller s, set_put_queue (put_queue b ++ [e]) b).
Proof.
  intros Hfull Hhead e.
  set (s2 := created item caller s).
  set (b2 := set_put_queue (put_queue b ++ [e]) b).
  unfold put. unfold bind at 1, in_env, zoom. cbn [fst snd]. rewrite NewEvent_created.
  unfold bind at 1, update. cbn [fst snd]. fold s2 e b2.
  unfold bind at 1. rewrite trigger_put_as_scan. unfold _trigger_put_scan.
  assert (Hq2 : exists h q, put_queue (snd (s2, b2)) = h :: q /\ triggered h s2 = false).
  { cbn. destruct (put_queue b) as [|h q] eqn:Hq.
    - exists e, []. split; [reflexivity|]. apply pending_not_triggered.
      exact (pending_created_new item caller s).
    - exists h, (q ++ [e]). split; [reflexivity|]. apply triggered_created.
      apply Hhead. reflexivity. }
  destruct Hq2 as (h & q & Hq2 & Hun).
  rewrite (scan_first_pending (fun w => put_queue (snd w)) _ _ _ _ _ h q (s2, b2) Hq2).
  - reflexivity.
  - apply do_put_no_room. exact Hfull.
  - exact Hun.
Qed.

(** [put] of a packet on an idle buffer with a free slot that takes items at
    once. *)
Lemma put_now caller p s b :
  Z.of_nat (length (items b)) < capacity (cfg b) ->
  puts_at_once (cfg b) -> putBytesPerCycle (cfg b) <> 0 -> idle b ->
  let e := length (events s) in
  let d := (ceil_div (getBytes p) (putBytesPerCycle (cfg b)) + (putDebt b + 0))
           * simTicksPerCycle (cfg b) in
  exists b',
    put (PyPkt p) caller (s, b) =
    Ret e (logged INFO (name (cfg b)) "Started writing packet into the buffer"
             (resolved e PyNone d
                (subscribed e [CB_updateTotalWrBits] (created (PyPkt p) caller s))), b') /\
    steady b b' /\ items b' = items b ++ [PyPkt p].
Proof.
  intros Hroom Hnow Hbpc (Hput & Hget & Hpeek) e d.
  set (s2 := created (PyPkt p) caller s).
  set (b2 := set_put_queue (put_queue b ++ [e]) b).
  assert (Hp : pending e s2) by exact (pending_created_new _ caller s).
  assert (Ho : open e s2) by exact (open_created_new _ caller s).
  assert (Hi : item_of e s2 = Some (PyPkt p)) by exact (item_of_created_new _ caller s).
  destruct (do_put_now e p s2 b2 Hroom Hnow Hbpc Hget Hpeek Hi Hp Ho)
    as (b3 & Hhook & Hst & Hit).
  cbn [cfg b2 set_put_queue putDebt] in Hhook. fold d in Hhook.
  exists (set_put_queue [] b3). split; [|split].
  - unfold put. unfold bind at 1, in_env, zoom. cbn [fst snd]. rewrite NewEvent_created.
    unfold bind at 1, update. cbn [fst snd]. fold s2 e b2.
    unfold bind at 1. rewrite trigger_put_as_scan. unfold _trigger_put_scan.
    assert (Hq2 : put_queue (snd (s2, b2)) = [e]) by (cbn; rewrite Hput; reflexivity).
    rewrite (scan_first_resolved (fun w => put_queue (snd w)) _ _ _ _ _ e [] _ Hq2 Hhook).
    + reflexivity.
    + cbn [snd]. destruct Hst as (_ & -> & _ & _). cbn. rewrite Hput. reflexivity.
    + unfold is_triggered. cbn [fst].
      change (triggered e (resolved e PyNone d (subscribed e [CB_updateTotalWrBits] s2)) = true).
      apply triggered_resolved. rewrite length_events_subscribed. apply pending_lt. exact Hp.
  - destruct Hst as (H1 & H2 & H3 & H4). repeat split; cbn; try assumption.
    cbn in H2. rewrite Hput. reflexivity.
  - cbn. exact Hit.
Qed.

(** [peek] on a buffer that holds an item, with nobody waiting to peek: the
    request is resolved with the head, which stays where it is. *)
Lemma peek_now item caller x rest s b :
  items b = x :: rest -> peek_queue b = [] ->
  let e := length (events s) in
  peek item caller (s, b) =
  Ret e (resolved e x 0
           (created item caller (logged DEBUG (name (cfg b)) "Peek request initiated" s)), b).
Proof.
  intros Hitems Hq e.
  set (s1 := logged DEBUG (name (cfg b)) "Peek request initiated" s).
  set (s2 := created item caller s1).
  set (b2 := set_peek_queue (peek_queue b ++ [e]) b).
  assert (Hp : pending e s2) by exact (pending_created_new item caller s1).
  unfold peek. rewrite (bind_Ret _ _ _ _ _ (Log_DEBUG _ s b)).
  unfold bind at 1, in_env, zoom. cbn [fst snd]. rewrite NewEvent_created.
  unfold bind at 1, update. cbn [fst snd]. fold s1 s2 e b2.
  unfold bind at 1. rewrite trigger_peek_as_scan. unfold _trigger_peek_scan.
  assert (Hq2 : peek_queue (snd (s2, b2)) = [e]) by (cbn; rewrite Hq; reflexivity).
  rewrite (scan_first_resolved (fun w => peek_queue (snd w)) _ _ _ _ _ e [] _ Hq2
             (do_peek_now e x rest s2 b2 Hitems Hp)).
  - cbn. unfold ret. do 2 f_equal. destruct b. cbn in *. subst. reflexivity.
  - cbn. rewrite Hq. reflexivity.
  - unfold is_triggered. cbn [fst]. apply triggered_resolved. apply pending_lt. exact Hp.
Qed.


(** [get] on a buffer that holds a packet, with nobody waiting in
    [get_queue], when there is a get delay. *)
Lemma get_later item caller p rest s b :
  items b = PyPkt p :: rest -> get_queue b = [] ->
  getDelay (cfg b) * simTicksPerCycle (cfg b) <> 0 ->
  getBytesPerCycle (cfg b) <> 0 ->
  let e := length (events s) in
  exists b',
    get item caller (s, b) =
    Ret e (resolved e (PyPkt p) (getDelay (cfg b) * simTicksPerCycle (cfg b))
             (subscribed e [CB_remove_packet; CB_trigger_put; CB_updateTotalRdBits]
                (created item caller
                   (logged DEBUG (name (cfg b)) "Read request initiated" s))), b') /\
    steady b b' /\ items b' = PyPkt p :: rest.
Proof.
  intros Hitems Hq Hdelay Hbpc e.
  set (s1 := logged DEBUG (name (cfg b)) "Read request initiated" s).
  set (s2 := created item caller s1).
  set (b2 := set_get_queue (get_queue b ++ [e]) b).
  assert (Hp : pending e s2) by exact (pending_created_new item caller s1).
  assert (Ho : open e s2) by exact (open_created_new item caller s1).
  destruct (do_get_later e p rest s2 b2 Hitems Hdelay Hbpc Hp Ho) as (b3 & Hhook & Hst & Hit).
  cbn [cfg b2 set_get_queue] in Hhook.
  exists (set_get_queue [] b3). split; [|split].
  - unfold get. rewrite (bind_Ret _ _ _ _ _ (Log_DEBUG _ s b)).
    unfold bind at 1, in_env, zoom. cbn [fst snd]. rewrite NewEvent_created.
    unfold bind at 1, update. cbn [fst snd]. fold s1 s2 e b2.
    unfold bind at 1. rewrite trigger_get_as_scan. unfold _trigger_get_scan.
    assert (Hq2 : get_queue (snd (s2, b2)) = [e]) by (cbn; rewrite Hq; reflexivity).
    rewrite (scan_first_resolved (fun w => get_queue (snd w)) _ _ _ _ _ e [] _ Hq2 Hhook).
    + reflexivity.
    + cbn [snd]. destruct Hst as (_ & _ & -> & _). cbn. rewrite Hq. reflexivity.
    + unfold is_triggered. cbn [fst]. apply triggered_resolved.
      rewrite length_events_subscribed. apply pending_lt. exact Hp.
  - destruct Hst as (H1 & H2 & H3 & H4). repeat split; cbn; try assumption.
    cbn in H3. rewrite Hq. reflexivity.
  - cbn. exact Hit.
Qed.

End BufferRequests.

(** ** Using a [Buffer] *)

Section BufferUse.
Import Buffers Effects Use BufferCases BufferRequests.

Lemma queued_head_pending s (q : list evid) (A B : list evid) h :
  queued_pending s (A ++ q ++ B) -> head q = Some h -> triggered h s = false.
Proof.
  intros [_ Hq] Hh. apply pending_not_triggered. apply Hq.
  destruct q as [|h' q]; [discriminate|]. injection Hh as ->.
  apply elem_of_app. right. apply elem_of_app. left. left.
Qed.

(** Back-pressure: in a world whose queued requests are pending, a put on a
    buffer without a free slot and a get on an empty buffer make a request
    that joins the back of its queue and stays pending; nothing is scheduled
    and the items stay as they are. *)
Theorem full_buffer_makes_put_wait_empty_makes_get_wait item caller s b :
  queued_pending s (buffer_queues b) ->
  (capacity (cfg b) <= occupiedSlots b ->
   exists e w', put item caller (s, b) = Ret e w' /\
     put_queue (snd w') = put_queue b ++ [e] /\ pending e (fst w') /\
     items (snd w') = items b /\ sched (fst w') = sched s) /\
  (occupiedSlots b = 0 ->
   exists e w', get item caller (s, b) = Ret e w' /\
     get_queue (snd w') = get_queue b ++ [e] /\ pending e (fst w') /\
     items (snd w') = items b /\ sched (fst w') = sched s).
Proof.
  intros Hq. split.
  - intros Hfull. eexists _, _. split.
    + apply put_wait; [exact Hfull|]. intros h Hh.
      apply (queued_head_pending s (put_queue b) [] (get_queue b ++ peek_queue b) h);
        [exact Hq | exact Hh].
    + cbn. split; [reflexivity|]. split; [|split; reflexivity].
      exact (pending_created_new item caller s).
  - intros Hempty. eexists _, _. split.
    + apply get_wait.
      * unfold occupiedSlots in Hempty. destruct (items b); [reflexivity | cbn in Hempty; lia].
      * intros h Hh.
        apply (queued_head_pending s (get_queue b) (put_queue b) (peek_queue b) h);
          [exact Hq | exact Hh].
    + cbn. split; [reflexivity|]. split; [|split; reflexivity].
      exact (pending_created_new item caller _).
Qed.

Lemma full_buffer_makes_put_wait_empty_makes_get_wait_witness :
  exists e w',
    Buffers.get PyNone None (empty_sim, Buffers.init Resolved.config) = Ret e w' /\
    get_queue (snd w') = [e] /\ pending e (fst w') /\
    items (snd w') = [] /\ sched (fst w') = [].
Proof.
  apply (proj2 (full_buffer_makes_put_wait_empty_makes_get_wait PyNone None empty_sim
                  (Buffers.init Resolved.config)
                  (conj (NoDup_nil_2 : NoDup (buffer_queues (Buffers.init Resolved.config)))
                        (fun e (H : e ∈ []) => False_ind _ (not_elem_of_nil e H))))).
  reflexivity.
Defined.


(** *** First in, first out *)

Lemma idle_steady b b' : steady b b' -> idle b -> idle b'.
Proof. intros (_ & H1 & H2 & H3) (I1 & I2 & I3). repeat split; congruence. Qed.

Lemma puts_fill (ps : list packet) : forall s b,
  Z.of_nat (length (items b)) + Z.of_nat (length ps) <= capacity (cfg b) ->
  puts_at_once (cfg b) -> putBytesPerCycle (cfg b) <> 0 -> idle b ->
  exists es s' b',
    puts ps (s, b) = Ret es (s', b') /\ steady b b' /\
    items b' = items b ++ (PyPkt <$> ps).
Proof.
  induction ps as [|p ps IH]; intros s b Hroom Hnow Hbpc Hidle.
  - exists [], s, b. split; [reflexivity|]. split; [apply steady_refl|].
    cbn. rewrite app_nil_r. reflexivity.
  - cbn [length] in Hroom.
    destruct (put_now None p s b ltac:(lia) Hnow Hbpc Hidle) as (b1 & Hput & Hst1 & Hit1).
    set (s1 := logged _ _ _ _) in Hput.
    assert (Hcfg : cfg b1 = cfg b) by (destruct Hst1 as [-> _]; reflexivity).
    destruct (IH s1 b1) as (es & s' & b' & Hputs & Hst & Hit).
    { rewrite Hcfg, Hit1, length_app. cbn [length]. lia. }
    { rewrite Hcfg. exact Hnow. }
    { rewrite Hcfg. exact Hbpc. }
    { eapply idle_steady; eassumption. }
    exists (length (events s) :: es), s', b'. split; [|split].
    + cbn [puts]. rewrite (bind_Ret _ _ _ _ _ Hput). rewrite (bind_Ret _ _ _ _ _ Hputs).
      reflexivity.
    + eapply steady_trans; eassumption.
    + rewrite Hit, Hit1, <- app_assoc. reflexivity.
Qed.

(** What [get] leaves of the values of the events that were there. *)
Lemma gets_drain (ps : list packet) : forall rest s b,
  items b = (PyPkt <$> ps) ++ rest -> get_queue b = [] ->
  getDelay (cfg b) * simTicksPerCycle (cfg b) = 0 ->
  getBytesPerCycle (cfg b) <> 0 ->
  exists gs s' b',
    gets (length ps) (s, b) = Ret gs (s', b') /\ steady b b' /\ items b' = rest /\
    Forall2 (fun g p => value_of g s' = Some (PyPkt p)) gs ps /\
    (length (events s) <= length (events s'))%nat /\
    forall e, (e < length (events s))%nat -> value_of e s' = value_of e s.
Proof.
  induction ps as [|p ps IH]; intros rest s b Hitems Hq Hdelay Hbpc.
  - exists [], s, b. split; [reflexivity|]. split; [apply steady_refl|].
    split; [exact Hitems|]. split; [constructor|]. split; [lia | reflexivity].
  - destruct (get_now PyNone None p _ s b Hitems Hq Hdelay Hbpc)
      as (b1 & Hget & Hst1 & Hit1).
    cbv zeta in Hget. set (e := length (events s)) in *.
    set (s0 := created PyNone None (logged DEBUG (name (cfg b)) "Read request initiated" s))
      in Hget.
    set (s1 := resolved e _ _ _) in Hget.
    assert (Hcfg : cfg b1 = cfg b) by (destruct Hst1 as [-> _]; reflexivity).
    assert (Hq1 : get_queue b1 = []) by (destruct Hst1 as (_ & _ & -> & _); exact Hq).
    assert (Hlen1 : length (events s1) = S (length (events s))).
    { unfold s1. rewrite length_events_resolved, length_events_logged,
        length_events_subscribed. unfold s0. rewrite length_events_created. reflexivity. }
    destruct (IH rest s1 b1 Hit1 Hq1) as (gs & s' & b' & Hgets & Hst & Hit & Hvals & Hlen & Hold).
    { rewrite Hcfg. exact Hdelay. }
    { rewrite Hcfg. exact Hbpc. }
    exists (e :: gs), s', b'. split; [|split; [|split; [|split; [|split]]]].
    + cbn [gets length]. rewrite (bind_Ret _ _ _ _ _ Hget). rewrite (bind_Ret _ _ _ _ _ Hgets).
      reflexivity.
    + eapply steady_trans; eassumption.
    + exact Hit.
    + constructor; [|exact Hvals].
      rewrite Hold by (rewrite Hlen1; unfold e; lia).
      unfold s1. apply value_of_resolved.
      rewrite length_events_logged, length_events_subscribed. unfold s0.
      rewrite length_events_created. unfold e. cbn. lia.
    + lia.
    + intros e' He'. rewrite Hold by lia. unfold s1.
      rewrite value_of_resolved_other by (unfold e; lia).
      rewrite value_of_logged, value_of_subscribed. unfold s0.
      rewrite value_of_created_old by (cbn; exact He'). reflexivity.
Qed.




(** *** Peek, and get after it *)



(** *** A get delay *)

(** With a get delay the head of the buffer stays in [items] until the get
    event is processed: a second [get] made before that is resolved with
    the same packet, and both events carry the removal of a packet as a
    callback. *)
Theorem delayed_get_hands_the_head_out_twice item caller p rest s b :
  items b = PyPkt p :: rest -> get_queue b = [] ->
  getDelay (cfg b) * simTicksPerCycle (cfg b) <> 0 -> getBytesPerCycle (cfg b) <> 0 ->
  let d := getDelay (cfg b) * simTicksPerCycle (cfg b) in
  exists e1 w1 e2 w2,
    get item caller (s, b) = Ret e1 w1 /\ get item caller w1 = Ret e2 w2 /\
    e1 <> e2 /\
    value_of e1 (fst w2) = Some (PyPkt p) /\ value_of e2 (fst w2) = Some (PyPkt p) /\
    items (snd w2) = PyPkt p :: rest /\
    sched (fst w2) = sched s ++ [(now s + d, NORMAL, eid s, e1);
                                 (now s + d, NORMAL, S (eid s), e2)].
Proof.
  intros Hitems Hgq Hdelay Hbpc d.
  destruct (get_later item caller p rest s b Hitems Hgq Hdelay Hbpc) as (b1 & Hget1 & Hst1 & Hit1).
  cbv zeta in Hget1. fold d in Hget1. set (e1 := length (events s)) in *.
  set (s1 := resolved e1 _ _ _) in Hget1.
  assert (Hcfg : cfg b1 = cfg b) by (destruct Hst1 as [-> _]; reflexivity).
  assert (Hgq1 : get_queue b1 = []) by (destruct Hst1 as (_ & _ & -> & _); exact Hgq).
  assert (Hlen1 : length (events s1) = S e1).
  { unfold s1. rewrite length_events_resolved, length_events_subscribed,
      length_events_created, length_events_logged. reflexivity. }
  assert (Hv1 : value_of e1 s1 = Some (PyPkt p)).
  { unfold s1. apply value_of_resolved.
    rewrite length_events_subscribed, length_events_created, length_events_logged.
    unfold e1. lia. }
  destruct (get_later item caller p rest s1 b1 Hit1 Hgq1) as (b2 & Hget2 & Hst2 & Hit2).
  { rewrite Hcfg. exact Hdelay. }
  { rewrite Hcfg. exact Hbpc. }
  cbv zeta in Hget2. rewrite Hcfg, Hlen1 in Hget2. fold d in Hget2.
  eexists e1, (s1, b1), (S e1), (_, b2).
  split; [exact Hget1|]. split; [exact Hget2|]. split; [lia|]. cbn [fst snd].
  split; [|split; [|split; [exact Hit2|]]].
  - rewrite value_of_resolved_other by lia. rewrite value_of_subscribed.
    rewrite value_of_created_old by (rewrite length_events_logged; lia).
    rewrite value_of_logged. exact Hv1.
  - apply value_of_resolved.
    rewrite length_events_subscribed, length_events_created, length_events_logged. lia.
  - cbn. rewrite <- app_assoc. reflexivity.
Qed.

Lemma delayed_get_hands_the_head_out_twice_witness :
  let b := Buffers.Buffer (Buffers.Config "buf" Buffers.Plain 4 0 3 16 16 1)
             [PyPkt (Packet 7 1 1)] [] [] [] 0 0 (Stats 0 0 0 None) 0 in
  exists e1 w1 e2 w2,
    get PyNone None (empty_sim, b) = Ret e1 w1 /\ get PyNone None w1 = Ret e2 w2 /\
    e1 <> e2 /\
    value_of e1 (fst w2) = Some (PyPkt (Packet 7 1 1)) /\
    value_of e2 (fst w2) = Some (PyPkt (Packet 7 1 1)) /\
    items (snd w2) = [PyPkt (Packet 7 1 1)] /\
    sched (fst w2) = [(3, NORMAL, 0%nat, e1); (3, NORMAL, 1%nat, e2)].
Proof.
  intros b.
  apply (delayed_get_hands_the_head_out_twice PyNone None (Packet 7 1 1) [] empty_sim b);
    [reflexivity | reflexivity | discriminate | discriminate].
Defined.

(** *** Several peeks waiting *)

(** Two or more peek requests wait and the buffer holds an item: one call
    of [_trigger_peek] resolves the first request with the head and stops;
    the next request stays at the front of [peek_queue], pending. *)
Theorem trigger_peek_serves_the_first_waiter_only e1 e2 q x rest s b :
  items b = x :: rest -> peek_queue b = e1 :: e2 :: q ->
  pending e1 s -> pending e2 s -> e1 <> e2 ->
  _trigger_peek (s, b) = Ret tt (resolved e1 x 0 s, set_peek_queue (e2 :: q) b) /\
  value_of e1 (resolved e1 x 0 s) = Some x /\
  pending e2 (resolved e1 x 0 s).
Proof.
  intros Hitems Hq Hp1 Hp2 Hne. split; [|split].
  - rewrite trigger_peek_as_scan. unfold _trigger_peek_scan.
    rewrite (scan_first_resolved (fun w => peek_queue (snd w)) _ _ _ _ (s, b) e1 (e2 :: q) _ Hq
               (do_peek_now e1 x rest s b Hitems Hp1)).
    + reflexivity.
    + exact Hq.
    + unfold is_triggered. cbn [fst]. apply triggered_resolved. apply pending_lt. exact Hp1.
  - apply value_of_resolved. apply pending_lt. exact Hp1.
  - apply pending_resolved_other; [congruence | exact Hp2].
Qed.

Lemma trigger_peek_serves_the_first_waiter_only_witness :
  let s := MkSim 0 [] 0%nat [Event PyNone None None false (Some []);
                             Event PyNone None None false (Some [])] [] in
  let b := set_peek_queue [0%nat; 1%nat]
             (set_items [PyPkt (Packet 7 1 1)] (Buffers.init Resolved.config)) in
  _trigger_peek (s, b) =
    Ret tt (resolved 0%nat (PyPkt (Packet 7 1 1)) 0 s, set_peek_queue [1%nat] b) /\
  value_of 0%nat (resolved 0%nat (PyPkt (Packet 7 1 1)) 0 s) = Some (PyPkt (Packet 7 1 1)) /\
  pending 1%nat (resolved 0%nat (PyPkt (Packet 7 1 1)) 0 s).
Proof.
  intros s b.
  apply (trigger_peek_serves_the_first_waiter_only 0%nat 1%nat [] (PyPkt (Packet 7 1 1)) []
           s b); [reflexivity | reflexivity | | | lia].
  - eexists. split; reflexivity.
  - eexists. split; reflexivity.
Defined.

End BufferUse.

(** ** A buffer that takes items at once stays within its capacity *)

Section Stable.
Context {T : Type}.
Variable PS : sim -> Prop.
Variable PT : T -> Prop.

Local Abbreviation both := (fun w : sim * T => PS (fst w) /\ PT (snd w)).

(** [m] keeps the two predicates, one on the environment and one on the
    object. *)
Local Abbreviation stable m := (hoare both m (fun _ => both)).
Local Abbreviation calm m := (hoare PS m (fun _ => PS)).

Lemma stable_ret {A} (a : A) : stable (ret a).
Proof. apply hoare_ret. auto. Qed.

Lemma stable_raise {A} e : stable (raise e : M (sim * T) A).
Proof. apply hoare_raise. Qed.

Lemma stable_bind {A B} (m : M (sim * T) A) (k : A -> M (sim * T) B) :
  stable m -> (forall a, stable (k a)) -> stable (bind m k).
Proof. intros Hm Hk. eapply hoare_bind; [exact Hm | exact Hk]. Qed.

Lemma stable_self : stable self.
Proof. intros w a w' HP H. injection H as _ <-. exact HP. Qed.

Lemma stable_the_env : stable the_env.
Proof. intros w a w' HP H. injection H as _ <-. exact HP. Qed.

Lemma stable_gets {A} (f : sim * T -> A) : stable (gets f).
Proof. intros w a w' HP H. injection H as _ <-. exact HP. Qed.

Lemma stable_in_env {A} (m : M sim A) : calm m -> stable (in_env m).
Proof.
  intros Hm [s t] a w' [HS HT] H. unfold in_env, zoom in H. cbn [fst snd] in H.
  destruct (m s) as [a' s'|e s'|] eqn:E; try discriminate. injection H as _ <-.
  split; [eapply Hm; eassumption | exact HT].
Qed.

Lemma stable_update (f : T -> T) : (forall t, PT t -> PT (f t)) -> stable (update f).
Proof. intros Hf [s t] [] w' [HS HT] H. injection H as <-. split; [exact HS | apply Hf, HT]. Qed.

Lemma stable_getTicks p bpc : stable (getTicks p bpc).
Proof. unfold getTicks. destruct (bpc =? 0); [apply stable_raise | apply stable_ret]. Qed.

End Stable.

Section LoopPreserves.
Context {St : Type}.
Variable queue : St -> list evid.
Variable set_queue : list evid -> St -> St.
Variable is_triggered : evid -> St -> bool.
Variable hook : evid -> M St bool.
Variable violated : string.
Variable P : St -> Prop.

Hypothesis hook_preserves : forall e, hoare P (hook e) (fun _ => P).
Hypothesis set_queue_preserves : forall q st, P st -> P (set_queue q st).

Lemma loop_preserves : forall (fuel idx : nat),
  hoare P (fun st => snd (Trigger.loop queue set_queue is_triggered hook violated fuel idx st))
        (fun _ => P).
Proof.
  induction fuel as [|fuel IH]; intros idx st [] st' HP H; cbn [Trigger.loop] in H.
  - destruct (queue st !! idx); [discriminate|]. injection H as <-. exact HP.
  - destruct (queue st !! idx) as [ev|]; [|injection H as <-; exact HP].
    destruct (hook ev st) as [proceed st1|err st1|] eqn:Hhook; try discriminate.
    pose proof (hook_preserves ev st proceed st1 HP Hhook) as HP1.
    assert (Hadv : forall idx' st2,
              Trigger.advance queue set_queue is_triggered violated idx ev st1 = Ret idx' st2 ->
              P st2).
    { intros idx' st2 E. unfold Trigger.advance in E.
      destruct (is_triggered ev st1); cbn [negb] in E.
      - unfold bind, Trigger.pop_check in E. destruct (queue st1 !! idx); [|discriminate].
        destruct (Nat.eqb _ _); [|discriminate]. injection E as _ <-.
        apply set_queue_preserves, HP1.
      - injection E as _ <-. exact HP1. }
    destruct (Trigger.advance queue set_queue is_triggered violated idx ev st1)
      as [idx' st2|err st2|]; try (destruct proceed; discriminate).
    specialize (Hadv idx' st2 eq_refl). destruct proceed.
    + cbn [snd] in H. eapply IH; eassumption.
    + injection H as <-. exact Hadv.
Qed.

Lemma scan_preserves :
  hoare P (fun st => snd (Trigger.scan queue set_queue is_triggered hook violated st))
        (fun _ => P).
Proof. intros st a st' HP H. eapply loop_preserves; [exact HP | exact H]. Qed.

End LoopPreserves.

(** *** The environment keeps [no_late_insert] *)

Section NoLateInsert.
Import Use.

Local Abbreviation calm m := (hoare no_late_insert m (fun _ => no_late_insert)).

Lemma calm_ret {A} (a : A) : calm (ret a).
Proof. apply hoare_ret. auto. Qed.

Lemma calm_raise {A} e : calm (raise e : M sim A).
Proof. apply hoare_raise. Qed.

Lemma calm_bind {A B} (m : M sim A) (k : A -> M sim B) :
  calm m -> (forall a, calm (k a)) -> calm (bind m k).
Proof. intros Hm Hk. eapply hoare_bind; [exact Hm | exact Hk]. Qed.

Lemma calm_lookup_event e : calm (lookup_event e).
Proof.
  intros s a s' HP H. unfold lookup_event in H. destruct (events s !! e); [|discriminate].
  injection H as _ <-. exact HP.
Qed.

Lemma calm_emit l nm msg : calm (emit l nm msg).
Proof. intros s a s' HP H. injection H as _ <-. exact HP. Qed.

Lemma calm_Log nm msgtype msg infolist : calm (Sim.Log nm msgtype msg infolist).
Proof.
  unfold Sim.Log. apply calm_bind; [|intros _; apply calm_bind; [|intros _]].
  - repeat (match goal with |- hoare _ (if ?x then _ else _) _ => destruct x end);
      first [apply calm_emit | apply calm_raise | apply calm_ret].
  - destruct infolist as [|it l]; [apply calm_ret|].
    apply calm_bind; [apply calm_emit|]. intros _.
    generalize (it :: l). intros l'. induction l' as [|a l' IH]; cbn [foldr].
    + apply calm_ret.
    + apply calm_bind; [apply calm_emit | intros _; exact IH].
  - destruct (contains _ _); [apply calm_raise | apply calm_ret].
Qed.

Lemma calm_NewEvent item caller : calm (NewEvent item caller).
Proof.
  intros s a s' HP H. injection H as _ <-. intros e ev cbs He Hcb. cbn in He.
  apply lookup_app_Some in He as [He|[_ He]].
  - eapply HP; eassumption.
  - destruct (e - length (events s))%nat; [|discriminate]. injection He as <-.
    injection Hcb as <-. apply not_elem_of_nil.
Qed.

Lemma no_late_insert_store e ev' s :
  no_late_insert s ->
  (forall cbs, ev_callbacks ev' = Some cbs -> CB_insert_packet ∉ cbs) ->
  no_late_insert (set_events (fun evs => <[e := ev']> evs) s).
Proof.
  intros HP Hev' e0 ev cbs He Hcb. cbn in He.
  apply list_lookup_insert_Some in He as [(-> & <- & _)|[_ He]].
  - apply Hev'. exact Hcb.
  - eapply HP; eassumption.
Qed.

Lemma calm_succeed e v d : calm (succeed e v d).
Proof.
  intros s a s' HP H. unfold succeed in H. apply bind_inv_Ret in H as (ev & s1 & H1 & H).
  unfold lookup_event in H1. destruct (events s !! e) as [ev'|] eqn:He; [|discriminate].
  injection H1 as <- <-. destruct (ev_value ev'); [discriminate|].
  unfold bind, store_event, schedule, modify in H. cbn in H. injection H as _ <-.
  pose proof (no_late_insert_store e
                (Event (ev_item ev') (ev_caller ev') (Some v) true (ev_callbacks ev')) s HP) as Hs.
  intros e0 ev cbs He0 Hcb. refine (Hs _ e0 ev cbs He0 Hcb).
  cbn. intros cbs0 Hcb0. eapply HP; eassumption.
Qed.

Lemma calm_add_callbacks e cbs :
  CB_insert_packet ∉ cbs -> calm (add_callbacks e cbs).
Proof.
  intros Hout s a s' HP H. unfold add_callbacks in H.
  apply bind_inv_Ret in H as (ev & s1 & H1 & H).
  unfold lookup_event in H1. destruct (events s !! e) as [ev'|] eqn:He; [|discriminate].
  injection H1 as <- <-. destruct (ev_callbacks ev') as [old|] eqn:Hold; [|discriminate].
  unfold store_event, modify in H. injection H as _ <-.
  apply no_late_insert_store; [exact HP|]. cbn. intros cbs0 [= <-].
  intros Hin. apply elem_of_app in Hin as [Hin|Hin]; [|contradiction].
  eapply HP; eassumption.
Qed.

End NoLateInsert.

(** *** A [Buffer] keeps [no_late_insert] and [within] *)

Create HintDb stable.

Ltac not_among :=
  let H := fresh in
  intros H; repeat (apply elem_of_cons in H as [H|H]; [discriminate H|]); inversion H.

Ltac calm_tac :=
  repeat first
    [ apply calm_ret | apply calm_raise | apply calm_lookup_event | apply calm_emit
    | apply calm_Log | apply calm_NewEvent | apply calm_succeed
    | apply calm_add_callbacks; not_among
    | apply calm_bind; [|intros ?] ].

Ltac stable_step :=
  first
    [ solve [auto 1 with stable nocore]
    | apply stable_ret | apply stable_raise | apply stable_self | apply stable_the_env
    | apply stable_getTicks
    | apply stable_in_env; solve [calm_tac]
    | apply stable_update; let t := fresh in let Ht := fresh in intros t Ht; exact Ht
    | apply stable_bind; [|intros ?]
    | match goal with
      | |- hoare _ (match ?x with _ => _ end) _ => destruct x
      | |- hoare _ (let (_, _) := ?x in _) _ => destruct x
      end ].

Ltac stable_tac := repeat stable_step.

Module BufferWithin.
Import Buffers Use.

Abbreviation safe := (fun w : world => no_late_insert (fst w) /\ within (snd w)).
Abbreviation keeps_safe m := (hoare safe m (fun _ => safe)).

Lemma safe_Log msgtype msg : keeps_safe (Buffers.Log msgtype msg).
Proof. unfold Buffers.Log. stable_tac. Qed.

Lemma safe_as_packet v : keeps_safe (as_packet v).
Proof. unfold as_packet. stable_tac. Qed.
#[export] Hint Resolve safe_Log safe_as_packet : stable.

Lemma safe_addPrePutDelay item : keeps_safe (addPrePutDelay item).
Proof. unfold addPrePutDelay. stable_tac. Qed.

Lemma safe_addPostPutDelay item : keeps_safe (addPostPutDelay item).
Proof. unfold addPostPutDelay. stable_tac. Qed.

Lemma safe_addPreGetDelay item : keeps_safe (addPreGetDelay item).
Proof. unfold addPreGetDelay. stable_tac. Qed.

Lemma safe_addPostGetDelay item : keeps_safe (addPostGetDelay item).
Proof. unfold addPostGetDelay. stable_tac. Qed.
#[export] Hint Resolve safe_addPrePutDelay safe_addPostPutDelay safe_addPreGetDelay
  safe_addPostGetDelay : stable.

Lemma safe_postPutMsg item : keeps_safe (postPutMsg item).
Proof. unfold postPutMsg. stable_tac. Qed.

Lemma safe_postGetMsg item : keeps_safe (postGetMsg item).
Proof. unfold postGetMsg. stable_tac. Qed.

Lemma safe_updatePutDebt item : keeps_safe (_updatePutDebt item).
Proof. unfold _updatePutDebt. stable_tac. Qed.

Lemma safe_updateGetDebt item : keeps_safe (_updateGetDebt item).
Proof. unfold _updateGetDebt. stable_tac. Qed.

Lemma safe_updateTotalWrBits e : keeps_safe (_updateTotalWrBits e).
Proof. unfold _updateTotalWrBits. stable_tac. Qed.

Lemma safe_updateTotalRdBits e : keeps_safe (_updateTotalRdBits e).
Proof. unfold _updateTotalRdBits. stable_tac. Qed.
#[export] Hint Resolve safe_postPutMsg safe_postGetMsg safe_updatePutDebt safe_updateGetDebt
  safe_updateTotalWrBits safe_updateTotalRdBits : stable.

(** Taking the head out makes the buffer no fuller. *)
Lemma safe_remove_packet e : keeps_safe (_remove_packet e).
Proof.
  unfold _remove_packet. intros [s b] a w' [HS HT] H.
  apply bind_inv_Ret in H as (b0 & w0 & H0 & H). injection H0 as <- <-.
  destruct (items b) as [|item rest] eqn:Hitems; [discriminate|].
  apply bind_inv_Ret in H as ([] & w1 & H1 & H). injection H1 as <-.
  revert H. apply (stable_bind no_late_insert within); [apply safe_postGetMsg | intros _; stable_tac|].
  split; [exact HS|]. destruct HT as [Hocc Hnow]. split; [|exact Hnow].
  unfold occupiedSlots in *. cbn in *. rewrite Hitems in Hocc. cbn [length] in Hocc. lia.
Qed.
#[export] Hint Resolve safe_remove_packet : stable.

Lemma safe_do_peek e : keeps_safe (_do_peek e).
Proof. unfold _do_peek. stable_tac. Qed.

Lemma safe_do_get e : keeps_safe (_do_get e).
Proof. unfold _do_get. stable_tac. Qed.

Lemma safe_set_queue (set : list evid -> buffer -> buffer) :
  (forall q b, within (set q b) <-> within b) ->
  forall q w, safe w -> safe (on_queue set q w).
Proof. intros Hset q [s b] [HS HT]. split; [exact HS | apply Hset; exact HT]. Qed.

Lemma safe_trigger_peek : keeps_safe _trigger_peek.
Proof.
  apply (scan_preserves _ _ _ _ _ safe); [apply safe_do_peek|].
  apply safe_set_queue. intros q b. reflexivity.
Qed.

Lemma safe_trigger_get : keeps_safe _trigger_get.
Proof.
  apply (scan_preserves _ _ _ _ _ safe); [apply safe_do_get|].
  apply safe_set_queue. intros q b. reflexivity.
Qed.
#[export] Hint Resolve safe_trigger_peek safe_trigger_get : stable.


Lemma addPostPutDelay_reads item w d w' : addPostPutDelay item w = Ret d w' -> w' = w.
Proof.
  unfold addPostPutDelay, as_packet, getTicks. intros H.
  apply bind_inv_Ret in H as (b & w0 & H0 & H). injection H0 as <- <-.
  apply bind_inv_Ret in H as (p & w1 & H1 & H).
  destruct item; try discriminate. injection H1 as <- <-.
  apply bind_inv_Ret in H as ([t dbt] & w2 & H2 & H).
  destruct (putBytesPerCycle (cfg (snd w)) =? 0); [discriminate|]. injection H2 as <- <- <-.
  destruct (variant (cfg (snd w))); injection H as _ <-; reflexivity.
Qed.

(** [_insert_packet] appends one item. *)
Lemma insert_packet_returns e s b w' :
  _insert_packet e (s, b) = Ret tt w' -> no_late_insert s ->
  no_late_insert (fst w') /\ cfg (snd w') = cfg b /\
  length (items (snd w')) = S (length (items b)).
Proof.
  unfold _insert_packet. intros H HS.
  apply bind_inv_Ret in H as (ev & w0 & H0 & H).
  unfold in_env, zoom, lookup_event in H0. cbn [fst snd] in H0.
  destruct (events s !! e); [|discriminate]. injection H0 as <- <-.
  apply bind_inv_Ret in H as (b0 & w1 & H1 & H). injection H1 as <- <-.
  apply bind_inv_Ret in H as ([] & w2 & H2 & H). injection H2 as <-. cbn [fst snd] in H.
  set (PT := fun t : buffer => cfg t = cfg b /\ length (items t) = S (length (items b))).
  assert (Hpost : hoare (fun w : world => no_late_insert (fst w) /\ PT (snd w))
                        (postPutMsg (ev_item e0))
                        (fun _ w => no_late_insert (fst w) /\ PT (snd w))).
  { unfold postPutMsg, addPostPutDelay, Buffers.Log, as_packet.
    repeat first
      [ apply (stable_ret no_late_insert PT) | apply (stable_raise no_late_insert PT)
      | apply (stable_self no_late_insert PT) | apply (stable_getTicks no_late_insert PT)
      | apply (stable_in_env no_late_insert PT); solve [calm_tac]
      | apply (stable_bind no_late_insert PT); [|intros ?]
      | match goal with
        | |- hoare _ (match ?x with _ => _ end) _ => destruct x
        | |- hoare _ (let (_, _) := ?x in _) _ => destruct x
        end ]. }
  assert (HPT : PT (set_items (items b ++ [ev_item e0]) b)).
  { split; [reflexivity|]. cbn. rewrite length_app. cbn. lia. }
  destruct (Hpost (s, set_items (items b ++ [ev_item e0]) b) tt w' (conj HS HPT) H)
    as (H1 & H2 & H3). auto.
Qed.

Lemma safe_do_put e : keeps_safe (_do_put e).
Proof.
  unfold _do_put. intros [s b] r w' [HS HT] H.
  apply bind_inv_Ret in H as (b0 & w0 & H0 & H). injection H0 as <- <-.
  apply bind_inv_Ret in H as (u & w1 & H1 & H). injection H as _ <-.
  destruct (Z.ltb_spec (Z.of_nat (length (items b))) (capacity (cfg b))) as [Hroom|_];
    [|injection H1 as _ <-; split; assumption].
  apply bind_inv_Ret in H1 as (ev & w2 & H2 & H1).
  unfold in_env, zoom, lookup_event in H2. cbn [fst snd] in H2.
  destruct (events s !! e); [|discriminate]. injection H2 as <- <-.
  apply bind_inv_Ret in H1 as (pre & w3 & H3 & H1).
  rewrite (BufferCases.addPrePutDelay_at_once _ _ _ (proj2 HT)) in H3. injection H3 as <- <-.
  apply bind_inv_Ret in H1 as (post & w4 & H4 & H1).
  apply addPostPutDelay_reads in H4 as ->.
  apply bind_inv_Ret in H1 as ([] & w5 & H5 & H1).
  unfold in_env, zoom in H5. cbn [fst snd] in H5.
  destruct (add_callbacks e [CB_updateTotalWrBits] s) as [[] s1|?|] eqn:Hadd; try discriminate.
  injection H5 as <-.
  assert (HS1 : no_late_insert s1).
  { eapply (calm_add_callbacks e [CB_updateTotalWrBits]); [not_among | exact HS | exact Hadd]. }
  apply bind_inv_Ret in H1 as ([] & w6 & H6 & H1). cbn [Z.eqb negb] in H6.
  assert (Hsafe6 : safe w6).
  { apply bind_inv_Ret in H6 as ([] & w7 & H7 & H6).
    unfold in_env, zoom in H7. cbn [fst snd] in H7.
    destruct (succeed e PyNone post s1) as [[] s2|?|] eqn:Hsucc; try discriminate.
    injection H7 as <-.
    assert (HS2 : no_late_insert s2) by (eapply calm_succeed; eassumption).
    apply bind_inv_Ret in H6 as ([] & w8 & H8 & H6).
    destruct (insert_packet_returns _ _ _ _ H8 HS2) as (HS8 & Hcfg8 & Hlen8).
    assert (Hsafe8 : safe w8).
    { split; [exact HS8|]. destruct HT as [Hocc Hnow]. split; [|rewrite Hcfg8; exact Hnow].
      unfold occupiedSlots. rewrite Hcfg8, Hlen8. lia. }
    revert H6. apply (stable_bind no_late_insert within);
      [apply safe_trigger_get | intros _; apply safe_trigger_peek | exact Hsafe8]. }
  revert H1.
  apply (stable_bind no_late_insert within); [apply stable_the_env | | exact Hsafe6].
  intros s6. stable_tac.
Qed.

Lemma safe_trigger_put : keeps_safe _trigger_put.
Proof.
  apply (scan_preserves _ _ _ _ _ safe); [apply safe_do_put|].
  apply safe_set_queue. intros q b. reflexivity.
Qed.
#[export] Hint Resolve safe_trigger_put : stable.

Lemma safe_put item caller : keeps_safe (put item caller).
Proof. unfold put. stable_tac. Qed.

Lemma safe_get item caller : keeps_safe (get item caller).
Proof. unfold get. stable_tac. Qed.

Lemma safe_peek item caller : keeps_safe (peek item caller).
Proof. unfold peek. stable_tac. Qed.

Lemma safe_cancel (queue : buffer -> list evid) (set_queue : list evid -> buffer -> buffer) e :
  (forall q b, within (set_queue q b) <-> within b) ->
  keeps_safe (cancel queue set_queue e).
Proof.
  intros Hset. unfold cancel.
  apply (stable_bind no_late_insert within); [apply stable_self|]. intros b.
  apply (stable_bind no_late_insert within); [apply stable_the_env|]. intros s.
  destruct (negb (triggered e s)); [|apply stable_ret].
  destruct (list_remove e (queue b)); [|apply stable_raise].
  apply stable_update. intros t Ht. apply Hset. exact Ht.
Qed.

(** A callback other than the late insertion. *)
Lemma safe_run_callback cb e :
  cb <> CB_insert_packet -> keeps_safe (run_callback cb e).
Proof. intros Hcb. destruct cb; cbn [run_callback]; try contradiction; stable_tac. Qed.

Lemma safe_run_callbacks cbs e :
  CB_insert_packet ∉ cbs -> keeps_safe (Scheduler.run_callbacks run_callback cbs e).
Proof.
  induction cbs as [|cb cbs IH]; intros Hout; cbn [Scheduler.run_callbacks].
  - apply stable_ret.
  - apply (stable_bind no_late_insert within).
    + apply safe_run_callback. intros ->. apply Hout. left.
    + intros _. apply IH. intros Hin. apply Hout. right. exact Hin.
Qed.

Lemma safe_step : keeps_safe BufferRun.step.
Proof.
  unfold BufferRun.step, Scheduler.step. intros [s b] [] w' [HS HT] H.
  apply bind_inv_Ret in H as (s0 & w0 & H0 & H). injection H0 as <- <-. cbn [fst] in H.
  destruct (Scheduler.pop_min (sched s)) as [[[[[tm pr] c] e] rest]|]; [|discriminate].
  apply bind_inv_Ret in H as (ev & w1 & H1 & H).
  unfold in_env, zoom, lookup_event in H1. cbn [fst snd] in H1.
  destruct (events s !! e) as [ev'|] eqn:He; [|discriminate]. injection H1 as <- <-.
  apply bind_inv_Ret in H as ([] & w2 & H2 & H).
  unfold in_env, zoom, modify in H2. cbn [fst snd] in H2. injection H2 as <-.
  destruct (ev_callbacks ev') as [cbs|] eqn:Hcbs; [|discriminate].
  revert H. apply safe_run_callbacks; [eapply HS; eassumption|].
  split; [|exact HT]. cbn [fst]. intros e0 ev0 cbs0 He0 Hcb0. cbn in He0.
  apply list_lookup_insert_Some in He0 as [(-> & <- & _)|[_ He0]]; [discriminate|].
  eapply HS; eassumption.
Qed.

Lemma safe_perform a : keeps_safe (BufferRun.perform a).
Proof.
  destruct a; cbn [BufferRun.perform].
  - apply (stable_bind no_late_insert within); [apply safe_put | intros ?; apply stable_ret].
  - apply (stable_bind no_late_insert within); [apply safe_get | intros ?; apply stable_ret].
  - apply (stable_bind no_late_insert within); [apply safe_peek | intros ?; apply stable_ret].
  - apply safe_cancel. intros q b. reflexivity.
  - apply safe_cancel. intros q b. reflexivity.
  - apply safe_cancel. intros q b. reflexivity.
  - apply stable_in_env. calm_tac.
  - apply safe_step.
Qed.

Lemma safe_run l : keeps_safe (BufferRun.run l).
Proof.
  induction l as [|a l IH]; cbn [BufferRun.run].
  - apply stable_ret.
  - apply (stable_bind no_late_insert within); [apply safe_perform | intros _; exact IH].
Qed.

End BufferWithin.

(** A buffer that takes items at once (no put delay, not store-and-forward)
    never holds more items than its capacity: from a world within capacity
    in which no late insertion is registered, such as a newly built buffer
    in a new environment, whatever the processes and the environment do
    (puts, gets, peeks, cancels, waits, steps). *)
Theorem buffer_without_put_delay_stays_within_capacity (l : list BufferRun.action) s b w' :
  Use.no_late_insert s -> Use.puts_at_once (Buffers.cfg b) ->
  Buffers.occupiedSlots b <= Buffers.capacity (Buffers.cfg b) ->
  BufferRun.run l (s, b) = Ret tt w' ->
  0 <= Buffers.occupiedSlots (snd w') <= Buffers.capacity (Buffers.cfg (snd w')).
Proof.
  intros HS Hnow Hocc Hrun.
  destruct (BufferWithin.safe_run l (s, b) tt w' (conj HS (conj Hocc Hnow)) Hrun)
    as [_ [Hocc' _]].
  split; [apply Buffer_occupied_nonneg | exact Hocc'].
Qed.

Lemma buffer_without_put_delay_stays_within_capacity_witness :
  let c := Buffers.Config "buf" Buffers.Plain 1 0 0 16 16 1 in
  exists w',
    BufferRun.run Use.traffic (empty_sim, Buffers.init c) = Ret tt w' /\
    Buffers.items (snd w') = [PyPkt (Packet 1 1 1)] /\
    0 <= Buffers.occupiedSlots (snd w') <= Buffers.capacity (Buffers.cfg (snd w')).
Proof.
  intros c.
  assert (Hrun : exists w', BufferRun.run Use.traffic (empty_sim, Buffers.init c) = Ret tt w' /\
                            Buffers.items (snd w') = [PyPkt (Packet 1 1 1)]).
  { eexists. split; vm_compute; reflexivity. }
  destruct Hrun as (w' & Hrun & Hitems). exists w'. split; [exact Hrun|]. split; [exact Hitems|].
  apply (buffer_without_put_delay_stays_within_capacity Use.traffic empty_sim
           (Buffers.init c) w').
  - intros e ev cbs He. discriminate He.
  - split; [reflexivity | discriminate].
  - vm_compute. discriminate.
  - exact Hrun.
Defined.

(** ** Using a pipeline *)

Module PipelineCases.
Import Pipelines Effects.

Lemma Pipeline_Log_INFO msg s p :
  Pipelines.Log "INFO" msg (s, p) = Ret tt (logged INFO (name (cfg p)) msg s, p).
Proof.
  unfold Pipelines.Log, bind, self, in_env, zoom. cbn [fst snd].
  rewrite (Log_logged _ "INFO" INFO) by (apply list_elem_of_In; cbn; tauto). reflexivity.
Qed.

Lemma Pipeline_addPostPutDelay pkt s p :
  putBytesPerCycle (cfg p) <> 0 ->
  addPostPutDelay (PyPkt pkt) (s, p) =
  Ret ((ceil_div (getBytes pkt) (putBytesPerCycle (cfg p)) + (putDebt p + 0))
       * simTicksPerCycle (cfg p)) (s, p).
Proof.
  intros Hbpc. unfold addPostPutDelay, as_packet, bind, self, ret. cbn [fst snd].
  rewrite (BufferCases.getTicks_Ret _ _ _ Hbpc). reflexivity.
Qed.

(** What [send] leaves: the request is resolved, to be processed when the
    packet has passed, and the packet is on its way for [depth] cycles. *)
Lemma send_now e pkt s p :
  item_of e s = Some (PyPkt pkt) -> pending e s -> open e s ->
  putBytesPerCycle (cfg p) <> 0 ->
  let d := (ceil_div (getBytes pkt) (putBytesPerCycle (cfg p)) + (putDebt p + 0))
           * simTicksPerCycle (cfg p) in
  send e (s, p) =
  Ret tt (resolved e PyNone d
            (logged INFO (name (cfg p)) "Started sending packet down the pipeline"
               (subscribed e [CB_updateTotalBitsSent] (subscribed e [CB_postPutMsg] s))),
          set_inflight (inflight p ++ [(now s + depth (cfg p) * simTicksPerCycle (cfg p),
                                        PyPkt pkt)]) p).
Proof.
  intros Hitem Hp Ho Hbpc d.
  assert (He : exists ev, events s !! e = Some ev /\ ev_item ev = PyPkt pkt).
  { unfold item_of in Hitem. destruct (events s !! e) as [ev|]; [|discriminate].
    injection Hitem as Hitem. eauto. }
  destruct He as (ev & He & Hev).
  set (s1 := subscribed e [CB_postPutMsg] s).
  set (s2 := subscribed e [CB_updateTotalBitsSent] s1).
  assert (Hi2 : item_of e s2 = Some (PyPkt pkt)).
  { unfold s2, s1. rewrite !item_of_subscribed. exact Hitem. }
  assert (He2 : exists ev2, events s2 !! e = Some ev2 /\ ev_item ev2 = PyPkt pkt).
  { unfold item_of in Hi2. destruct (events s2 !! e) as [ev2|]; [|discriminate].
    injection Hi2 as Hi2. eauto. }
  destruct He2 as (ev2 & He2 & Hev2).
  unfold send. unfold bind at 1, in_env at 1, zoom. cbn [fst snd].
  rewrite (lookup_event_Ret _ _ _ He). rewrite Hev.
  unfold bind at 1. rewrite (Pipeline_addPostPutDelay _ _ _ Hbpc). fold d.
  unfold bind at 1, in_env at 1, zoom. cbn [fst snd].
  rewrite (add_callbacks_subscribed _ _ _ Ho). fold s1.
  unfold bind at 1, in_env at 1, zoom. cbn [fst snd].
  rewrite add_callbacks_subscribed by (apply open_subscribed; exact Ho). fold s2.
  unfold bind at 1. unfold prePutMsg at 1. unfold bind at 1, in_env at 1, zoom. cbn [fst snd].
  rewrite (lookup_event_Ret _ _ _ He2). rewrite Hev2.
  unfold bind at 1, as_packet at 1, ret at 1.
  unfold bind at 1. rewrite (Pipeline_addPostPutDelay _ _ _ Hbpc).
  rewrite Pipeline_Log_INFO.
  unfold bind at 1, in_env at 1, zoom. cbn [fst snd].
  rewrite succeed_resolved by (apply pending_logged; unfold s2, s1; rewrite !pending_subscribed; exact Hp).
  unfold start_putdelay, bind, the_env, update. cbn [fst snd]. reflexivity.
Qed.


Lemma Pipeline_updatePutDebt pkt s p :
  putBytesPerCycle (cfg p) <> 0 ->
  _updatePutDebt (PyPkt pkt) (s, p) =
  Ret tt (s, set_putDebt (putDebt p + 0 - (putDebt p + 0)) p).
Proof.
  intros Hbpc. unfold _updatePutDebt, as_packet, bind, self, ret, update. cbn [fst snd].
  rewrite (BufferCases.getTicks_Ret _ _ _ Hbpc). reflexivity.
Qed.

(** [_do_put] of a pipeline without flow control. *)
Lemma Pipeline_do_put_plain e pkt s p :
  initCredits (cfg p) = None ->
  item_of e s = Some (PyPkt pkt) -> pending e s -> open e s ->
  putBytesPerCycle (cfg p) <> 0 ->
  let d := (ceil_div (getBytes pkt) (putBytesPerCycle (cfg p)) + (putDebt p + 0))
           * simTicksPerCycle (cfg p) in
  exists p',
    _do_put e (s, p) =
    Ret false
      (resolved e PyNone d
         (logged INFO (name (cfg p)) "Started sending packet down the pipeline"
            (subscribed e [CB_updateTotalBitsSent] (subscribed e [CB_postPutMsg] s))), p') /\
    put_queue p' = put_queue p /\ cfg p' = cfg p /\ putBusy p' = putBusy p /\
    credits p' = credits p /\
    inflight p' = inflight p ++ [(now s + depth (cfg p) * simTicksPerCycle (cfg p), PyPkt pkt)].
Proof.
  intros Hplain Hitem Hp Ho Hbpc d.
  assert (He : exists ev, events s !! e = Some ev /\ ev_item ev = PyPkt pkt).
  { unfold item_of in Hitem. destruct (events s !! e) as [ev|]; [|discriminate].
    injection Hitem as Hitem. eauto. }
  destruct He as (ev & He & Hev).
  destruct (firstActivity p) as [t|] eqn:Hfirst; (eexists; split;
    [ unfold _do_put; unfold bind at 1, self; cbn [fst snd];
      unfold bind at 1; unfold bind at 1, the_env; cbn [fst snd]; rewrite Hplain;
      unfold bind at 1, in_env at 1, zoom; cbn [fst snd];
      rewrite (lookup_event_Ret _ _ _ He); rewrite Hev;
      unfold bind at 1; rewrite (send_now e pkt s p Hitem Hp Ho Hbpc); fold d;
      unfold bind at 1; rewrite Hfirst; unfold update, ret; cbn [fst snd];
      rewrite Pipeline_updatePutDebt by exact Hbpc; reflexivity
    | repeat split ]).
Qed.

(** [_do_put] of a flow-controlled pipeline that has no credit. *)
Lemma Pipeline_do_put_no_credit e n s p :
  initCredits (cfg p) = Some n -> CreditBuffer.items (credits p) = [] ->
  _do_put e (s, p) = Ret false (s, p).
Proof.
  intros Hfc Hnone. unfold _do_put, bind, self, the_env, ret. cbn [fst snd].
  rewrite Hfc, Hnone. reflexivity.
Qed.

End PipelineCases.

Section PipelineUse.
Import Pipelines Effects PipelineCases.



(** Back-pressure of a flow-controlled pipeline: without a credit, and with
    the queued requests pending, a put makes a request that joins the back
    of [put_queue] and stays pending; no credit request is made, nothing is
    scheduled and no packet is sent. *)
Theorem pipeline_without_credit_makes_put_wait item caller n s p :
  initCredits (cfg p) = Some n -> CreditBuffer.items (credits p) = [] ->
  queued_pending s (pipeline_queues p) ->
  exists e w',
    put item caller (s, p) = Ret e w' /\
    put_queue (snd w') = put_queue p ++ [e] /\ pending e (fst w') /\
    sched (fst w') = sched s /\ inflight (snd w') = inflight p /\
    credits (snd w') = credits p.
Proof.
  intros Hfc Hnone Hqp. set (e := length (events s)).
  set (s1 := created item caller s).
  set (s2 := subscribed e [CB_putReady] s1).
  set (p1 := set_put_queue (put_queue p ++ [e]) p).
  assert (Hp1 : pending e s1) by exact (pending_created_new _ caller s).
  assert (Ho1 : open e s1) by exact (open_created_new _ caller s).
  assert (Hp : pending e s2) by (apply pending_subscribed; exact Hp1).
  exists e, (s2, p1). split; [|split; [reflexivity|split; [exact Hp|repeat split]]].
  unfold put. unfold bind at 1, in_env at 1, zoom. cbn [fst snd]. rewrite NewEvent_created.
  unfold bind at 1, update. cbn [fst snd]. fold e s1 p1.
  unfold bind at 1, in_env at 1, zoom. cbn [fst snd].
  rewrite (add_callbacks_subscribed _ _ _ Ho1). fold s2.
  unfold bind at 1.
  change (_trigger_put (s2, p1)) with (snd (_trigger_put_scan (s2, p1))).
  unfold _trigger_put_scan.
  assert (Hq1 : exists h q, put_queue (snd (s2, p1)) = h :: q /\ triggered h s2 = false).
  { cbn. destruct (put_queue p) as [|h q] eqn:Hq.
    - exists e, []. split; [reflexivity|]. apply pending_not_triggered. exact Hp.
    - exists h, (q ++ [e]). split; [reflexivity|].
      assert (Hh : pending h s).
      { apply Hqp. unfold pipeline_queues, requests4, pipeline_view. cbn. rewrite Hq. left. }
      apply pending_not_triggered. apply pending_subscribed.
      apply pending_created_old. exact Hh. }
  destruct Hq1 as (h & q & Hq1 & Hun).
  rewrite (scan_first_pending (fun w => put_queue (snd w)) _ _ _ _ (s2, p1) h q (s2, p1) Hq1).
  - reflexivity.
  - apply (Pipeline_do_put_no_credit h n); [exact Hfc | exact Hnone].
  - exact Hun.
Qed.

Lemma pipeline_without_credit_makes_put_wait_witness :
  let p := Pipelines.init (Pipelines.Config "pipe" 8 16 1 (Some 0)) in
  exists e w',
    put (PyPkt (Packet 0 40 8)) None (empty_sim, p) = Ret e w' /\
    put_queue (snd w') = [e] /\ pending e (fst w') /\
    sched (fst w') = [] /\ inflight (snd w') = [] /\
    credits (snd w') = credits p.
Proof.
  intros p.
  apply (pipeline_without_credit_makes_put_wait (PyPkt (Packet 0 40 8)) None 0 empty_sim p);
    [reflexivity | reflexivity |].
  split; [apply NoDup_nil_2|]. intros e He. inversion He.
Defined.

End PipelineUse.

(** ** Waiting for credits *)

Section LoopProceeds.
Context {St : Type}.
Variable queue : St -> list evid.
Variable set_queue : list evid -> St -> St.
Variable is_triggered : evid -> St -> bool.
Variable hook : evid -> M St bool.
Variable violated : string.

Local Abbreviation loop := (Trigger.loop queue set_queue is_triggered hook violated).

(** The hook resolved the request at [idx] and asks for the next one. *)
Lemma loop_resolved_goes_on fuel idx st e st1 :
  queue st !! idx = Some e -> hook e st = Ret true st1 ->
  queue st1 = queue st -> is_triggered e st1 = true ->
  snd (loop (S fuel) idx st) = snd (loop fuel idx (set_queue (delete idx (queue st)) st1)).
Proof.
  intros Hq Hhook Hq1 Ht. cbn [Trigger.loop]. rewrite Hq, Hhook.
  unfold Trigger.advance. rewrite Ht. cbn [negb]. unfold bind, Trigger.pop_check.
  rewrite Hq1, Hq, Nat.eqb_refl. cbn [ret]. reflexivity.
Qed.

(** The hook left the request at [idx] pending and asks to stop. *)
Lemma loop_pending_stops fuel idx st e st1 :
  queue st !! idx = Some e -> hook e st = Ret false st1 -> is_triggered e st1 = false ->
  snd (loop (S fuel) idx st) = Ret tt st1.
Proof.
  intros Hq Hhook Ht. cbn [Trigger.loop]. rewrite Hq, Hhook.
  unfold Trigger.advance. rewrite Ht. reflexivity.
Qed.

Lemma loop_nobody fuel idx st : queue st !! idx = None -> snd (loop fuel idx st) = Ret tt st.
Proof. intros Hq. destruct fuel; cbn [Trigger.loop]; rewrite Hq; reflexivity. Qed.

End LoopProceeds.

Section CreditPeeks.
Import CreditBuffer Effects.

Lemma Credit_do_peek_cases e t s c :
  item_of e s = Some (PyInt t) -> pending e s ->
  _do_peek e (s, c) =
  if t <? Z.of_nat (length (items c))
  then Ret true (resolved e PyNone 0 s, c)
  else Ret false (s, c).
Proof.
  intros Hitem Hp. unfold item_of in Hitem.
  destruct (events s !! e) as [ev|] eqn:He; [|discriminate]. injection Hitem as Hitem.
  unfold _do_peek. unfold bind at 1, self. cbn [fst snd].
  unfold bind at 1, in_env at 1, zoom. cbn [fst snd].
  rewrite (lookup_event_Ret _ _ _ He). rewrite Hitem.
  destruct (t <? Z.of_nat (length (items c))); [|reflexivity].
  unfold bind, in_env, zoom. cbn [fst snd]. rewrite (succeed_resolved _ _ _ _ Hp). reflexivity.
Qed.

(** The requests of [l] resolved one after the other. *)
Local Abbreviation all_resolved l s := (foldl (fun s e => resolved e PyNone 0 s) s l).

Lemma set_peek_queue_same c : set_peek_queue (peek_queue c) c = c.
Proof. destruct c. reflexivity. Qed.

Lemma credit_loop_resolves_prefix (rest : list evid) : forall (pre : list evid) fuel s c,
  peek_queue c = pre ++ rest -> NoDup (pre ++ rest) ->
  (length pre + length rest <= fuel)%nat ->
  (forall e, e ∈ pre -> pending e s /\
     exists t, item_of e s = Some (PyInt t) /\ t < Z.of_nat (length (items c))) ->
  (forall h, head rest = Some h -> pending h s /\
     exists t, item_of h s = Some (PyInt t) /\ Z.of_nat (length (items c)) <= t) ->
  snd (Trigger.loop (fun w => peek_queue (snd w)) (on_queue set_peek_queue) is_triggered
         _do_peek "Peek queue invariant violated" fuel 0 (s, c))
  = Ret tt (all_resolved pre s, set_peek_queue rest c).
Proof.
  induction pre as [|e pre IH]; intros fuel s c Hq Hnd Hfuel Hpre Hrest.
  - cbn [app] in Hq. cbn [foldl]. rewrite <- Hq, set_peek_queue_same.
    destruct rest as [|h q].
    + apply loop_nobody. cbn. rewrite Hq. reflexivity.
    + destruct fuel as [|fuel]; [cbn in Hfuel; lia|].
      destruct (Hrest h eq_refl) as (Hp & t & Hitem & Ht).
      apply (loop_pending_stops (fun w => peek_queue (snd w)) _ _ _ _ fuel 0%nat (s, c) h (s, c)).
      * cbn. rewrite Hq. reflexivity.
      * rewrite (Credit_do_peek_cases h t s c Hitem Hp).
        destruct (Z.ltb_spec t (Z.of_nat (length (items c)))); [lia | reflexivity].
      * apply pending_not_triggered. exact Hp.
  - destruct fuel as [|fuel]; [cbn in Hfuel; lia|].
    destruct (Hpre e ltac:(left)) as (Hp & t & Hitem & Ht).
    assert (Hhook : _do_peek e (s, c) = Ret true (resolved e PyNone 0 s, c)).
    { rewrite (Credit_do_peek_cases e t s c Hitem Hp).
      destruct (Z.ltb_spec t (Z.of_nat (length (items c)))); [reflexivity | lia]. }
    assert (Hq0 : peek_queue (snd (s, c)) !! 0%nat = Some e) by (cbn; rewrite Hq; reflexivity).
    rewrite (loop_resolved_goes_on (fun w => peek_queue (snd w)) _ _ _ _ fuel 0%nat (s, c) e _
               Hq0 Hhook eq_refl).
    2:{ unfold is_triggered. cbn [fst]. apply triggered_resolved. apply pending_lt. exact Hp. }
    cbn [snd]. rewrite Hq. cbn [app delete list_delete].
    replace (on_queue set_peek_queue (pre ++ rest) (resolved e PyNone 0 s, c))
      with (resolved e PyNone 0 s, set_peek_queue (pre ++ rest) c) by reflexivity.
    cbn [app] in Hnd. apply NoDup_cons in Hnd as [Hnotin Hnd].
    rewrite (IH fuel (resolved e PyNone 0 s) (set_peek_queue (pre ++ rest) c)).
    + cbn [foldl]. destruct c. reflexivity.
    + reflexivity.
    + exact Hnd.
    + cbn in Hfuel. lia.
    + intros e' He'. destruct (Hpre e' ltac:(right; exact He')) as (Hp' & t' & Hitem' & Ht').
      assert (Hne : e' <> e).
      { intros ->. apply Hnotin. apply elem_of_app. left. exact He'. }
      split; [apply pending_resolved_other; assumption|].
      exists t'. split; [rewrite item_of_resolved; exact Hitem' | exact Ht'].
    + intros h Hh. destruct (Hrest h Hh) as (Hp' & t' & Hitem' & Ht').
      assert (Hne : h <> e).
      { intros ->. apply Hnotin. apply elem_of_app. right.
        destruct rest as [|h' q]; [discriminate|]. injection Hh as ->. left. }
      split; [apply pending_resolved_other; assumption|].
      exists t'. split; [rewrite item_of_resolved; exact Hitem' | exact Ht'].
Qed.

Lemma all_resolved_values (pre : list evid) : forall s,
  NoDup pre -> (forall e, e ∈ pre -> pending e s) ->
  (forall e, e ∈ pre -> value_of e (all_resolved pre s) = Some PyNone) /\
  (forall e, e ∉ pre -> value_of e (all_resolved pre s) = value_of e s).
Proof.
  induction pre as [|e pre IH]; intros s Hnd Hp.
  - split; [intros e He; inversion He | reflexivity].
  - apply NoDup_cons in Hnd as [Hnotin Hnd]. cbn [foldl].
    destruct (IH (resolved e PyNone 0 s) Hnd) as [Hin Hout].
    { intros e' He'. apply pending_resolved_other; [intros ->; contradiction|].
      apply Hp. right. exact He'. }
    split.
    + intros e' He'. apply elem_of_cons in He' as [->|He']; [|apply Hin; exact He'].
      rewrite Hout by exact Hnotin. apply value_of_resolved. apply pending_lt, Hp. left.
    + intros e' He'. rewrite Hout by (intros H; apply He'; right; exact H).
      apply value_of_resolved_other. intros ->. apply He'. left.
Qed.

(** One call of [CreditBuffer._trigger_peek], whose hook answers True when
    it resolved a request, serves all the waiting requests at the front
    whose threshold is below the counter, in order, and stops at the first
    one whose threshold is not: that request and those behind it stay as
    they are, in the queue. *)
Theorem credit_peeks_are_served_up_to_the_first_unmet (pre rest : list evid) s c :
  peek_queue c = pre ++ rest -> NoDup (pre ++ rest) ->
  (forall e, e ∈ pre -> pending e s /\
     exists t, item_of e s = Some (PyInt t) /\ t < Z.of_nat (length (items c))) ->
  (forall h, head rest = Some h -> pending h s /\
     exists t, item_of h s = Some (PyInt t) /\ Z.of_nat (length (items c)) <= t) ->
  exists s',
    _trigger_peek (s, c) = Ret tt (s', set_peek_queue rest c) /\
    (forall e, e ∈ pre -> value_of e s' = Some PyNone) /\
    (forall e, e ∉ pre -> value_of e s' = value_of e s) /\
    sched s' = sched s ++ imap (fun i e => (now s + 0, NORMAL, (i + eid s)%nat, e)) pre.
Proof.
  intros Hq Hnd Hpre Hrest. exists (all_resolved pre s).
  assert (Hnd' : NoDup pre) by (apply NoDup_app in Hnd as [H _]; exact H).
  destruct (all_resolved_values pre s Hnd' (fun e He => proj1 (Hpre e He))) as [Hin Hout].
  split; [|split; [exact Hin | split; [exact Hout|]]].
  - change (_trigger_peek (s, c)) with (snd (_trigger_peek_scan (s, c))).
    unfold _trigger_peek_scan, Trigger.scan.
    apply credit_loop_resolves_prefix; try assumption.
    cbn [snd]. rewrite Hq, length_app. lia.
  - clear. revert s. induction pre as [|e pre IH]; intros s.
    + cbn. rewrite app_nil_r. reflexivity.
    + cbn [foldl]. rewrite IH. cbn [sched now eid resolved imap]. rewrite <- app_assoc.
      cbn [app]. do 2 f_equal. apply imap_ext. intros i e0 _. cbn. do 2 f_equal. lia.
Qed.

Lemma credit_peeks_are_served_up_to_the_first_unmet_witness :
  let s := MkSim 0 [] 0%nat
             [Event (PyInt 1) None None false (Some []);
              Event (PyInt 2) None None false (Some []);
              Event (PyInt 5) None None false (Some []);
              Event (PyInt 1) None None false (Some [])] [] in
  let c := CreditBuffer "creditbuffer" 4 [PyInt 1; PyInt 1; PyInt 1] [] []
             [0%nat; 1%nat; 2%nat; 3%nat] in
  exists s',
    _trigger_peek (s, c) = Ret tt (s', set_peek_queue [2%nat; 3%nat] c) /\
    (forall e, e ∈ [0%nat; 1%nat] -> value_of e s' = Some PyNone) /\
    (forall e, e ∉ [0%nat; 1%nat] -> value_of e s' = value_of e s) /\
    sched s' = [(0, NORMAL, 0%nat, 0%nat); (0, NORMAL, 1%nat, 1%nat)].
Proof.
  intros s c.
  apply (credit_peeks_are_served_up_to_the_first_unmet [0%nat; 1%nat] [2%nat; 3%nat] s c).
  - reflexivity.
  - apply NoDup_ListNoDup. repeat constructor; cbn; lia.
  - intros e He. apply list_elem_of_In in He. cbn in He.
    destruct He as [<-|[<-|[]]].
    + split; [eexists; split; reflexivity|]. exists 1. split; [reflexivity | cbn; lia].
    + split; [eexists; split; reflexivity|]. exists 2. split; [reflexivity | cbn; lia].
  - intros h [= <-]. split; [eexists; split; reflexivity|].
    exists 5. split; [reflexivity | cbn; lia].
Defined.

End CreditPeeks.
Import Grants.

(** ** Fixed priority without priorities *)

Section Unprioritised.
Import FixedPriorityCrossbar.

Lemma first_from_exists pktList n start i :
  0 < n -> Z.of_nat (length pktList) = n -> 0 <= i -> present pktList i ->
  exists c, first_from pktList n start c.
Proof.
  intros Hn Hlen Hi [p Hp].
  assert (Hin : i < n) by (rewrite <- Hlen; eapply getitem_Some_range; eassumption).
  destruct (cyclic_surjective start n i ltac:(lia)) as (k0 & Hk0 & Ek0).
  assert (Hscan : forall m : nat, Z.of_nat m <= n ->
            (forall j, 0 <= j < Z.of_nat m -> absent pktList ((start + j) mod n)) \/
            exists c, first_from pktList n start c).
  { induction m as [|m IH]; intros Hm; [left; intros j Hj; lia|].
    destruct IH as [IH|IH]; [lia| |right; exact IH].
    pose proof (Z.mod_pos_bound (start + Z.of_nat m) n Hn) as Hr.
    destruct (lookup_lt_is_Some_2 pktList (Z.to_nat ((start + Z.of_nat m) mod n)) ltac:(lia))
      as [o Ho].
    rewrite <- getitem_nonneg in Ho by lia.
    destruct o as [q|].
    - right. exists ((start + Z.of_nat m) mod n), (Z.of_nat m).
      split; [lia|]. split; [reflexivity|]. split; [exists q; exact Ho | exact IH].
    - left. intros j Hj. destruct (Z.eq_dec j (Z.of_nat m)) as [->|]; [exact Ho|].
      apply IH. lia. }
  destruct (Hscan (Z.to_nat n) ltac:(lia)) as [Hnone|Hc]; [|exact Hc].
  specialize (Hnone k0 ltac:(lia)). rewrite Ek0 in Hnone. unfold absent in Hnone.
  rewrite Hp in Hnone. discriminate.
Qed.

Lemma priorities_of_zero (n : nat) : forall (l : list Z) (w : world),
  Forall (fun i => 0 <= i < Z.of_nat n) l ->
  priorities_of (replicate n 0) l w = Ret (replicate (length l) 0) w.
Proof.
  induction l as [|i l IH]; intros w Hl; [reflexivity|].
  apply Forall_cons in Hl as [Hi Hl].
  cbn [priorities_of]. unfold bind at 1. unfold index.
  rewrite getitem_nonneg, lookup_replicate_2 by lia. cbn [ret].
  unfold bind at 1. rewrite IH by exact Hl. reflexivity.
Qed.

Lemma mask_zero (n : nat) pktList : forall (l : list Z) (w : world),
  Forall (fun i => 0 <= i < Z.of_nat n) l ->
  mask (replicate n 0) 0 l pktList w = Ret pktList w.
Proof.
  induction l as [|i l IH]; intros w Hl; [reflexivity|].
  apply Forall_cons in Hl as [Hi Hl].
  cbn [mask]. unfold bind at 1. unfold index.
  rewrite getitem_nonneg, lookup_replicate_2 by lia. cbn [ret].
  unfold bind at 1. cbn [Z.ltb Z.compare ret]. apply IH. exact Hl.
Qed.

Lemma list_max_zero (m : nat) : list_max (replicate (S m) 0) = Some 0.
Proof.
  cbn. f_equal. induction m as [|m IH]; [reflexivity|]. cbn. exact IH.
Qed.

Lemma unprioritised_hit pktList outPort c p s f :
  connected (xbar f) outPort -> unprioritised f ->
  Z.of_nat (length pktList) = inPorts (xbar f) ->
  0 <= c < inPorts (xbar f) ->
  getitem pktList c = Some (Some p) ->
  hit pktList pktList 0 outPort c (s, f) =
  Ret tt (MkSim (now s) (sched s) (eid s) (events s)
                (logs s ++ [LogEntry INFO (now s) (name (xbar f))
                                     "Fixed Priority arbitration elected packet"]),
          FP (set_lastport (<[Z.to_nat outPort := c]> (lastport (xbar f))) (xbar f))
             (priorities f) (priorityClasses f)
             [<[Z.to_nat outPort := c]> (lastport (xbar f))]).
Proof.
  intros Hconn [Hprios Htbl] Hlen Hc Hp. pose proof Hconn as (Hn & Hup & Hdn & Ho & Hl).
  unfold hit. unfold bind at 1. unfold self. cbn [snd].
  unfold bind at 1. unfold index. rewrite Htbl. cbn [getitem ret].
  change (getitem [lastport (xbar f)] 0) with (Some (lastport (xbar f))). cbn [ret].
  unfold bind at 1. unfold assign. rewrite setitem_nonneg by lia. cbn [ret].
  unfold bind at 1.
  change (setitem [lastport (xbar f)] 0 (<[Z.to_nat outPort:=c]> (lastport (xbar f))))
    with (Some [<[Z.to_nat outPort:=c]> (lastport (xbar f))]). cbn [ret].
  unfold bind at 1. unfold update. cbn [fst snd].
  unfold bind at 1. cbn [ret].
  unfold bind at 1. cbn [fst snd].
  rewrite (log_decision_connected xbar _ _ pktList c outPort p).
  - reflexivity.
  - cbn. unfold connected. cbn. rewrite length_insert. auto.
  - exact Hc.
  - cbn. rewrite <- Hlen. apply activeports_range.
  - exact Hp.
Qed.

Lemma unprioritised_first pktList outPort L c s f :
  connected (xbar f) outPort -> unprioritised f ->
  Z.of_nat (length pktList) = inPorts (xbar f) ->
  getitem (lastport (xbar f)) outPort = Some L ->
  first_from pktList (inPorts (xbar f)) ((L + 1) mod inPorts (xbar f)) c ->
  arbitratePkts pktList outPort (s, f) =
  Ret (Some c)
      (MkSim (now s) (sched s) (eid s) (events s)
             (logs s ++ [LogEntry DEBUG (now s) (name (xbar f))
                                  "Ports are unmasked for outPort";
                         LogEntry INFO (now s) (name (xbar f))
                                  "Fixed Priority arbitration elected packet"]),
       FP (set_lastport (<[Z.to_nat outPort := c]> (lastport (xbar f))) (xbar f))
          (priorities f) (priorityClasses f)
          [<[Z.to_nat outPort := c]> (lastport (xbar f))]).
Proof.
  intros Hconn Hun Hlen HL (k & Hk & -> & [p Hp] & Hbefore).
  pose proof Hconn as (Hn & _). pose proof Hun as [Hprios Htbl].
  set (n := inPorts (xbar f)) in *.
  pose proof (Z.mod_pos_bound ((L + 1) mod n + k) n ltac:(lia)) as Hc.
  assert (Hrange : Forall (fun i => 0 <= i < Z.of_nat (Z.to_nat n)) (activeports pktList)).
  { rewrite Z2Nat.id, <- Hlen by lia. apply activeports_range. }
  assert (Hactive : exists m, length (activeports pktList) = S m).
  { assert (Hin : (((L + 1) mod n + k) mod n) ∈ activeports pktList).
    { apply activeports_elem. split; [lia | exists p; exact Hp]. }
    destruct (activeports pktList); [inversion Hin | eexists; reflexivity]. }
  destruct Hactive as [m Hm].
  unfold arbitratePkts. unfold bind at 1. unfold self. cbn [snd].
  rewrite (bind_Ret _ _ _ _ _ (FP_log_debug s f)).
  set (s1 := MkSim _ _ _ _ _).
  assert (Hthe : the_priorities (s1, f) = Ret (replicate (Z.to_nat n) 0) (s1, f)).
  { unfold the_priorities, bind, self. cbn [snd]. rewrite Hprios. reflexivity. }
  rewrite (bind_Ret _ _ _ _ _ Hthe).
  rewrite (bind_Ret _ _ _ _ _ (priorities_of_zero _ _ (s1, f) Hrange)).
  rewrite Hm, list_max_zero.
  rewrite (bind_Ret _ _ _ _ _ (mask_zero _ pktList _ (s1, f) Hrange)).
  unfold bind at 1. unfold index. rewrite Htbl.
  change (getitem [lastport (xbar f)] 0) with (Some (lastport (xbar f))). cbn [ret].
  unfold bind at 1. rewrite HL. cbn [ret]. fold n.
  destruct (Z.eqb_spec n 0); [lia|].
  pose proof (Z.mod_pos_bound (L + 1) n ltac:(lia)) as Hs.
  rewrite (scan_from_first xbar _ pktList (Z.to_nat k) _ _ (s1, f) p); cbn [snd]; fold n;
    rewrite ?Z2Nat.id by lia; try assumption; try lia.
  - unfold bind. rewrite (unprioritised_hit pktList outPort _ p); auto.
    unfold s1. cbn [now sched eid events logs]. rewrite <- app_assoc. reflexivity.
  - intros j Hj. apply Hbefore. lia.
Qed.

End Unprioritised.

(** A fixed-priority crossbar built without priorities arbitrates as the
    round-robin crossbar does: with a candidate at some input, both grant
    the same input, the first one with a candidate after the last served,
    both record it as last served, and the fixed-priority crossbar is left
    as one built without priorities again, so the grants agree call after
    call. *)
Theorem fixed_priority_without_priorities_is_round_robin pktList outPort i s f :
  connected (FixedPriorityCrossbar.xbar f) outPort -> unprioritised f ->
  Z.of_nat (length pktList) = inPorts (FixedPriorityCrossbar.xbar f) ->
  0 <= i -> present pktList i ->
  exists c s_rr s_fp f',
    RoundRobinCrossbar.arbitratePkts pktList outPort (s, FixedPriorityCrossbar.xbar f)
      = Ret (Some c) (s_rr, FixedPriorityCrossbar.xbar f') /\
    FixedPriorityCrossbar.arbitratePkts pktList outPort (s, f) = Ret (Some c) (s_fp, f') /\
    unprioritised f' /\ connected (FixedPriorityCrossbar.xbar f') outPort /\
    getitem (lastport (FixedPriorityCrossbar.xbar f')) outPort = Some c.
Proof.
  intros Hconn Hun Hlen Hi Hpres. pose proof Hconn as (Hn & _ & _ & Ho & Hl).
  destruct (lookup_lt_is_Some_2 (lastport (FixedPriorityCrossbar.xbar f)) (Z.to_nat outPort)
              ltac:(lia)) as [L HL].
  rewrite <- getitem_nonneg in HL by lia.
  destruct (first_from_exists pktList (inPorts (FixedPriorityCrossbar.xbar f))
              ((L + 1) mod inPorts (FixedPriorityCrossbar.xbar f)) i ltac:(lia) Hlen Hi Hpres)
    as [c Hc].
  exists c. eexists. eexists. eexists.
  split; [|split; [apply (unprioritised_first pktList outPort L c s f); assumption|]].
  - rewrite (RR_arbitrate_first pktList outPort L c s _ Hconn Hlen HL Hc). reflexivity.
  - destruct Hun as [Hprios Htbl].
    split; [split; [exact Hprios | reflexivity]|].
    split; [apply connected_set_lastport; exact Hconn|].
    cbn. rewrite getitem_nonneg by lia. apply list_lookup_insert_eq. lia.
Qed.

Lemma fixed_priority_without_priorities_is_round_robin_witness :
  exists w0,
    FixedPriorityCrossbar.new "xbar" 3 1 (connect_all ["up0"; "up1"; "up2"]) (Single "dn") None
      empty_sim = Ret tt w0 /\
    exists c s_rr s_fp f',
      RoundRobinCrossbar.arbitratePkts [None; Some (Packet 7 1 1); Some (Packet 8 1 1)] 0
        (empty_sim, FixedPriorityCrossbar.xbar (snd w0))
        = Ret (Some c) (s_rr, FixedPriorityCrossbar.xbar f') /\
      FixedPriorityCrossbar.arbitratePkts [None; Some (Packet 7 1 1); Some (Packet 8 1 1)] 0
        (empty_sim, snd w0) = Ret (Some c) (s_fp, f') /\
      unprioritised f' /\ connected (FixedPriorityCrossbar.xbar f') 0 /\
      getitem (lastport (FixedPriorityCrossbar.xbar f')) 0 = Some c.
Proof.
  eexists. split; [reflexivity|].
  apply (fixed_priority_without_priorities_is_round_robin
           [None; Some (Packet 7 1 1); Some (Packet 8 1 1)] 0 1 empty_sim).
  - split; [cbn; lia|]. split; [split; [cbn; lia | vm_compute; reflexivity]|].
    split; [cbn; lia|]. split; [cbn; lia | reflexivity].
  - split; reflexivity.
  - reflexivity.
  - lia.
  - eexists. reflexivity.
Defined.

(** With no candidate at any input the round-robin arbiter returns [None]
    and changes nothing, while the fixed-priority arbiter raises ValueError
    (the [max] of no priorities) after its DEBUG line, whatever its
    priorities are; its pointers stay as they were. *)
Theorem fixed_priority_raises_without_candidate pktList outPort prios s f :
  connected (FixedPriorityCrossbar.xbar f) outPort ->
  FixedPriorityCrossbar.priorities f = Some prios ->
  Z.of_nat (length pktList) = inPorts (FixedPriorityCrossbar.xbar f) ->
  (forall i, 0 <= i < inPorts (FixedPriorityCrossbar.xbar f) -> absent pktList i) ->
  RoundRobinCrossbar.arbitratePkts pktList outPort (s, FixedPriorityCrossbar.xbar f)
    = Ret None (s, FixedPriorityCrossbar.xbar f) /\
  FixedPriorityCrossbar.arbitratePkts pktList outPort (s, f)
    = Raise ValueError
        (MkSim (now s) (sched s) (eid s) (events s)
               (logs s ++ [LogEntry DEBUG (now s) (name (FixedPriorityCrossbar.xbar f))
                                    "Ports are unmasked for outPort"]), f).
Proof.
  intros Hconn Hprios Hlen Hnone. pose proof Hconn as (Hn & _ & _ & Ho & Hl).
  split.
  - destruct (lookup_lt_is_Some_2 (lastport (FixedPriorityCrossbar.xbar f)) (Z.to_nat outPort)
                ltac:(lia)) as [L HL].
    rewrite <- getitem_nonneg in HL by lia.
    exact (RR_arbitrate_nothing pktList outPort L s _ Hconn HL Hnone).
  - assert (Hactive : activeports pktList = []).
    { destruct (activeports pktList) as [|j l] eqn:E; [reflexivity|].
      assert (Hj : j ∈ activeports pktList) by (rewrite E; left).
      pose proof Hj as Hj'. apply activeports_elem in Hj' as [Hj0 [p Hp]].
      assert (Hjn : j < inPorts (FixedPriorityCrossbar.xbar f)).
      { rewrite <- Hlen. eapply getitem_Some_range; eassumption. }
      specialize (Hnone j ltac:(lia)). unfold absent in Hnone. rewrite Hp in Hnone.
      discriminate. }
    unfold FixedPriorityCrossbar.arbitratePkts. unfold bind at 1. unfold self. cbn [snd].
    rewrite (bind_Ret _ _ _ _ _ (FP_log_debug s f)).
    unfold bind at 1. unfold FixedPriorityCrossbar.the_priorities, bind, self. cbn [snd].
    rewrite Hprios. cbn [ret]. rewrite Hactive. reflexivity.
Qed.

Lemma fixed_priority_raises_without_candidate_witness :
  exists w0,
    FixedPriorityCrossbar.new "xbar" 2 1 (connect_all ["up0"; "up1"]) (Single "dn")
      (Some [1; 0]) empty_sim = Ret tt w0 /\
    RoundRobinCrossbar.arbitratePkts [None; None] 0
      (empty_sim, FixedPriorityCrossbar.xbar (snd w0))
      = Ret None (empty_sim, FixedPriorityCrossbar.xbar (snd w0)) /\
    raised (FixedPriorityCrossbar.arbitratePkts [None; None] 0 (empty_sim, snd w0))
      = Some ValueError.
Proof.
  eexists. split; [reflexivity|].
  destruct (fixed_priority_raises_without_candidate [None; None] 0 [1; 0] empty_sim
              (FixedPriorityCrossbar.FP
                 (init "xbar" 2 1 (connect_all ["up0"; "up1"]) (Single "dn"))
                 (Some [1; 0]) (Some 2) [[-1]; [-1]])) as [Hrr Hfp].
  - split; [cbn; lia|]. split; [split; [cbn; lia | vm_compute; reflexivity]|].
    split; [cbn; lia|]. split; [cbn; lia | reflexivity].
  - reflexivity.
  - reflexivity.
  - intros i Hi. cbn in Hi. assert (i = 0 \/ i = 1) as [->| ->] by lia; reflexivity.
  - split; [exact Hrr|]. exact (f_equal raised Hfp).
Defined.
Import Grants.

(** ** Weighted round-robin in service *)

Section WeightedScan.
Import WeightedRoundRobinCrossbar.
Variables (pktList : list (option packet)) (ws g0 : list Z) (L : Z) (s : sim) (w : wrr).
Hypothesis Hn : 1 <= inPorts (xbar w).
Hypothesis Hweights : weights w = Some ws.
Hypothesis Hlen : Z.of_nat (length pktList) = inPorts (xbar w).
Hypothesis Hws : Z.of_nat (length ws) = inPorts (xbar w).

Local Abbreviation n := (inPorts (xbar w)).
Local Abbreviation at_ k := ((L + Z.of_nat k) mod inPorts (xbar w)).
Local Abbreviation bounded g := (Forall2 (fun g wt => 0 <= g <= wt) g ws).

Lemma at_range (k : nat) : 0 <= at_ k < n.
Proof. apply Z.mod_pos_bound. lia. Qed.

Lemma at_next (k : nat) : (at_ k + 1) mod n = at_ (S k).
Proof. rewrite Zplus_mod_idemp_l. f_equal. lia. Qed.

Lemma at_inj (j k : nat) : Z.of_nat j < n -> Z.of_nat k < n -> at_ j = at_ k -> j = k.
Proof.
  intros Hj Hk H. apply (cyclic_injective L n (Z.of_nat j) (Z.of_nat k)) in H; lia.
Qed.

Lemma WRR_scan_absent (left : nat) c sel g :
  getitem pktList c = Some None ->
  scan (S left) pktList c sel (s, set_grants g w) =
  scan left pktList ((c + 1) mod n) sel (s, set_grants g w).
Proof.
  intros Hc. cbn [scan]. unfold bind at 1. unfold offered. rewrite Hc. cbn [ret].
  unfold bind at 1. unfold self. cbn [snd]. reflexivity.
Qed.

Lemma WRR_scan_present (left : nat) c p wt gr sel g :
  getitem pktList c = Some (Some p) ->
  getitem ws c = Some wt -> getitem g c = Some gr ->
  0 <= c < Z.of_nat (length g) ->
  scan (S left) pktList c sel (s, set_grants g w) =
  if gr <? wt then Ret (Some c) (s, set_grants g w)
  else scan left pktList ((c + 1) mod n)
         (match sel with None => Some c | Some c' => Some c' end)
         (s, set_grants (if gr =? wt then <[Z.to_nat c := 0]> g else g) w).
Proof.
  intros Hc Hwt Hgr Hrange. cbn [scan]. unfold bind at 1. unfold offered. rewrite Hc. cbn [ret].
  unfold bind at 1. unfold self. cbn [snd].
  unfold bind at 1. unfold the_weights, bind, self. cbn [snd set_grants weights].
  rewrite Hweights. cbn [ret]. unfold index. rewrite Hwt. cbn [ret].
  change (grants (set_grants g w)) with g. change (xbar (set_grants g w)) with (xbar w).
  rewrite Hgr. cbn [ret].
  destruct (Z.ltb_spec gr wt) as [Hlt|Hge].
  - destruct (Z.eqb_spec gr wt); [lia|]. reflexivity.
  - destruct (Z.eqb_spec gr wt) as [_|_].
    + unfold assign. rewrite setitem_nonneg by exact Hrange. cbn [ret].
      unfold update. cbn [fst snd set_grants xbar weights grants]. reflexivity.
    + reflexivity.
Qed.

Lemma WRR_scan_spec : forall (left k : nat) (g : list Z) (sel : option Z),
  (k + left)%nat = Z.to_nat n ->
  bounded g ->
  (forall j : nat, (k <= j)%nat -> Z.of_nat j < n -> getitem g (at_ j) = getitem g0 (at_ j)) ->
  (forall j : nat, (j < k)%nat -> ~ below pktList ws g0 (at_ j)) ->
  match sel with
  | None => forall j : nat, (j < k)%nat -> absent pktList (at_ j)
  | Some c => exists kc : nat, (kc < k)%nat /\ c = at_ kc /\ present pktList c /\
                (forall j : nat, (j < kc)%nat -> absent pktList (at_ j)) /\
                getitem g c = Some 0
  end ->
  exists r g',
    scan left pktList (at_ k) sel (s, set_grants g w) = Ret r (s, set_grants g' w) /\
    bounded g' /\
    ((exists c (kc : nat), r = Some c /\ Z.of_nat kc < n /\ c = at_ kc /\
        below pktList ws g0 c /\
        (forall j : nat, (j < kc)%nat -> ~ below pktList ws g0 (at_ j)) /\
        getitem g' c = getitem g0 c) \/
     ((forall j : nat, Z.of_nat j < n -> ~ below pktList ws g0 (at_ j)) /\
      match r with
      | None => forall j : nat, Z.of_nat j < n -> absent pktList (at_ j)
      | Some c => exists kc : nat, Z.of_nat kc < n /\ c = at_ kc /\ present pktList c /\
                    (forall j : nat, (j < kc)%nat -> absent pktList (at_ j)) /\
                    getitem g' c = Some 0
      end)).
Proof.
  induction left as [|left IH]; intros k g sel Hk Hb Hfresh Hnb Hsel.
  - exists sel, g. split; [reflexivity|]. split; [exact Hb|]. right.
    split; [intros j Hj; apply Hnb; lia|].
    destruct sel as [c|].
    + destruct Hsel as (kc & Hkc & Hc & Hrest). exists kc. split; [lia|]. split; assumption.
    + intros j Hj. apply Hsel. lia.
  - pose proof (at_range k) as Hr.
    assert (Hkn : Z.of_nat k < n) by lia.
    assert (Hglen : length g = length ws) by (eapply Forall2_length; exact Hb).
    destruct (lookup_lt_is_Some_2 pktList (Z.to_nat (at_ k)) ltac:(lia)) as [o Ho].
    rewrite <- getitem_nonneg in Ho by lia.
    destruct o as [p|].
    + destruct (lookup_lt_is_Some_2 ws (Z.to_nat (at_ k)) ltac:(lia)) as [wt Hwt].
      destruct (lookup_lt_is_Some_2 g (Z.to_nat (at_ k)) ltac:(lia)) as [gr Hgr].
      pose proof (Forall2_lookup_lr _ _ _ _ _ _ Hb Hgr Hwt) as Hgw. cbn beta in Hgw.
      rewrite <- getitem_nonneg in Hwt, Hgr by lia.
      rewrite (WRR_scan_present left (at_ k) p wt gr sel g Ho Hwt Hgr ltac:(lia)).
      destruct (Z.ltb_spec gr wt) as [Hlt|Hge].
      * exists (Some (at_ k)), g. split; [reflexivity|]. split; [exact Hb|]. left.
        exists (at_ k), k. split; [reflexivity|]. split; [exact Hkn|]. split; [reflexivity|].
        split; [|split; [exact Hnb | apply Hfresh; lia]].
        split; [exists p; exact Ho|]. exists gr, wt.
        rewrite <- (Hfresh k) by lia. auto.
      * assert (gr = wt) as -> by lia. rewrite Z.eqb_refl, at_next.
        assert (Hother : forall j : nat, j <> k -> Z.of_nat j < n ->
                  getitem (<[Z.to_nat (at_ k) := 0]> g) (at_ j) = getitem g (at_ j)).
        { intros j Hj Hjn. pose proof (at_range j).
          rewrite !getitem_nonneg by lia. apply list_lookup_insert_ne.
          intros E. apply Hj. symmetry. apply at_inj; lia. }
        apply IH.
        -- lia.
        -- rewrite getitem_nonneg in Hwt by lia.
           rewrite <- (list_insert_id ws (Z.to_nat (at_ k)) wt Hwt).
           apply Forall2_insert; [exact Hb | lia].
        -- intros j Hj Hjn. rewrite Hother by lia. apply Hfresh; lia.
        -- intros j Hj. destruct (Nat.eq_dec j k) as [->|]; [|apply Hnb; lia].
           intros (_ & g1 & w1 & Hg1 & Hw1 & Hlt).
           rewrite <- (Hfresh k) in Hg1 by lia. rewrite Hgr in Hg1. rewrite Hwt in Hw1.
           injection Hg1 as <-. injection Hw1 as <-. lia.
        -- destruct sel as [c|].
           ++ destruct Hsel as (kc & Hkc & Hc & Hp & Habs & Hz).
              exists kc. split; [lia|]. split; [exact Hc|]. split; [exact Hp|].
              split; [exact Habs|]. rewrite Hc, Hother by lia. rewrite <- Hc. exact Hz.
           ++ exists k. split; [lia|]. split; [reflexivity|]. split; [exists p; exact Ho|].
              split; [exact Hsel|]. rewrite getitem_nonneg by lia.
              apply list_lookup_insert_eq. lia.
    + rewrite (WRR_scan_absent left (at_ k) sel g Ho), at_next.
      apply IH.
      * lia.
      * exact Hb.
      * intros j Hj Hjn. apply Hfresh; lia.
      * intros j Hj. destruct (Nat.eq_dec j k) as [->|]; [|apply Hnb; lia].
        intros ([q Hq] & _). rewrite Ho in Hq. discriminate.
      * destruct sel as [c|].
        -- destruct Hsel as (kc & Hkc & Hrest). exists kc. split; [lia | exact Hrest].
        -- intros j Hj. destruct (Nat.eq_dec j k) as [->|]; [exact Ho | apply Hsel; lia].
Qed.

End WeightedScan.

Section WeightedGrant.
Import WeightedRoundRobinCrossbar.

Lemma WRR_grant pktList outPort c p gr s w g :
  connected (xbar w) outPort ->
  Z.of_nat (length pktList) = inPorts (xbar w) ->
  Z.of_nat (length g) = inPorts (xbar w) ->
  0 <= c < inPorts (xbar w) ->
  getitem pktList c = Some (Some p) ->
  getitem g c = Some gr ->
  (let* w := self in
   let* l := assign (lastport (xbar w)) outPort c in
   update (set_xbar (set_lastport l (xbar w))) >>
   let* w := self in
   let* gr := index (grants w) c in
   let* g := assign (grants w) c (gr + 1) in
   update (set_grants g) >>
   log_decision xbar "Weighted RoundRobin arbitration elected packet"
                (activeports pktList) pktList c outPort >>
   ret (Some c)) (s, set_grants g w) =
  Ret (Some c)
      (MkSim (now s) (sched s) (eid s) (events s)
             (logs s ++ [LogEntry INFO (now s) (name (xbar w))
                                  "Weighted RoundRobin arbitration elected packet"]),
       WRR (set_lastport (<[Z.to_nat outPort := c]> (lastport (xbar w))) (xbar w))
           (weights w) (<[Z.to_nat c := gr + 1]> g)).
Proof.
  intros Hconn Hlen Hg Hc Hp Hgr. pose proof Hconn as (Hn & Hup & Hdn & Ho & Hl).
  unfold bind at 1. unfold self. cbn [snd].
  unfold bind at 1. unfold assign. change (xbar (set_grants g w)) with (xbar w).
  rewrite setitem_nonneg by lia. cbn [ret].
  unfold bind at 1. unfold update. cbn [fst snd].
  unfold bind at 1. cbn [fst snd set_xbar set_grants grants weights xbar].
  unfold index. rewrite Hgr.
  unfold bind at 1. cbn [ret]. unfold bind at 1. rewrite setitem_nonneg by lia. cbn [ret].
  unfold bind at 1. cbn [fst snd set_grants xbar weights].
  unfold bind at 1.
  rewrite (log_decision_connected xbar _ _ pktList c outPort p).
  - reflexivity.
  - cbn. unfold connected. cbn. rewrite length_insert. auto.
  - exact Hc.
  - cbn. rewrite <- Hlen. apply activeports_range.
  - exact Hp.
Qed.

End WeightedGrant.

(** A weighted crossbar in service, called with a candidate at some input,
    grants an input and stays in service.  Scanning starts at the last
    served input itself: the grant goes to the first input from there that
    offers a candidate and is below its weight; when no input is below its
    weight, to the first input from there that offers a candidate.  The
    granted input becomes the last served, and every grant count stays
    between 0 and the weight of its input. *)
Theorem weighted_grant_goes_to_first_below_weight pktList outPort L ws i s w :
  within_weights w outPort ->
  getitem (lastport (WeightedRoundRobinCrossbar.xbar w)) outPort = Some L ->
  WeightedRoundRobinCrossbar.weights w = Some ws ->
  Z.of_nat (length pktList) = inPorts (WeightedRoundRobinCrossbar.xbar w) ->
  0 <= i -> present pktList i ->
  let n := inPorts (WeightedRoundRobinCrossbar.xbar w) in
  exists c w',
    WeightedRoundRobinCrossbar.arbitratePkts pktList outPort (s, w) = Ret (Some c) w' /\
    (first_below pktList ws (WeightedRoundRobinCrossbar.grants w) n L c \/
     (forall j, 0 <= j < n -> ~ below pktList ws (WeightedRoundRobinCrossbar.grants w) j) /\
     first_from pktList n L c) /\
    within_weights (snd w') outPort /\
    getitem (lastport (WeightedRoundRobinCrossbar.xbar (snd w'))) outPort = Some c.
Proof.
  intros (Hconn & (L' & HL' & HLr) & ws' & Hws' & Hwlen & Hw1 & Hb) HL Hws Hlen Hi [pi Hpi] n.
  rewrite HL in HL'. injection HL' as <-. rewrite Hws in Hws'. injection Hws' as <-.
  pose proof Hconn as (Hn & Hup & Hdn & Ho & Hl). fold n in Hn, Hlen, Hwlen, HLr.
  assert (Hin : i < n) by (rewrite <- Hlen; eapply getitem_Some_range; eassumption).
  assert (Hat0 : L = (L + Z.of_nat 0) mod n) by (rewrite Z.add_0_r, Z.mod_small; lia).
  destruct (WRR_scan_spec pktList ws (WeightedRoundRobinCrossbar.grants w) L s w
              Hn Hws Hlen Hwlen (Z.to_nat n) 0 (WeightedRoundRobinCrossbar.grants w) None)
    as (r & g' & Hscan & Hb' & Hcases).
  { lia. } { exact Hb. } { reflexivity. } { intros j Hj; lia. } { intros j Hj; lia. }
  fold n in Hscan, Hcases. rewrite <- Hat0 in Hscan.
  replace (WeightedRoundRobinCrossbar.set_grants (WeightedRoundRobinCrossbar.grants w) w)
    with w in Hscan by (destruct w; reflexivity).
  assert (Hg'len : Z.of_nat (length g') = n).
  { rewrite <- Hwlen. f_equal. eapply Forall2_length. exact Hb'. }
  (* the scan selected an input, with room for one more grant *)
  assert (Hsel : exists c p gr wt,
            r = Some c /\ 0 <= c < n /\ getitem pktList c = Some (Some p) /\
            getitem g' c = Some gr /\ getitem ws c = Some wt /\ 0 <= gr /\ gr + 1 <= wt /\
            (first_below pktList ws (WeightedRoundRobinCrossbar.grants w) n L c \/
             (forall j, 0 <= j < n ->
                ~ below pktList ws (WeightedRoundRobinCrossbar.grants w) j) /\
             first_from pktList n L c)).
  { destruct Hcases as [(c & kc & -> & Hkc & Hc & Hbelow & Hfirst & Hsame)|[Hnone Hr]].
    - pose proof Hbelow as ([p Hp] & gr & wt & Hgr & Hwt & Hlt).
      assert (Hcr : 0 <= c < n) by (rewrite Hc; apply Z.mod_pos_bound; lia).
      exists c, p, gr, wt. split; [reflexivity|]. split; [exact Hcr|]. split; [exact Hp|].
      split; [rewrite Hsame; exact Hgr|]. split; [exact Hwt|].
      rewrite !getitem_nonneg in Hgr, Hwt by lia.
      pose proof (Forall2_lookup_lr _ _ _ _ _ _ Hb Hgr Hwt) as Hgw. cbn beta in Hgw.
      split; [lia|]. split; [lia|]. left.
      exists (Z.of_nat kc). split; [lia|]. split; [exact Hc|]. split; [exact Hbelow|].
      intros j Hj. specialize (Hfirst (Z.to_nat j) ltac:(lia)).
      rewrite Z2Nat.id in Hfirst by lia. exact Hfirst.
    - assert (Hnone' : forall j, 0 <= j < n ->
                ~ below pktList ws (WeightedRoundRobinCrossbar.grants w) j).
      { intros j Hj. destruct (cyclic_surjective L n j Hj) as (k & Hk & Ek).
        specialize (Hnone (Z.to_nat k) ltac:(lia)). rewrite Z2Nat.id, Ek in Hnone by lia.
        exact Hnone. }
      destruct r as [c|].
      + destruct Hr as (kc & Hkc & Hc & [p Hp] & Habs & Hz).
        assert (Hcr : 0 <= c < n) by (rewrite Hc; apply Z.mod_pos_bound; lia).
        destruct (lookup_lt_is_Some_2 ws (Z.to_nat c) ltac:(lia)) as [wt Hwt].
        pose proof (proj1 (Forall_lookup _ _) Hw1 _ _ Hwt) as Hwt1. cbn beta in Hwt1.
        rewrite <- getitem_nonneg in Hwt by lia.
        exists c, p, 0, wt. split; [reflexivity|]. split; [exact Hcr|]. split; [exact Hp|].
        split; [exact Hz|]. split; [exact Hwt|]. split; [lia|]. split; [lia|]. right.
        split; [exact Hnone'|].
        exists (Z.of_nat kc). split; [lia|]. split; [exact Hc|]. split; [exists p; exact Hp|].
        intros j Hj. specialize (Habs (Z.to_nat j) ltac:(lia)).
        rewrite Z2Nat.id in Habs by lia. exact Habs.
      + exfalso. destruct (cyclic_surjective L n i ltac:(lia)) as (k & Hk & Ek).
        specialize (Hr (Z.to_nat k) ltac:(lia)). rewrite Z2Nat.id, Ek in Hr by lia.
        unfold absent in Hr. rewrite Hpi in Hr. discriminate. }
  destruct Hsel as (c & p & gr & wt & -> & Hcr & Hp & Hgr & Hwt & Hgr0 & Hgr1 & Hwhich).
  exists c. eexists. split; [|split; [exact Hwhich|]].
  - unfold WeightedRoundRobinCrossbar.arbitratePkts. unfold bind at 1. unfold self. cbn [snd].
    unfold bind at 1. unfold index. rewrite HL. cbn [ret].
    unfold bind at 1. fold n. rewrite Hscan.
    apply (WRR_grant pktList outPort c p gr s w g'); assumption.
  - cbn [snd WeightedRoundRobinCrossbar.xbar lastport set_lastport].
    assert (Hlast : getitem (<[Z.to_nat outPort := c]>
                               (lastport (WeightedRoundRobinCrossbar.xbar w))) outPort = Some c).
    { rewrite getitem_nonneg by lia. apply list_lookup_insert_eq. lia. }
    split; [|exact Hlast].
    split; [apply connected_set_lastport; exact Hconn|].
    split; [exists c; split; [exact Hlast | exact Hcr]|].
    exists ws. cbn. split; [exact Hws|]. split; [exact Hwlen|]. split; [exact Hw1|].
    rewrite getitem_nonneg in Hwt by lia.
    rewrite <- (list_insert_id ws (Z.to_nat c) wt Hwt).
    apply Forall2_insert; [exact Hb' | lia].
Qed.

Lemma weighted_grant_goes_to_first_below_weight_witness :
  let w := WeightedRoundRobinCrossbar.WRR
             (Crossbar "xbar" 2 1 (connect_all ["up0"; "up1"]) (Single "dn") [0])
             (Some [3; 1]) [3; 0] in
  exists c w',
    WeightedRoundRobinCrossbar.arbitratePkts scenario_C_packets 0 (empty_sim, w)
      = Ret (Some c) w' /\
    (first_below scenario_C_packets [3; 1] [3; 0] 2 0 c \/
     (forall j, 0 <= j < 2 -> ~ below scenario_C_packets [3; 1] [3; 0] j) /\
     first_from scenario_C_packets 2 0 c) /\
    within_weights (snd w') 0 /\
    getitem (lastport (WeightedRoundRobinCrossbar.xbar (snd w'))) 0 = Some c.
Proof.
  intros w.
  apply (weighted_grant_goes_to_first_below_weight scenario_C_packets 0 0 [3; 1] 0 empty_sim w).
  - split; [|split].
    + split; [cbn; lia|]. split; [split; [cbn; lia | vm_compute; reflexivity]|].
      split; [cbn; lia|]. split; [cbn; lia | reflexivity].
    + exists 0. split; [reflexivity | cbn; lia].
    + exists [3; 1]. split; [reflexivity|]. split; [reflexivity|].
      split; [repeat constructor; lia | repeat constructor; lia].
  - reflexivity.
  - reflexivity.
  - reflexivity.
  - lia.
  - eexists. reflexivity.
Defined.

(** A weighted crossbar, freshly built with a weight of at least 1 per
    input, enters service at its first call when the last input offers no
    candidate: the scan looks at index -1, the idle last input, and then at
    the inputs from 0 on, so the grant goes to the first input with a
    candidate, and the crossbar is left in service. *)
Theorem weighted_first_call_with_last_input_idle nm n outPorts up dn ws pktList outPort i s :
  wired n up -> wired outPorts dn -> 0 <= outPort < outPorts ->
  Z.of_nat (length ws) = n -> Forall (fun wt => 1 <= wt) ws ->
  Z.of_nat (length pktList) = n ->
  absent pktList (-1) -> 0 <= i -> present pktList i ->
  exists w0 c w',
    WeightedRoundRobinCrossbar.new nm n outPorts up dn ws s = Ret tt w0 /\
    WeightedRoundRobinCrossbar.arbitratePkts pktList outPort w0 = Ret (Some c) w' /\
    first_from pktList n 0 c /\
    within_weights (snd w') outPort /\
    getitem (lastport (WeightedRoundRobinCrossbar.xbar (snd w'))) outPort = Some c.
Proof.
  intros Hup Hdn Ho Hwlen Hw1 Hlen Hlast Hi [pi Hpi].
  assert (Hin : i < n) by (rewrite <- Hlen; eapply getitem_Some_range; eassumption).
  assert (Hn : 1 <= n) by lia.
  set (zeros := replicate (Z.to_nat n) 0).
  set (w := WeightedRoundRobinCrossbar.WRR (init nm n outPorts up dn) (Some ws) zeros).
  assert (Hconn : connected (WeightedRoundRobinCrossbar.xbar w) outPort).
  { unfold connected. cbn. rewrite length_replicate. repeat split; auto; lia. }
  assert (Hb : Forall2 (fun g wt => 0 <= g <= wt) zeros ws).
  { apply Forall2_same_length_lookup. split; [unfold zeros; rewrite length_replicate; lia|].
    intros k g wt Hg Hwt. apply lookup_replicate in Hg as [-> _].
    pose proof (proj1 (Forall_lookup _ _) Hw1 _ _ Hwt) as H1. cbn beta in H1. lia. }
  assert (Hzero : forall j, 0 <= j < n -> getitem zeros j = Some 0).
  { intros j Hj. rewrite getitem_nonneg by lia. apply lookup_replicate_2. lia. }
  (* an input in range with a candidate is below its weight *)
  assert (Hbelow : forall j, 0 <= j < n -> present pktList j -> below pktList ws zeros j).
  { intros j Hj Hp. split; [exact Hp|].
    destruct (lookup_lt_is_Some_2 ws (Z.to_nat j) ltac:(lia)) as [wt Hwt].
    pose proof (proj1 (Forall_lookup _ _) Hw1 _ _ Hwt) as H1. cbn beta in H1.
    exists 0, wt. rewrite Hzero, getitem_nonneg by lia. auto with lia. }
  assert (Hlast' : getitem pktList (n - 1) = Some None).
  { unfold absent in Hlast. rewrite getitem_last, last_lookup in Hlast.
    rewrite getitem_nonneg by lia. rewrite <- Hlast. f_equal. lia. }
  destruct (WRR_scan_spec pktList ws zeros (-1) s w Hn eq_refl Hlen Hwlen
              (Z.to_nat (n - 1)) 1 zeros None) as (r & g' & Hscan & Hb' & Hcases).
  { cbn [WeightedRoundRobinCrossbar.xbar init inPorts w]. lia. }
  { exact Hb. }
  { reflexivity. }
  { intros j Hj ([p Hp] & _). assert (j = 0%nat) as -> by lia.
    cbn [WeightedRoundRobinCrossbar.xbar init inPorts w] in Hp.
    replace ((-1 + Z.of_nat 0) mod n) with (n - 1) in Hp
      by (rewrite <- (Z_mod_plus_full _ 1), Z.mod_small; lia).
    rewrite Hlast' in Hp. discriminate. }
  { intros j Hj. assert (j = 0%nat) as -> by lia.
    cbn [WeightedRoundRobinCrossbar.xbar init inPorts w].
    replace ((-1 + Z.of_nat 0) mod n) with (n - 1)
      by (rewrite <- (Z_mod_plus_full _ 1), Z.mod_small; lia).
    exact Hlast'. }
  cbn [WeightedRoundRobinCrossbar.xbar init inPorts w] in Hscan, Hcases.
  fold w in Hscan.
  assert (Hg'len : Z.of_nat (length g') = n).
  { rewrite <- Hwlen. f_equal. eapply Forall2_length. exact Hb'. }
  assert (Hsel : exists c p,
            r = Some c /\ 0 <= c < n /\ getitem pktList c = Some (Some p) /\
            getitem g' c = Some 0 /\ first_from pktList n 0 c).
  { destruct Hcases as [(c & kc & -> & Hkc & Hc & Hbc & Hfirst & Hsame)|[Hnone _]].
    - pose proof Hbc as ([p Hp] & _).
      assert (Hcr : 0 <= c < n) by (rewrite Hc; apply Z.mod_pos_bound; lia).
      exists c, p. split; [reflexivity|]. split; [exact Hcr|]. split; [exact Hp|].
      split; [rewrite Hsame; apply Hzero; exact Hcr|].
      assert (Hkc1 : (1 <= kc)%nat).
      { destruct kc as [|kc]; [|lia]. exfalso.
        replace ((-1 + Z.of_nat 0) mod n) with (n - 1) in Hc
          by (rewrite <- (Z_mod_plus_full _ 1), Z.mod_small; lia).
        rewrite Hc, Hlast' in Hp. discriminate. }
      exists (Z.of_nat kc - 1). split; [lia|].
      split; [rewrite Hc; f_equal; lia|]. split; [exists p; exact Hp|].
      intros j Hj. specialize (Hfirst (Z.to_nat (j + 1)) ltac:(lia)).
      rewrite Z2Nat.id in Hfirst by lia.
      replace (-1 + (j + 1)) with (0 + j) in Hfirst by lia.
      pose proof (Z.mod_pos_bound (0 + j) n ltac:(lia)) as Hr.
      destruct (lookup_lt_is_Some_2 pktList (Z.to_nat ((0 + j) mod n)) ltac:(lia)) as [o Hlk].
      rewrite <- getitem_nonneg in Hlk by lia.
      destruct o as [q|]; [|exact Hlk].
      exfalso. apply Hfirst. apply Hbelow; [exact Hr | exists q; exact Hlk].
    - exfalso. destruct (cyclic_surjective (-1) n i ltac:(lia)) as (k & Hk & Ek).
      apply (Hnone (Z.to_nat k) ltac:(lia)). rewrite Z2Nat.id, Ek by lia.
      apply Hbelow; [lia | exists pi; exact Hpi]. }
  destruct Hsel as (c & p & -> & Hcr & Hp & Hgr & Hfirst).
  exists (s, w), c. eexists.
  split; [apply WRR_new; exact Hwlen|]. split; [|split; [exact Hfirst|]].
  - assert (Hm : Z.to_nat n = S (Z.to_nat (n - 1))) by lia.
    unfold WeightedRoundRobinCrossbar.arbitratePkts. unfold bind at 1. unfold self. cbn [snd].
    unfold bind at 1. unfold index.
    cbn [WeightedRoundRobinCrossbar.xbar init inPorts lastport w].
    rewrite getitem_nonneg, lookup_replicate_2 by lia. cbn [ret].
    unfold bind at 1. rewrite Hm.
    change (s, w) with (s, WeightedRoundRobinCrossbar.set_grants zeros w).
    rewrite (WRR_scan_absent pktList s w _ (-1) None zeros Hlast).
    cbn [WeightedRoundRobinCrossbar.xbar init inPorts w].
    fold w. change (-1 + 1) with (-1 + Z.of_nat 1). rewrite Hscan.
    apply (WRR_grant pktList outPort c p 0 s w g'); assumption.
  - cbn [snd WeightedRoundRobinCrossbar.xbar lastport set_lastport].
    assert (Hl : getitem (<[Z.to_nat outPort := c]>
                            (lastport (WeightedRoundRobinCrossbar.xbar w))) outPort = Some c).
    { rewrite getitem_nonneg by lia. apply list_lookup_insert_eq.
      cbn. rewrite length_replicate. lia. }
    split; [|exact Hl].
    split; [apply connected_set_lastport; exact Hconn|].
    split; [exists c; split; [exact Hl | exact Hcr]|].
    exists ws. cbn. split; [reflexivity|]. split; [exact Hwlen|]. split; [exact Hw1|].
    destruct (lookup_lt_is_Some_2 ws (Z.to_nat c) ltac:(lia)) as [wt Hwt].
    pose proof (proj1 (Forall_lookup _ _) Hw1 _ _ Hwt) as H1. cbn beta in H1.
    rewrite <- (list_insert_id ws (Z.to_nat c) wt Hwt).
    apply Forall2_insert; [exact Hb' | lia].
Qed.

Lemma weighted_first_call_with_last_input_idle_witness :
  exists w0 c w',
    WeightedRoundRobinCrossbar.new "xbar" 2 1 (connect_all ["up0"; "up1"]) (Single "dn") [3; 1]
      empty_sim = Ret tt w0 /\
    WeightedRoundRobinCrossbar.arbitratePkts [Some (Packet 0 1 1); None] 0 w0
      = Ret (Some c) w' /\
    first_from [Some (Packet 0 1 1); None] 2 0 c /\
    within_weights (snd w') 0 /\
    getitem (lastport (WeightedRoundRobinCrossbar.xbar (snd w'))) 0 = Some c.
Proof.
  apply (weighted_first_call_with_last_input_idle "xbar" 2 1 (connect_all ["up0"; "up1"])
           (Single "dn") [3; 1] [Some (Packet 0 1 1); None] 0 0 empty_sim).
  - split; [lia | vm_compute; reflexivity].
  - cbn. lia.
  - lia.
  - reflexivity.
  - repeat constructor; lia.
  - reflexivity.
  - reflexivity.
  - lia.
  - eexists. reflexivity.
Defined.

(** ** A put on a buffer somebody waits on *)

Section Handoff.
Import Buffers Effects Use BufferCases BufferRequests.

Lemma triggered_subscribed e e' cbs s : triggered e (subscribed e' cbs s) = triggered e s.
Proof.
  unfold triggered, subscribed. cbn. destruct (decide (e = e')) as [->|Hne].
  - rewrite list_lookup_alter_eq. destruct (events s !! e'); reflexivity.
  - rewrite list_lookup_alter_ne by congruence. reflexivity.
Qed.

(** [_do_put] on an empty buffer that takes items at once, with a request
    waiting in [get_queue]: the packet is inserted, [_trigger_get] hands it
    to the waiting get and takes it out again, and [_trigger_peek] finds the
    buffer empty. *)
Lemma do_put_handoff e g gq p s b :
  items b = [] -> 0 < capacity (cfg b) ->
  puts_at_once (cfg b) -> putBytesPerCycle (cfg b) <> 0 ->
  getBytesPerCycle (cfg b) <> 0 -> getDelay (cfg b) * simTicksPerCycle (cfg b) = 0 ->
  get_queue b = g :: gq ->
  (forall h, head (peek_queue b) = Some h -> pending h s /\ h <> g /\ h <> e) ->
  item_of e s = Some (PyPkt p) -> pending e s -> open e s ->
  pending g s -> open g s -> g <> e ->
  let d := (ceil_div (getBytes p) (putBytesPerCycle (cfg b)) + (putDebt b + 0))
           * simTicksPerCycle (cfg b) in
  let s' := resolved g (PyPkt p) 0
              (logged INFO (name (cfg b)) "Started reading packet from the buffer"
                 (subscribed g [CB_trigger_put; CB_updateTotalRdBits]
                    (logged INFO (name (cfg b)) "Started writing packet into the buffer"
                       (resolved e PyNone d (subscribed e [CB_updateTotalWrBits] s))))) in
  exists b',
    _do_put e (s, b) = Ret false (s', b') /\
    cfg b' = cfg b /\ put_queue b' = put_queue b /\ get_queue b' = gq /\
    peek_queue b' = peek_queue b /\ items b' = [].
Proof.
  intros Hitems Hcap Hnow Hbpc Hgbpc Hgd Hgq Hpk Hitem Hp Ho Hpg Hog Hge d.
  set (s1 := subscribed e [CB_updateTotalWrBits] s).
  set (s2 := resolved e PyNone d s1).
  set (s3 := logged INFO (name (cfg b)) "Started writing packet into the buffer" s2).
  set (b1 := set_items (items b ++ [PyPkt p]) b).
  assert (Hpg3 : pending g s3).
  { apply pending_logged, pending_resolved_other; [exact Hge|].
    apply pending_subscribed. exact Hpg. }
  assert (Hog3 : open g s3).
  { apply open_logged, open_resolved, open_subscribed. exact Hog. }
  assert (Hit1 : items b1 = PyPkt p :: []) by (cbn; rewrite Hitems; reflexivity).
  destruct (do_get_now g p [] s3 b1 Hit1 Hgd Hgbpc Hpg3 Hog3) as (b2 & Hget & Hst2 & Hit2).
  cbn [cfg b1 set_items] in Hget.
  set (s4 := resolved g (PyPkt p) 0 _) in Hget.
  set (b3 := set_get_queue gq b2).
  set (b4 := set_stat (fun st => Stats (totalWrBits st) (totalRdBits st) (now s4 + d)
                                       (firstActivity st)) b3).
  assert (Hbpc4 : putBytesPerCycle (cfg b4) <> 0).
  { cbn. destruct Hst2 as (-> & _). exact Hbpc. }
  destruct (updatePutDebt_steady p s4 b4 Hbpc4) as (b5 & Hdebt & Hst5 & Hit5).
  intros s'. eexists. split.
  - unfold _do_put. unfold bind at 1, self. cbn [fst snd].
    destruct (Z.ltb_spec (Z.of_nat (length (items b))) (capacity (cfg b))) as [_|Hge'];
      [|rewrite Hitems in Hge'; cbn in Hge'; lia].
    unfold bind at 1. unfold bind at 1.
    assert (He : exists ev, events s !! e = Some ev /\ ev_item ev = PyPkt p).
    { unfold item_of in Hitem. destruct (events s !! e) as [ev|]; [|discriminate].
      injection Hitem as Hitem. eauto. }
    destruct He as (ev & He & Hev).
    unfold in_env at 1, zoom. cbn [fst snd]. rewrite (lookup_event_Ret _ _ _ He). rewrite Hev.
    unfold bind at 1. rewrite (addPrePutDelay_at_once _ _ _ Hnow).
    unfold bind at 1. rewrite (addPostPutDelay_at_once _ _ _ Hnow Hbpc). fold d.
    unfold bind at 1. unfold in_env at 1, zoom. cbn [fst snd].
    rewrite (add_callbacks_subscribed _ _ _ Ho). fold s1.
    cbn [Z.eqb negb]. unfold bind at 1. unfold bind at 1. unfold bind at 1. unfold bind at 1.
    unfold in_env at 1, zoom. cbn [fst snd].
    rewrite succeed_resolved by (apply pending_subscribed; exact Hp). fold s2.
    rewrite (insert_packet_now e p);
      [|unfold s2, s1; rewrite item_of_resolved, item_of_subscribed; exact Hitem | exact Hbpc].
    fold s3 b1.
    rewrite trigger_get_as_scan. unfold _trigger_get_scan.
    assert (Hq1 : get_queue (snd (s3, b1)) = g :: gq) by exact Hgq.
    rewrite (scan_first_resolved (fun w => get_queue (snd w)) _ _ _ _ (s3, b1) g gq _ Hq1 Hget).
    2:{ cbn [snd]. destruct Hst2 as (_ & _ & -> & _). exact Hgq. }
    2:{ unfold is_triggered. cbn [fst]. apply triggered_resolved.
        rewrite length_events_logged, length_events_subscribed. apply pending_lt. exact Hpg3. }
    cbn [snd on_queue fst]. fold b3.
    assert (Hpeek : _trigger_peek (s4, b3) = Ret tt (s4, b3)).
    { destruct (peek_queue b3) as [|h q] eqn:Hq3; [apply trigger_peek_nobody; exact Hq3|].
      rewrite trigger_peek_as_scan. unfold _trigger_peek_scan.
      assert (Hq3' : peek_queue (snd (s4, b3)) = h :: q) by exact Hq3.
      rewrite (scan_first_pending (fun w => peek_queue (snd w)) _ _ _ _ (s4, b3) h q (s4, b3) Hq3').
      - reflexivity.
      - apply do_peek_empty. exact Hit2.
      - unfold is_triggered. cbn [fst]. apply pending_not_triggered.
        assert (Hh : head (peek_queue b) = Some h).
        { destruct Hst2 as (_ & _ & _ & Hpq). cbn in Hq3, Hpq. rewrite <- Hpq, Hq3. reflexivity. }
        destruct (Hpk h Hh) as (Hph & Hhg & Hhe).
        apply pending_resolved_other; [exact Hhg|].
        apply pending_logged, pending_subscribed, pending_logged.
        apply pending_resolved_other; [exact Hhe|]. apply pending_subscribed. exact Hph. }
    change (on_queue set_get_queue gq (s4, b2)) with (s4, b3). rewrite Hpeek.
    unfold bind at 1, the_env. cbn [fst snd].
    unfold bind at 1, update. cbn [fst snd]. fold b4.
    unfold bind at 1. rewrite Hdebt. reflexivity.
  - destruct Hst2 as (H1 & H2 & H3 & H4). destruct Hst5 as (H1' & H2' & H3' & H4').
    cbn in *. repeat split; congruence.
Qed.

End Handoff.



(** ** A get on a buffer a put waits on *)

Section Release.
Import Buffers Effects Use BufferCases BufferRequests.

Lemma triggered_logged e l nm msg s : triggered e (logged l nm msg s) = triggered e s.
Proof. reflexivity. Qed.

(** The event the environment pops when only [e] is scheduled, as [step]
    leaves it: processed, at the time it was scheduled for. *)
Lemma step_single (t : Z) (pr : Z) (k : nat) e ev cbs (s : sim) (b : buffer) :
  sched s = [(t, pr, k, e)] -> events s !! e = Some ev -> ev_callbacks ev = Some cbs ->
  BufferRun.step (s, b) =
  Scheduler.run_callbacks run_callback cbs e
    (MkSim t [] (eid s)
           (<[e := Event (ev_item ev) (ev_caller ev) (ev_value ev) (ev_ok ev) None]> (events s))
           (logs s), b).
Proof.
  intros Hs He Hcb. unfold BufferRun.step, Scheduler.step.
  unfold bind at 1, the_env. cbn [fst snd]. rewrite Hs. cbn [Scheduler.pop_min].
  unfold bind at 1, in_env at 1, zoom. cbn [fst snd]. rewrite (lookup_event_Ret _ _ _ He).
  unfold bind at 1, in_env at 1, zoom, modify. cbn [fst snd]. rewrite Hcb. reflexivity.
Qed.

End Release.



(** ** What [isFull] and [availableSlots] answer *)

(** On a buffer that takes items at once, whatever the processes and the
    environment did, [availableSlots] is not negative and [isFull], which
    tests the occupancy for equality with the capacity, answers False
    exactly when a slot is free, the condition on which [_do_put] accepts a
    request. *)
Theorem isFull_answers_whether_a_slot_is_free (l : list BufferRun.action) s b w' :
  Use.no_late_insert s -> Use.puts_at_once (Buffers.cfg b) ->
  Buffers.occupiedSlots b <= Buffers.capacity (Buffers.cfg b) ->
  BufferRun.run l (s, b) = Ret tt w' ->
  0 <= Buffers.availableSlots (snd w') <= Buffers.capacity (Buffers.cfg (snd w')) /\
  (Buffers.isFull (snd w') = false <->
   Z.of_nat (length (Buffers.items (snd w'))) < Buffers.capacity (Buffers.cfg (snd w'))) /\
  (Buffers.isFull (snd w') = true <-> Buffers.availableSlots (snd w') = 0) /\
  (Buffers.isEmpty (snd w') = true <->
   Buffers.availableSlots (snd w') = Buffers.capacity (Buffers.cfg (snd w'))).
Proof.
  intros HS Hnow Hocc Hrun.
  destruct (BufferWithin.safe_run l (s, b) tt w' (conj HS (conj Hocc Hnow)) Hrun)
    as [_ [Hocc' _]].
  pose proof (Buffer_occupied_nonneg (snd w')) as H0.
  unfold Buffers.isFull, Buffers.isEmpty, Buffers.availableSlots in *.
  unfold Buffers.occupiedSlots in *.
  destruct (Z.eqb_spec (Z.of_nat (length (Buffers.items (snd w'))))
              (Buffers.capacity (Buffers.cfg (snd w'))));
    destruct (Z.eqb_spec (Z.of_nat (length (Buffers.items (snd w')))) 0);
    repeat split; intros; try lia; try congruence.
Qed.

Lemma isFull_answers_whether_a_slot_is_free_witness :
  let c := Buffers.Config "buf" Buffers.Plain 1 0 0 16 16 1 in
  exists w',
    BufferRun.run Use.traffic (empty_sim, Buffers.init c) = Ret tt w' /\
    Buffers.isFull (snd w') = true /\
    (Buffers.isFull (snd w') = false <->
     Z.of_nat (length (Buffers.items (snd w'))) < Buffers.capacity (Buffers.cfg (snd w'))).
Proof.
  intros c.
  assert (Hrun : exists w', BufferRun.run Use.traffic (empty_sim, Buffers.init c) = Ret tt w' /\
                            Buffers.isFull (snd w') = true).
  { eexists. split; vm_compute; reflexivity. }
  destruct Hrun as (w' & Hrun & Hfull). exists w'. split; [exact Hrun|]. split; [exact Hfull|].
  apply (isFull_answers_whether_a_slot_is_free Use.traffic empty_sim (Buffers.init c) w').
  - intros e ev cbs He. discriminate He.
  - split; [reflexivity | discriminate].
  - vm_compute. discriminate.
  - exact Hrun.
Defined.

(** With a put delay the answers are not to be relied on: the buffer of
    capacity 1 that the delayed insertions filled with 2 items is not full
    for [isFull], and has -1 slots available. *)
Lemma isFull_on_an_overfilled_buffer :
  exists w,
    final (BufferRun.run Overfill.producer (empty_sim, Buffers.init Overfill.config)) = Some w /\
    Buffers.isFull (snd w) = false /\ Buffers.availableSlots (snd w) = -1.
Proof.
  eexists. split; [vm_compute; reflexivity|]. split; vm_compute; reflexivity.
Qed.
